(** * annoy-go: a read-only query engine for Annoy angular indexes

    A verification development over a shallow embedding of the Go
    sources: [utils.go] (priority queue, node decoder, dot product),
    [distance.go] (the [DistanceMetric] interface and its [Angular]
    instance) and [annoy.go] (index life cycle and the query engine).

    Conventions of the embedding
    - Go [int] and [int32] values are integers in [Z]; every conversion or
      operation of the source that can wrap is written with [int32] or
      [int64].
    - Go [float32] and [float64] values are [spec_float]s of the Standard
      Library, computed with the IEEE-754 operations of [SpecFloat] at
      precision 24 (binary32) and 53 (binary64).  NaN payloads are not
      tracked and products are not fused with sums.
    - A run-time panic of the Go program (slice or index out of range,
      [make] with a negative length) is [None].
    - A slice that is [nil] is told apart from an empty one where the source
      tests it ([Node.V], [AnnoyIndex.nodes], [AnnoyIndex.mmap]). *)

From Stdlib Require Import ZArith List Bool Lia Permutation Sorted SpecFloat.
From Stdlib.Strings Require Import Byte.
From Stdlib.Strings Require String.
From stdpp Require Import base option list gmap.

Local Open Scope Z_scope.

(* ===================================================================== *)
(** * Machine integers *)
(* ===================================================================== *)

Module MachineInt.

(** Two's complement wrap-around to [w] bits, signed. *)
Definition wrap (w : Z) (z : Z) : Z :=
  (z + 2 ^ (w - 1)) mod 2 ^ w - 2 ^ (w - 1).

Definition int32 (z : Z) : Z := wrap 32 z.
Definition int64 (z : Z) : Z := wrap 64 z.

Definition in_int32 (z : Z) : Prop := - 2 ^ 31 <= z < 2 ^ 31.

End MachineInt.
Export MachineInt.

(* ===================================================================== *)
(** * Floating point: binary32 and binary64 *)
(* ===================================================================== *)

Module F32.
Definition prec : Z := 24.
Definition emax : Z := 128.

Definition t : Type := spec_float.

Definition zero : t := S754_zero false.
Definition two : t := S754_finite false 8388608 (-22).
Definition inf : t := S754_infinity false.

Definition add : t -> t -> t := SFadd prec emax.
Definition sub : t -> t -> t := SFsub prec emax.
Definition mul : t -> t -> t := SFmul prec emax.
Definition div : t -> t -> t := SFdiv prec emax.
Definition neg : t -> t := SFopp.
Definition eqb : t -> t -> bool := SFeqb.
Definition ltb : t -> t -> bool := SFltb.
Definition gtb (x y : t) : bool := SFltb y x.

Definition is_nan (x : t) : bool :=
  match x with S754_nan => true | _ => false end.
End F32.

Module F64.
Definition prec : Z := 53.
Definition emax : Z := 1024.

Definition t : Type := spec_float.

Definition zero : t := S754_zero false.

Definition sqrt : t -> t := SFsqrt prec emax.
Definition ltb : t -> t -> bool := SFltb.

(** Go's [math.Max], with its special cases:
    [Max(x, +Inf) = Max(+Inf, x) = +Inf], [Max(x, NaN) = Max(NaN, x) = NaN],
    [Max(+0, ±0) = Max(±0, +0) = +0], [Max(-0, -0) = -0]. *)
Definition max (x y : t) : t :=
  match x, y with
  | S754_infinity false, _ | _, S754_infinity false => S754_infinity false
  | S754_nan, _ | _, S754_nan => S754_nan
  | S754_zero sx, S754_zero sy => S754_zero (sx && sy)
  | _, _ => if SFltb y x then x else y
  end.

(** Go's [math.Min], with its special cases:
    [Min(x, -Inf) = Min(-Inf, x) = -Inf], [Min(x, NaN) = Min(NaN, x) = NaN],
    [Min(-0, ±0) = Min(±0, -0) = -0]. *)
Definition min (x y : t) : t :=
  match x, y with
  | S754_infinity true, _ | _, S754_infinity true => S754_infinity true
  | S754_nan, _ | _, S754_nan => S754_nan
  | S754_zero sx, S754_zero sy => S754_zero (sx || sy)
  | _, _ => if SFltb x y then x else y
  end.
End F64.

(** The conversions [float64(x)] (exact) and [float32(y)] (rounding to
    nearest, ties to even). *)
Definition to_f64 (x : F32.t) : F64.t :=
  match x with
  | S754_finite s m e => binary_round F64.prec F64.emax s m e
  | _ => x
  end.

Definition to_f32 (y : F64.t) : F32.t :=
  match y with
  | S754_finite s m e => binary_round F32.prec F32.emax s m e
  | _ => y
  end.

(** [math.Float32frombits]: the binary32 value of a 32-bit pattern. *)
Definition Float32frombits (w : Z) : F32.t :=
  let s := Z.testbit w 31 in
  let e := Z.land (Z.shiftr w 23) 255 in
  let m := Z.land w 8388607 in
  if e =? 255 then
    if m =? 0 then S754_infinity s else S754_nan
  else if e =? 0 then
    match m with
    | Zpos p => S754_finite s p (-149)
    | _ => S754_zero s
    end
  else
    match m + 8388608 with
    | Zpos p => S754_finite s p (e - 150)
    | _ => S754_nan
    end.

(* ===================================================================== *)
(** * utils.go: byte access and the node decoder *)
(* ===================================================================== *)

(** [distance.go]: [type Node struct].  [V] is [None] for a nil slice. *)
Record Node : Type := mkNode {
  Descendants : Z;
  Children : list Z;
  Norm : F32.t;
  V : option (list F32.t)
}.

(** [Node{}], the zero value. *)
Definition Node_zero : Node :=
  {| Descendants := 0; Children := []; Norm := F32.zero; V := None |}.

Definition u8 (b : byte) : Z := Z.of_N (Byte.to_N b).

(** The slice expression [b[lo:hi]] on a slice whose capacity is its
    length; out of range panics. *)
Definition slice {A : Type} (b : list A) (lo hi : Z) : option (list A) :=
  if (0 <=? lo) && (lo <=? hi) && (hi <=? Z.of_nat (length b))
  then Some (firstn (Z.to_nat (hi - lo)) (skipn (Z.to_nat lo) b))
  else None.

(** [binary.LittleEndian.Uint32]. *)
Definition Uint32 (b : list byte) : option Z :=
  match b with
  | b0 :: b1 :: b2 :: b3 :: _ =>
      Some (Z.lor (Z.lor (Z.lor (u8 b0) (Z.shiftl (u8 b1) 8))
                         (Z.shiftl (u8 b2) 16))
                  (Z.shiftl (u8 b3) 24))
  | _ => None
  end.

(** The loop [for j := 0; j < n; j++ { out[j] = conv(Uint32(nodes[base+4*j : base+4+4*j])) }],
    started at index [j]. *)
Fixpoint read_words {A : Type} (conv : Z -> A) (nodes : list byte)
    (base : Z) (j : Z) (n : nat) : option (list A) :=
  match n with
  | O => Some []
  | S n' =>
      b ← slice nodes (base + 4 * j) (base + 4 + 4 * j);
      w ← Uint32 b;
      rest ← read_words conv nodes base (j + 1) n';
      Some (conv w :: rest)
  end.

(** [make([]T, n)]: panics on a negative length. *)
Definition make_len (n : Z) : option nat :=
  if n <? 0 then None else Some (Z.to_nat n).

(** [func GetNodePtr(nodes []byte, size int, i int32) *Node]. *)
Definition GetNodePtr (nodes : list byte) (size : Z) (i : Z) : option Node :=
  let arrSize := Z.quot (size - 12) 4 in
  b ← slice nodes (size * i) (size * i + 4);
  w ← Uint32 b;
  let descendants := int32 w in
  if (2 <? descendants) && (descendants <=? int32 (int32 arrSize + 2)) then
    n ← make_len (arrSize + 2);
    children ← read_words int32 nodes (size * i + 4) 0 n;
    Some {| Descendants := descendants; Children := children;
            Norm := F32.zero; V := None |}
  else
    children ← read_words int32 nodes (size * i + 4) 0 2;
    n ← make_len arrSize;
    v ← read_words Float32frombits nodes (size * i + 12) 0 n;
    Some {| Descendants := descendants; Children := children;
            Norm := F32.zero; V := Some v |}.

(** [func Dot(x, y []float32, f int) float32]: the accumulation loop from
    index [z]; an index past either slice panics. *)
Fixpoint Dot_from (x y : list F32.t) (z : nat) (n : nat) (s : F32.t)
    : option F32.t :=
  match n with
  | O => Some s
  | S n' =>
      a ← x !! z;
      b ← y !! z;
      Dot_from x y (S z) n' (F32.add s (F32.mul a b))
  end.

Definition Dot (x y : list F32.t) (f : Z) : option F32.t :=
  Dot_from x y 0 (Z.to_nat f) F32.zero.

(** [nd.V[:]]: slicing a nil slice gives a nil slice, of length 0. *)
Definition V_all (nd : Node) : list F32.t := default [] (V nd).

(* ===================================================================== *)
(** * utils.go: the priority queue and Go's container/heap over it *)
(* ===================================================================== *)

Record Pair : Type := mkPair { first : F32.t; second : Z }.

(** [Pair{}], the zero value. *)
Definition Pair_zero : Pair := {| first := F32.zero; second := 0 |}.

Module PQ.
Local Open Scope nat_scope.

(** [type PriorityQueue []*Pair] *)
Abbreviation t := (list Pair) (only parsing).

(** The comparison inside [Less]: larger [first] goes first, and on equal
    [first] the larger [second]. *)
Definition less (a b : Pair) : bool :=
  if F32.eqb (first a) (first b) then (second b <? second a)%Z
  else F32.gtb (first a) (first b).

Definition Len (pq : t) : nat := length pq.

Definition Less (pq : t) (i j : nat) : option bool :=
  a ← pq !! i; b ← pq !! j; Some (less a b).

Definition Swap (pq : t) (i j : nat) : option t :=
  a ← pq !! i; b ← pq !! j; Some (<[i := b]> (<[j := a]> pq)).

Definition Push (pq : t) (x : Pair) : t := pq ++ [x].

Definition Pop (pq : t) : option (Pair * t) :=
  item ← last pq; Some (item, removelast pq).

(** [Top]: the element at index 0; an empty queue panics. *)
Definition Top (pq : t) : option Pair := pq !! 0.

(** [heap.up]: [j] moves to its parent on every turn, so [S j] turns are
    enough; [fuel] only makes the recursion structural. *)
Fixpoint up (fuel : nat) (h : t) (j : nat) : option t :=
  match fuel with
  | O => Some h
  | S fuel' =>
      let i := (j - 1) / 2 in
      if i =? j then Some h
      else
        lt ← Less h j i;
        if negb lt then Some h
        else h' ← Swap h i j; up fuel' h' i
  end.

(** [heap.down]: [i] moves to a child on every turn, so [n] turns are
    enough. *)
Fixpoint down (fuel : nat) (h : t) (i n : nat) : option t :=
  match fuel with
  | O => Some h
  | S fuel' =>
      let j1 := 2 * i + 1 in
      if n <=? j1 then Some h
      else
        let j2 := j1 + 1 in
        lt21 ← ((if j2 <? n then Less h j2 j1 else Some false) : option bool);
        let j := if (lt21 : bool) then j2 else j1 in
        lt ← Less h j i;
        if negb lt then Some h
        else h' ← Swap h i j; down fuel' h' j n
  end.

(** [heap.Init]: [down] from index [n/2 - 1] to [0]; [cnt] indices are
    left. *)
Fixpoint heap_Init_from (h : t) (cnt n : nat) : option t :=
  match cnt with
  | O => Some h
  | S c => h' ← down n h c n; heap_Init_from h' c n
  end.

Definition heap_Init (h : t) : option t :=
  heap_Init_from h (Len h / 2) (Len h).

(** [heap.Push] *)
Definition heap_Push (h : t) (x : Pair) : option t :=
  let h' := Push h x in
  up (Len h') h' (Len h' - 1).

(** [heap.Pop]; an empty heap panics in [Swap]. *)
Definition heap_Pop (h : t) : option (Pair * t) :=
  match Len h with
  | O => None
  | S n =>
      h1 ← Swap h 0 n;
      h2 ← down n h1 0 n;
      Pop h2
  end.
End PQ.

(* ===================================================================== *)
(** * distance.go: the metric interface and the angular metric *)
(* ===================================================================== *)

(** [type DistanceMetric interface]; the receiver is the first argument. *)
Class DistanceMetric (D : Type) : Type := {
  Distance : D -> Node -> Node -> Z -> option F32.t;
  NormalizeDistance : D -> F32.t -> F32.t;
  InitNode : D -> Node -> Z -> option Node;
  Margin : D -> Node -> list F32.t -> Z -> option F32.t;
  PQDistance : D -> F32.t -> F32.t -> Z -> F32.t
}.

(** [type Angular struct{}] *)
Inductive Angular : Type := Angular_value.

Module AngularImpl.

(** The cached squared norm, or the dot product when the cache is 0:
    [pp := x.Norm; if pp == 0 { pp = Dot(x.V[:], x.V[:], f) }]. *)
Definition norm_or_dot (x : Node) (f : Z) : option F32.t :=
  let pp := Norm x in
  if F32.eqb pp F32.zero then Dot (V_all x) (V_all x) f else Some pp.

Definition Distance (a : Angular) (x y : Node) (f : Z) : option F32.t :=
  pp ← norm_or_dot x f;
  qq ← norm_or_dot y f;
  let ppqq := F32.mul pp qq in
  if F32.gtb ppqq F32.zero then
    pq ← Dot (V_all x) (V_all y) f;
    Some (F32.sub F32.two
            (F32.div (F32.mul F32.two pq) (to_f32 (F64.sqrt (to_f64 ppqq)))))
  else Some F32.two.

Definition NormalizeDistance (a : Angular) (distance : F32.t) : F32.t :=
  to_f32 (F64.sqrt (F64.max (to_f64 distance) F64.zero)).

Definition InitNode (a : Angular) (node : Node) (f : Z) : option Node :=
  n ← Dot (V_all node) (V_all node) f;
  Some {| Descendants := Descendants node; Children := Children node;
          Norm := n; V := V node |}.

Definition Margin (a : Angular) (n : Node) (y : list F32.t) (f : Z)
    : option F32.t :=
  Dot (V_all n) y f.

Definition PQDistance (a : Angular) (distance margin : F32.t) (childNr : Z)
    : F32.t :=
  let margin := if childNr =? 0 then F32.neg margin else margin in
  to_f32 (F64.min (to_f64 distance) (to_f64 margin)).

End AngularImpl.

#[export] Instance Angular_DistanceMetric : DistanceMetric Angular := {|
  Distance := AngularImpl.Distance;
  NormalizeDistance := AngularImpl.NormalizeDistance;
  InitNode := AngularImpl.InitNode;
  Margin := AngularImpl.Margin;
  PQDistance := AngularImpl.PQDistance
|}.

(* ===================================================================== *)
(** * What the Go runtime and library leave open *)
(* ===================================================================== *)

Module GoRuntime.

(** [for j := range m] over the key set built from [nns]: every key once,
    in an order the language does not fix. *)
Definition map_range (nns keys : list Z) : Prop :=
  NoDup keys ∧ ∀ j, j ∈ keys ↔ j ∈ nns.

(** The requirement of [sort.Interface] on [Less]: if [Less(i, j)] and
    [Less(j, k)] then [Less(i, k)], and if neither [Less(i, j)] nor
    [Less(j, k)] then not [Less(i, k)]. *)
Definition transitive_ordering {A : Type} (less : A → A → bool)
    (l : list A) : Prop :=
  ∀ a b c, a ∈ l → b ∈ l → c ∈ l →
    (less a b = true → less b c = true → less a c = true) ∧
    (less a b = false → less b c = false → less a c = false).

(** No later element is less than an earlier one. *)
Definition sorted_by {A : Type} (less : A → A → bool) (l : list A) : Prop :=
  ∀ (i j : nat) a b, (i < j)%nat → l !! i = Some a → l !! j = Some b →
    less b a = false.

(** [sort.Slice(x, less)]: the elements are only exchanged; the outcome is
    sorted when [less] meets the requirement; equal elements may come in
    any order (the sort is not stable). *)
Definition sort_Slice {A : Type} (less : A → A → bool) (l l' : list A)
    : Prop :=
  l ≡ₚ l' ∧ (transitive_ordering less l → sorted_by less l').

End GoRuntime.

(* ===================================================================== *)
(** * annoy.go: the index *)
(* ===================================================================== *)

(** What [os.OpenFile] hands back: the bytes of the file, and which of the
    later system calls on it fail. *)
Record OsFile : Type := mkOsFile {
  file_bytes : list byte;
  stat_fails : bool;
  read_fails : bool;
  map_fails : bool;
  unmap_fails : bool;
  close_fails : bool
}.

(** The files that can be opened, by name. *)
Definition FileSystem : Type := String.string → option OsFile.

(** The errors [Load] and [Unload] return, by their message. *)
Inductive error : Type :=
| UnableToOpen
| UnableToGetSize
| SizeOfFileIsZero
| IndexSizeNotMultiple
| UnableToRead
| UnableToMmap
| ErrorUnmapping
| ErrorClosing.

(** How a loop bounded by [fuel] ends. *)
Inductive outcome (A : Type) : Type :=
| Returned (a : A)
| Panicked
| OutOfFuel.
Arguments Returned {A} a.
Arguments Panicked {A}.
Arguments OutOfFuel {A}.

Module Annoy.
Section WithMetric.
Context {D : Type} `{DistanceMetric D}.

(** [type AnnoyIndex[D DistanceMetric] struct] *)
Record AnnoyIndex : Type := mkIndex {
  distance : D;
  f : Z;
  s : Z;
  nItems : Z;
  nodes : option (list byte);
  nNodes : Z;
  roots : list Z;
  k : Z;
  fd : option OsFile;
  mmap : option (list byte);
  cache : gmap Z Node
}.

Definition set_fd (index : AnnoyIndex) (x : option OsFile) : AnnoyIndex :=
  mkIndex (distance index) (f index) (s index) (nItems index) (nodes index)
    (nNodes index) (roots index) (k index) x (mmap index) (cache index).
Definition set_nodes (index : AnnoyIndex) (x : option (list byte)) : AnnoyIndex :=
  mkIndex (distance index) (f index) (s index) (nItems index) x
    (nNodes index) (roots index) (k index) (fd index) (mmap index) (cache index).
Definition set_nItems (index : AnnoyIndex) (x : Z) : AnnoyIndex :=
  mkIndex (distance index) (f index) (s index) x (nodes index)
    (nNodes index) (roots index) (k index) (fd index) (mmap index) (cache index).
Definition set_nNodes (index : AnnoyIndex) (x : Z) : AnnoyIndex :=
  mkIndex (distance index) (f index) (s index) (nItems index) (nodes index)
    x (roots index) (k index) (fd index) (mmap index) (cache index).
Definition set_roots (index : AnnoyIndex) (x : list Z) : AnnoyIndex :=
  mkIndex (distance index) (f index) (s index) (nItems index) (nodes index)
    (nNodes index) x (k index) (fd index) (mmap index) (cache index).
Definition set_mmap (index : AnnoyIndex) (x : option (list byte)) : AnnoyIndex :=
  mkIndex (distance index) (f index) (s index) (nItems index) (nodes index)
    (nNodes index) (roots index) (k index) (fd index) x (cache index).
Definition set_cache (index : AnnoyIndex) (x : gmap Z Node) : AnnoyIndex :=
  mkIndex (distance index) (f index) (s index) (nItems index) (nodes index)
    (nNodes index) (roots index) (k index) (fd index) (mmap index) x.

(** [func (index *AnnoyIndex[D]) reinitialize()] *)
Definition reinitialize (index : AnnoyIndex) : AnnoyIndex :=
  set_roots (set_nNodes (set_nItems (set_nodes (set_fd index None) None) 0) 0) [].

(** [func NewAnnoyIndex[D DistanceMetric](f int) *AnnoyIndex[D]];
    [d] is the zero value of [D]. *)
Definition NewAnnoyIndex (d : D) (f0 : Z) : AnnoyIndex :=
  let s0 := 12 + f0 * 4 in
  reinitialize
    {| distance := d; f := f0; s := s0; nItems := 0; nodes := None;
       nNodes := 0; roots := []; k := int32 (Z.quot (s0 - 4) 4);
       fd := None; mmap := None; cache := ∅ |}.

(** [func (index *AnnoyIndex[D]) Unload() error].  [index.mmap.Unmap()] has
    a pointer receiver and sets the mapping to nil whether or not the
    unmapping succeeds ([err := m.unmap(); *m = nil; return err]). *)
Definition Unload (index : AnnoyIndex) : option error * AnnoyIndex :=
  match fd index with
  | Some file =>
      let '(unmap_err, index1) :=
        match mmap index with
        | Some _ => (unmap_fails file, set_mmap index None)
        | None => (false, index)
        end in
      if unmap_err then (Some ErrorUnmapping, index1)
      else if close_fails file then (Some ErrorClosing, index1)
      else (None, reinitialize index1)
  | None =>
      let index1 :=
        match nodes index with
        | Some _ => set_nodes index None
        | None => index
        end in
      (None, reinitialize index1)
  end.

(** The bytes [index.nodes] gives access to; none when it is nil. *)
Definition nodes_bytes (index : AnnoyIndex) : list byte :=
  default [] (nodes index).

(** [func (index *AnnoyIndex[D]) getNode(i int32) *Node].  The node stored
    in the cache is the one [InitNode] then writes its norm to. *)
Definition getNode (index : AnnoyIndex) (i : Z) : option (Node * AnnoyIndex) :=
  match mmap index with
  | Some _ =>
      node ← GetNodePtr (nodes_bytes index) (s index) i;
      Some (node, index)
  | None =>
      match cache index !! i with
      | Some node => Some (node, index)
      | None =>
          node ← GetNodePtr (nodes_bytes index) (s index) i;
          match V node with
          | Some _ =>
              node' ← InitNode (distance index) node (f index);
              Some (node', set_cache index (<[i := node']> (cache index)))
          | None =>
              Some (node, set_cache index (<[i := node]> (cache index)))
          end
      end
  end.

(** The root scan of [Load]:
    [for i := index.nNodes - 1; i >= 0; i-- { ... }], with [cnt] indices
    left to visit from [i] down. *)
Fixpoint scan_roots (index : AnnoyIndex) (cnt : nat) (i : Z) (m : Z)
    : option (Z * AnnoyIndex) :=
  match cnt with
  | O => Some (m, index)
  | S cnt' =>
      '(node, index1) ← getNode index i;
      let k0 := Descendants node in
      if (m =? -1) || (k0 =? m) then
        scan_roots (set_roots index1 (roots index1 ++ [i])) cnt' (i - 1) k0
      else Some (m, index1)
  end.

(** The step after the scan: drop the last root when it has the same
    first child as the first root. *)
Definition drop_duplicate_root (index : AnnoyIndex) : option AnnoyIndex :=
  if (1 <? Z.of_nat (length (roots index))) then
    r0 ← roots index !! 0%nat;
    '(n0, index1) ← getNode index r0;
    c0 ← Children n0 !! 0%nat;
    rl ← roots index1 !! (length (roots index1) - 1)%nat;
    '(nl, index2) ← getNode index1 rl;
    cl ← Children nl !! 0%nat;
    if c0 =? cl then
      Some (set_roots index2
              (firstn (length (roots index2) - 1) (roots index2)))
    else Some index2
  else Some index.

(** [func (index *AnnoyIndex[D]) Load(filename string, memory bool) error].
    [None] is a panic; otherwise the returned error, if any, and the index
    as the call leaves it. *)
Definition Load (fsys : FileSystem) (index : AnnoyIndex) (filename : String.string)
    (memory : bool) : option (option error * AnnoyIndex) :=
  match fsys filename with
  | None => Some (Some UnableToOpen, index)
  | Some file =>
      let index := set_fd index (Some file) in
      if stat_fails file then Some (Some UnableToGetSize, index)
      else
        let size := Z.of_nat (length (file_bytes file)) in
        if size =? 0 then Some (Some SizeOfFileIsZero, index)
        else if s index =? 0 then None
        else if negb (Z.rem size (s index) =? 0) then
          Some (Some IndexSizeNotMultiple, index)
        else
          let loaded :=
            if memory then
              let index := set_mmap index None in
              if read_fails file then inr (UnableToRead, index)
              else inl (set_nodes index (Some (file_bytes file)))
            else
              if map_fails file then inr (UnableToMmap, set_mmap index None)
              else
                inl (set_nodes (set_mmap index (Some (file_bytes file)))
                       (Some (file_bytes file))) in
          match loaded with
          | inr (e, index) => Some (Some e, index)
          | inl index =>
              let index := set_nNodes index (int32 (Z.quot size (s index))) in
              let index := set_roots index [] in
              let start := int32 (nNodes index - 1) in
              '(m, index) ← scan_roots index (Z.to_nat (start + 1)) start (-1);
              index ← drop_duplicate_root index;
              Some (None, set_nItems index m)
          end
  end.


(** [GetDistance] *)
Definition GetDistance (index : AnnoyIndex) (i j : Z)
    : option (F32.t * AnnoyIndex) :=
  '(ni, index1) ← getNode index i;
  '(nj, index2) ← getNode index1 j;
  d ← Distance (distance index) ni nj (f index);
  Some (NormalizeDistance (distance index) d, index2).

(** [GetItem]: [m.V[:index.f]] panics when [m.V] is shorter than [f]. *)
Definition GetItem (index : AnnoyIndex) (item : Z)
    : option (list F32.t * AnnoyIndex) :=
  '(m, index1) ← getNode index item;
  n ← make_len (f index);
  v ← slice (V_all m) 0 (f index);
  Some (v, index1).


(** ** The query engine: [getAllNns] *)

(** [vNode := &Node{V: make([]float32, index.f)}; copy(vNode.V, v)]:
    the first [f] entries of [v], filled up with zeros. *)
Definition query_node (index : AnnoyIndex) (v : list F32.t) : option Node :=
  n ← make_len (f index);
  Some {| Descendants := 0; Children := []; Norm := F32.zero;
          V := Some (firstn n v ++ replicate (n - length v)%nat F32.zero) |}.

(** [if searchK == -1 { searchK = n * len(index.roots) }] *)
Definition effective_searchK (index : AnnoyIndex) (n searchK : Z) : Z :=
  if searchK =? -1 then int64 (n * Z.of_nat (length (roots index)))
  else searchK.

(** [for _, root := range index.roots { heap.Push(pq, &Pair{+Inf, root}) }] *)
Fixpoint push_roots (pq : PQ.t) (rs : list Z) : option PQ.t :=
  match rs with
  | [] => Some pq
  | root :: rs' =>
      pq' ← PQ.heap_Push pq {| first := F32.inf; second := root |};
      push_roots pq' rs'
  end.

(** The state of the search loop. *)
Record search_state : Type := mkSearch {
  st_index : AnnoyIndex;
  st_pq : PQ.t;
  st_nns : list Z
}.

(** The loop condition [len(nns) < searchK && pq.Len() > 0]. *)
Definition search_continues (searchK : Z) (st : search_state) : bool :=
  (Z.of_nat (length (st_nns st)) <? searchK) &&
  (0 <? Z.of_nat (PQ.Len (st_pq st))).

(** One turn of the loop body. *)
Definition search_step (v : list F32.t) (st : search_state)
    : option search_state :=
  let index := st_index st in
  '(top, pq) ← PQ.heap_Pop (st_pq st);
  let d := first top in
  let i := second top in
  '(nd, index) ← getNode index i;
  if (Descendants nd =? 1) && (i <? nItems index) then
    Some (mkSearch index pq (st_nns st ++ [i]))
  else if Descendants nd <=? k index then
    children ← slice (Children nd) 0 (Descendants nd);
    Some (mkSearch index pq (st_nns st ++ children))
  else
    margin ← Margin (distance index) nd v (f index);
    c1 ← Children nd !! 1%nat;
    pq ← PQ.heap_Push pq
           {| first := PQDistance (distance index) d margin 1; second := c1 |};
    c0 ← Children nd !! 0%nat;
    pq ← PQ.heap_Push pq
           {| first := PQDistance (distance index) d margin 0; second := c0 |};
    Some (mkSearch index pq (st_nns st)).

(** [for len(nns) < searchK && pq.Len() > 0 { ... }] *)
Fixpoint search_loop (fuel : nat) (v : list F32.t) (searchK : Z)
    (st : search_state) : outcome search_state :=
  if search_continues searchK st then
    match fuel with
    | O => OutOfFuel
    | S fuel' =>
        match search_step v st with
        | None => Panicked
        | Some st' => search_loop fuel' v searchK st'
        end
    end
  else Returned st.

(** The loop over the keys of [nnSet], in the order [keys]; [i] is the
    next free slot of [nnsDist]. *)
Fixpoint fill_nnsDist (index : AnnoyIndex) (vNode : Node) (keys : list Z)
    (nnsDist : list Pair) (i : nat) : option (list Pair * AnnoyIndex) :=
  match keys with
  | [] => Some (nnsDist, index)
  | j :: keys' =>
      '(nd, index) ← getNode index j;
      if Descendants nd =? 1 then
        '(nd', index) ← getNode index j;
        d ← Distance (distance index) vNode nd' (f index);
        if (i <? length nnsDist)%nat then
          fill_nnsDist index vNode keys'
            (<[i := {| first := d; second := j |}]> nnsDist) (S i)
        else None
      else fill_nnsDist index vNode keys' nnsDist i
  end.

(** The comparison given to [sort.Slice]. *)
Definition by_first (a b : Pair) : bool := F32.ltb (first a) (first b).

(** [p := n; if p > m { p = m }] and the loop that fills the two results. *)
Definition take_results (index : AnnoyIndex) (n : Z) (nnsDist : list Pair)
    : list Z * list F32.t :=
  let m := Z.of_nat (length nnsDist) in
  let p := if m <? n then m else n in
  let top := firstn (Z.to_nat p) nnsDist in
  (map second top,
   map (λ e, NormalizeDistance (distance index) (first e)) top).

(** The part of [getAllNns] up to the end of the search loop. *)
Definition search (fuel : nat) (index : AnnoyIndex) (v : list F32.t)
    (n searchK : Z) : outcome (Node * search_state) :=
  match
    (vNode ← query_node index v;
     vNode ← InitNode (distance index) vNode (f index);
     pq ← PQ.heap_Init [];
     pq ← push_roots pq (roots index);
     Some (vNode, pq))
  with
  | None => Panicked
  | Some (vNode, pq) =>
      match search_loop fuel v (effective_searchK index n searchK)
              (mkSearch index pq []) with
      | Returned st => Returned (vNode, st)
      | Panicked => Panicked
      | OutOfFuel => OutOfFuel
      end
  end.

(** [func (index *AnnoyIndex[D]) getAllNns(v []float32, n, searchK int)]:
    the results the call can return, with the index as it leaves it. *)
Definition getAllNns (index : AnnoyIndex) (v : list F32.t) (n searchK : Z)
    (result : list Z) (distances : list F32.t) (index' : AnnoyIndex) : Prop :=
  ∃ fuel vNode st keys nnsDist sorted,
    search fuel index v n searchK = Returned (vNode, st) ∧
    GoRuntime.map_range (st_nns st) keys ∧
    fill_nnsDist (st_index st) vNode keys
      (replicate (length keys) Pair_zero) 0 = Some (nnsDist, index') ∧
    GoRuntime.sort_Slice by_first nnsDist sorted ∧
    (result, distances) = take_results index n sorted.

(** [GetNnsByVector] *)
Definition GetNnsByVector := getAllNns.

(** [GetNnsByItem] *)
Definition GetNnsByItem (index : AnnoyIndex) (item : Z) (n searchK : Z)
    (result : list Z) (distances : list F32.t) (index' : AnnoyIndex) : Prop :=
  ∃ m index1, getNode index item = Some (m, index1) ∧
    getAllNns index1 (V_all m) n searchK result distances index'.

End WithMetric.
Arguments AnnoyIndex D : clear implicits.
Arguments search_state D : clear implicits.
End Annoy.

(* ===================================================================== *)
(** * Reference definitions used by the statements *)
(* ===================================================================== *)

(** The little-endian reading of four bytes, as arithmetic. *)
Module LittleEndian.

Definition byte_at (nodes : list byte) (off : Z) : Z :=
  u8 (nth (Z.to_nat off) nodes x00).

Definition u32_at (nodes : list byte) (off : Z) : Z :=
  byte_at nodes off + 256 * byte_at nodes (off + 1)
  + 65536 * byte_at nodes (off + 2) + 16777216 * byte_at nodes (off + 3).

Definition i32_at (nodes : list byte) (off : Z) : Z :=
  let u := u32_at nodes off in
  if u <? 2147483648 then u else u - 4294967296.

Definition f32_at (nodes : list byte) (off : Z) : F32.t :=
  Float32frombits (u32_at nodes off).

End LittleEndian.
Import LittleEndian.
(* ===================================================================== *)
(** * Index files used as examples *)
(* ===================================================================== *)

Module Fixture.

Definition byte_of (z : Z) : byte :=
  default x00 (Byte.of_N (Z.to_N (z mod 256))).

(** The four bytes of a 32-bit word, least significant first. *)
Definition le32 (z : Z) : list byte :=
  [byte_of z; byte_of (z / 256); byte_of (z / 65536); byte_of (z / 16777216)].

(** One node record: descendants, two children, and the bit patterns of
    the vector entries. *)
Definition record (d c0 c1 : Z) (v : list Z) : list byte :=
  le32 d ++ le32 c0 ++ le32 c1 ++ concat (map le32 v).

(** Bit patterns of some binary32 values. *)
Definition bits_one : Z := 1065353216.      (* 0x3f800000 = 1.0 *)
Definition bits_two : Z := 1073741824.      (* 0x40000000 = 2.0 *)
Definition bits_nan : Z := 2143289344.      (* 0x7fc00000 = NaN *)

Definition file_of (bytes : list byte) : OsFile :=
  {| file_bytes := bytes; stat_fails := false; read_fails := false;
     map_fails := false; unmap_fails := false; close_fails := false |}.

(** A file system holding one file, whatever the name asked for. *)
Definition fs_of (bytes : list byte) : FileSystem := λ _, Some (file_of bytes).

End Fixture.

(* ===================================================================== *)
(** * The node decoder *)
(* ===================================================================== *)

Module Decoder.

(** The node capacity [K = (s - 4) / 4 = f + 2]. *)
Definition capacity (f : Z) : Z := f + 2.

(** The branch as the specification words it: a node with
    [1 < descendants <= K] carries children only, a node with
    [descendants = 1] or [descendants > K] carries two children and a
    vector of [f] entries. *)
Definition branches_on_one (f : Z) (nd : Node) : Prop :=
  (1 < Descendants nd <= capacity f →
     V nd = None ∧ Z.of_nat (length (Children nd)) <= capacity f) ∧
  (Descendants nd = 1 ∨ capacity f < Descendants nd →
     length (Children nd) = 2%nat ∧
     ∃ v, V nd = Some v ∧ Z.of_nat (length v) = f).

(** A record of dimension 1 whose descendants field is 2. *)
Definition two_descendants : list byte :=
  Fixture.record 2 7 9 [Fixture.bits_one].

End Decoder.


(** The formulas of the angular metric, on vectors. *)
Module AngularSpec.

(** [dot(x, y)] over the first [f] entries: the sum of the products, added
    up from the left starting at 0. *)
Definition dot (x y : list F32.t) (f : nat) : F32.t :=
  fold_left (λ acc ab, F32.add acc (F32.mul (fst ab) (snd ab)))
    (zip (take f x) (take f y)) F32.zero.

(** The square root of a binary32 value, taken in binary64. *)
Definition sqrt (r : F32.t) : F32.t := to_f32 (F64.sqrt (to_f64 r)).

(** The larger of a binary32 value and 0, in binary64. *)
Definition max0 (r : F32.t) : F64.t := F64.max (to_f64 r) F64.zero.

(** The squared norm: the cached one, or [dot(v, v)] when that is 0. *)
Definition squared_norm (cached : F32.t) (v : list F32.t) (f : nat) : F32.t :=
  if F32.eqb cached F32.zero then dot v v f else cached.

Definition distance (pp qq pq : F32.t) : F32.t :=
  if F32.gtb (F32.mul pp qq) F32.zero
  then F32.sub F32.two (F32.div (F32.mul F32.two pq) (sqrt (F32.mul pp qq)))
  else F32.two.

Definition normalized (raw : F32.t) : F32.t := to_f32 (F64.sqrt (max0 raw)).

End AngularSpec.


(** ** Laws of a metric, and invariants of an index *)

(** What the engine relies on when it keeps initialised nodes in its cache:
    [InitNode] writes nothing but the norm, succeeds on a node whose vector
    has [f] entries, and neither [Distance] nor [Margin] tells a freshly
    decoded node (norm 0) from its initialised form. *)
Class LawfulMetric (D : Type) `{DistanceMetric D} : Prop := {
  InitNode_fields : ∀ (d : D) (nd nd' : Node) (f : Z),
    InitNode d nd f = Some nd' →
    Descendants nd' = Descendants nd ∧ Children nd' = Children nd ∧
    V nd' = V nd;
  InitNode_total : ∀ (d : D) (nd : Node) (f : Z) (v : list F32.t),
    V nd = Some v → (Z.to_nat f <= length v)%nat →
    is_Some (InitNode d nd f);
  Distance_InitNode : ∀ (d : D) (x nd nd' : Node) (f : Z),
    Norm nd = F32.zero → InitNode d nd f = Some nd' →
    Distance d x nd' f = Distance d x nd f;
  Margin_InitNode : ∀ (d : D) (nd nd' : Node) (v : list F32.t) (f : Z),
    InitNode d nd f = Some nd' → Margin d nd' v f = Margin d nd v f
}.

Module Inv.
Section WithMetric.
Context {D : Type} `{DistanceMetric D}.
Import Annoy.

(** The index was made by [NewAnnoyIndex] for a dimension [f >= 0] that
    fits: [s = 12 + 4f] and [k = f + 2]. *)
Definition well_formed (index : AnnoyIndex D) : Prop :=
  0 <= f index ∧ f index + 2 < 2 ^ 31 ∧
  s index = 12 + 4 * f index ∧ k index = f index + 2.

(** No backing bytes, no roots, counts at zero. *)
Definition unloaded (index : AnnoyIndex D) : Prop :=
  nodes index = None ∧ roots index = [] ∧ nItems index = 0 ∧ nNodes index = 0.

(** The form in which [getNode] stores a decoded node. *)
Definition cached_form (index : AnnoyIndex D) (raw : Node) : option Node :=
  match V raw with
  | Some _ => InitNode (distance index) raw (f index)
  | None => Some raw
  end.

(** Every cached node is the stored form of what the bytes [bytes] decode
    to at its index. *)
Definition cache_matches (index : AnnoyIndex D) (bytes : list byte) : Prop :=
  ∀ i nd, cache index !! i = Some nd →
    ∃ raw, GetNodePtr bytes (s index) i = Some raw ∧
           cached_form index raw = Some nd.

(** The cache, where it is used (no mapping), matches the backing bytes. *)
Definition cache_coherent (index : AnnoyIndex D) : Prop :=
  mmap index = None → cache_matches index (nodes_bytes index).

(** The third branch of the search loop is taken for node [nd] popped at
    index [i]. *)
Definition is_split (index : AnnoyIndex D) (i : Z) (nd : Node) : bool :=
  negb ((Descendants nd =? 1) && (i <? nItems index))
  && negb (Descendants nd <=? k index).

(** [c] is one of the two children the search pushes for the split node at
    index [i]. *)
Definition split_child (index : AnnoyIndex D) (c i : Z) : Prop :=
  ∃ nd, GetNodePtr (nodes_bytes index) (s index) i = Some nd ∧
        is_split index i nd = true ∧
        (Children nd !! 0%nat = Some c ∨ Children nd !! 1%nat = Some c).

End WithMetric.
End Inv.

(** ** Root discovery, as the specification words it *)

Module RootSpec.

Fixpoint take_while {A : Type} (p : A → bool) (l : list A) : list A :=
  match l with
  | [] => []
  | x :: l' => if p x then x :: take_while p l' else []
  end.

(** Node indices from the highest down to 0. *)
Definition scan_order (nNodes : Z) : list Z := reverse (seqZ 0 nNodes).

(** [m]: the descendants value of the first node visited. *)
Definition first_value (desc : Z → Z) (nNodes : Z) : option Z :=
  desc <$> head (scan_order nNodes).

(** The nodes collected: those visited while their descendants equal [m]. *)
Definition collect (desc : Z → Z) (nNodes : Z) : list Z :=
  match first_value desc nNodes with
  | Some m => take_while (λ i, desc i =? m) (scan_order nNodes)
  | None => []
  end.

(** With more than one root, and the first and last roots' first children
    equal, the last root is dropped. *)
Definition drop_duplicate (first_child : Z → Z) (rs : list Z) : list Z :=
  match head rs, last rs with
  | Some r0, Some rl =>
      if (1 <? Z.of_nat (length rs)) && (first_child r0 =? first_child rl)
      then removelast rs else rs
  | _, _ => rs
  end.

Definition roots (desc first_child : Z → Z) (nNodes : Z) : list Z :=
  drop_duplicate first_child (collect desc nNodes).

End RootSpec.

(** ** The root scan of [Load], on the descendants values alone *)

Module RootScan.

(** [scan_roots] without the index: [desc i] stands for
    [index.getNode(i).Descendants]. *)
Fixpoint scan (desc : Z → Z) (cnt : nat) (i m : Z) (rs : list Z) : Z * list Z :=
  match cnt with
  | O => (m, rs)
  | S cnt' =>
      let k0 := desc i in
      if (m =? -1) || (k0 =? m) then scan desc cnt' (i - 1) k0 (rs ++ [i])
      else (m, rs)
  end.


End RootScan.

Module Fixture2.
Import Fixture.


End Fixture2.

Module Frame.
Section WithMetric.
Context {D : Type} `{DistanceMetric D}.
Import Annoy.

(** Two indexes that differ at most in their roots and their cache. *)
Definition config_eq (a b : AnnoyIndex D) : Prop :=
  set_cache (set_roots a []) ∅ = set_cache (set_roots b []) ∅.

(** Two indexes that differ at most in their cache. *)
Definition cache_only (a b : AnnoyIndex D) : Prop :=
  set_cache a ∅ = set_cache b ∅.

End WithMetric.
End Frame.

Module RootClaim.


End RootClaim.

Module Fixture3.
Import Fixture.

Definition bits_minus_one : Z := 3212836864.   (* 0xbf800000 = -1.0 *)

(** Dimension 1 (stride 16, capacity 3).  Two items with the same vector
    [1.0], and a bucket root over them. *)
Definition twins : list byte :=
  record 1 0 0 [bits_one] ++ record 1 0 0 [bits_one]
  ++ record 2 0 1 [0].

(** Dimension 1.  Three items [1.0], [2.0], [-1.0] and a bucket root over
    them. *)
Definition triple : list byte :=
  record 1 0 0 [bits_one] ++ record 1 0 0 [bits_two]
  ++ record 1 0 0 [bits_minus_one] ++ record 3 0 1 [2].

(** Dimension 1.  Four items, two buckets of two, and a split root with
    normal [1.0]. *)
Definition forest : list byte :=
  record 1 0 0 [bits_one] ++ record 1 0 0 [bits_two]
  ++ record 1 0 0 [bits_minus_one] ++ record 1 0 0 [bits_one]
  ++ record 2 0 1 [0] ++ record 2 2 3 [0]
  ++ record 4 4 5 [bits_one].

(** Dimension 1.  One item, one record that is no item (descendants 0), and
    a bucket root that lists both. *)
Definition with_hole : list byte :=
  record 1 0 0 [bits_one] ++ record 0 0 0 [0] ++ record 2 0 1 [0].

(** Dimension 1.  A single split node whose two children are itself. *)
Definition self_loop : list byte := record 4 0 0 [bits_one].

Definition one : F32.t := Float32frombits bits_one.
Definition minus_one : F32.t := Float32frombits bits_minus_one.

End Fixture3.

(** ** The descent below a frontier entry *)

Module Descent.
Section WithMetric.
Context {D : Type} `{DistanceMetric D}.
Import Annoy Inv.

Variable index : AnnoyIndex D.

(** [descent_size i n]: the search pops [n] frontier entries in all for an
    entry at node [i]: the entry itself, and, when [i] is a split node, the
    entries of its two children. *)
Inductive descent_size : Z → nat → Prop :=
| descent_stop (i : Z) :
    (∀ nd, GetNodePtr (nodes_bytes index) (s index) i = Some nd →
           is_split index i nd = false) →
    descent_size i 1
| descent_split (i : Z) (nd : Node) (c0 c1 : Z) (n0 n1 : nat) :
    GetNodePtr (nodes_bytes index) (s index) i = Some nd →
    is_split index i nd = true →
    Children nd !! 0%nat = Some c0 → Children nd !! 1%nat = Some c1 →
    descent_size c0 n0 → descent_size c1 n1 →
    descent_size i (S (n0 + n1)).

(** The entries a frontier stands for, all in all. *)
Inductive frontier_size : list Pair → nat → Prop :=
| frontier_nil : frontier_size [] 0
| frontier_cons (p : Pair) (pq : list Pair) (n w : nat) :
    descent_size (second p) n → frontier_size pq w →
    frontier_size (p :: pq) (n + w).

End WithMetric.
End Descent.

Module Loaded.
Import Fixture.

(** The index a new index of dimension 1 becomes by loading [bytes]; the
    new index itself if [Load] fails. *)
Definition index (bytes : list byte) (memory : bool) : Annoy.AnnoyIndex Angular :=
  match Annoy.Load (fs_of bytes) (Annoy.NewAnnoyIndex Angular_value 1)
          String.EmptyString memory with
  | Some (None, loaded) => loaded
  | _ => Annoy.NewAnnoyIndex Angular_value 1
  end.

End Loaded.

(** ** The query without the cache *)

(** The query engine read off the backing bytes alone: every node is decoded
    afresh and the index is not changed. *)
Module Pure.
Section WithMetric.
Context {D : Type} `{DistanceMetric D}.
Import Annoy.

Definition node_at (index : AnnoyIndex D) (i : Z) : option Node :=
  GetNodePtr (nodes_bytes index) (s index) i.

Definition step (index : AnnoyIndex D) (v : list F32.t)
    (st : list Pair * list Z) : option (list Pair * list Z) :=
  '(top, pq) ← PQ.heap_Pop (fst st);
  let d := first top in
  let i := second top in
  nd ← node_at index i;
  if (Descendants nd =? 1) && (i <? nItems index) then
    Some (pq, snd st ++ [i])
  else if Descendants nd <=? k index then
    children ← slice (Children nd) 0 (Descendants nd);
    Some (pq, snd st ++ children)
  else
    margin ← Margin (distance index) nd v (f index);
    c1 ← Children nd !! 1%nat;
    pq ← PQ.heap_Push pq
           {| first := PQDistance (distance index) d margin 1; second := c1 |};
    c0 ← Children nd !! 0%nat;
    pq ← PQ.heap_Push pq
           {| first := PQDistance (distance index) d margin 0; second := c0 |};
    Some (pq, snd st).

Definition continues (searchK : Z) (st : list Pair * list Z) : bool :=
  (Z.of_nat (length (snd st)) <? searchK) && (0 <? Z.of_nat (length (fst st))).

Fixpoint loop (fuel : nat) (index : AnnoyIndex D) (v : list F32.t)
    (searchK : Z) (st : list Pair * list Z) : outcome (list Pair * list Z) :=
  if continues searchK st then
    match fuel with
    | O => OutOfFuel
    | S fuel' =>
        match step index v st with
        | None => Panicked
        | Some st' => loop fuel' index v searchK st'
        end
    end
  else Returned st.

(** The query node and the frontier holding the roots. *)
Definition init (index : AnnoyIndex D) (v : list F32.t)
    : option (Node * list Pair) :=
  vNode ← query_node index v;
  vNode ← InitNode (distance index) vNode (f index);
  pq ← PQ.heap_Init [];
  pq ← push_roots pq (roots index);
  Some (vNode, pq).

(** The candidates: what the loop has collected when it ends. *)
Definition candidates (fuel : nat) (index : AnnoyIndex D) (v : list F32.t)
    (n searchK : Z) : outcome (Node * list Z) :=
  match init index v with
  | None => Panicked
  | Some (vNode, pq) =>
      match loop fuel index v (effective_searchK index n searchK) (pq, []) with
      | Returned st => Returned (vNode, snd st)
      | Panicked => Panicked
      | OutOfFuel => OutOfFuel
      end
  end.

(** The pairs of raw distance and index of those [keys] that are singleton
    leaves, in the order of [keys]. *)
Fixpoint leaf_pairs (index : AnnoyIndex D) (vNode : Node) (keys : list Z)
    : option (list Pair) :=
  match keys with
  | [] => Some []
  | j :: keys' =>
      nd ← node_at index j;
      if Descendants nd =? 1 then
        d ← Distance (distance index) vNode nd (f index);
        rest ← leaf_pairs index vNode keys';
        Some ({| first := d; second := j |} :: rest)
      else leaf_pairs index vNode keys'
  end.

(** [nnsDist] as the fill loop leaves it: the leaf pairs, then one zero pair
    for every key that is no singleton leaf. *)
Definition filled (keys : list Z) (pairs : list Pair) : list Pair :=
  pairs ++ replicate (length keys - length pairs) Pair_zero.

Definition getAllNns (index : AnnoyIndex D) (v : list F32.t) (n searchK : Z)
    (result : list Z) (distances : list F32.t) : Prop :=
  ∃ fuel vNode nns keys pairs sorted,
    candidates fuel index v n searchK = Returned (vNode, nns) ∧
    GoRuntime.map_range nns keys ∧
    leaf_pairs index vNode keys = Some pairs ∧
    GoRuntime.sort_Slice by_first (filled keys pairs) sorted ∧
    (result, distances) = take_results index n sorted.

End WithMetric.
End Pure.

(** ** The order of floating-point values *)

Module FloatOrder.

(** A key that orders the values that are no NaN: class by sign and kind,
    then exponent, then mantissa. *)
Definition key (x : spec_float) : Z * Z * Z :=
  match x with
  | S754_nan => (0, 0, 0)
  | S754_infinity true => (-2, 0, 0)
  | S754_finite true m e => (-1, - e, - Zpos m)
  | S754_zero _ => (0, 0, 0)
  | S754_finite false m e => (1, e, Zpos m)
  | S754_infinity false => (2, 0, 0)
  end.

Definition lex (a b : Z * Z * Z) : comparison :=
  match fst (fst a) ?= fst (fst b) with
  | Eq =>
      match snd (fst a) ?= snd (fst b) with
      | Eq => snd a ?= snd b
      | c => c
      end
  | c => c
  end.

Definition lt (a b : Z * Z * Z) : Prop :=
  fst (fst a) < fst (fst b) ∨
  (fst (fst a) = fst (fst b) ∧
   (snd (fst a) < snd (fst b) ∨
    (snd (fst a) = snd (fst b) ∧ snd a < snd b))).

Definition not_nan (x : spec_float) : Prop := x ≠ S754_nan.

(** Not NaN, and not below zero. *)
Definition nonneg (x : spec_float) : Prop :=
  not_nan x ∧ SFltb x (S754_zero false) = false.

End FloatOrder.

Module QueryFrame.
Section WithMetric.
Context {D : Type} `{DistanceMetric D}.
Import Annoy.

(** Two indexes that hold the same file under the same configuration; they
    may differ in how they hold it (mapping or heap copy, cache, file
    handle). *)
Definition same_file (a b : AnnoyIndex D) : Prop :=
  distance a = distance b ∧ f a = f b ∧ s a = s b ∧ k a = k b ∧
  nItems a = nItems b ∧ nodes a = nodes b ∧ roots a = roots b.

End WithMetric.
End QueryFrame.

(** [x] is a zero, an infinity or a finite number of sign [s]. *)
Definition has_sign (s : bool) (x : spec_float) : Prop :=
  match x with
  | S754_zero s' | S754_infinity s' | S754_finite s' _ _ => s' = s
  | S754_nan => False
  end.

(** ** The ranking of the candidates, as the specification words it *)

Module StableSpec.

(** Insertion into a sorted list, before the first element that is not less
    than [x]: equal elements keep their order. *)
Fixpoint insert_sorted {A : Type} (less : A → A → bool) (x : A) (l : list A)
    : list A :=
  match l with
  | [] => [x]
  | y :: l' => if less y x then y :: insert_sorted less x l' else x :: l
  end.

Definition stable_sort {A : Type} (less : A → A → bool) (l : list A) : list A :=
  foldr (insert_sorted less) [] l.

(** The candidates without repetition, in the order they were found. *)
Fixpoint unique (l : list Z) : list Z :=
  match l with
  | [] => []
  | x :: l' => x :: filter (λ y, y ≠ x) (unique l')
  end.

Section WithMetric.
Context {D : Type} `{DistanceMetric D}.
Import Annoy.

(** The unique singleton-leaf candidates, sorted ascending by raw distance
    with a stable order on ties, truncated to [n], with the normalised
    distances. *)
Definition ranked (index : AnnoyIndex D) (vNode : Node) (nns : list Z) (n : Z)
    : option (list Z * list F32.t) :=
  pairs ← Pure.leaf_pairs index vNode (unique nns);
  let top := take (Z.to_nat n) (stable_sort by_first pairs) in
  Some (map second top,
        map (λ e, NormalizeDistance (distance index) (first e)) top).

(** The outcome of a query as the specification words it. *)
Definition as_claimed (index : AnnoyIndex D) (v : list F32.t) (n searchK : Z)
    (result : list Z) (distances : list F32.t) : Prop :=
  Forall FloatOrder.nonneg distances ∧
  GoRuntime.sorted_by F32.ltb distances ∧
  ∃ fuel vNode nns,
    Pure.candidates fuel index v n searchK = Returned (vNode, nns) ∧
    ranked index vNode nns n = Some (result, distances).

End WithMetric.
End StableSpec.

Module Fixture4.
Import Fixture.

Definition bits_huge : Z := 1904214016.    (* 0x71800000 = 2^100 *)

(** Dimension 1.  Two items [2^100] and [1.0], and a bucket root. *)
Definition huge : list byte :=
  record 1 0 0 [bits_huge] ++ record 1 0 0 [bits_one] ++ record 2 0 1 [0].

Definition two_to_100 : F32.t := Float32frombits bits_huge.

End Fixture4.

(** ** The heap order of the frontier *)

Module HeapOrder.
Local Open Scope nat_scope.

Definition parent (j : nat) : nat := (j - 1) / 2.

(** The element at [c] does not go before the element at [q]. *)
Definition not_before (h : list Pair) (c q : nat) : Prop :=
  ∀ a b, h !! c = Some a → h !! q = Some b → PQ.less a b = false.

(** The first [n] elements form a heap: no element goes before its
    parent. *)
Definition is_heap_upto (n : nat) (h : list Pair) : Prop :=
  ∀ c, 0 < c < n → not_before h c (parent c).

Definition is_heap (h : list Pair) : Prop := is_heap_upto (length h) h.

(** No priority is NaN. *)
Definition no_nan (h : list Pair) : Prop :=
  Forall (λ p, FloatOrder.not_nan (first p)) h.

(** [a] has a lower priority than [b]: a smaller bound, or the same bound
    and a smaller node index. *)
Definition pair_lt (a b : Pair) : Prop :=
  let ka := FloatOrder.key (first a) in
  let kb := FloatOrder.key (first b) in
  (FloatOrder.lt ka kb ∨
   (fst (fst ka) = fst (fst kb) ∧ snd (fst ka) = snd (fst kb) ∧
    snd ka = snd kb ∧ second a < second b))%Z.

(** A heap but for the element at [j], which may go before its parent
    (while [heap.up] runs). *)
Definition heap_but_up (h : list Pair) (j : nat) : Prop :=
  (∀ c, 0 < c < length h → c ≠ j → not_before h c (parent c)) ∧
  (∀ c, 0 < c < length h → parent c = j → 0 < j →
        not_before h c (parent j)).

(** A heap on the first [n] elements but for the element at [i], before
    which its children may go (while [heap.down] runs). *)
Definition heap_but_down (n : nat) (h : list Pair) (i : nat) : Prop :=
  (∀ c, 0 < c < n → parent c ≠ i → not_before h c (parent c)) ∧
  (∀ c, 0 < c < n → parent c = i → 0 < i → not_before h c (parent i)).

End HeapOrder.

Module Fixture5.
Import Fixture.

(** A file of five bytes: no multiple of any stride. *)
Definition five_bytes : list byte := [x01; x00; x00; x00; x00].

(** A node holding the vector [1.0], not initialised. *)
Definition unit_node : Node :=
  {| Descendants := 1; Children := [0; 0]; Norm := F32.zero;
     V := Some [Fixture3.one] |}.

(** The frontier after the root of [forest] was pushed. *)
Definition root_frontier : list Pair := [{| first := F32.inf; second := 6 |}].

End Fixture5.

(** ** Values of the binary32 format *)

Module Binary32.

(** [x] is a value of the format: a zero, an infinity, NaN, or a finite
    number written with its canonical mantissa and exponent. *)
Definition valid (x : F32.t) : Prop := valid_binary F32.prec F32.emax x = true.

End Binary32.

(* ===================================================================== *)
(** * The earlier revision of the engine *)
(* ===================================================================== *)

(** The repository also holds an earlier [annoy.go], [distance.go] and
    [utils.go].  That revision has no cache and maps every file: [getNode]
    is its decoder applied to [index.nodes], and its decoder reads the
    child words and the vector of every record.  The fields its query
    reads ([distance], [f], [s], [nItems], [nodes], [roots], [k]) are
    fields of both revisions, and the five metric methods the query calls
    have the same bodies in both; so the earlier functions are stated over
    the same record and the same interface, and read neither [cache] nor
    [mmap]. *)

Module OldAngular.

(** [func (a Angular) NormalizedDistance(x, y *Node, f int) float32] *)
Definition NormalizedDistance (a : Angular) (x y : Node) (f : Z)
    : option F32.t :=
  d ← AngularImpl.Distance a x y f;
  Some (to_f32 (F64.sqrt (F64.max (to_f64 d) F64.zero))).

(** [func (a Angular) CopyNode(dest, source *Node, f int)]:
    [copy(dest.V[:f], source.V[:f])]; a nil [dest.V] stays nil. *)
Definition CopyNode (a : Angular) (dest source : Node) (f : Z) : option Node :=
  _ ← slice (V_all dest) 0 f;
  src ← slice (V_all source) 0 f;
  Some {| Descendants := Descendants dest; Children := Children dest;
          Norm := Norm dest;
          V := (λ v, src ++ drop (Z.to_nat f) v) <$> V dest |}.

(** [func (a Angular) GetNorm(node *Node, f int) float32] *)
Definition GetNorm (a : Angular) (node : Node) (f : Z) : option F32.t :=
  d ← Dot (V_all node) (V_all node) f;
  Some (to_f32 (F64.sqrt (to_f64 d))).

(** The loop [for z := 0; z < f; z++ { node.V[z] /= norm }] from index
    [z], with [n] turns left. *)
Fixpoint divide_from (v : list F32.t) (z n : nat) (norm : F32.t)
    : option (list F32.t) :=
  match n with
  | O => Some v
  | S n' =>
      x ← v !! z;
      divide_from (<[z := F32.div x norm]> v) (S z) n' norm
  end.

(** [func (a Angular) Normalize(node *Node, f int)] *)
Definition Normalize (a : Angular) (node : Node) (f : Z) : option Node :=
  norm ← GetNorm a node f;
  if F32.gtb norm F32.zero then
    v ← divide_from (V_all node) 0 (Z.to_nat f) norm;
    Some {| Descendants := Descendants node; Children := Children node;
            Norm := Norm node; V := (λ _, v) <$> V node |}
  else Some node.

(** The conversion [float32(c)] of an integer. *)
Definition of_int (c : Z) : F32.t :=
  binary_normalize F32.prec F32.emax c 0 false.

(** The loop of [UpdateMean] from index [z], with [n] turns left. *)
Fixpoint update_from (mean new : list F32.t) (z n : nat) (norm : F32.t)
    (c : Z) : option (list F32.t) :=
  match n with
  | O => Some mean
  | S n' =>
      m ← mean !! z;
      x ← new !! z;
      update_from
        (<[z := F32.div (F32.add (F32.mul m (of_int c)) (F32.div x norm))
                  (of_int (int64 (c + 1)))]> mean)
        new (S z) n' norm c
  end.

(** [func (a Angular) UpdateMean(mean, newNode *Node, norm float32, c, f int)],
    for two distinct nodes. *)
Definition UpdateMean (a : Angular) (mean newNode : Node) (norm : F32.t)
    (c f : Z) : option Node :=
  v ← update_from (V_all mean) (V_all newNode) 0 (Z.to_nat f) norm c;
  Some {| Descendants := Descendants mean; Children := Children mean;
          Norm := Norm mean; V := (λ _, v) <$> V mean |}.

End OldAngular.

Module Old.

(** [func GetNodePtr(nodes []byte, size int, i int32) *Node] of the earlier
    [utils.go]: the [arrSize + 2] child words and the [arrSize] floats are
    read for every record, whatever its number of descendants. *)
Definition GetNodePtr (nodes : list byte) (size : Z) (i : Z) : option Node :=
  let arrSize := Z.quot (size - 12) 4 in
  b ← slice nodes (size * i) (size * i + 4);
  w ← Uint32 b;
  n ← make_len (arrSize + 2);
  children ← read_words int32 nodes (size * i + 4) 0 n;
  m ← make_len arrSize;
  v ← read_words Float32frombits nodes (size * i + 12) 0 m;
  Some {| Descendants := int32 w; Children := children;
          Norm := F32.zero; V := Some v |}.

Section WithMetric.
Context {D : Type} `{DistanceMetric D}.
Import Annoy.

(** [func (index *AnnoyIndex[D]) getNode(i int32) *Node]: the earlier
    decoder, just above, on [index.nodes]. *)
Definition getNode (index : AnnoyIndex D) (i : Z) : option Node :=
  GetNodePtr (nodes_bytes index) (s index) i.

(** One turn of the search loop, on the frontier and the candidates. *)
Definition search_step (index : AnnoyIndex D) (v : list F32.t)
    (st : list Pair * list Z) : option (list Pair * list Z) :=
  '(top, pq) ← PQ.heap_Pop (fst st);
  let d := first top in
  let i := second top in
  nd ← getNode index i;
  if (Descendants nd =? 1) && (i <? nItems index) then
    Some (pq, snd st ++ [i])
  else if Descendants nd <=? k index then
    children ← slice (Children nd) 0 (Descendants nd);
    Some (pq, snd st ++ children)
  else
    margin ← Margin (distance index) nd v (f index);
    c1 ← Children nd !! 1%nat;
    pq ← PQ.heap_Push pq
           {| first := PQDistance (distance index) d margin 1; second := c1 |};
    c0 ← Children nd !! 0%nat;
    pq ← PQ.heap_Push pq
           {| first := PQDistance (distance index) d margin 0; second := c0 |};
    Some (pq, snd st).

(** [for len(nns) < searchK && pq.Len() > 0 { ... }] *)
Fixpoint search_loop (fuel : nat) (index : AnnoyIndex D) (v : list F32.t)
    (searchK : Z) (st : list Pair * list Z) : outcome (list Pair * list Z) :=
  if (Z.of_nat (length (snd st)) <? searchK)
     && (0 <? Z.of_nat (PQ.Len (fst st))) then
    match fuel with
    | O => OutOfFuel
    | S fuel' =>
        match search_step index v st with
        | None => Panicked
        | Some st' => search_loop fuel' index v searchK st'
        end
    end
  else Returned st.

(** [getAllNns] up to the end of the search loop: the query node and the
    candidates. *)
Definition search (fuel : nat) (index : AnnoyIndex D) (v : list F32.t)
    (n searchK : Z) : outcome (Node * list Z) :=
  match
    (vNode ← query_node index v;
     vNode ← InitNode (distance index) vNode (f index);
     pq ← PQ.heap_Init [];
     pq ← push_roots pq (roots index);
     Some (vNode, pq))
  with
  | None => Panicked
  | Some (vNode, pq) =>
      match search_loop fuel index v (effective_searchK index n searchK)
              (pq, []) with
      | Returned st => Returned (vNode, snd st)
      | Panicked => Panicked
      | OutOfFuel => OutOfFuel
      end
  end.

(** The loop over the sorted candidates:
    [for _, j := range nns { if j == last { continue }; last = j; ... }]. *)
Fixpoint collect_leaves (index : AnnoyIndex D) (vNode : Node) (nns : list Z)
    (last : Z) (nnsDist : list Pair) : option (list Pair) :=
  match nns with
  | [] => Some nnsDist
  | j :: rest =>
      if j =? last then collect_leaves index vNode rest last nnsDist
      else
        nd ← getNode index j;
        if Descendants nd =? 1 then
          nd' ← getNode index j;
          d ← Distance (distance index) vNode nd' (f index);
          collect_leaves index vNode rest j
            (nnsDist ++ [{| first := d; second := j |}])
        else collect_leaves index vNode rest j nnsDist
  end.

(** [func (index *AnnoyIndex[D]) getAllNns(v []float32, n, searchK int)]:
    the results the call can return. *)
Definition getAllNns (index : AnnoyIndex D) (v : list F32.t) (n searchK : Z)
    (result : list Z) (distances : list F32.t) : Prop :=
  ∃ fuel vNode nns ordered nnsDist sorted,
    search fuel index v n searchK = Returned (vNode, nns) ∧
    GoRuntime.sort_Slice Z.ltb nns ordered ∧
    collect_leaves index vNode ordered (-1) [] = Some nnsDist ∧
    GoRuntime.sort_Slice by_first nnsDist sorted ∧
    (result, distances) = take_results index n sorted.

(** The candidate [j] decodes to a record with exactly one descendant. *)
Definition singleton_leaf (index : AnnoyIndex D) (j : Z) : bool :=
  match getNode index j with
  | Some nd => Descendants nd =? 1
  | None => false
  end.

(** The candidates the loop over the sorted candidates looks at: an
    element equal to its predecessor (or to [last] at the start) is
    skipped. *)
Fixpoint skip_repeats (nns : list Z) (last : Z) : list Z :=
  match nns with
  | [] => []
  | j :: rest =>
      if j =? last then skip_repeats rest last else j :: skip_repeats rest j
  end.

End WithMetric.

(** [func (index *AnnoyIndex[D]) GetDistance(i, j int32) float32], for the
    angular metric. *)
Definition GetDistance (index : Annoy.AnnoyIndex Angular) (i j : Z)
    : option F32.t :=
  ni ← getNode index i;
  nj ← getNode index j;
  OldAngular.NormalizedDistance (Annoy.distance index) ni nj (Annoy.f index).

End Old.

(** ** Metrics that read the vector and the norm of a node *)

(** What the comparison of the two revisions relies on, since their
    decoders differ in the child slots they hand out: [Distance] and
    [Margin] read nothing of a stored node but its norm and its vector (as
    the angular metric does). *)
Class VectorMetric (D : Type) `{DistanceMetric D} : Prop := {
  Distance_reads_vector : ∀ (d : D) (x y y' : Node) (f : Z),
    Norm y = Norm y' → V y = V y' → Distance d x y f = Distance d x y' f;
  Margin_reads_vector : ∀ (d : D) (n n' : Node) (v : list F32.t) (f : Z),
    Norm n = Norm n' → V n = V n' → Margin d n v f = Margin d n' v f
}.

(** ** More index files used as examples *)

Module Fixture6.
Import Fixture.

Definition bits_three : Z := 1077936128.    (* 0x40400000 = 3.0 *)
Definition three : F32.t := Float32frombits bits_three.

(** Dimension 1.  Four items, a split root (record 4) with normal [1.0]
    over items 0 and 1, and a split root (record 5) whose normal is NaN
    over items 2 and 3. *)
Definition nan_forest : list byte :=
  record 1 0 0 [bits_one] ++ record 1 0 0 [bits_one]
  ++ record 1 0 0 [bits_one] ++ record 1 0 0 [bits_one]
  ++ record 4 0 1 [bits_one] ++ record 4 2 3 [bits_nan].

(** Dimension 1.  Two items and a split root (record 2) whose two children
    are record 0. *)
Definition stale_a : list byte :=
  record 1 0 0 [bits_one] ++ record 1 0 0 [bits_one]
  ++ record 4 0 0 [bits_one].

(** Dimension 1.  A split node (record 0) whose two children are record 2,
    and two records with one descendant; no record with more than one
    descendant has a child with more than one descendant. *)
Definition stale_b : list byte :=
  record 4 2 2 [bits_one] ++ record 1 0 0 [bits_one]
  ++ record 1 0 0 [bits_one].

End Fixture6.

Module Reloaded.
Import Fixture.

(** The index a new index of dimension 1 becomes by loading [a] into
    memory, unloading, and loading [b] into memory; the new index itself
    if one of the three calls fails. *)
Definition index (a b : list byte) : Annoy.AnnoyIndex Angular :=
  match Annoy.Unload (Loaded.index a true) with
  | (None, unloaded) =>
      match Annoy.Load (fs_of b) unloaded String.EmptyString true with
      | Some (None, reloaded) => reloaded
      | _ => Annoy.NewAnnoyIndex Angular_value 1
      end
  | _ => Annoy.NewAnnoyIndex Angular_value 1
  end.

(** The same index after the first lookup of node [i]. *)
Definition after_lookup (a b : list byte) (i : Z) : Annoy.AnnoyIndex Angular :=
  match Annoy.getNode (index a b) i with
  | Some (_, index') => index'
  | None => index a b
  end.

End Reloaded.

(** ** Rounding, on mantissas and exponents *)

Module Rounding.

(** An exact mantissa shifted to the right by [k] bits, with the two
    rounding bits. *)
Definition shifted (m : Z) (k : positive) : shr_record :=
  SpecFloat.iter_pos shr_1 k {| shr_m := m; shr_r := false; shr_s := false |}.

(** The mantissa [m / 2^k] rounded to nearest, ties to even. *)
Definition rne (m : Z) (k : positive) : Z :=
  round_nearest_even (shr_m (shifted m k)) (loc_of_shr_record (shifted m k)).

(** A rounded mantissa of [prec] digits at exponent [e], brought back to
    [prec] digits when the rounding carried into digit [prec + 1]. *)
Definition renorm (prec : Z) (e q : Z) : Z * Z :=
  if q =? 2 ^ prec then (e + 1, 2 ^ (prec - 1)) else (e, q).

(** The square root of [n] rounded to the nearest integer: the integer
    square root [q], or [q + 1] when the remainder is above [q]. *)
Definition sqrt_rnd (n : Z) : Z :=
  let (q, r) := Z.sqrtrem n in if r <=? q then q else q + 1.

(** The order of positive numbers given by exponent and mantissa. *)
Definition lexle (a b : Z * Z) : Prop :=
  fst a < fst b ∨ (fst a = fst b ∧ snd a <= snd b).

(** The three steps of [NormalizeDistance] on a positive binary32 number,
    as exponent and mantissa: the conversion to binary64, the square root,
    and the conversion back. *)
Definition widen (x : Z * Z) : Z * Z :=
  let d := 53 - Zdigits2 (snd x) in (fst x - d, snd x * 2 ^ d).

Definition sqrt64 (x : Z * Z) : Z * Z :=
  renorm 53 (fst x / 2 - 26) (sqrt_rnd (snd x * 2 ^ (52 + fst x mod 2))).

Definition narrow (x : Z * Z) : Z * Z :=
  renorm 24 (fst x + 29) (rne (snd x) 29).

(** The second half of [binary_round_aux]: the rounded mantissa [q] at
    exponent [e] is brought back into the format and classified. *)
Definition finish (prec emax : Z) (sx : bool) (q e : Z) : spec_float :=
  let '(mrs, e') := shr_fexp prec emax q e loc_Exact in
  match shr_m mrs with
  | Z0 => S754_zero sx
  | Zpos m =>
      if e' <=? emax - prec then S754_finite sx m e' else S754_infinity sx
  | Zneg _ => S754_nan
  end.

End Rounding.
(* ===================================================================== *)
(** * Properties of the machine integers and of byte access *)
(* ===================================================================== *)

Lemma int32_id (z : Z) : - 2 ^ 31 <= z < 2 ^ 31 → int32 z = z.
Proof.
  intros Hz. unfold int32, wrap.
  rewrite Z.mod_small by lia. lia.
Qed.

Lemma int32_range (z : Z) : - 2 ^ 31 <= int32 z < 2 ^ 31.
Proof.
  unfold int32, wrap.
  pose proof (Z.mod_pos_bound (z + 2 ^ (32 - 1)) (2 ^ 32) ltac:(lia)). lia.
Qed.

Lemma u8_range (b : byte) : 0 <= u8 b < 256.
Proof.
  unfold u8. pose proof (Byte.to_N_bounded b). lia.
Qed.

Lemma lor_shiftl_add (a b n : Z) :
  0 <= n → 0 <= a < 2 ^ n → Z.lor a (Z.shiftl b n) = a + b * 2 ^ n.
Proof.
  intros Hn Ha.
  assert (Hland : Z.land a (Z.shiftl b n) = 0).
  { apply Z.bits_inj'. intros i Hi.
    rewrite Z.land_spec, Z.bits_0.
    destruct (Z.lt_ge_cases i n) as [Hlt | Hge].
    - rewrite Z.shiftl_spec_low by lia. apply andb_false_r.
    - destruct (Z.eq_dec a 0) as [-> | Hne].
      + rewrite Z.bits_0. reflexivity.
      + rewrite (Z.bits_above_log2 a i); [reflexivity | lia |].
        apply Z.log2_lt_pow2; [lia |].
        apply Z.lt_le_trans with (2 ^ n); [lia |].
        apply Z.pow_le_mono_r; lia. }
  rewrite <- Z.lxor_lor by exact Hland.
  rewrite <- Z.add_nocarry_lxor by exact Hland.
  rewrite Z.shiftl_mul_pow2 by lia. reflexivity.
Qed.


Lemma u32_at_range (nodes : list byte) (off : Z) :
  0 <= u32_at nodes off < 4294967296.
Proof.
  unfold u32_at, byte_at.
  pose proof (u8_range (nth (Z.to_nat off) nodes x00)).
  pose proof (u8_range (nth (Z.to_nat (off + 1)) nodes x00)).
  pose proof (u8_range (nth (Z.to_nat (off + 2)) nodes x00)).
  pose proof (u8_range (nth (Z.to_nat (off + 3)) nodes x00)).
  lia.
Qed.

Lemma int32_u32_at (nodes : list byte) (off : Z) :
  int32 (u32_at nodes off) = i32_at nodes off.
Proof.
  pose proof (u32_at_range nodes off) as Hr.
  unfold i32_at. cbv zeta.
  destruct (Z.ltb_spec (u32_at nodes off) 2147483648) as [Hlt | Hge].
  - apply int32_id. lia.
  - unfold int32, wrap.
    replace (u32_at nodes off + 2 ^ (32 - 1))
      with ((u32_at nodes off - 2147483648) + 1 * 2 ^ 32) by lia.
    rewrite Z.mod_add by lia.
    rewrite Z.mod_small by lia. lia.
Qed.

Lemma Uint32_four (b0 b1 b2 b3 : byte) (rest : list byte) :
  Uint32 (b0 :: b1 :: b2 :: b3 :: rest)
  = Some (u8 b0 + 256 * u8 b1 + 65536 * u8 b2 + 16777216 * u8 b3).
Proof.
  unfold Uint32. f_equal.
  pose proof (u8_range b0). pose proof (u8_range b1).
  pose proof (u8_range b2). pose proof (u8_range b3).
  rewrite (lor_shiftl_add (u8 b0) (u8 b1) 8) by lia.
  rewrite (lor_shiftl_add _ (u8 b2) 16) by lia.
  rewrite (lor_shiftl_add _ (u8 b3) 24) by lia.
  lia.
Qed.

Lemma skipn_four {A : Type} (d : A) (l : list A) (n : nat) :
  (n + 4 <= length l)%nat →
  firstn 4 (skipn n l)
  = [nth n l d; nth (n + 1) l d; nth (n + 2) l d; nth (n + 3) l d].
Proof.
  revert n. induction l as [| a l IH]; intros n Hn; simpl in Hn.
  - lia.
  - destruct n as [| n].
    + destruct l as [| b [| c [| e l]]]; simpl in *; try lia. reflexivity.
    + simpl. apply IH. lia.
Qed.

Lemma read_word_at (nodes : list byte) (off : Z) :
  0 <= off → off + 4 <= Z.of_nat (length nodes) →
  slice nodes off (off + 4) ≫= Uint32 = Some (u32_at nodes off).
Proof.
  intros H0 Hlen. unfold slice.
  replace (0 <=? off) with true by (symmetry; apply Z.leb_le; lia).
  replace (off <=? off + 4) with true by (symmetry; apply Z.leb_le; lia).
  replace (off + 4 <=? Z.of_nat (length nodes)) with true
    by (symmetry; apply Z.leb_le; lia).
  simpl. replace (off + 4 - off) with 4 by lia.
  change (Z.to_nat 4) with 4%nat.
  rewrite (skipn_four x00) by lia.
  rewrite Uint32_four. unfold u32_at, byte_at.
  replace (Z.to_nat (off + 1)) with (Z.to_nat off + 1)%nat by lia.
  replace (Z.to_nat (off + 2)) with (Z.to_nat off + 2)%nat by lia.
  replace (Z.to_nat (off + 3)) with (Z.to_nat off + 3)%nat by lia.
  reflexivity.
Qed.

Lemma read_words_spec {A : Type} (conv : Z → A) (nodes : list byte)
    (base : Z) (n : nat) (j : Z) :
  0 <= base → 0 <= j →
  base + 4 * (j + Z.of_nat n) <= Z.of_nat (length nodes) →
  read_words conv nodes base j n
  = Some (map (λ t, conv (u32_at nodes (base + 4 * t))) (seqZ j (Z.of_nat n))).
Proof.
  revert j. induction n as [| n IH]; intros j Hb Hj Hlen.
  - reflexivity.
  - cbn [read_words].
    pose proof (read_word_at nodes (base + 4 * j) ltac:(lia) ltac:(lia)) as Hw.
    replace (base + 4 * j + 4) with (base + 4 + 4 * j) in Hw by lia.
    destruct (slice nodes (base + 4 * j) (base + 4 + 4 * j)) as [b |];
      [| discriminate].
    cbn in Hw |- *. rewrite Hw. cbn.
    rewrite IH by lia. cbn.
    replace (Z.of_nat (S n)) with (Z.succ (Z.of_nat n)) by lia.
    rewrite (seqZ_cons j (Z.succ (Z.of_nat n))) by lia. cbn [map].
    replace (Z.succ j) with (j + 1) by lia.
    replace (Z.pred (Z.succ (Z.of_nat n))) with (Z.of_nat n) by lia.
    reflexivity.
Qed.

(* ===================================================================== *)
(** * The node decoder *)
(* ===================================================================== *)

Lemma quot_stride (f : Z) : Z.quot (12 + 4 * f - 12) 4 = f.
Proof.
  replace (12 + 4 * f - 12) with (f * 4) by lia.
  apply Z.quot_mul. lia.
Qed.

Lemma make_len_nonneg (n : Z) : 0 <= n → make_len n = Some (Z.to_nat n).
Proof.
  intros Hn. unfold make_len.
  destruct (Z.ltb_spec n 0); [lia | reflexivity].
Qed.

(** A record with two descendants falls in the range [1 < descendants <= K]
    and is nevertheless decoded with a vector. *)
Lemma GetNodePtr_two_descendants_reads_vector :
  ∃ nd, GetNodePtr Decoder.two_descendants 16 0 = Some nd ∧
        ¬ Decoder.branches_on_one 1 nd.
Proof.
  eexists. split; [vm_compute; reflexivity |].
  intros [Hbucket _].
  destruct Hbucket as [Hv _]; [cbn; unfold Decoder.capacity; lia |].
  discriminate Hv.
Qed.

(** C1 (amended).  For a record that lies inside the byte region, the decoder
    reads the descendants field as a little-endian 32-bit integer at the
    start of the record and branches on it: when [2 < descendants <= K] it
    reads [K] children at offset 4 and no vector; in every other case (so
    also when [descendants] is 2, or at most 0) it reads exactly two
    children at offset 4 and [f] little-endian binary32 values at offset
    12. *)
Theorem GetNodePtr_branches (nodes : list byte) (f i : Z) :
  0 <= f → f + 2 < 2 ^ 31 → 0 <= i →
  (12 + 4 * f) * (i + 1) <= Z.of_nat (length nodes) →
  let size := 12 + 4 * f in
  let base := size * i in
  ∃ nd, GetNodePtr nodes size i = Some nd ∧
    Descendants nd = i32_at nodes base ∧
    Norm nd = F32.zero ∧
    (2 < Descendants nd <= Decoder.capacity f →
       V nd = None ∧
       Children nd
       = map (λ j, i32_at nodes (base + 4 + 4 * j)) (seqZ 0 (Decoder.capacity f))) ∧
    (¬ (2 < Descendants nd <= Decoder.capacity f) →
       Children nd = [i32_at nodes (base + 4); i32_at nodes (base + 8)] ∧
       V nd = Some (map (λ j, f32_at nodes (base + 12 + 4 * j)) (seqZ 0 f))).
Proof.
  intros Hf Hf32 Hi Hlen size base.
  assert (Hbase : 0 <= base) by (subst base size; nia).
  assert (Hrec : base + size <= Z.of_nat (length nodes)) by (subst base size; nia).
  unfold GetNodePtr. fold base.
  pose proof (read_word_at nodes base Hbase ltac:(subst size; lia)) as Hw.
  destruct (slice nodes base (base + 4)) as [b |]; [| discriminate].
  cbn [mbind option_bind] in Hw |- *. rewrite Hw. cbn [mbind option_bind].
  rewrite int32_u32_at.
  subst size. rewrite quot_stride.
  rewrite (int32_id f) by lia.
  rewrite (int32_id (f + 2)) by lia.
  unfold Decoder.capacity.
  rewrite (read_words_spec int32 nodes (base + 4) 2 0) by lia.
  assert (Hbranch :
    (2 <? i32_at nodes base) && (i32_at nodes base <=? f + 2) = true
    ↔ 2 < i32_at nodes base <= f + 2).
  { rewrite andb_true_iff, Z.ltb_lt, Z.leb_le. reflexivity. }
  destruct ((2 <? i32_at nodes base) && (i32_at nodes base <=? f + 2)).
  - rewrite make_len_nonneg by lia. cbn [mbind option_bind].
    rewrite (read_words_spec int32 nodes (base + 4) (Z.to_nat (f + 2)) 0) by lia.
    cbn [mbind option_bind]. eexists. split; [reflexivity |].
    cbn [Descendants Children Norm V].
    split; [reflexivity |]. split; [reflexivity |]. split.
    + intros _. split; [reflexivity |].
      rewrite Z2Nat.id by lia.
      apply map_ext. intros j. rewrite int32_u32_at. reflexivity.
    + intros Hn. exfalso. apply Hn, Hbranch. reflexivity.
  - rewrite make_len_nonneg by lia. cbn [mbind option_bind].
    rewrite (read_words_spec Float32frombits nodes (base + 12) (Z.to_nat f) 0) by lia.
    cbn [mbind option_bind]. eexists. split; [reflexivity |].
    cbn [Descendants Children Norm V].
    split; [reflexivity |]. split; [reflexivity |]. split.
    + intros Hy. apply Hbranch in Hy. discriminate Hy.
    + intros _. split.
      * change (seqZ 0 (Z.of_nat 2)) with [0; 1]. cbn [map].
        rewrite !int32_u32_at.
        replace (base + 4 + 4 * 0) with (base + 4) by lia.
        replace (base + 4 + 4 * 1) with (base + 8) by lia.
        reflexivity.
      * rewrite Z2Nat.id by lia. reflexivity.
Qed.

Lemma GetNodePtr_branches_witness :
  ∃ nd, GetNodePtr Decoder.two_descendants 16 0 = Some nd ∧
    Descendants nd = i32_at Decoder.two_descendants 0 ∧
    Norm nd = F32.zero ∧
    (2 < Descendants nd <= Decoder.capacity 1 →
       V nd = None ∧
       Children nd
       = map (λ j, i32_at Decoder.two_descendants (0 + 4 + 4 * j))
           (seqZ 0 (Decoder.capacity 1))) ∧
    (¬ (2 < Descendants nd <= Decoder.capacity 1) →
       Children nd = [i32_at Decoder.two_descendants (0 + 4);
                      i32_at Decoder.two_descendants (0 + 8)] ∧
       V nd = Some (map (λ j, f32_at Decoder.two_descendants (0 + 12 + 4 * j))
                      (seqZ 0 1))).
Proof.
  apply (GetNodePtr_branches Decoder.two_descendants 1 0); [lia | lia | lia |].
  vm_compute. discriminate.
Defined.

(* ===================================================================== *)
(** * The angular metric *)
(* ===================================================================== *)

Lemma Dot_from_fold (x y : list F32.t) (n z : nat) (acc : F32.t) :
  (z + n <= length x)%nat → (z + n <= length y)%nat →
  Dot_from x y z n acc
  = Some (fold_left (λ a ab, F32.add a (F32.mul (fst ab) (snd ab)))
            (zip (take n (drop z x)) (take n (drop z y))) acc).
Proof.
  revert z acc. induction n as [| n IH]; intros z acc Hx Hy.
  - reflexivity.
  - cbn [Dot_from].
    destruct (lookup_lt_is_Some_2 x z ltac:(lia)) as [a Ha].
    destruct (lookup_lt_is_Some_2 y z ltac:(lia)) as [b Hb].
    rewrite Ha, Hb. cbn [mbind option_bind].
    rewrite IH by lia.
    rewrite (drop_S x a z Ha), (drop_S y b z Hb).
    reflexivity.
Qed.

Lemma Dot_spec (x y : list F32.t) (f : Z) :
  (Z.to_nat f <= length x)%nat → (Z.to_nat f <= length y)%nat →
  Dot x y f = Some (AngularSpec.dot x y (Z.to_nat f)).
Proof.
  intros Hx Hy. unfold Dot.
  rewrite Dot_from_fold by lia. reflexivity.
Qed.

(** C5.  For nodes [x] and [y] whose vectors have at least [f] entries,
    [Distance(x, y, f)] is [2 - 2*dot(x,y)/sqrt(pp*qq)] when [pp*qq > 0] and
    [2] otherwise, where [pp] and [qq] are the cached squared norms or, when
    the cached value is 0, [dot(v, v)]; and [NormalizeDistance(raw)] is
    [sqrt(max(raw, 0))]. *)
Theorem Angular_Distance_formula (x y : Node) (vx vy : list F32.t) (f : Z) :
  V x = Some vx → V y = Some vy →
  (Z.to_nat f <= length vx)%nat → (Z.to_nat f <= length vy)%nat →
  let pp := AngularSpec.squared_norm (Norm x) vx (Z.to_nat f) in
  let qq := AngularSpec.squared_norm (Norm y) vy (Z.to_nat f) in
  let pq := AngularSpec.dot vx vy (Z.to_nat f) in
  Distance Angular_value x y f
  = Some (if F32.gtb (F32.mul pp qq) F32.zero
          then F32.sub F32.two
                 (F32.div (F32.mul F32.two pq) (AngularSpec.sqrt (F32.mul pp qq)))
          else F32.two)
  ∧ ∀ raw, NormalizeDistance Angular_value raw
           = to_f32 (F64.sqrt (F64.max (to_f64 raw) F64.zero)).
Proof.
  intros Hvx Hvy Hlx Hly pp qq pq. split; [| reflexivity].
  cbn [Distance Angular_DistanceMetric]. unfold AngularImpl.Distance.
  assert (Hpp : AngularImpl.norm_or_dot x f = Some pp).
  { unfold AngularImpl.norm_or_dot, V_all, pp, AngularSpec.squared_norm.
    rewrite Hvx. cbn [default].
    destruct (F32.eqb (Norm x) F32.zero); [apply Dot_spec; assumption | reflexivity]. }
  assert (Hqq : AngularImpl.norm_or_dot y f = Some qq).
  { unfold AngularImpl.norm_or_dot, V_all, qq, AngularSpec.squared_norm.
    rewrite Hvy. cbn [default].
    destruct (F32.eqb (Norm y) F32.zero); [apply Dot_spec; assumption | reflexivity]. }
  rewrite Hpp, Hqq. cbn [mbind option_bind].
  destruct (F32.gtb (F32.mul pp qq) F32.zero); [| reflexivity].
  unfold V_all. rewrite Hvx, Hvy. cbn [default].
  rewrite Dot_spec by assumption. reflexivity.
Qed.


(* ===================================================================== *)
(** * The priority queue: heap operations only exchange elements *)
(* ===================================================================== *)

Section PQFacts.
Local Open Scope nat_scope.

Lemma insert_cons_Permutation {A : Type} (l : list A) (i : nat) (a b : A) :
  l !! i = Some a → b :: l ≡ₚ a :: <[i := b]> l.
Proof.
  revert i. induction l as [| x l IH]; intros [| i] Hi; simplify_eq/=.
  - apply perm_swap.
  - rewrite perm_swap. rewrite (IH i Hi). apply perm_swap.
Qed.

Lemma PQ_Swap_Some (pq : PQ.t) (i j : nat) :
  (i < length pq)%nat → (j < length pq)%nat →
  ∃ a b, pq !! i = Some a ∧ pq !! j = Some b ∧
         PQ.Swap pq i j = Some (<[i := b]> (<[j := a]> pq)).
Proof.
  intros Hi Hj.
  destruct (lookup_lt_is_Some_2 pq i Hi) as [a Ha].
  destruct (lookup_lt_is_Some_2 pq j Hj) as [b Hb].
  exists a, b. unfold PQ.Swap. rewrite Ha, Hb. auto.
Qed.

Lemma PQ_Swap_Permutation (pq pq' : PQ.t) (i j : nat) :
  PQ.Swap pq i j = Some pq' → pq' ≡ₚ pq.
Proof.
  unfold PQ.Swap. intros Hs.
  destruct (pq !! i) as [a |] eqn:Ha; [| discriminate].
  destruct (pq !! j) as [b |] eqn:Hb; [| discriminate].
  cbn in Hs. injection Hs as <-.
  apply (Permutation_cons_inv (a := a)).
  assert (H1 : a :: pq ≡ₚ b :: <[j := a]> pq)
    by (apply insert_cons_Permutation; exact Hb).
  assert (H2 : <[j := a]> pq !! i = Some a).
  { destruct (decide (i = j)) as [-> | Hne].
    - apply list_lookup_insert_eq. eapply lookup_lt_Some; eauto.
    - rewrite list_lookup_insert_ne by auto. exact Ha. }
  rewrite H1. symmetry. apply insert_cons_Permutation. exact H2.
Qed.

Lemma PQ_Swap_length (pq pq' : PQ.t) (i j : nat) :
  PQ.Swap pq i j = Some pq' → length pq' = length pq.
Proof.
  intros Hs. apply Permutation_length, PQ_Swap_Permutation with i j. exact Hs.
Qed.

Lemma PQ_Less_Some (pq : PQ.t) (i j : nat) :
  (i < length pq)%nat → (j < length pq)%nat →
  ∃ a b, pq !! i = Some a ∧ pq !! j = Some b ∧
         PQ.Less pq i j = Some (PQ.less a b).
Proof.
  intros Hi Hj.
  destruct (lookup_lt_is_Some_2 pq i Hi) as [a Ha].
  destruct (lookup_lt_is_Some_2 pq j Hj) as [b Hb].
  exists a, b. unfold PQ.Less. rewrite Ha, Hb. auto.
Qed.

Lemma PQ_up_Permutation (fuel : nat) (h : PQ.t) (j : nat) :
  (j < length h)%nat → ∃ h', PQ.up fuel h j = Some h' ∧ h' ≡ₚ h.
Proof.
  revert h j. induction fuel as [| fuel IH]; intros h j Hj.
  - exists h. split; reflexivity.
  - cbn [PQ.up].
    assert (Hi : ((j - 1) / 2 <= j)%nat).
    { apply Nat.Div0.div_le_upper_bound. lia. }
    destruct (Nat.eqb_spec ((j - 1) / 2) j) as [Heq | Hne].
    + exists h. split; reflexivity.
    + destruct (PQ_Less_Some h j ((j - 1) / 2)) as (a & b & _ & _ & ->); [lia .. |].
      cbn [mbind option_bind].
      destruct (PQ.less a b); cbn [negb].
      * destruct (PQ_Swap_Some h ((j - 1) / 2) j) as (a' & b' & _ & _ & Hs);
          [lia .. |].
        rewrite Hs. cbn [mbind option_bind].
        pose proof (PQ_Swap_Permutation _ _ _ _ Hs) as Hp.
        destruct (IH (<[(j - 1) / 2 := b']> (<[j := a']> h)) ((j - 1) / 2))
          as (h' & Hup & Hp').
        { rewrite (Permutation_length Hp). lia. }
        exists h'. split; [exact Hup |]. rewrite Hp'. exact Hp.
      * exists h. split; reflexivity.
Qed.

Lemma PQ_down_Permutation (fuel : nat) (h : PQ.t) (i n : nat) :
  (n <= length h)%nat →
  ∃ h', PQ.down fuel h i n = Some h' ∧ h' ≡ₚ h ∧
        ∀ t, (n <= t)%nat → h' !! t = h !! t.
Proof.
  revert h i. induction fuel as [| fuel IH]; intros h i Hn.
  - exists h. repeat split; reflexivity.
  - cbn [PQ.down].
    destruct (Nat.leb_spec n (2 * i + 1)) as [Hge | Hlt].
    + exists h. repeat split; reflexivity.
    + assert (Hchild : ∃ lt21 : bool,
        ((if (2 * i + 1 + 1 <? n)%nat then PQ.Less h (2 * i + 1 + 1) (2 * i + 1)
          else Some false) : option bool) = Some lt21 ∧
        (lt21 = true → (2 * i + 1 + 1 < n)%nat)).
      { destruct (Nat.ltb_spec (2 * i + 1 + 1) n) as [H2 | H2].
        - destruct (PQ_Less_Some h (2 * i + 1 + 1) (2 * i + 1))
            as (a & b & _ & _ & ->); [lia .. |].
          eexists. split; [reflexivity | auto].
        - exists false. split; [reflexivity | discriminate]. }
      destruct Hchild as (lt21 & -> & Hlt21). cbn [mbind option_bind].
      set (j := if lt21 then (2 * i + 1 + 1)%nat else (2 * i + 1)%nat).
      assert (Hj : (j < n)%nat ∧ (i < j)%nat).
      { subst j. destruct lt21; [specialize (Hlt21 eq_refl) |]; lia. }
      destruct (PQ_Less_Some h j i) as (a & b & _ & _ & ->); [lia .. |].
      cbn [mbind option_bind].
      destruct (PQ.less a b); cbn [negb].
      * destruct (PQ_Swap_Some h i j) as (a' & b' & _ & _ & Hs); [lia .. |].
        rewrite Hs. cbn [mbind option_bind].
        pose proof (PQ_Swap_Permutation _ _ _ _ Hs) as Hp.
        destruct (IH (<[i := b']> (<[j := a']> h)) j) as (h' & Hd & Hp' & Hfix).
        { rewrite (Permutation_length Hp). lia. }
        exists h'. split; [exact Hd |]. split; [rewrite Hp'; exact Hp |].
        intros t Ht. rewrite Hfix by exact Ht.
        rewrite !list_lookup_insert_ne by lia. reflexivity.
      * exists h. repeat split; reflexivity.
Qed.

Lemma PQ_heap_Push_Permutation (h : PQ.t) (x : Pair) :
  ∃ h', PQ.heap_Push h x = Some h' ∧ h' ≡ₚ x :: h.
Proof.
  unfold PQ.heap_Push, PQ.Push, PQ.Len.
  destruct (PQ_up_Permutation (length (h ++ [x])) (h ++ [x])
              (length (h ++ [x]) - 1)) as (h' & Hup & Hp).
  { rewrite length_app. cbn. lia. }
  exists h'. split; [exact Hup |].
  rewrite Hp. rewrite Permutation_app_comm. reflexivity.
Qed.

Lemma last_removelast {A : Type} (l : list A) (x : A) :
  last l = Some x → l = removelast l ++ [x].
Proof.
  intros Hl. destruct (decide (l = [])) as [-> | Hne]; [discriminate |].
  rewrite (app_removelast_last x Hne) at 1.
  f_equal. f_equal.
  rewrite last_lookup in Hl.
  clear Hne. induction l as [| a [| b l] IH]; cbn in *; [discriminate | congruence |].
  apply IH. exact Hl.
Qed.

(** [heap.Pop] on a queue that is not empty returns the element at index 0
    and leaves the other elements, in some order. *)
Lemma PQ_heap_Pop_Permutation (h : PQ.t) :
  h ≠ [] →
  ∃ top h', PQ.heap_Pop h = Some (top, h') ∧ h !! 0%nat = Some top ∧
            h ≡ₚ top :: h'.
Proof.
  intros Hne. unfold PQ.heap_Pop, PQ.Len.
  destruct (length h) as [| n] eqn:Hlen.
  { destruct h; [congruence | discriminate]. }
  destruct (PQ_Swap_Some h 0 n) as (a & b & Ha & Hb & Hs); [lia .. |].
  rewrite Hs. cbn [mbind option_bind].
  pose proof (PQ_Swap_Permutation _ _ _ _ Hs) as Hp.
  destruct (PQ_down_Permutation n (<[0%nat := b]> (<[n := a]> h)) 0 n)
    as (h2 & -> & Hp2 & Hfix).
  { rewrite (Permutation_length Hp). lia. }
  cbn [mbind option_bind]. unfold PQ.Pop.
  assert (Hlen2 : length h2 = S n).
  { rewrite (Permutation_length Hp2), (Permutation_length Hp). exact Hlen. }
  assert (Hlast : last h2 = Some a).
  { rewrite last_lookup, Hlen2. cbn [Nat.pred].
    rewrite Hfix by lia.
    destruct n as [| n].
    - destruct h as [| x [| y h]]; cbn in *; try discriminate. congruence.
    - rewrite list_lookup_insert_ne by lia.
      apply list_lookup_insert_eq. lia. }
  rewrite Hlast. cbn [mbind option_bind].
  exists a, (removelast h2). split; [reflexivity |]. split; [exact Ha |].
  rewrite <- Hp, <- Hp2.
  rewrite (last_removelast h2 a Hlast) at 1.
  rewrite Permutation_app_comm. reflexivity.
Qed.

End PQFacts.

(* ===================================================================== *)
(** * The angular metric is lawful *)
(* ===================================================================== *)

Lemma F32_eqb_zero_zero : F32.eqb F32.zero F32.zero = true.
Proof. reflexivity. Qed.

#[export] Instance Angular_Lawful : LawfulMetric Angular.
Proof.
  split.
  - intros d nd nd' f Hi. cbn in Hi. unfold AngularImpl.InitNode in Hi.
    destruct (Dot (V_all nd) (V_all nd) f); [| discriminate].
    cbn in Hi. injection Hi as <-. cbn. auto.
  - intros d nd f v Hv Hlen. cbn. unfold AngularImpl.InitNode, V_all.
    rewrite Hv. cbn [default]. rewrite Dot_spec by assumption.
    cbn. eauto.
  - intros d x nd nd' f Hnorm Hi. cbn in Hi |- *.
    unfold AngularImpl.InitNode in Hi.
    destruct (Dot (V_all nd) (V_all nd) f) as [n |] eqn:Hdot; [| discriminate].
    cbn in Hi. injection Hi as <-.
    unfold AngularImpl.Distance.
    assert (Hq : AngularImpl.norm_or_dot
                   {| Descendants := Descendants nd; Children := Children nd;
                      Norm := n; V := V nd |} f
                 = AngularImpl.norm_or_dot nd f).
    { unfold AngularImpl.norm_or_dot, V_all. cbn [Norm V].
      rewrite Hnorm, F32_eqb_zero_zero.
      fold (V_all nd). rewrite Hdot.
      destruct (F32.eqb n F32.zero); reflexivity. }
    rewrite Hq. unfold V_all. cbn [V]. reflexivity.
  - intros d nd nd' v f Hi. cbn in Hi |- *.
    unfold AngularImpl.InitNode in Hi.
    destruct (Dot (V_all nd) (V_all nd) f); [| discriminate].
    cbn in Hi. injection Hi as <-. reflexivity.
Qed.

(* ===================================================================== *)
(** * Node lookup and the cache *)
(* ===================================================================== *)

Lemma read_words_length {A : Type} (conv : Z → A) (nodes : list byte)
    (base : Z) (n : nat) (j : Z) (l : list A) :
  read_words conv nodes base j n = Some l → length l = n.
Proof.
  revert j l. induction n as [| n IH]; intros j l Hr; cbn in Hr.
  - injection Hr as <-. reflexivity.
  - destruct (slice nodes (base + 4 * j) (base + 4 + 4 * j)); [| discriminate].
    cbn in Hr. destruct (Uint32 l0); [| discriminate]. cbn in Hr.
    destruct (read_words conv nodes base (j + 1) n) eqn:Hrest; [| discriminate].
    cbn in Hr. injection Hr as <-. cbn. f_equal. eapply IH. exact Hrest.
Qed.

(** What every decoded node looks like: norm 0; either no vector, more than
    two descendants and [(size - 12) / 4 + 2] children, or a vector of
    [(size - 12) / 4] entries and two children. *)
Lemma GetNodePtr_shape (nodes : list byte) (size i : Z) (nd : Node) :
  GetNodePtr nodes size i = Some nd →
  let q := Z.quot (size - 12) 4 in
  Norm nd = F32.zero ∧
  (∀ v, V nd = Some v → length v = Z.to_nat q) ∧
  (V nd = None →
     2 < Descendants nd <= int32 (int32 q + 2) ∧
     Z.of_nat (length (Children nd)) = q + 2) ∧
  (is_Some (V nd) →
     ¬ (2 < Descendants nd <= int32 (int32 q + 2)) ∧
     length (Children nd) = 2%nat).
Proof.
  intros Hg q. unfold GetNodePtr in Hg. fold q in Hg.
  destruct (slice nodes (size * i) (size * i + 4)); [| discriminate].
  cbn [mbind option_bind] in Hg.
  destruct (Uint32 l); [| discriminate]. cbn [mbind option_bind] in Hg.
  destruct ((2 <? int32 z) && (int32 z <=? int32 (int32 q + 2))) eqn:Hb.
  - unfold make_len in Hg.
    destruct (Z.ltb_spec (q + 2) 0); [discriminate |].
    cbn [mbind option_bind] in Hg.
    destruct (read_words int32 nodes (size * i + 4) 0 _) eqn:Hr; [| discriminate].
    cbn in Hg. injection Hg as <-. cbn.
    apply read_words_length in Hr.
    apply andb_true_iff in Hb as [Hb1 Hb2].
    apply Z.ltb_lt in Hb1. apply Z.leb_le in Hb2.
    split; [reflexivity |]. split; [discriminate |].
    split; [intros _; lia |].
    intros [? ?]. discriminate.
  - destruct (read_words int32 nodes (size * i + 4) 0 2) eqn:Hr; [| discriminate].
    cbn [mbind option_bind] in Hg. unfold make_len in Hg.
    destruct (Z.ltb_spec q 0); [discriminate |].
    cbn [mbind option_bind] in Hg.
    destruct (read_words Float32frombits nodes (size * i + 12) 0 _) eqn:Hv;
      [| discriminate].
    cbn in Hg. injection Hg as <-. cbn.
    apply read_words_length in Hr. apply read_words_length in Hv.
    split; [reflexivity |].
    split; [intros v [= <-]; exact Hv |].
    split; [discriminate |].
    intros _. split; [| exact Hr].
    intros [H1 H2].
    apply andb_false_iff in Hb as [Hb | Hb];
      [apply Z.ltb_ge in Hb | apply Z.leb_gt in Hb]; lia.
Qed.

Section NodeLookup.
Context {D : Type} `{DistanceMetric D}.
Import Annoy Inv.

Lemma getNode_frame (index index' : AnnoyIndex D) (i : Z) (nd : Node) :
  getNode index i = Some (nd, index') →
  index' = set_cache index (cache index').
Proof.
  unfold getNode. intros Hg. destruct index as [d0 f0 s0 ni no nn ro k0 fd0 mm ca].
  cbn in *.
  destruct mm.
  - destruct (GetNodePtr _ _ _); [| discriminate]. cbn in Hg.
    injection Hg as <- <-. reflexivity.
  - destruct (ca !! i).
    + injection Hg as <- <-. reflexivity.
    + destruct (GetNodePtr _ _ _) as [raw |]; [| discriminate]. cbn in Hg.
      destruct (V raw).
      * destruct (InitNode d0 raw f0); [| discriminate]. cbn in Hg.
        injection Hg as <- <-. reflexivity.
      * injection Hg as <- <-. reflexivity.
Qed.

(** A lookup returns the decoded node (mapped mode) or its stored form
    (resident mode), and keeps the cache coherent. *)
Lemma getNode_decodes (index index' : AnnoyIndex D) (i : Z) (nd : Node) :
  cache_coherent index →
  getNode index i = Some (nd, index') →
  cache_coherent index' ∧
  ∃ raw, GetNodePtr (nodes_bytes index) (s index) i = Some raw ∧
    (if mmap index is Some _ then nd = raw ∧ index' = index
     else cached_form index raw = Some nd).
Proof.
  intros Hc Hg. pose proof (getNode_frame _ _ _ _ Hg) as Hfr.
  unfold getNode in Hg.
  destruct (mmap index) eqn:Hm.
  - destruct (GetNodePtr (nodes_bytes index) (s index) i) as [raw |] eqn:Hd;
      [| discriminate].
    cbn in Hg. injection Hg as <- <-. split; [exact Hc |]. eauto.
  - destruct (cache index !! i) as [cnd |] eqn:Hl.
    + injection Hg as <- <-. split; [exact Hc |].
      destruct (Hc Hm i cnd Hl) as (raw & Hd & Hcf). eauto.
    + destruct (GetNodePtr (nodes_bytes index) (s index) i) as [raw |] eqn:Hd;
        [| discriminate].
      cbn in Hg.
      assert (Hcf : cached_form index raw = Some nd ∧
                    index' = set_cache index (<[i := nd]> (cache index))).
      { unfold cached_form. destruct (V raw).
        - destruct (InitNode (distance index) raw (f index)); [| discriminate].
          cbn in Hg. injection Hg as <- <-. auto.
        - injection Hg as <- <-. auto. }
      destruct Hcf as [Hcf ->]. split; [| eauto].
      intros _ j ndj Hj. cbn in Hj.
      destruct (decide (i = j)) as [<- | Hne].
      * rewrite lookup_insert_eq in Hj. injection Hj as <-.
        exists raw. split; [exact Hd | exact Hcf].
      * rewrite lookup_insert_ne in Hj by exact Hne.
        destruct (Hc Hm j ndj Hj) as (rawj & Hdj & Hcfj).
        exists rawj. split; [exact Hdj | exact Hcfj].
Qed.

Context `{!LawfulMetric D}.

(** The stored form differs from the decoded node in its norm only. *)
Lemma cached_form_fields (index : AnnoyIndex D) (raw nd : Node) :
  cached_form index raw = Some nd →
  Descendants nd = Descendants raw ∧ Children nd = Children raw ∧
  V nd = V raw.
Proof.
  unfold cached_form. destruct (V raw) eqn:Hv.
  - intros Hi. apply InitNode_fields in Hi. rewrite Hv in Hi. exact Hi.
  - intros [= <-]. auto.
Qed.

Lemma cached_form_total (index : AnnoyIndex D) (bytes : list byte) (i : Z)
    (raw : Node) :
  well_formed index →
  GetNodePtr bytes (s index) i = Some raw →
  is_Some (cached_form index raw).
Proof.
  intros (Hf & _ & Hs & _) Hd. unfold cached_form.
  destruct (V raw) as [v |] eqn:Hv; [| eauto].
  apply GetNodePtr_shape in Hd as (_ & Hlen & _).
  specialize (Hlen v Hv). rewrite Hs, quot_stride in Hlen.
  eapply InitNode_total; [exact Hv | lia].
Qed.

(** A lookup succeeds exactly when the decoder does. *)
Lemma getNode_total (index : AnnoyIndex D) (i : Z) (raw : Node) :
  well_formed index → cache_coherent index →
  GetNodePtr (nodes_bytes index) (s index) i = Some raw →
  ∃ nd index', getNode index i = Some (nd, index').
Proof.
  intros Hwf Hc Hd. unfold getNode. rewrite Hd.
  destruct (mmap index); [cbn; eauto |].
  destruct (cache index !! i); [eauto |]. cbn.
  destruct (cached_form_total index _ i raw Hwf Hd) as [nd Hcf].
  unfold cached_form in Hcf. destruct (V raw).
  - rewrite Hcf. cbn. eauto.
  - eauto.
Qed.

Lemma getNode_panics (index : AnnoyIndex D) (i : Z) :
  cache_coherent index →
  GetNodePtr (nodes_bytes index) (s index) i = None →
  getNode index i = None.
Proof.
  intros Hc Hd. unfold getNode. rewrite Hd.
  destruct (mmap index) eqn:Hm; [reflexivity |].
  destruct (cache index !! i) as [nd |] eqn:Hl; [| reflexivity].
  destruct (Hc Hm i nd Hl) as (raw & Hraw & _). congruence.
Qed.

End NodeLookup.

(* ===================================================================== *)
(** * Load: validation of the file size *)
(* ===================================================================== *)

Section LoadValidation.
Context {D : Type} `{DistanceMetric D}.
Import Annoy Inv.

(** C9.  When the file is empty or its length is not a positive exact
    multiple of the record stride [s = 12 + 4f], [Load] returns an error and
    installs nothing: roots, item count, node count, backing bytes, mapping
    and cache are what they were, so an index that was unloaded is left
    unloaded.  The error is the one for an empty file or the one for a size
    that is no multiple of the stride (or the one of a failed [Stat]). *)
Theorem Load_rejects_bad_size (fsys : FileSystem) (index : AnnoyIndex D)
    (filename : String.string) (memory : bool) (file : OsFile) :
  0 <= f index → s index = 12 + 4 * f index →
  fsys filename = Some file →
  ¬ (∃ q, 0 < q ∧ Z.of_nat (length (file_bytes file)) = q * s index) →
  ∃ e index',
    Load fsys index filename memory = Some (Some e, index') ∧
    (stat_fails file = false →
       e = if Z.of_nat (length (file_bytes file)) =? 0
           then SizeOfFileIsZero else IndexSizeNotMultiple) ∧
    roots index' = roots index ∧ nItems index' = nItems index ∧
    nNodes index' = nNodes index ∧ nodes index' = nodes index ∧
    mmap index' = mmap index ∧ cache index' = cache index ∧
    (unloaded index → unloaded index').
Proof.
  intros Hf Hs Hopen Hbad. unfold Load. rewrite Hopen.
  destruct (stat_fails file) eqn:Hstat.
  { eexists _, _. split; [reflexivity |]. split; [discriminate |].
    repeat (split; [reflexivity |]). intros Hu. exact Hu. }
  cbn [set_fd s].
  destruct (Z.eqb_spec (Z.of_nat (length (file_bytes file))) 0) as [Hz | Hnz].
  { eexists _, _. split; [reflexivity |]. split; [reflexivity |].
    repeat (split; [reflexivity |]). intros Hu. exact Hu. }
  destruct (Z.eqb_spec (s index) 0) as [Hs0 | Hs0]; [lia |].
  destruct (Z.eqb_spec (Z.rem (Z.of_nat (length (file_bytes file))) (s index)) 0)
    as [Hrem | Hrem].
  { exfalso. apply Hbad.
    exists (Z.quot (Z.of_nat (length (file_bytes file))) (s index)).
    pose proof (Z.quot_rem' (Z.of_nat (length (file_bytes file))) (s index)) as Hqr.
    rewrite Hrem in Hqr.
    split; [| lia].
    apply Z.quot_str_pos. split; [lia |].
    destruct (Z.le_gt_cases (s index) (Z.of_nat (length (file_bytes file))))
      as [Hle | Hgt]; [exact Hle |].
    rewrite Z.rem_small in Hrem by lia. lia. }
  cbn [negb].
  eexists _, _. split; [reflexivity |]. split; [reflexivity |].
  repeat (split; [reflexivity |]). intros Hu. exact Hu.
Qed.

End LoadValidation.

(* ===================================================================== *)
(** * Load: root discovery *)
(* ===================================================================== *)





Lemma decode_in_range (bytes : list byte) (f i : Z) :
  0 <= f → f + 2 < 2 ^ 31 → 0 <= i →
  (12 + 4 * f) * (i + 1) <= Z.of_nat (length bytes) →
  ∃ raw, GetNodePtr bytes (12 + 4 * f) i = Some raw ∧
    Descendants raw = i32_at bytes ((12 + 4 * f) * i) ∧
    Children raw !! 0%nat = Some (i32_at bytes ((12 + 4 * f) * i + 4)).
Proof.
  intros Hf Hf2 Hi Hlen.
  set (base := (12 + 4 * f) * i).
  assert (Hbase : 0 <= base) by (subst base; nia).
  assert (Hrec : base + (12 + 4 * f) <= Z.of_nat (length bytes))
    by (subst base; nia).
  unfold GetNodePtr. fold base.
  pose proof (read_word_at bytes base Hbase ltac:(lia)) as Hw.
  destruct (slice bytes base (base + 4)) as [b |]; [| discriminate].
  cbn [mbind option_bind] in Hw |- *. rewrite Hw. cbn [mbind option_bind].
  rewrite int32_u32_at, quot_stride.
  rewrite (int32_id f), (int32_id (f + 2)) by lia.
  rewrite (read_words_spec int32 bytes (base + 4) 2 0) by lia.
  destruct ((2 <? i32_at bytes base) && (i32_at bytes base <=? f + 2)).
  - rewrite make_len_nonneg by lia. cbn [mbind option_bind].
    rewrite (read_words_spec int32 bytes (base + 4) (Z.to_nat (f + 2)) 0) by lia.
    cbn [mbind option_bind]. eexists. split; [reflexivity |].
    cbn [Descendants Children]. split; [reflexivity |].
    rewrite Z2Nat.id by lia.
    rewrite seqZ_cons by lia. cbn [map lookup list_lookup].
    rewrite int32_u32_at. do 2 f_equal. lia.
  - rewrite make_len_nonneg by lia. cbn [mbind option_bind].
    rewrite (read_words_spec Float32frombits bytes (base + 12) (Z.to_nat f) 0) by lia.
    cbn [mbind option_bind]. eexists. split; [reflexivity |].
    cbn [Descendants Children]. split; [reflexivity |].
    change (seqZ 0 (Z.of_nat 2)) with [0; 1]. cbn [map lookup list_lookup].
    rewrite int32_u32_at. do 2 f_equal. lia.
Qed.

Section RootDiscovery.
Context {D : Type} `{DistanceMetric D} `{!LawfulMetric D}.
Import Annoy Inv Frame.

Lemma config_eq_refl (a : AnnoyIndex D) : config_eq a a.
Proof. reflexivity. Qed.

Lemma config_eq_trans (a b c : AnnoyIndex D) :
  config_eq a b → config_eq b c → config_eq a c.
Proof. unfold config_eq. congruence. Qed.

Lemma config_eq_fields (a b : AnnoyIndex D) :
  config_eq a b →
  distance a = distance b ∧ f a = f b ∧ s a = s b ∧ k a = k b ∧
  nodes a = nodes b ∧ mmap a = mmap b ∧ nNodes a = nNodes b ∧
  nItems a = nItems b ∧ fd a = fd b.
Proof.
  unfold config_eq. destruct a, b. cbn. intros [=]. subst. repeat split.
Qed.

Lemma config_eq_well_formed (a b : AnnoyIndex D) :
  config_eq a b → well_formed a → well_formed b.
Proof.
  intros Hc. apply config_eq_fields in Hc as (_ & Hf & Hs & Hk & _).
  unfold well_formed. rewrite Hf, Hs, Hk. auto.
Qed.

Lemma getNode_config_eq (index index' : AnnoyIndex D) (i : Z) (nd : Node) :
  getNode index i = Some (nd, index') → config_eq index index'.
Proof.
  intros Hg. apply getNode_frame in Hg. rewrite Hg.
  unfold config_eq. destruct index. reflexivity.
Qed.

Lemma getNode_roots (index index' : AnnoyIndex D) (i : Z) (nd : Node) :
  getNode index i = Some (nd, index') → roots index' = roots index.
Proof.
  intros Hg. apply getNode_frame in Hg. rewrite Hg. reflexivity.
Qed.

Lemma set_roots_coherent (index : AnnoyIndex D) (rs : list Z) :
  cache_coherent index → cache_coherent (set_roots index rs).
Proof. intros Hc. exact Hc. Qed.

(** A lookup inside the file: it succeeds, and shows the descendants and the
    first child the bytes hold. *)
Lemma getNode_in_range (index : AnnoyIndex D) (i : Z) :
  well_formed index → cache_coherent index →
  0 <= i → s index * (i + 1) <= Z.of_nat (length (nodes_bytes index)) →
  ∃ nd index', getNode index i = Some (nd, index') ∧
    Descendants nd = i32_at (nodes_bytes index) (s index * i) ∧
    Children nd !! 0%nat = Some (i32_at (nodes_bytes index) (s index * i + 4)) ∧
    cache_coherent index'.
Proof.
  intros Hwf Hc Hi Hlen.
  pose proof Hwf as (Hf & Hf2 & Hs & Hk).
  rewrite Hs in Hlen.
  destruct (decode_in_range (nodes_bytes index) (f index) i Hf Hf2 Hi Hlen)
    as (raw & Hd & Hdesc & Hch).
  rewrite <- Hs in Hd, Hdesc, Hch.
  destruct (getNode_total index i raw Hwf Hc Hd) as (nd & index' & Hg).
  exists nd, index'. split; [exact Hg |].
  destruct (getNode_decodes index index' i nd Hc Hg) as (Hc' & raw' & Hd' & Hmode).
  assert (raw' = raw) by congruence. subst raw'.
  assert (Hfields : Descendants nd = Descendants raw ∧ Children nd = Children raw).
  { destruct (mmap index).
    - destruct Hmode as [-> _]. auto.
    - apply cached_form_fields in Hmode. tauto. }
  destruct Hfields as [-> ->]. auto.
Qed.

(** The root scan of [Load] is the scan over the descendants fields of the
    file. *)
Lemma scan_roots_scan (cnt : nat) (index : AnnoyIndex D) (i m : Z) :
  well_formed index → cache_coherent index →
  i = Z.of_nat cnt - 1 →
  s index * Z.of_nat cnt <= Z.of_nat (length (nodes_bytes index)) →
  ∃ index',
    scan_roots index cnt i m
    = Some (fst (RootScan.scan (λ j, i32_at (nodes_bytes index) (s index * j))
                   cnt i m (roots index)), index') ∧
    roots index'
    = snd (RootScan.scan (λ j, i32_at (nodes_bytes index) (s index * j))
             cnt i m (roots index)) ∧
    config_eq index index' ∧ cache_coherent index'.
Proof.
  revert index i m. induction cnt as [| cnt IH]; intros index i m Hwf Hc Hi Hlen.
  - exists index. cbn. auto using config_eq_refl.
  - cbn [scan_roots RootScan.scan].
    assert (Hin : s index * (i + 1) <= Z.of_nat (length (nodes_bytes index))).
    { replace (i + 1) with (Z.of_nat (S cnt)) by lia. exact Hlen. }
    assert (H0i : 0 <= i) by lia.
    destruct (getNode_in_range index i Hwf Hc H0i Hin)
      as (nd & index1 & Hg & Hdesc & _ & Hc1).
    rewrite Hg. cbn [mbind option_bind]. rewrite Hdesc.
    pose proof (getNode_config_eq _ _ _ _ Hg) as Hcfg.
    pose proof (getNode_roots _ _ _ _ Hg) as Hroots.
    rewrite Hroots.
    destruct ((m =? -1) || (i32_at (nodes_bytes index) (s index * i) =? m)).
    + pose proof (config_eq_fields _ _ Hcfg) as (_ & _ & Hs & _ & Hn & _).
      assert (Hbytes : nodes_bytes (set_roots index1 (roots index ++ [i]))
                       = nodes_bytes index).
      { unfold nodes_bytes. cbn. rewrite Hn. reflexivity. }
      destruct (IH (set_roots index1 (roots index ++ [i])) (i - 1)
                  (i32_at (nodes_bytes index) (s index * i)))
        as (index' & Hscan & Hr & Hcfg' & Hc').
      * eapply config_eq_well_formed; [| exact Hwf].
        eapply config_eq_trans; [exact Hcfg |].
        unfold config_eq. destruct index1. reflexivity.
      * apply set_roots_coherent. exact Hc1.
      * lia.
      * rewrite Hbytes. cbn [s set_roots]. rewrite <- Hs.
        destruct Hwf as (Hf0 & _ & Hs0 & _). nia.
      * rewrite Hbytes in Hscan, Hr. cbn [s set_roots roots] in Hscan, Hr.
        rewrite <- Hs in Hscan, Hr.
        exists index'. split; [exact Hscan |]. split; [exact Hr |].
        split; [| exact Hc'].
        eapply config_eq_trans; [exact Hcfg |].
        eapply config_eq_trans; [| exact Hcfg'].
        unfold config_eq. destruct index1. reflexivity.
    + exists index1. cbn. rewrite Hroots. auto.
Qed.

End RootDiscovery.

Lemma scan_range (desc : Z → Z) (cnt : nat) (i m : Z) (rs : list Z) (r : Z) :
  r ∈ snd (RootScan.scan desc cnt i m rs) →
  r ∈ rs ∨ i - Z.of_nat cnt < r <= i.
Proof.
  revert i m rs. induction cnt as [| cnt IH]; intros i m rs Hr.
  - left. exact Hr.
  - cbn [RootScan.scan] in Hr.
    destruct ((m =? -1) || (desc i =? m)).
    + apply IH in Hr as [Hr | Hr].
      * apply elem_of_app in Hr as [Hr | Hr]; [left; exact Hr |].
        apply list_elem_of_singleton in Hr. right. lia.
      * right. lia.
    + left. exact Hr.
Qed.

Section LoadRoots.
Context {D : Type} `{DistanceMetric D} `{!LawfulMetric D}.
Import Annoy Inv Frame.

(** The step after the scan drops the last root as the specification says. *)
Lemma drop_duplicate_root_spec (index : AnnoyIndex D) :
  well_formed index → cache_coherent index →
  (∀ r, r ∈ roots index →
     0 <= r ∧ s index * (r + 1) <= Z.of_nat (length (nodes_bytes index))) →
  ∃ index',
    drop_duplicate_root index = Some index' ∧
    roots index'
    = RootSpec.drop_duplicate
        (λ j, i32_at (nodes_bytes index) (s index * j + 4)) (roots index) ∧
    config_eq index index' ∧ cache_coherent index'.
Proof.
  intros Hwf Hc Hrange. unfold drop_duplicate_root, RootSpec.drop_duplicate.
  destruct (Z.ltb_spec 1 (Z.of_nat (length (roots index)))) as [Hlen | Hlen].
  - destruct (lookup_lt_is_Some_2 (roots index) 0%nat ltac:(lia)) as [r0 Hr0].
    destruct (lookup_lt_is_Some_2 (roots index)
                (length (roots index) - 1)%nat ltac:(lia)) as [rl Hrl].
    rewrite head_lookup, Hr0, last_lookup.
    replace (Nat.pred (length (roots index)))
      with (length (roots index) - 1)%nat by lia.
    rewrite Hrl. cbn [mbind option_bind andb].
    destruct (Hrange r0) as [Hr0a Hr0b]; [eapply list_elem_of_lookup_2; eauto |].
    destruct (Hrange rl) as [Hrla Hrlb]; [eapply list_elem_of_lookup_2; eauto |].
    destruct (getNode_in_range index r0 Hwf Hc Hr0a Hr0b)
      as (n0 & index1 & Hg0 & _ & Hc0 & Hc1).
    rewrite Hg0. cbn [mbind option_bind]. rewrite Hc0. cbn [mbind option_bind].
    pose proof (getNode_config_eq _ _ _ _ Hg0) as Hcfg1.
    pose proof (getNode_roots _ _ _ _ Hg0) as Hroots1.
    pose proof (config_eq_fields _ _ Hcfg1) as (_ & _ & Hs1 & _ & Hn1 & _).
    assert (Hb1 : nodes_bytes index1 = nodes_bytes index)
      by (unfold nodes_bytes; rewrite Hn1; reflexivity).
    rewrite Hroots1, Hrl. cbn [mbind option_bind].
    destruct (getNode_in_range index1 rl) as (nl & index2 & Hgl & _ & Hcl & Hc2).
    { eapply config_eq_well_formed; eauto. }
    { exact Hc1. }
    { exact Hrla. }
    { rewrite Hb1, <- Hs1. exact Hrlb. }
    rewrite Hgl. cbn [mbind option_bind]. rewrite Hcl. cbn [mbind option_bind].
    rewrite Hb1, <- Hs1.
    pose proof (getNode_config_eq _ _ _ _ Hgl) as Hcfg2.
    pose proof (getNode_roots _ _ _ _ Hgl) as Hroots2.
    destruct (i32_at (nodes_bytes index) (s index * r0 + 4)
              =? i32_at (nodes_bytes index) (s index * rl + 4)).
    + eexists. split; [reflexivity |]. cbn [roots set_roots].
      rewrite Hroots2, Hroots1.
      split; [rewrite removelast_firstn_len; f_equal; lia |].
      split; [| exact Hc2].
      eapply config_eq_trans; [exact Hcfg1 |].
      eapply config_eq_trans; [exact Hcfg2 |].
      unfold config_eq. destruct index2. reflexivity.
    + exists index2. split; [reflexivity |].
      rewrite Hroots2, Hroots1. split; [reflexivity |].
      split; [| exact Hc2].
      eapply config_eq_trans; eauto.
  - exists index. split; [reflexivity |].
    split; [| split; [apply config_eq_refl | exact Hc]].
    destruct (head (roots index)); [| reflexivity].
    destruct (last (roots index)); reflexivity.
Qed.

(** What [Load] computes on a file of acceptable size, in terms of the scan
    over the descendants fields. *)
Lemma Load_scan (fsys : FileSystem) (index : AnnoyIndex D)
    (filename : String.string) (memory : bool) (file : OsFile) :
  well_formed index →
  fsys filename = Some file →
  stat_fails file = false → read_fails file = false → map_fails file = false →
  let bytes := file_bytes file in
  let n := Z.quot (Z.of_nat (length bytes)) (s index) in
  0 < Z.of_nat (length bytes) →
  Z.rem (Z.of_nat (length bytes)) (s index) = 0 →
  n < 2 ^ 31 →
  (memory = true → cache_matches index bytes) →
  let desc := λ i, i32_at bytes (s index * i) in
  let first_child := λ i, i32_at bytes (s index * i + 4) in
  ∃ index',
    Load fsys index filename memory = Some (None, index') ∧
    nItems index' = fst (RootScan.scan desc (Z.to_nat n) (n - 1) (-1) []) ∧
    roots index'
    = RootSpec.drop_duplicate first_child
        (snd (RootScan.scan desc (Z.to_nat n) (n - 1) (-1) [])) ∧
    nNodes index' = n ∧ nodes index' = Some bytes ∧
    mmap index' = (if memory then None else Some bytes) ∧
    f index' = f index ∧ s index' = s index ∧ k index' = k index ∧
    distance index' = distance index ∧
    cache_coherent index'.
Proof.
  intros Hwf Hopen Hstat Hread Hmap bytes n Hpos Hrem Hn Hcache desc first_child.
  pose proof Hwf as (Hf & Hf2 & Hs & Hk).
  assert (Hspos : 0 < s index) by lia.
  assert (Hn0 : 0 < n).
  { subst n. apply Z.quot_str_pos. split; [lia |].
    destruct (Z.le_gt_cases (s index) (Z.of_nat (length bytes))) as [? | Hgt];
      [assumption |].
    rewrite Z.rem_small in Hrem by lia. lia. }
  assert (Hsize : Z.of_nat (length bytes) = s index * n).
  { pose proof (Z.quot_rem' (Z.of_nat (length bytes)) (s index)) as Hqr.
    rewrite Hrem in Hqr. subst n. lia. }
  unfold Load. rewrite Hopen, Hstat. fold bytes.
  cbn [set_fd s].
  destruct (Z.eqb_spec (Z.of_nat (length bytes)) 0); [lia |].
  destruct (Z.eqb_spec (s index) 0); [lia |].
  rewrite Hrem. cbn [Z.eqb negb].
  rewrite Hread, Hmap. fold n.
  set (index1 :=
    set_roots
      (set_nNodes
         (if memory
          then set_nodes (set_mmap (set_fd index (Some file)) None) (Some bytes)
          else set_nodes (set_mmap (set_fd index (Some file)) (Some bytes))
                 (Some bytes))
         (int32 n)) []).
  assert (Hgoal : ∃ index',
    ('(m, ix) ← scan_roots index1
                  (Z.to_nat (int32 (nNodes index1 - 1) + 1))
                  (int32 (nNodes index1 - 1)) (-1);
     ix ← drop_duplicate_root ix; Some (@None error, set_nItems ix m))
    = Some (None, index') ∧
    nItems index' = fst (RootScan.scan desc (Z.to_nat n) (n - 1) (-1) []) ∧
    roots index'
    = RootSpec.drop_duplicate first_child
        (snd (RootScan.scan desc (Z.to_nat n) (n - 1) (-1) [])) ∧
    nNodes index' = n ∧ nodes index' = Some bytes ∧
    mmap index' = (if memory then None else Some bytes) ∧
    f index' = f index ∧ s index' = s index ∧ k index' = k index ∧
    distance index' = distance index ∧
    cache_coherent index').
  { assert (Hwf1 : well_formed index1) by (subst index1; destruct memory; exact Hwf).
    assert (Hb1 : nodes_bytes index1 = bytes) by (subst index1; destruct memory; reflexivity).
    assert (Hs1 : s index1 = s index) by (subst index1; destruct memory; reflexivity).
    assert (Hcoh1 : cache_coherent index1).
    { subst index1. destruct memory.
      - intros _. exact (Hcache eq_refl).
      - intros Hm. discriminate Hm. }
    assert (Hnn : nNodes index1 = n).
    { subst index1. destruct memory; cbn; apply int32_id; lia. }
    assert (Hr1 : roots index1 = []) by (subst index1; destruct memory; reflexivity).
    rewrite Hnn. rewrite (int32_id (n - 1)) by lia.
    replace (Z.to_nat (n - 1 + 1)) with (Z.to_nat n) by lia.
    destruct (scan_roots_scan (Z.to_nat n) index1 (n - 1) (-1) Hwf1 Hcoh1)
      as (index2 & Hscan & Hroots2 & Hcfg2 & Hcoh2).
    { lia. }
    { rewrite Hb1, Hs1. lia. }
    rewrite Hb1, Hs1, Hr1 in Hscan, Hroots2. fold desc in Hscan, Hroots2.
    rewrite Hscan. cbn [mbind option_bind].
    pose proof (config_eq_fields _ _ Hcfg2)
      as (Hd2 & Hf2' & Hs2 & Hk2 & Hn2 & Hm2 & Hnn2 & _).
    assert (Hb2 : nodes_bytes index2 = bytes)
      by (unfold nodes_bytes; rewrite <- Hn2; exact Hb1).
    destruct (drop_duplicate_root_spec index2) as (index3 & Hdrop & Hroots3 & Hcfg3 & Hcoh3).
    { eapply config_eq_well_formed; eauto. }
    { exact Hcoh2. }
    { intros r Hr. rewrite Hroots2 in Hr.
      apply scan_range in Hr as [Hr | Hr]; [inversion Hr |].
      rewrite Hb2, <- Hs2, Hs1. split; [lia | nia]. }
    rewrite Hdrop. cbn [mbind option_bind].
    rewrite Hb2, <- Hs2, Hs1, Hroots2 in Hroots3. fold first_child in Hroots3.
    pose proof (config_eq_fields _ _ Hcfg3)
      as (Hd3 & Hf3 & Hs3 & Hk3 & Hn3 & Hm3 & Hnn3 & _).
    eexists. split; [reflexivity |].
    cbn [nItems roots nNodes nodes mmap f s k distance set_nItems].
    split; [reflexivity |]. split; [exact Hroots3 |].
    split; [congruence |].
    split; [rewrite <- Hn3, <- Hn2; subst index1; destruct memory; reflexivity |].
    split; [rewrite <- Hm3, <- Hm2; subst index1; destruct memory; reflexivity |].
    split; [rewrite <- Hf3, <- Hf2'; subst index1; destruct memory; reflexivity |].
    split; [congruence |].
    split; [rewrite <- Hk3, <- Hk2; subst index1; destruct memory; reflexivity |].
    split; [rewrite <- Hd3, <- Hd2; subst index1; destruct memory; reflexivity |].
    exact Hcoh3. }
  destruct memory; exact Hgoal.
Qed.

End LoadRoots.

Section LoadRootsClaim.
Context {D : Type} `{DistanceMetric D} `{!LawfulMetric D}.
Import Annoy Inv Frame.


End LoadRootsClaim.


(* ===================================================================== *)
(** * Unload *)
(* ===================================================================== *)

(** C8, at a failing input.  An index of dimension 1 loads the file [twins]
    into memory and is unloaded: the backing bytes, the roots and the counts
    are reset, but the cache still holds the nodes of [twins].  Loading the
    file [triple] into the same index then answers [GetItem 2] from the stale
    cache, unlike a new index loaded from [triple]. *)
Theorem Unload_keeps_cache :
  ∃ loaded unloaded reloaded fresh,
    Annoy.Load (Fixture.fs_of Fixture3.twins)
      (Annoy.NewAnnoyIndex Angular_value 1) String.EmptyString true
    = Some (None, loaded) ∧
    Annoy.Unload loaded = (None, unloaded) ∧
    Inv.unloaded unloaded ∧
    Annoy.cache unloaded ≠ ∅ ∧
    Annoy.Load (Fixture.fs_of Fixture3.triple) unloaded String.EmptyString true
    = Some (None, reloaded) ∧
    Annoy.Load (Fixture.fs_of Fixture3.triple)
      (Annoy.NewAnnoyIndex Angular_value 1) String.EmptyString true
    = Some (None, fresh) ∧
    fst <$> Annoy.GetItem reloaded 2 ≠ fst <$> Annoy.GetItem fresh 2.
Proof.
  eexists _, _, _, _.
  split; [vm_compute; reflexivity |].
  split; [vm_compute; reflexivity |].
  split; [vm_compute; auto |].
  split.
  { intros Hc. apply (f_equal (λ m : gmap Z Node, m !! 2)) in Hc.
    vm_compute in Hc. discriminate Hc. }
  split; [vm_compute; reflexivity |].
  split; [vm_compute; reflexivity |].
  vm_compute. discriminate.
Qed.

(* ===================================================================== *)
(** * The search loop *)
(* ===================================================================== *)

Section SearchStep.
Context {D : Type} `{DistanceMetric D} `{!LawfulMetric D}.
Import Annoy Inv Frame.

(** The shape of a node handed out by [getNode]. *)
Lemma getNode_shape (index index' : AnnoyIndex D) (i : Z) (nd : Node) :
  well_formed index → cache_coherent index →
  getNode index i = Some (nd, index') →
  (V nd = None →
     2 < Descendants nd <= k index ∧
     Z.of_nat (length (Children nd)) = k index) ∧
  (is_Some (V nd) →
     ¬ (2 < Descendants nd <= k index) ∧ length (Children nd) = 2%nat) ∧
  (∀ v, V nd = Some v → length v = Z.to_nat (f index)).
Proof.
  intros Hwf Hc Hg. pose proof Hwf as (Hf & Hf2 & Hs & Hk).
  destruct (getNode_decodes index index' i nd Hc Hg) as (_ & raw & Hd & Hmode).
  assert (Hfields : Descendants nd = Descendants raw ∧
                    Children nd = Children raw ∧ V nd = V raw).
  { destruct (mmap index).
    - destruct Hmode as [-> _]. auto.
    - apply cached_form_fields in Hmode. exact Hmode. }
  destruct Hfields as (-> & -> & ->).
  pose proof (GetNodePtr_shape _ _ _ _ Hd) as (_ & Hv & Hnone & Hsome).
  rewrite Hs, quot_stride in Hv, Hnone, Hsome.
  rewrite (int32_id (f index)) in Hnone, Hsome by lia.
  rewrite (int32_id (f index + 2)) in Hnone, Hsome by lia.
  rewrite Hk. auto.
Qed.

Lemma slice_prefix {A : Type} (l : list A) (n : Z) :
  0 <= n <= Z.of_nat (length l) → slice l 0 n = Some (take (Z.to_nat n) l).
Proof.
  intros Hn. unfold slice.
  replace (0 <=? 0) with true by reflexivity.
  replace (0 <=? n) with true by (symmetry; apply Z.leb_le; lia).
  replace (n <=? Z.of_nat (length l)) with true by (symmetry; apply Z.leb_le; lia).
  cbn [andb]. rewrite Z.sub_0_r. reflexivity.
Qed.

(** The three branches of one turn of the loop, after the pop. *)
Lemma search_step_spec (index : AnnoyIndex D) (v : list F32.t)
    (searchK : Z) (pq : list Pair) (nns : list Z) :
  well_formed index → cache_coherent index →
  search_continues searchK (mkSearch index pq nns) = true →
  ∃ top pq',
    PQ.heap_Pop pq = Some (top, pq') ∧ pq !! 0%nat = Some top ∧
    pq ≡ₚ top :: pq' ∧
    ∀ nd index', getNode index (second top) = Some (nd, index') →
      let i := second top in
      let bound := first top in
      let st := mkSearch index pq nns in
      (Descendants nd = 1 ∧ i < nItems index →
         search_step v st = Some (mkSearch index' pq' (nns ++ [i]))) ∧
      (¬ (Descendants nd = 1 ∧ i < nItems index) →
       0 <= Descendants nd <= k index →
         search_step v st
         = Some (mkSearch index' pq'
                   (nns ++ take (Z.to_nat (Descendants nd)) (Children nd)))) ∧
      (Descendants nd = 1 → nItems index <= i →
         ∃ c0, Children nd !! 0%nat = Some c0 ∧
           search_step v st = Some (mkSearch index' pq' (nns ++ [c0]))) ∧
      (k index < Descendants nd →
         ∃ c0 c1, Children nd = [c0; c1] ∧
           ∀ margin, Margin (distance index) nd v (f index) = Some margin →
             ∃ pq1 pq2,
               PQ.heap_Push pq'
                 {| first := PQDistance (distance index) bound margin 1;
                    second := c1 |} = Some pq1 ∧
               PQ.heap_Push pq1
                 {| first := PQDistance (distance index) bound margin 0;
                    second := c0 |} = Some pq2 ∧
               search_step v st = Some (mkSearch index' pq2 nns)).
Proof.
  intros Hwf Hc Hcont.
  unfold search_continues in Hcont. cbn [st_nns st_pq] in Hcont.
  apply andb_true_iff in Hcont as [_ Hne]. apply Z.ltb_lt in Hne.
  assert (Hpq : pq ≠ []) by (intros ->; cbn in Hne; lia).
  destruct (PQ_heap_Pop_Permutation pq Hpq) as (top & pq' & Hpop & Htop & Hperm).
  exists top, pq'. split; [exact Hpop |]. split; [exact Htop |].
  split; [exact Hperm |].
  intros nd index' Hg i bound st.
  pose proof (getNode_shape _ _ _ _ Hwf Hc Hg) as (Hnone & Hsome & _).
  pose proof (getNode_config_eq _ _ _ _ Hg) as Hcfg.
  pose proof (config_eq_fields _ _ Hcfg) as (Hdist & Hf & _ & Hk & _ & _ & _ & Hni & _).
  pose proof Hwf as (Hf0 & _ & _ & Hkf).
  assert (Hstep : search_step v st
    = (if (Descendants nd =? 1) && (i <? nItems index) then
         Some (mkSearch index' pq' (nns ++ [i]))
       else if Descendants nd <=? k index then
         children ← slice (Children nd) 0 (Descendants nd);
         Some (mkSearch index' pq' (nns ++ children))
       else
         margin ← Margin (distance index) nd v (f index);
         c1 ← Children nd !! 1%nat;
         pq1 ← PQ.heap_Push pq'
                 {| first := PQDistance (distance index) bound margin 1;
                    second := c1 |};
         c0 ← Children nd !! 0%nat;
         pq2 ← PQ.heap_Push pq1
                 {| first := PQDistance (distance index) bound margin 0;
                    second := c0 |};
         Some (mkSearch index' pq2 nns))).
  { unfold search_step, st, i, bound. cbn [st_index st_pq st_nns].
    rewrite Hpop. cbn [mbind option_bind]. rewrite Hg.
    cbn [mbind option_bind]. rewrite <- Hni, <- Hk, <- Hdist, <- Hf.
    reflexivity. }
  rewrite Hstep. clear Hstep.
  assert (Hlen : (2 <= length (Children nd))%nat).
  { destruct (V nd) eqn:Hv.
    - destruct Hsome as [_ ->]; [eauto | lia].
    - destruct (Hnone eq_refl) as [_ Hl]. lia. }
  split; [| split; [| split]].
  - intros [Hd Hi].
    rewrite Hd. replace (i <? nItems index) with true
      by (symmetry; apply Z.ltb_lt; exact Hi).
    reflexivity.
  - intros Hnot Hd.
    replace ((Descendants nd =? 1) && (i <? nItems index)) with false.
    2: { symmetry. apply andb_false_iff.
         destruct (Z.eqb_spec (Descendants nd) 1); [| auto].
         destruct (Z.ltb_spec i (nItems index)); [| auto].
         exfalso. apply Hnot. auto. }
    replace (Descendants nd <=? k index) with true
      by (symmetry; apply Z.leb_le; lia).
    rewrite slice_prefix; [reflexivity |].
    destruct (V nd) eqn:Hv.
    + destruct Hsome as [Hrange Hl]; [eauto |]. lia.
    + destruct (Hnone eq_refl) as [_ Hl]. lia.
  - intros Hd Hi.
    destruct (Children nd) as [| c0 rest] eqn:Hch; [cbn in Hlen; lia |].
    exists c0. split; [reflexivity |].
    rewrite Hd. replace (i <? nItems index) with false
      by (symmetry; apply Z.ltb_ge; exact Hi).
    cbn [Z.eqb Pos.eqb andb].
    replace (1 <=? k index) with true by (symmetry; apply Z.leb_le; lia).
    rewrite slice_prefix by (cbn [length]; lia). reflexivity.
  - intros Hd.
    replace ((Descendants nd =? 1) && (i <? nItems index)) with false.
    2: { symmetry. apply andb_false_iff. left. apply Z.eqb_neq. lia. }
    replace (Descendants nd <=? k index) with false
      by (symmetry; apply Z.leb_gt; exact Hd).
    assert (Hv : is_Some (V nd)).
    { destruct (V nd) eqn:Hv; [eauto |].
      destruct (Hnone eq_refl) as [Hr _]. lia. }
    destruct (Hsome Hv) as [_ Hl].
    destruct (Children nd) as [| c0 [| c1 [| c2 rest]]]; try discriminate Hl.
    exists c0, c1. split; [reflexivity |].
    intros margin Hm. rewrite Hm. cbn [mbind option_bind lookup list_lookup].
    destruct (PQ_heap_Push_Permutation pq'
                {| first := PQDistance (distance index) bound margin 1;
                   second := c1 |}) as (pq1 & Hp1 & _).
    rewrite Hp1. cbn [mbind option_bind].
    destruct (PQ_heap_Push_Permutation pq1
                {| first := PQDistance (distance index) bound margin 0;
                   second := c0 |}) as (pq2 & Hp2 & _).
    rewrite Hp2. cbn [mbind option_bind].
    exists pq1, pq2. auto.
Qed.

End SearchStep.

(* ===================================================================== *)
(** * Termination of the search loop *)
(* ===================================================================== *)

Section Termination.
Context {D : Type} `{DistanceMetric D} `{!LawfulMetric D}.
Import Annoy Inv Frame Descent.

Lemma descent_size_pos (index : AnnoyIndex D) (i : Z) (n : nat) :
  descent_size index i n → (0 < n)%nat.
Proof. intros Hd. destruct Hd; lia. Qed.

Lemma frontier_size_Permutation (index : AnnoyIndex D) (pq pq' : list Pair)
    (w : nat) :
  pq ≡ₚ pq' → frontier_size index pq w → frontier_size index pq' w.
Proof.
  intros Hp. revert w. induction Hp as [| x l l' Hp IH | x y l | l l' l'' _ IH1 _ IH2];
    intros w Hw.
  - exact Hw.
  - inversion Hw; subst. constructor; auto.
  - inversion Hw as [| ? ? n1 w1 Hy Hw1]; subst.
    inversion Hw1 as [| ? ? n2 w2 Hx Hw2]; subst.
    replace (n1 + (n2 + w2))%nat with (n2 + (n1 + w2))%nat by lia.
    constructor; [exact Hx |]. constructor; assumption.
  - auto.
Qed.

(** A node all of whose descents are finite has a descent size. *)
Lemma Acc_descent_size (index : AnnoyIndex D) (i : Z) :
  well_formed index →
  Acc (split_child index) i → ∃ n, descent_size index i n.
Proof.
  intros Hwf Hacc. induction Hacc as [i _ IH].
  destruct (GetNodePtr (nodes_bytes index) (s index) i) as [nd |] eqn:Hd.
  2: { exists 1%nat. apply descent_stop. intros nd Hnd. congruence. }
  destruct (is_split index i nd) eqn:Hsp.
  2: { exists 1%nat. apply descent_stop. intros nd' Hnd. congruence. }
  assert (Hlen : length (Children nd) = 2%nat).
  { pose proof Hwf as (Hf & Hf2 & Hs & Hk).
    pose proof (GetNodePtr_shape _ _ _ _ Hd) as (_ & _ & Hnone & Hsome).
    rewrite Hs, quot_stride in Hnone, Hsome.
    rewrite (int32_id (f index)) in Hnone, Hsome by lia.
    rewrite (int32_id (f index + 2)) in Hnone, Hsome by lia.
    unfold is_split in Hsp. apply andb_true_iff in Hsp as [_ Hgt].
    apply negb_true_iff, Z.leb_gt in Hgt.
    destruct (V nd) eqn:Hv.
    - apply Hsome. eauto.
    - destruct (Hnone eq_refl) as [Hr _]. lia. }
  destruct (Children nd) as [| c0 [| c1 [| c2 rest]]] eqn:Hch; try discriminate Hlen.
  destruct (IH c0) as [n0 Hn0].
  { exists nd. rewrite Hch. auto. }
  destruct (IH c1) as [n1 Hn1].
  { exists nd. rewrite Hch. auto. }
  exists (S (n0 + n1)).
  eapply descent_split; eauto; rewrite Hch; reflexivity.
Qed.

Lemma descent_size_config_eq (index index' : AnnoyIndex D) (i : Z) (n : nat) :
  config_eq index index' → descent_size index i n → descent_size index' i n.
Proof.
  intros Hcfg Hd.
  pose proof (config_eq_fields _ _ Hcfg) as (_ & _ & Hs & Hk & Hn & _ & _ & Hni & _).
  assert (Hb : nodes_bytes index' = nodes_bytes index)
    by (unfold nodes_bytes; rewrite Hn; reflexivity).
  assert (Hsp : ∀ j nd, is_split index' j nd = is_split index j nd)
    by (intros; unfold is_split; rewrite Hk, Hni; reflexivity).
  induction Hd as [i Hstop | i nd c0 c1 n0 n1 Hdec Hsplit Hc0 Hc1 _ IH0 _ IH1].
  - apply descent_stop. intros nd. rewrite Hb, <- Hs, Hsp. apply Hstop.
  - eapply (descent_split index' i nd c0 c1 n0 n1); try assumption.
    + rewrite Hb, <- Hs. exact Hdec.
    + rewrite Hsp. exact Hsplit.
Qed.

(** The loop ends within as many turns as the frontier stands for. *)
Lemma search_loop_fuel (w : nat) :
  ∀ (index : AnnoyIndex D) (v : list F32.t) (searchK : Z) (pq : list Pair)
    (nns : list Z),
    well_formed index → cache_coherent index →
    frontier_size index pq w →
    search_loop w v searchK (mkSearch index pq nns) ≠ OutOfFuel.
Proof.
  induction w as [w IHw] using lt_wf_ind.
  intros index v searchK pq nns Hwf Hc Hsize.
  destruct (search_continues searchK (mkSearch index pq nns)) eqn:Hcont.
  2: { destruct w; cbn [search_loop]; rewrite Hcont; discriminate. }
  destruct (search_step_spec index v searchK pq nns Hwf Hc Hcont)
    as (top & pq' & Hpop & _ & Hperm & Hbranches).
  pose proof (frontier_size_Permutation index _ _ w Hperm Hsize) as Hsize'.
  inversion Hsize' as [| ? ? n w' Htop Hrest]; subst.
  pose proof (descent_size_pos _ _ _ Htop) as Hnpos.
  destruct n as [| n]; [lia |].
  cbn [Nat.add search_loop]. rewrite Hcont.
  destruct (search_step v (mkSearch index pq nns)) as [st' |] eqn:Hstep;
    [| discriminate].
  (* what the step did *)
  unfold search_step in Hstep. cbn [st_index st_pq st_nns] in Hstep.
  rewrite Hpop in Hstep. cbn [mbind option_bind] in Hstep.
  destruct (getNode index (second top)) as [[nd index'] |] eqn:Hg;
    [| discriminate].
  cbn [mbind option_bind] in Hstep.
  pose proof (getNode_config_eq _ _ _ _ Hg) as Hcfg.
  pose proof (config_eq_well_formed _ _ Hcfg Hwf) as Hwf'.
  destruct (getNode_decodes _ _ _ _ Hc Hg) as (Hc' & raw & Hdec & Hmode).
  assert (Hfields : Descendants nd = Descendants raw ∧ Children nd = Children raw).
  { destruct (mmap index).
    - destruct Hmode as [-> _]. auto.
    - apply cached_form_fields in Hmode. tauto. }
  destruct Hfields as [Hdesc Hchild].
  pose proof (config_eq_fields _ _ Hcfg) as (_ & _ & _ & Hk & _ & _ & _ & Hni & _).
  assert (Hmono : ∀ a b st0, (a <= b)%nat →
            search_loop a v searchK st0 ≠ OutOfFuel →
            search_loop b v searchK st0 ≠ OutOfFuel).
  { clear. intros a. induction a as [| a IH]; intros b st0 Hab Ha.
    - destruct b; cbn [search_loop] in *;
        destruct (search_continues searchK st0); congruence.
    - destruct b as [| b]; [lia |]. cbn [search_loop] in *.
      destruct (search_continues searchK st0); [| congruence].
      destruct (search_step v st0); [| congruence].
      apply IH; [lia | exact Ha]. }
  destruct ((Descendants nd =? 1) && (second top <? nItems index')) eqn:Hleaf.
  { injection Hstep as <-.
    apply (Hmono w'); [lia |].
    apply IHw; [lia | exact Hwf' | exact Hc' |].
    clear -Hrest Hcfg LawfulMetric0.
    induction Hrest; constructor; eauto using descent_size_config_eq. }
  destruct (Descendants nd <=? k index') eqn:Hbucket.
  { destruct (slice (Children nd) 0 (Descendants nd)); [| discriminate].
    cbn [mbind option_bind] in Hstep. injection Hstep as <-.
    apply (Hmono w'); [lia |].
    apply IHw; [lia | exact Hwf' | exact Hc' |].
    clear -Hrest Hcfg LawfulMetric0.
    induction Hrest; constructor; eauto using descent_size_config_eq. }
  (* a split node *)
  assert (Hsplit : is_split index (second top) raw = true).
  { unfold is_split. rewrite <- Hdesc, Hk, Hni, Hleaf, Hbucket. reflexivity. }
  inversion Htop as [i Hstop | i nd0 c0 c1 n0 n1 Hdec0 _ Hc0 Hc1 Hs0 Hs1]; subst.
  { rewrite (Hstop raw Hdec) in Hsplit. discriminate. }
  assert (nd0 = raw) by congruence. subst nd0.
  destruct (Margin (distance index') nd v (f index')); [| discriminate].
  cbn [mbind option_bind] in Hstep.
  rewrite Hchild, Hc1 in Hstep. cbn [mbind option_bind] in Hstep.
  destruct (PQ.heap_Push pq' _) as [pq1 |] eqn:Hp1; [| discriminate].
  cbn [mbind option_bind] in Hstep.
  rewrite Hc0 in Hstep. cbn [mbind option_bind] in Hstep.
  destruct (PQ.heap_Push pq1 _) as [pq2 |] eqn:Hp2; [| discriminate].
  cbn [mbind option_bind] in Hstep. injection Hstep as <-.
  destruct (PQ_heap_Push_Permutation pq'
              {| first := PQDistance (distance index') (first top) t 1;
                 second := c1 |}) as (pq1' & Hp1' & Hperm1).
  destruct (PQ_heap_Push_Permutation pq1
              {| first := PQDistance (distance index') (first top) t 0;
                 second := c0 |}) as (pq2' & Hp2' & Hperm2).
  assert (pq1' = pq1) by congruence. assert (pq2' = pq2) by congruence.
  subst pq1' pq2'.
  apply (Hmono (n0 + (n1 + w'))%nat); [lia |].
  apply IHw; [lia | exact Hwf' | exact Hc' |].
  eapply frontier_size_Permutation.
  { symmetry. rewrite Hperm2, Hperm1. reflexivity. }
  constructor; [eapply descent_size_config_eq; eauto |].
  constructor; [eapply descent_size_config_eq; eauto |].
  clear -Hrest Hcfg LawfulMetric0.
  induction Hrest; constructor; eauto using descent_size_config_eq.
Qed.

End Termination.

Section TerminationClaim.
Context {D : Type} `{DistanceMetric D} `{!LawfulMetric D}.
Import Annoy Inv Frame Descent.

Lemma push_roots_Permutation (rs : list Z) (pq : list Pair) :
  ∃ pq', push_roots pq rs = Some pq' ∧
         pq' ≡ₚ map (λ r, {| first := F32.inf; second := r |}) rs ++ pq.
Proof.
  revert pq. induction rs as [| r rs IH]; intros pq.
  - exists pq. split; reflexivity.
  - cbn [push_roots].
    destruct (PQ_heap_Push_Permutation pq {| first := F32.inf; second := r |})
      as (pq1 & -> & Hp1).
    cbn [mbind option_bind].
    destruct (IH pq1) as (pq' & -> & Hp').
    exists pq'. split; [reflexivity |].
    rewrite Hp', Hp1. cbn [map app].
    rewrite Permutation_middle. reflexivity.
Qed.

Lemma frontier_size_roots (index : AnnoyIndex D) (rs : list Z) :
  (∀ r, r ∈ rs → ∃ n, descent_size index r n) →
  ∃ w, frontier_size index
         (map (λ r, {| first := F32.inf; second := r |}) rs) w.
Proof.
  induction rs as [| r rs IH]; intros Hall.
  - exists 0%nat. constructor.
  - destruct (Hall r) as [n Hn]; [left |].
    destruct IH as [w Hw]; [intros r' Hr'; apply Hall; right; exact Hr' |].
    exists (n + w)%nat. cbn [map]. constructor; assumption.
Qed.

(** Termination of the loop, where the cache agrees with the file (the
    part of C10 that holds).  On such an index, when the split nodes form
    no cycle below the roots (every descent from a root through the
    children of split nodes is finite), the best-first loop of [getAllNns]
    ends, by leaving the loop or by a panic, for every query vector, every
    [n] and every budget: some number of turns is enough. *)
Theorem search_loop_terminates (index : AnnoyIndex D) (v : list F32.t)
    (n searchK : Z) :
  well_formed index → cache_coherent index →
  (∀ r, r ∈ roots index → Acc (split_child index) r) →
  ∃ fuel, search fuel index v n searchK ≠ OutOfFuel.
Proof.
  intros Hwf Hc Hacc.
  destruct (frontier_size_roots index (roots index)) as [w Hw].
  { intros r Hr. apply Acc_descent_size; [exact Hwf | apply Hacc; exact Hr]. }
  exists w. unfold search.
  destruct (query_node index v) as [vNode0 |]; [| discriminate].
  cbn [mbind option_bind].
  destruct (InitNode (distance index) vNode0 (f index)) as [vNode |];
    [| discriminate].
  cbn [mbind option_bind].
  change (PQ.heap_Init []) with (Some (@nil Pair)).
  cbn [mbind option_bind].
  destruct (push_roots_Permutation (roots index) []) as (pq & -> & Hperm).
  cbn [mbind option_bind].
  rewrite app_nil_r in Hperm.
  pose proof (search_loop_fuel w index v (effective_searchK index n searchK)
                pq [] Hwf Hc) as Hloop.
  destruct (search_loop w v (effective_searchK index n searchK)
              (mkSearch index pq [])); try discriminate.
  exfalso. apply Hloop; [| reflexivity].
  eapply frontier_size_Permutation; [symmetry; exact Hperm | exact Hw].
Qed.

End TerminationClaim.

(** Termination does depend on the index: on a file whose only record is a
    split node with itself as both children, the loop never ends. *)
Lemma search_loop_self_loop_diverges (fuel : nat) :
  Annoy.search fuel (Loaded.index Fixture3.self_loop false) [Fixture3.one] 1 (-1)
  = OutOfFuel.
Proof.
  set (index := Loaded.index Fixture3.self_loop false).
  assert (Hwf : Inv.well_formed index) by (vm_compute; repeat split; discriminate).
  assert (Hc : Inv.cache_coherent index) by (intros Hm; vm_compute in Hm; discriminate).
  assert (Hg : ∃ nd, Annoy.getNode index 0 = Some (nd, index) ∧
                     Annoy.k index < Descendants nd ∧
                     Children nd = [0; 0] ∧
                     is_Some (Margin (Annoy.distance index) nd [Fixture3.one]
                                (Annoy.f index))).
  { eexists. split; [vm_compute; reflexivity |].
    split; [vm_compute; reflexivity |]. split; [reflexivity |].
    vm_compute. eauto. }
  destruct Hg as (nd & Hg & Hk & Hch & [margin Hm]).
  assert (Hloop : ∀ fuel pq, pq ≠ [] → Forall (λ p, second p = 0) pq →
            Annoy.search_loop fuel [Fixture3.one] 1 (Annoy.mkSearch index pq [])
            = OutOfFuel).
  { clear fuel. intros fuel. induction fuel as [| fuel IH]; intros pq Hne Hall.
    - cbn. destruct pq; [congruence | reflexivity].
    - assert (Hcont : Annoy.search_continues 1 (Annoy.mkSearch index pq []) = true).
      { destruct pq; [congruence | reflexivity]. }
      cbn [Annoy.search_loop]. rewrite Hcont.
      destruct (search_step_spec index [Fixture3.one] 1 pq [] Hwf Hc Hcont)
        as (top & pq' & _ & _ & Hperm & Hbr).
      assert (Htop0 : second top = 0).
      { rewrite Hperm in Hall. inversion Hall; assumption. }
      rewrite Htop0 in Hbr.
      destruct (Hbr nd index Hg) as (_ & _ & _ & Hsplit).
      destruct (Hsplit Hk) as (c0 & c1 & Hcs & Hpush).
      rewrite Hch in Hcs. injection Hcs as <- <-.
      destruct (Hpush margin Hm) as (pq1 & pq2 & Hp1 & Hp2 & ->).
      destruct (PQ_heap_Push_Permutation pq'
                  {| first := PQDistance (Annoy.distance index) (first top) margin 1;
                     second := 0 |}) as (pq1' & Hp1' & Hperm1).
      rewrite Hp1 in Hp1'. injection Hp1' as <-.
      destruct (PQ_heap_Push_Permutation pq1
                  {| first := PQDistance (Annoy.distance index) (first top) margin 0;
                     second := 0 |}) as (pq2' & Hp2' & Hperm2).
      rewrite Hp2 in Hp2'. injection Hp2' as <-.
      apply IH.
      + intros ->. apply Permutation_nil_cons in Hperm2. exact Hperm2.
      + rewrite Hperm2, Hperm1. rewrite Hperm in Hall.
        inversion Hall; subst. repeat constructor; assumption. }
  unfold Annoy.search.
  assert (Hinit : ∃ vNode p,
    (vNode ← Annoy.query_node index [Fixture3.one];
     vNode ← InitNode (Annoy.distance index) vNode (Annoy.f index);
     pq ← PQ.heap_Init [];
     pq ← Annoy.push_roots pq (Annoy.roots index);
     Some (vNode, pq)) = Some (vNode, [p]) ∧ second p = 0).
  { eexists _, _. split; [vm_compute; reflexivity | reflexivity]. }
  destruct Hinit as (vNode & p & -> & Hp).
  replace (Annoy.effective_searchK index 1 (-1)) with 1 by reflexivity.
  rewrite Hloop; [reflexivity | discriminate | repeat constructor; exact Hp].
Qed.

Lemma slice_Some_range {A : Type} (b x : list A) (lo hi : Z) :
  slice b lo hi = Some x → 0 <= lo ∧ hi <= Z.of_nat (length b).
Proof.
  unfold slice. intros Hs.
  destruct (Z.leb_spec 0 lo); [| discriminate Hs].
  destruct (Z.leb_spec lo hi); [| discriminate Hs].
  destruct (Z.leb_spec hi (Z.of_nat (length b))); [| discriminate Hs].
  lia.
Qed.

Lemma GetNodePtr_Some_range (nodes : list byte) (size i : Z) (nd : Node) :
  GetNodePtr nodes size i = Some nd →
  0 <= size * i ∧ size * i + 4 <= Z.of_nat (length nodes).
Proof.
  unfold GetNodePtr. intros Hdec.
  destruct (slice nodes (size * i) (size * i + 4)) as [b |] eqn:Hb;
    [| discriminate Hdec].
  apply slice_Some_range in Hb. exact Hb.
Qed.

(** One turn of the loop on a split node, whatever the cache holds. *)
Lemma search_step_split_node {D : Type} `{DistanceMetric D}
    (index index' : Annoy.AnnoyIndex D) (v : list F32.t) (pq pq' : list Pair)
    (nns : list Z) (top : Pair) (nd : Node) (margin : F32.t) (c0 c1 : Z) :
  PQ.heap_Pop pq = Some (top, pq') →
  Annoy.getNode index (second top) = Some (nd, index') →
  (Descendants nd =? 1) && (second top <? Annoy.nItems index') = false →
  (Descendants nd <=? Annoy.k index') = false →
  Margin (Annoy.distance index') nd v (Annoy.f index') = Some margin →
  Children nd !! 1%nat = Some c1 → Children nd !! 0%nat = Some c0 →
  ∃ pq2,
    Annoy.search_step v (Annoy.mkSearch index pq nns)
    = Some (Annoy.mkSearch index' pq2 nns) ∧
    pq2 ≡ₚ
      {| first := PQDistance (Annoy.distance index') (first top) margin 0;
         second := c0 |}
      :: {| first := PQDistance (Annoy.distance index') (first top) margin 1;
            second := c1 |} :: pq'.
Proof.
  intros Hpop Hg Hleaf Hbucket Hm Hc1 Hc0.
  destruct (PQ_heap_Push_Permutation pq'
              {| first := PQDistance (Annoy.distance index') (first top) margin 1;
                 second := c1 |}) as (pq1 & Hp1 & Hperm1).
  destruct (PQ_heap_Push_Permutation pq1
              {| first := PQDistance (Annoy.distance index') (first top) margin 0;
                 second := c0 |}) as (pq2 & Hp2 & Hperm2).
  exists pq2. split.
  - unfold Annoy.search_step. cbn [Annoy.st_index Annoy.st_pq Annoy.st_nns].
    rewrite Hpop. cbn [mbind option_bind]. rewrite Hg.
    cbn [mbind option_bind]. rewrite Hleaf, Hbucket, Hm.
    cbn [mbind option_bind]. rewrite Hc1. cbn [mbind option_bind].
    rewrite Hp1. cbn [mbind option_bind]. rewrite Hc0.
    cbn [mbind option_bind]. rewrite Hp2. reflexivity.
  - rewrite Hperm2, Hperm1. reflexivity.
Qed.

(** C10, at a failing input.  An index of dimension 1 loads the file
    [stale_a] into memory, is unloaded, and loads the file [stale_b] into
    memory.  In the bytes of [stale_b] no split node has a split node as
    a child, so every descent through the children of split nodes is
    finite, from a root or from anywhere.  But the cache still holds node 2 of
    [stale_a], a split node whose children are node 0, and node 0 of
    [stale_b] is a split node whose children are node 2: the best-first
    loop of [getAllNns] goes from one to the other and never ends, however
    many turns it is given. *)
Theorem search_loop_stale_cache_diverges :
  ∃ loaded unloaded reloaded,
    Annoy.Load (Fixture.fs_of Fixture6.stale_a)
      (Annoy.NewAnnoyIndex Angular_value 1) String.EmptyString true
    = Some (None, loaded) ∧
    Annoy.Unload loaded = (None, unloaded) ∧
    Annoy.Load (Fixture.fs_of Fixture6.stale_b) unloaded String.EmptyString true
    = Some (None, reloaded) ∧
    Inv.well_formed reloaded ∧
    (∀ i, Acc (Inv.split_child reloaded) i) ∧
    ∀ fuel,
      Annoy.search fuel reloaded [Fixture3.one] 1 (-1) = OutOfFuel.
Proof.
  set (index := Reloaded.index Fixture6.stale_a Fixture6.stale_b).
  set (index2 := Reloaded.after_lookup Fixture6.stale_a Fixture6.stale_b 0).
  exists (Loaded.index Fixture6.stale_a true),
         (snd (Annoy.Unload (Loaded.index Fixture6.stale_a true))),
         index.
  split; [vm_compute; reflexivity |].
  split; [vm_compute; reflexivity |].
  split; [vm_compute; reflexivity |].
  split; [vm_compute; repeat split; discriminate |].
  split.
  { assert (Hnosplit : ∀ i c, i ≠ 0 → ¬ Inv.split_child index c i).
    { intros i c Hi (nd & Hdec & Hsplit & _).
      assert (Hr : i = 1 ∨ i = 2).
      { assert (Hs : Annoy.s index = 16) by (vm_compute; reflexivity).
        assert (Hlen : length (Annoy.nodes_bytes index) = 48%nat)
          by (vm_compute; reflexivity).
        pose proof (GetNodePtr_Some_range _ _ _ _ Hdec) as Hr.
        rewrite Hs, Hlen in Hr. lia. }
      destruct Hr as [-> | ->]; vm_compute in Hdec; injection Hdec as <-;
        vm_compute in Hsplit; discriminate Hsplit. }
    intros i. destruct (Z.eq_dec i 0) as [-> | Hne].
    - constructor. intros c (nd & Hdec & _ & Hc).
      vm_compute in Hdec. injection Hdec as <-.
      assert (c = 2) by (destruct Hc as [Hc | Hc]; vm_compute in Hc; congruence).
      subst c. constructor. intros c' Hc'. exfalso.
      exact (Hnosplit 2 c' ltac:(lia) Hc').
    - constructor. intros c Hc. exfalso. exact (Hnosplit i c Hne Hc). }
  assert (Hnode : ∀ ix i, ix = index ∨ ix = index2 → i = 0 ∨ i = 2 →
            ∃ nd ix' margin c0 c1,
              Annoy.getNode ix i = Some (nd, ix') ∧
              (ix' = index ∨ ix' = index2) ∧
              (Descendants nd =? 1) && (i <? Annoy.nItems ix') = false ∧
              (Descendants nd <=? Annoy.k ix') = false ∧
              Margin (Annoy.distance ix') nd [Fixture3.one] (Annoy.f ix')
              = Some margin ∧
              Children nd !! 1%nat = Some c1 ∧ Children nd !! 0%nat = Some c0 ∧
              (c0 = 0 ∨ c0 = 2) ∧ (c1 = 0 ∨ c1 = 2)).
  { intros ix i [-> | ->] [-> | ->]; eexists _, _, _, _, _.
    - split; [vm_compute; reflexivity |].
      split; [right; vm_compute; reflexivity |].
      repeat (split; [vm_compute; reflexivity |]). split; right; reflexivity.
    - split; [vm_compute; reflexivity |].
      split; [left; vm_compute; reflexivity |].
      repeat (split; [vm_compute; reflexivity |]). split; left; reflexivity.
    - split; [vm_compute; reflexivity |].
      split; [right; vm_compute; reflexivity |].
      repeat (split; [vm_compute; reflexivity |]). split; right; reflexivity.
    - split; [vm_compute; reflexivity |].
      split; [right; vm_compute; reflexivity |].
      repeat (split; [vm_compute; reflexivity |]). split; left; reflexivity. }
  assert (Hloop : ∀ fuel ix pq,
            ix = index ∨ ix = index2 → pq ≠ [] →
            Forall (λ p, second p = 0 ∨ second p = 2) pq →
            Annoy.search_loop fuel [Fixture3.one] 1 (Annoy.mkSearch ix pq [])
            = OutOfFuel).
  { intros fuel. induction fuel as [| fuel IH]; intros ix pq Hix Hne Hall.
    - cbn. destruct pq; [congruence | reflexivity].
    - assert (Hcont : Annoy.search_continues 1 (Annoy.mkSearch ix pq []) = true)
        by (destruct pq; [congruence | reflexivity]).
      cbn [Annoy.search_loop]. rewrite Hcont.
      destruct (PQ_heap_Pop_Permutation pq Hne)
        as (top & pq' & Hpop & _ & Hperm).
      assert (Htop : second top = 0 ∨ second top = 2).
      { rewrite Hperm in Hall. inversion Hall; assumption. }
      destruct (Hnode ix (second top) Hix Htop)
        as (nd & ix' & margin & c0 & c1 & Hg & Hix' & Hleaf & Hbucket & Hm
            & Hc1 & Hc0 & Hr0 & Hr1).
      destruct (search_step_split_node ix ix' [Fixture3.one] pq pq' [] top nd
                  margin c0 c1 Hpop Hg Hleaf Hbucket Hm Hc1 Hc0)
        as (pq2 & -> & Hperm2).
      apply IH; [exact Hix' | |].
      + intros ->. apply Permutation_nil_cons in Hperm2. exact Hperm2.
      + rewrite Hperm2. rewrite Hperm in Hall.
        apply Forall_cons in Hall as [_ Hall].
        constructor; [exact Hr0 |]. constructor; [exact Hr1 | exact Hall]. }
  intros fuel. unfold Annoy.search.
  assert (Hinit : ∃ vNode p,
    (vNode ← Annoy.query_node index [Fixture3.one];
     vNode ← InitNode (Annoy.distance index) vNode (Annoy.f index);
     pq ← PQ.heap_Init [];
     pq ← Annoy.push_roots pq (Annoy.roots index);
     Some (vNode, pq)) = Some (vNode, [p]) ∧ second p = 2).
  { eexists _, _. split; [vm_compute; reflexivity | reflexivity]. }
  destruct Hinit as (vNode & p & -> & Hp).
  replace (Annoy.effective_searchK index 1 (-1)) with 1
    by (vm_compute; reflexivity).
  rewrite Hloop; [reflexivity | left; reflexivity | discriminate |].
  constructor; [right; exact Hp | constructor].
Qed.

(* ===================================================================== *)
(** * The query engine reads nothing but the backing bytes *)
(* ===================================================================== *)

Section PureQuery.
Context {D : Type} `{DistanceMetric D} `{!LawfulMetric D}.
Import Annoy Inv Frame.

Lemma set_cache_well_formed (index : AnnoyIndex D) (c : gmap Z Node) :
  well_formed index → well_formed (set_cache index c).
Proof. intros Hwf. exact Hwf. Qed.

Lemma set_cache_set_cache (index : AnnoyIndex D) (c c' : gmap Z Node) :
  set_cache (set_cache index c) c' = set_cache index c'.
Proof. reflexivity. Qed.

(** A lookup agrees with the decoder on everything the query uses. *)
Lemma getNode_node_at (index : AnnoyIndex D) (i : Z) :
  well_formed index → cache_coherent index →
  match Pure.node_at index i with
  | None => getNode index i = None
  | Some raw =>
      ∃ nd c,
        getNode index i = Some (nd, set_cache index c) ∧
        cache_coherent (set_cache index c) ∧
        Descendants nd = Descendants raw ∧ Children nd = Children raw ∧
        (∀ x, Distance (distance index) x nd (f index)
              = Distance (distance index) x raw (f index)) ∧
        (∀ v, Margin (distance index) nd v (f index)
              = Margin (distance index) raw v (f index))
  end.
Proof.
  intros Hwf Hc. unfold Pure.node_at.
  destruct (GetNodePtr (nodes_bytes index) (s index) i) as [raw |] eqn:Hd.
  2: { apply getNode_panics; assumption. }
  destruct (getNode_total index i raw Hwf Hc Hd) as (nd & index' & Hg).
  pose proof (getNode_frame _ _ _ _ Hg) as Hfr.
  destruct (getNode_decodes _ _ _ _ Hc Hg) as (Hc' & raw' & Hd' & Hmode).
  assert (raw' = raw) by congruence. subst raw'.
  exists nd, (cache index'). rewrite <- Hfr.
  split; [exact Hg |]. split; [exact Hc' |].
  destruct (mmap index).
  { destruct Hmode as [-> _]. auto. }
  pose proof (cached_form_fields _ _ _ Hmode) as (Hdesc & Hch & _).
  split; [exact Hdesc |]. split; [exact Hch |].
  unfold cached_form in Hmode.
  destruct (V raw) eqn:Hv.
  - pose proof (GetNodePtr_shape _ _ _ _ Hd) as (Hnorm & _).
    split.
    + intros x. apply Distance_InitNode; assumption.
    + intros v. apply Margin_InitNode. exact Hmode.
  - injection Hmode as <-. auto.
Qed.

Lemma Pure_step_set_cache (index : AnnoyIndex D) (c : gmap Z Node)
    (v : list F32.t) (st : list Pair * list Z) :
  Pure.step (set_cache index c) v st = Pure.step index v st.
Proof. reflexivity. Qed.

Lemma Pure_loop_set_cache (fuel : nat) (index : AnnoyIndex D)
    (c : gmap Z Node) (v : list F32.t) (searchK : Z)
    (st : list Pair * list Z) :
  Pure.loop fuel (set_cache index c) v searchK st
  = Pure.loop fuel index v searchK st.
Proof.
  revert st. induction fuel as [| fuel IH]; intros st; cbn [Pure.loop].
  - reflexivity.
  - rewrite Pure_step_set_cache.
    destruct (Pure.continues searchK st); [| reflexivity].
    destruct (Pure.step index v st); [apply IH | reflexivity].
Qed.

Lemma Pure_leaf_pairs_set_cache (index : AnnoyIndex D) (c : gmap Z Node)
    (vNode : Node) (keys : list Z) :
  Pure.leaf_pairs (set_cache index c) vNode keys
  = Pure.leaf_pairs index vNode keys.
Proof.
  induction keys as [| j keys IH]; cbn [Pure.leaf_pairs]; [reflexivity |].
  rewrite IH. reflexivity.
Qed.

(** One turn of the loop, with and without the cache. *)
Lemma search_step_pure (index : AnnoyIndex D) (v : list F32.t)
    (pq : list Pair) (nns : list Z) :
  well_formed index → cache_coherent index →
  match Pure.step index v (pq, nns) with
  | None => search_step v (mkSearch index pq nns) = None
  | Some st' =>
      ∃ c, search_step v (mkSearch index pq nns)
           = Some (mkSearch (set_cache index c) (fst st') (snd st')) ∧
           cache_coherent (set_cache index c)
  end.
Proof.
  intros Hwf Hc. unfold Pure.step, search_step.
  cbn [fst snd st_index st_pq st_nns].
  destruct (PQ.heap_Pop pq) as [[top pq'] |]; [| reflexivity].
  cbn [mbind option_bind].
  pose proof (getNode_node_at index (second top) Hwf Hc) as Hg.
  destruct (Pure.node_at index (second top)) as [raw |].
  2: { rewrite Hg. reflexivity. }
  destruct Hg as (nd & c & -> & Hc' & Hdesc & Hch & _ & Hmargin).
  cbn [mbind option_bind nItems k distance f set_cache].
  rewrite Hdesc, Hch, Hmargin.
  destruct ((Descendants raw =? 1) && (second top <? nItems index)).
  { exists c. auto. }
  destruct (Descendants raw <=? k index).
  { destruct (slice (Children raw) 0 (Descendants raw)); [| reflexivity].
    exists c. auto. }
  destruct (Margin (distance index) raw v (f index)); [| reflexivity].
  cbn [mbind option_bind].
  destruct (Children raw !! 1%nat); [| reflexivity]. cbn [mbind option_bind].
  destruct (PQ.heap_Push pq' _); [| reflexivity]. cbn [mbind option_bind].
  destruct (Children raw !! 0%nat); [| reflexivity]. cbn [mbind option_bind].
  destruct (PQ.heap_Push l _); [| reflexivity]. cbn [mbind option_bind].
  exists c. auto.
Qed.

(** The loop, with and without the cache. *)
Lemma search_loop_pure (fuel : nat) (index : AnnoyIndex D) (v : list F32.t)
    (searchK : Z) (pq : list Pair) (nns : list Z) :
  well_formed index → cache_coherent index →
  match Pure.loop fuel index v searchK (pq, nns) with
  | OutOfFuel => search_loop fuel v searchK (mkSearch index pq nns) = OutOfFuel
  | Panicked => search_loop fuel v searchK (mkSearch index pq nns) = Panicked
  | Returned st' =>
      ∃ c, search_loop fuel v searchK (mkSearch index pq nns)
           = Returned (mkSearch (set_cache index c) (fst st') (snd st')) ∧
           cache_coherent (set_cache index c)
  end.
Proof.
  revert index pq nns. induction fuel as [| fuel IH]; intros index pq nns Hwf Hc.
  - cbn [Pure.loop search_loop].
    change (search_continues searchK (mkSearch index pq nns))
      with (Pure.continues searchK (pq, nns)).
    destruct (Pure.continues searchK (pq, nns)); [reflexivity |].
    exists (cache index). destruct index. auto.
  - cbn [Pure.loop search_loop].
    change (search_continues searchK (mkSearch index pq nns))
      with (Pure.continues searchK (pq, nns)).
    destruct (Pure.continues searchK (pq, nns)).
    2: { exists (cache index). destruct index. auto. }
    pose proof (search_step_pure index v pq nns Hwf Hc) as Hstep.
    destruct (Pure.step index v (pq, nns)) as [[pq' nns'] |].
    2: { rewrite Hstep. reflexivity. }
    destruct Hstep as (c & -> & Hc').
    cbn [fst snd].
    specialize (IH (set_cache index c) pq' nns' Hwf Hc').
    rewrite Pure_loop_set_cache in IH.
    destruct (Pure.loop fuel index v searchK (pq', nns')) as [st' | |];
      [| exact IH | exact IH].
    destruct IH as (c' & -> & Hc''). exists c'. auto.
Qed.

Lemma drop_replicate_zero (n m : nat) :
  drop m (replicate n Pair_zero) = replicate (n - m) Pair_zero.
Proof. apply drop_replicate. Qed.

(** The fill loop, with and without the cache. *)
Lemma fill_nnsDist_pure (keys : list Z) (index : AnnoyIndex D) (vNode : Node)
    (acc : list Pair) (i : nat) :
  well_formed index → cache_coherent index →
  (i + length keys <= length acc)%nat →
  match Pure.leaf_pairs index vNode keys with
  | None => fill_nnsDist index vNode keys acc i = None
  | Some pairs =>
      ∃ c, fill_nnsDist index vNode keys acc i
           = Some (take i acc ++ pairs ++ drop (i + length pairs) acc,
                   set_cache index c) ∧
           cache_coherent (set_cache index c) ∧
           (length pairs <= length keys)%nat
  end.
Proof.
  revert index acc i. induction keys as [| j keys IH]; intros index acc i Hwf Hc Hlen.
  - cbn [Pure.leaf_pairs fill_nnsDist]. exists (cache index).
    cbn [app length]. rewrite Nat.add_0_r, take_drop.
    destruct index. auto.
  - cbn [Pure.leaf_pairs fill_nnsDist]. cbn [length] in Hlen.
    pose proof (getNode_node_at index j Hwf Hc) as Hg.
    destruct (Pure.node_at index j) as [raw |] eqn:Hraw.
    2: { rewrite Hg. reflexivity. }
    destruct Hg as (nd & c & -> & Hc' & Hdesc & _ & _).
    cbn [mbind option_bind]. rewrite Hdesc.
    destruct (Descendants raw =? 1) eqn:Hleaf.
    + pose proof (getNode_node_at (set_cache index c) j Hwf Hc') as Hg2.
      change (Pure.node_at (set_cache index c) j) with (Pure.node_at index j) in Hg2.
      rewrite Hraw in Hg2.
      destruct Hg2 as (nd2 & c2 & -> & Hc2 & _ & _ & Hdist & _).
      change (set_cache (set_cache index c) c2) with (set_cache index c2) in *.
      cbn [mbind option_bind distance f set_cache] in Hdist |- *.
      rewrite Hdist.
      destruct (Distance (distance index) vNode raw (f index)) as [d |];
        [| reflexivity].
      cbn [mbind option_bind].
      replace (i <? length acc)%nat with true
        by (symmetry; apply Nat.ltb_lt; lia).
      specialize (IH (set_cache index c2)
                    (<[i := {| first := d; second := j |}]> acc) (S i) Hwf Hc2).
      rewrite length_insert in IH. specialize (IH ltac:(lia)).
      rewrite Pure_leaf_pairs_set_cache in IH.
      destruct (Pure.leaf_pairs index vNode keys) as [pairs |]; [| exact IH].
      destruct IH as (c' & -> & Hc'' & Hl). exists c'.
      split; [| split; [exact Hc'' | cbn [length]; lia]].
      f_equal. f_equal.
      rewrite (take_S_r _ i {| first := d; second := j |})
        by (apply list_lookup_insert_eq; lia).
      rewrite take_insert_ge by lia.
      rewrite drop_insert_lt by lia.
      rewrite <- app_assoc. cbn [app length].
      replace (i + S (length pairs))%nat with (S i + length pairs)%nat by lia.
      reflexivity.
    + specialize (IH (set_cache index c) acc i Hwf Hc' ltac:(lia)).
      rewrite Pure_leaf_pairs_set_cache in IH.
      destruct (Pure.leaf_pairs index vNode keys) as [pairs |]; [| exact IH].
      destruct IH as (c' & -> & Hc'' & Hl). exists c'.
      split; [reflexivity |]. split; [exact Hc'' | cbn [length]; lia].
Qed.

End PureQuery.

Section PureQueryMain.
Context {D : Type} `{DistanceMetric D} `{!LawfulMetric D}.
Import Annoy Inv Frame.

Lemma search_pure (fuel : nat) (index : AnnoyIndex D) (v : list F32.t)
    (n searchK : Z) :
  well_formed index → cache_coherent index →
  match Pure.candidates fuel index v n searchK with
  | OutOfFuel => search fuel index v n searchK = OutOfFuel
  | Panicked => search fuel index v n searchK = Panicked
  | Returned (vNode, nns) =>
      ∃ c pq, search fuel index v n searchK
              = Returned (vNode, mkSearch (set_cache index c) pq nns) ∧
              cache_coherent (set_cache index c)
  end.
Proof.
  intros Hwf Hc. unfold Pure.candidates, search.
  change (vNode ← query_node index v;
          vNode0 ← InitNode (distance index) vNode (f index);
          pq ← PQ.heap_Init [];
          pq0 ← push_roots pq (roots index);
          Some (vNode0, pq0)) with (Pure.init index v).
  destruct (Pure.init index v) as [[vNode pq] |]; [| reflexivity].
  pose proof (search_loop_pure fuel index v (effective_searchK index n searchK)
                pq [] Hwf Hc) as Hl.
  destruct (Pure.loop fuel index v (effective_searchK index n searchK) (pq, []))
    as [[pq' nns'] | |].
  - destruct Hl as (c & -> & Hc'). exists c, pq'. auto.
  - rewrite Hl. reflexivity.
  - rewrite Hl. reflexivity.
Qed.

(** The results of a query are those of the query read off the backing
    bytes. *)
Lemma getAllNns_pure (index : AnnoyIndex D) (v : list F32.t) (n searchK : Z)
    (result : list Z) (distances : list F32.t) :
  well_formed index → cache_coherent index →
  (∃ index', getAllNns index v n searchK result distances index')
  ↔ Pure.getAllNns index v n searchK result distances.
Proof.
  intros Hwf Hc. split.
  - intros (index' & fuel & vNode & st & keys & nnsDist & sorted
            & Hs & Hr & Hfill & Hsort & Hres).
    pose proof (search_pure fuel index v n searchK Hwf Hc) as Hp.
    destruct (Pure.candidates fuel index v n searchK) as [[vNode' nns] | |] eqn:Hcand;
      [| congruence | congruence].
    destruct Hp as (c & pq & Hs' & Hc').
    rewrite Hs in Hs'. injection Hs' as -> ->.
    cbn [st_nns st_index] in Hr, Hfill.
    pose proof (fill_nnsDist_pure keys (set_cache index c) vNode'
                  (replicate (length keys) Pair_zero) 0 Hwf Hc') as Hf.
    rewrite length_replicate in Hf. specialize (Hf ltac:(lia)).
    rewrite Pure_leaf_pairs_set_cache in Hf.
    destruct (Pure.leaf_pairs index vNode' keys) as [pairs |] eqn:Hpairs;
      [| congruence].
    destruct Hf as (c' & Hf & _ & _).
    rewrite Hfill in Hf. injection Hf as -> _.
    exists fuel, vNode', nns, keys, pairs, sorted.
    split; [exact Hcand |]. split; [exact Hr |]. split; [exact Hpairs |].
    split; [| exact Hres].
    unfold Pure.filled. cbn [take app Nat.add] in Hsort.
    rewrite drop_replicate in Hsort. exact Hsort.
  - intros (fuel & vNode & nns & keys & pairs & sorted
            & Hcand & Hr & Hpairs & Hsort & Hres).
    pose proof (search_pure fuel index v n searchK Hwf Hc) as Hp.
    rewrite Hcand in Hp. destruct Hp as (c & pq & Hs & Hc').
    pose proof (fill_nnsDist_pure keys (set_cache index c) vNode
                  (replicate (length keys) Pair_zero) 0 Hwf Hc') as Hf.
    rewrite length_replicate in Hf. specialize (Hf ltac:(lia)).
    rewrite Pure_leaf_pairs_set_cache, Hpairs in Hf.
    destruct Hf as (c' & Hf & _ & _).
    exists (set_cache (set_cache index c) c'), fuel, vNode,
      (mkSearch (set_cache index c) pq nns), keys, (Pure.filled keys pairs), sorted.
    split; [exact Hs |]. split; [exact Hr |].
    split; [| split; [exact Hsort | exact Hres]].
    cbn [st_index]. rewrite Hf. unfold Pure.filled.
    cbn [take app Nat.add]. rewrite drop_replicate. reflexivity.
Qed.

End PureQueryMain.

(* ===================================================================== *)
(** * The candidates do not depend on the number of turns allowed *)
(* ===================================================================== *)

Section PureFacts.
Context {D : Type} `{DistanceMetric D}.
Import Annoy.

Lemma Pure_loop_more_fuel (fuel fuel' : nat) (index : AnnoyIndex D)
    (v : list F32.t) (searchK : Z) (st r : list Pair * list Z) :
  (fuel <= fuel')%nat →
  Pure.loop fuel index v searchK st = Returned r →
  Pure.loop fuel' index v searchK st = Returned r.
Proof.
  revert fuel' st. induction fuel as [| fuel IH]; intros fuel' st Hle Hr.
  - cbn [Pure.loop] in Hr.
    destruct (Pure.continues searchK st) eqn:Hc; [discriminate |].
    destruct fuel'; cbn [Pure.loop]; rewrite Hc; exact Hr.
  - destruct fuel' as [| fuel']; [lia |].
    cbn [Pure.loop] in Hr |- *.
    destruct (Pure.continues searchK st); [| exact Hr].
    destruct (Pure.step index v st); [| discriminate].
    apply IH; [lia | exact Hr].
Qed.

Lemma Pure_candidates_more_fuel (fuel fuel' : nat) (index : AnnoyIndex D)
    (v : list F32.t) (n searchK : Z) (r : Node * list Z) :
  (fuel <= fuel')%nat →
  Pure.candidates fuel index v n searchK = Returned r →
  Pure.candidates fuel' index v n searchK = Returned r.
Proof.
  intros Hle. unfold Pure.candidates.
  destruct (Pure.init index v) as [[vNode pq] |]; [| discriminate].
  destruct (Pure.loop fuel index v (effective_searchK index n searchK) (pq, []))
    as [st | |] eqn:Hl; try discriminate.
  intros Hr. rewrite (Pure_loop_more_fuel fuel fuel' _ _ _ _ st Hle Hl).
  exact Hr.
Qed.

(** Whatever the number of turns allowed, the loop returns the same
    candidates. *)
Lemma Pure_candidates_unique (fuel fuel' : nat) (index : AnnoyIndex D)
    (v : list F32.t) (n searchK : Z) (r r' : Node * list Z) :
  Pure.candidates fuel index v n searchK = Returned r →
  Pure.candidates fuel' index v n searchK = Returned r' →
  r = r'.
Proof.
  intros Hr Hr'.
  pose proof (Pure_candidates_more_fuel fuel (max fuel fuel') index v n searchK r
                ltac:(lia) Hr) as H1.
  pose proof (Pure_candidates_more_fuel fuel' (max fuel fuel') index v n searchK r'
                ltac:(lia) Hr') as H2.
  congruence.
Qed.

Lemma take_results_length (index : AnnoyIndex D) (n : Z) (l : list Pair) :
  let r := take_results index n l in
  length (fst r) = length (snd r) ∧
  Z.of_nat (length (fst r)) = Z.max 0 (Z.min n (Z.of_nat (length l))).
Proof.
  unfold take_results. cbn [fst snd].
  rewrite !length_map. split; [reflexivity |].
  rewrite length_take.
  destruct (Z.ltb_spec (Z.of_nat (length l)) n); lia.
Qed.

Lemma map_range_length (nns keys : list Z) :
  GoRuntime.map_range nns keys → keys ≡ₚ remove_dups nns.
Proof.
  intros [Hnd Hin]. apply NoDup_Permutation.
  - exact Hnd.
  - apply NoDup_remove_dups.
  - intros x. rewrite Hin. symmetry. apply elem_of_remove_dups.
Qed.

(** The two results have the same length: the requested [n], cut down to
    the number of distinct candidates, whether singleton leaves or not. *)
Lemma Pure_getAllNns_lengths (index : AnnoyIndex D) (v : list F32.t)
    (n searchK : Z) (result : list Z) (distances : list F32.t) :
  Pure.getAllNns index v n searchK result distances →
  length result = length distances ∧
  ∃ fuel vNode nns,
    Pure.candidates fuel index v n searchK = Returned (vNode, nns) ∧
    Z.of_nat (length result)
    = Z.max 0 (Z.min n (Z.of_nat (length (remove_dups nns)))).
Proof.
  intros (fuel & vNode & nns & keys & pairs & sorted & Hc & Hr & Hp & Hs & Hres).
  pose proof (take_results_length index n sorted) as [Hl1 Hl2].
  rewrite <- Hres in Hl1, Hl2. cbn [fst snd] in Hl1, Hl2.
  split; [exact Hl1 |].
  exists fuel, vNode, nns. split; [exact Hc |].
  rewrite Hl2. destruct Hs as [Hperm _].
  rewrite <- (Permutation_length Hperm).
  unfold Pure.filled. rewrite length_app, length_replicate.
  assert (Hle : (length pairs <= length keys)%nat).
  { clear -Hp. revert pairs Hp. induction keys as [| j keys IH]; intros pairs Hp.
    - injection Hp as <-. cbn. lia.
    - cbn [Pure.leaf_pairs] in Hp.
      destruct (Pure.node_at index j); [| discriminate]. cbn in Hp.
      destruct (Descendants n =? 1).
      + destruct (Distance _ _ _ _); [| discriminate]. cbn in Hp.
        destruct (Pure.leaf_pairs index vNode keys) eqn:Hk; [| discriminate].
        injection Hp as <-. specialize (IH _ eq_refl). cbn. lia.
      + specialize (IH _ Hp). cbn. lia. }
  rewrite (Permutation_length (map_range_length _ _ Hr)) in Hle |- *.
  do 2 f_equal. lia.
Qed.

End PureFacts.

(* ===================================================================== *)
(** * Comparison of floating-point values that are no NaN *)
(* ===================================================================== *)

Lemma lex_Lt (a b : Z * Z * Z) :
  FloatOrder.lex a b = Lt ↔ FloatOrder.lt a b.
Proof.
  unfold FloatOrder.lex, FloatOrder.lt.
  destruct a as [[a1 a2] a3], b as [[b1 b2] b3]. cbn [fst snd].
  destruct (Z.compare_spec a1 b1); destruct (Z.compare_spec a2 b2);
    destruct (Z.compare_spec a3 b3); split; intros Hx;
    try discriminate; try reflexivity; try lia.
Qed.

Lemma lex_Eq (a b : Z * Z * Z) : FloatOrder.lex a b = Eq ↔ a = b.
Proof.
  unfold FloatOrder.lex.
  destruct a as [[a1 a2] a3], b as [[b1 b2] b3]. cbn [fst snd].
  destruct (Z.compare_spec a1 b1); destruct (Z.compare_spec a2 b2);
    destruct (Z.compare_spec a3 b3); split; intros Hx;
    try discriminate; try reflexivity; try (injection Hx; lia); subst; auto.
Qed.

Lemma SFcompare_key (x y : spec_float) :
  FloatOrder.not_nan x → FloatOrder.not_nan y →
  SFcompare x y = Some (FloatOrder.lex (FloatOrder.key x) (FloatOrder.key y)).
Proof.
  unfold FloatOrder.not_nan. intros Hx Hy.
  destruct x as [sx | sx | | sx mx ex], y as [sy | sy | | sy my ey];
    try congruence;
    try (destruct sx; reflexivity); try (destruct sy; reflexivity);
    try (destruct sx, sy; reflexivity).
  destruct sx, sy; cbn [SFcompare FloatOrder.key]; try reflexivity.
  unfold FloatOrder.lex. cbn [fst snd]. rewrite Z.compare_refl.
  rewrite Z.compare_opp.
  destruct (Z.compare_spec ey ex) as [-> | Hlt | Hgt].
  - rewrite Z.compare_refl. rewrite Z.compare_opp.
    change (Z.pos my ?= Z.pos mx) with (my ?= mx)%positive.
    rewrite (Pos.compare_antisym mx my). reflexivity.
  - rewrite (proj2 (Z.compare_gt_iff ex ey)) by lia. reflexivity.
  - rewrite (proj2 (Z.compare_lt_iff ex ey)) by lia. reflexivity.
Qed.

Lemma SFltb_key (x y : spec_float) :
  FloatOrder.not_nan x → FloatOrder.not_nan y →
  SFltb x y = true ↔ FloatOrder.lt (FloatOrder.key x) (FloatOrder.key y).
Proof.
  intros Hx Hy. unfold SFltb. rewrite (SFcompare_key x y Hx Hy).
  rewrite <- lex_Lt.
  destruct (FloatOrder.lex (FloatOrder.key x) (FloatOrder.key y));
    split; congruence.
Qed.

Lemma SFltb_false_key (x y : spec_float) :
  FloatOrder.not_nan x → FloatOrder.not_nan y →
  SFltb x y = false ↔ ¬ FloatOrder.lt (FloatOrder.key x) (FloatOrder.key y).
Proof.
  intros Hx Hy. rewrite <- (SFltb_key x y Hx Hy).
  destruct (SFltb x y); split; congruence.
Qed.

Lemma SFeqb_key (x y : spec_float) :
  FloatOrder.not_nan x → FloatOrder.not_nan y →
  SFeqb x y = true ↔ FloatOrder.key x = FloatOrder.key y.
Proof.
  intros Hx Hy. unfold SFeqb. rewrite (SFcompare_key x y Hx Hy).
  rewrite <- lex_Eq.
  destruct (FloatOrder.lex (FloatOrder.key x) (FloatOrder.key y));
    split; congruence.
Qed.

Lemma key_lt_trans (a b c : Z * Z * Z) :
  FloatOrder.lt a b → FloatOrder.lt b c → FloatOrder.lt a c.
Proof. unfold FloatOrder.lt. lia. Qed.

Lemma key_nlt_trans (a b c : Z * Z * Z) :
  ¬ FloatOrder.lt a b → ¬ FloatOrder.lt b c → ¬ FloatOrder.lt a c.
Proof. unfold FloatOrder.lt. lia. Qed.

Lemma key_lt_asym (a b : Z * Z * Z) :
  FloatOrder.lt a b → ¬ FloatOrder.lt b a.
Proof. unfold FloatOrder.lt. lia. Qed.

Lemma key_total (a b : Z * Z * Z) :
  FloatOrder.lt a b ∨ a = b ∨ FloatOrder.lt b a.
Proof.
  unfold FloatOrder.lt. destruct a as [[a1 a2] a3], b as [[b1 b2] b3].
  cbn [fst snd].
  destruct (Z.lt_total a1 b1) as [? | [-> | ?]]; [lia | | lia].
  destruct (Z.lt_total a2 b2) as [? | [-> | ?]]; [lia | | lia].
  destruct (Z.lt_total a3 b3) as [? | [-> | ?]]; [lia | auto | lia].
Qed.

(** On pairs whose distances are no NaN, the comparison given to
    [sort.Slice] meets the requirement of [sort.Interface]. *)
Lemma by_first_transitive_ordering (l : list Pair) :
  Forall (λ e, FloatOrder.not_nan (first e)) l →
  GoRuntime.transitive_ordering Annoy.by_first l.
Proof.
  intros Hall a b c Ha Hb Hc.
  rewrite Forall_forall in Hall.
  pose proof (Hall a Ha) as Hna. pose proof (Hall b Hb) as Hnb.
  pose proof (Hall c Hc) as Hnc.
  unfold Annoy.by_first, F32.ltb. split.
  - rewrite !SFltb_key by assumption. apply key_lt_trans.
  - rewrite !SFltb_false_key by assumption. apply key_nlt_trans.
Qed.

(* ===================================================================== *)
(** * Results of queries on small files *)
(* ===================================================================== *)

Lemma sorted_by_two {A : Type} (less : A → A → bool) (a b : A) :
  less b a = false → GoRuntime.sorted_by less [a; b].
Proof.
  intros Hba i j x y Hij Hi Hj.
  destruct i as [| [| i]], j as [| [| j]]; cbn in Hi, Hj; try lia;
    try discriminate.
  injection Hi as <-. injection Hj as <-. exact Hba.
Qed.

Lemma sort_Slice_two_ordered {A : Type} (less : A → A → bool) (a b : A)
    (l : list A) :
  GoRuntime.sort_Slice less [a; b] l →
  GoRuntime.transitive_ordering less [a; b] →
  less b a = true → l = [b; a].
Proof.
  intros [Hperm Hsorted] Htrans Hba.
  apply Permutation_length_2_inv in Hperm as [-> | ->]; [| reflexivity].
  specialize (Hsorted Htrans 0%nat 1%nat a b ltac:(lia) eq_refl eq_refl).
  congruence.
Qed.

Lemma NoDup_two (a b : Z) : a ≠ b → NoDup [a; b].
Proof.
  intros Hab. apply NoDup_cons. split; [| apply NoDup_singleton].
  intros Hx. apply list_elem_of_singleton in Hx. contradiction.
Qed.

Lemma map_range_two (a b : Z) (keys : list Z) :
  a ≠ b → GoRuntime.map_range [a; b] keys → keys = [a; b] ∨ keys = [b; a].
Proof.
  intros Hab [Hnd Hin].
  assert (Hp : [a; b] ≡ₚ keys).
  { apply NoDup_Permutation.
    - apply NoDup_cons. split; [| apply NoDup_singleton].
      intros Hx. apply list_elem_of_singleton in Hx. contradiction.
    - exact Hnd.
    - intros x. symmetry. apply Hin. }
  apply Permutation_length_2_inv in Hp. exact Hp.
Qed.

Lemma map_range_intro (nns keys : list Z) :
  NoDup keys → keys ≡ₚ nns → GoRuntime.map_range nns keys.
Proof.
  intros Hnd Hp. split; [exact Hnd |].
  intros j. rewrite Hp. reflexivity.
Qed.

Lemma NewAnnoyIndex_well_formed {D : Type} `{DistanceMetric D} (d : D) (f0 : Z) :
  0 <= f0 → f0 + 2 < 2 ^ 31 →
  Inv.well_formed (Annoy.NewAnnoyIndex d f0).
Proof.
  intros Hf Hf2. unfold Inv.well_formed. cbn.
  split; [exact Hf |]. split; [exact Hf2 |]. split; [lia |].
  replace (12 + f0 * 4 - 4) with ((f0 + 2) * 4) by lia.
  rewrite Z.quot_mul by lia. apply int32_id. lia.
Qed.

(** An index loaded from one of the example files is well formed and has a
    coherent cache. *)
Lemma Loaded_index_invariants (bytes : list byte) (memory : bool) :
  0 < Z.of_nat (length bytes) →
  Z.rem (Z.of_nat (length bytes)) 16 = 0 →
  Z.quot (Z.of_nat (length bytes)) 16 < 2 ^ 31 →
  Inv.well_formed (Loaded.index bytes memory) ∧
  Inv.cache_coherent (Loaded.index bytes memory).
Proof.
  intros Hpos Hrem Hn.
  pose proof (NewAnnoyIndex_well_formed Angular_value 1 ltac:(lia) ltac:(lia))
    as Hwf.
  destruct (Load_scan (Fixture.fs_of bytes) (Annoy.NewAnnoyIndex Angular_value 1)
              String.EmptyString memory (Fixture.file_of bytes) Hwf
              eq_refl eq_refl eq_refl eq_refl Hpos Hrem Hn)
    as (index' & HL & _ & _ & _ & _ & _ & Hf & Hs & Hk & _ & Hc).
  { intros _ i nd Hi. cbn in Hi. rewrite lookup_empty in Hi. discriminate. }
  unfold Loaded.index. rewrite HL. split; [| exact Hc].
  unfold Inv.well_formed. rewrite Hf, Hs, Hk. exact Hwf.
Qed.

(** C4, at a failing input.  In the file [with_hole] the bucket root lists
    node 0, a singleton leaf, and node 1, which has no descendants.  A query
    for [n = 2] neighbours collects the candidates 0 and 1, of which one is a
    singleton leaf, and yet returns two entries: the slot of node 1 stays a
    zero pair, which is sorted to the front and reported as item 0 at
    distance 0. *)
Theorem GetNnsByVector_pads_non_leaf_candidates :
  let index := Loaded.index Fixture3.with_hole true in
  let v := [Fixture3.minus_one] in
  (∃ vNode, Pure.candidates 1 index v 2 (-1) = Returned (vNode, [0; 1])) ∧
  Descendants <$> Pure.node_at index 0 = Some 1 ∧
  Descendants <$> Pure.node_at index 1 = Some 0 ∧
  (∃ result distances index',
     Annoy.GetNnsByVector index v 2 (-1) result distances index') ∧
  ∀ result distances index',
    Annoy.GetNnsByVector index v 2 (-1) result distances index' →
    result = [0; 0] ∧ distances = [F32.zero; F32.two].
Proof.
  intros index v.
  destruct (Loaded_index_invariants Fixture3.with_hole true) as [Hwf Hc];
    [reflexivity | reflexivity | reflexivity |].
  fold index in Hwf, Hc.
  assert (Hcand : ∃ vNode,
            Pure.candidates 1 index v 2 (-1) = Returned (vNode, [0; 1]) ∧
            Pure.leaf_pairs index vNode [0; 1]
            = Some [{| first := Float32frombits 1082130432; second := 0 |}] ∧
            Pure.leaf_pairs index vNode [1; 0]
            = Some [{| first := Float32frombits 1082130432; second := 0 |}]).
  { eexists. split; [vm_compute; reflexivity |].
    split; vm_compute; reflexivity. }
  destruct Hcand as (vNode & Hcand & Hp01 & Hp10).
  set (four := {| first := Float32frombits 1082130432; second := 0 |}) in *.
  assert (Htrans : GoRuntime.transitive_ordering Annoy.by_first [four; Pair_zero]).
  { apply by_first_transitive_ordering.
    repeat constructor; discriminate. }
  split; [eauto |].
  split; [vm_compute; reflexivity |].
  split; [vm_compute; reflexivity |].
  split.
  - exists [0; 0], [F32.zero; F32.two].
    apply (getAllNns_pure index v 2 (-1) _ _ Hwf Hc).
    exists 1%nat, vNode, [0; 1], [0; 1], [four], [Pair_zero; four].
    split; [exact Hcand |].
    split; [apply map_range_intro; [apply NoDup_two; discriminate | reflexivity] |].
    split; [exact Hp01 |].
    split; [| vm_compute; reflexivity].
    split; [apply perm_swap |].
    intros _. apply sorted_by_two. reflexivity.
  - intros result distances index' Hq.
    assert (Hex : ∃ ix, Annoy.getAllNns index v 2 (-1) result distances ix)
      by (exists index'; exact Hq).
    apply (getAllNns_pure index v 2 (-1) _ _ Hwf Hc) in Hex.
    destruct Hex as (fuel & vNode' & nns & keys & pairs & sorted
                     & Hc' & Hr & Hp & Hs & Hres).
    pose proof (Pure_candidates_unique _ _ _ _ _ _ _ _ Hcand Hc') as Heq.
    injection Heq as <- <-.
    assert (Hpairs : pairs = [four] ∧ length keys = 2%nat).
    { apply map_range_two in Hr as [-> | ->]; [| | lia].
      - split; [congruence | reflexivity].
      - split; [congruence | reflexivity]. }
    destruct Hpairs as [-> Hlen].
    unfold Pure.filled in Hs. rewrite Hlen in Hs.
    change ([four] ++ replicate (2 - length [four]) Pair_zero)
      with [four; Pair_zero] in Hs.
    apply sort_Slice_two_ordered in Hs; [| exact Htrans | reflexivity].
    subst sorted. vm_compute in Hres. injection Hres as -> ->.
    split; reflexivity.
Qed.

(* ===================================================================== *)
(** * Mapped mode and resident mode *)
(* ===================================================================== *)

Section Modes.
Context {D : Type} `{DistanceMetric D} `{!LawfulMetric D}.
Import Annoy Inv Frame QueryFrame.

Lemma Pure_step_same_file (a b : AnnoyIndex D) (v : list F32.t)
    (st : list Pair * list Z) :
  same_file a b → Pure.step a v st = Pure.step b v st.
Proof.
  intros (Hd & Hf & Hs & Hk & Hni & Hn & _).
  unfold Pure.step, Pure.node_at, nodes_bytes.
  rewrite Hd, Hf, Hs, Hk, Hni, Hn. reflexivity.
Qed.

Lemma Pure_loop_same_file (fuel : nat) (a b : AnnoyIndex D) (v : list F32.t)
    (searchK : Z) (st : list Pair * list Z) :
  same_file a b → Pure.loop fuel a v searchK st = Pure.loop fuel b v searchK st.
Proof.
  intros Hab. revert st. induction fuel as [| fuel IH]; intros st;
    cbn [Pure.loop]; [reflexivity |].
  rewrite (Pure_step_same_file a b v st Hab).
  destruct (Pure.continues searchK st); [| reflexivity].
  destruct (Pure.step b v st); [apply IH | reflexivity].
Qed.

Lemma Pure_leaf_pairs_same_file (a b : AnnoyIndex D) (vNode : Node)
    (keys : list Z) :
  same_file a b → Pure.leaf_pairs a vNode keys = Pure.leaf_pairs b vNode keys.
Proof.
  intros (Hd & Hf & Hs & Hk & Hni & Hn & _).
  induction keys as [| j keys IH]; cbn [Pure.leaf_pairs]; [reflexivity |].
  unfold Pure.node_at, nodes_bytes. rewrite IH, Hd, Hf, Hs, Hn. reflexivity.
Qed.

Lemma Pure_candidates_same_file (fuel : nat) (a b : AnnoyIndex D)
    (v : list F32.t) (n searchK : Z) :
  same_file a b →
  Pure.candidates fuel a v n searchK = Pure.candidates fuel b v n searchK.
Proof.
  intros Hab. pose proof Hab as (Hd & Hf & Hs & Hk & Hni & Hn & Hr).
  unfold Pure.candidates, Pure.init, query_node, effective_searchK.
  rewrite Hd, Hf, Hr.
  destruct (_ ≫= _) as [[vNode pq] |]; [| reflexivity].
  rewrite (Pure_loop_same_file fuel a b v _ _ Hab). reflexivity.
Qed.

Lemma Pure_getAllNns_same_file (a b : AnnoyIndex D) (v : list F32.t)
    (n searchK : Z) (result : list Z) (distances : list F32.t) :
  same_file a b →
  Pure.getAllNns a v n searchK result distances →
  Pure.getAllNns b v n searchK result distances.
Proof.
  intros Hab (fuel & vNode & nns & keys & pairs & sorted
              & Hc & Hr & Hp & Hs & Hres).
  exists fuel, vNode, nns, keys, pairs, sorted.
  rewrite <- (Pure_candidates_same_file fuel a b v n searchK Hab).
  rewrite <- (Pure_leaf_pairs_same_file a b vNode keys Hab).
  split; [exact Hc |]. split; [exact Hr |]. split; [exact Hp |].
  split; [exact Hs |].
  rewrite Hres. unfold take_results.
  destruct Hab as (-> & _). reflexivity.
Qed.

Lemma same_file_sym (a b : AnnoyIndex D) : same_file a b → same_file b a.
Proof. unfold same_file. intuition congruence. Qed.

(** Two indexes that hold the same file, one through a mapping and one
    through a heap copy with its cache, can return the same results. *)
Lemma same_file_same_results (a b : AnnoyIndex D) (v : list F32.t)
    (n searchK : Z) (result : list Z) (distances : list F32.t) :
  well_formed a → cache_coherent a → cache_coherent b → same_file a b →
  (∃ a', getAllNns a v n searchK result distances a')
  ↔ (∃ b', getAllNns b v n searchK result distances b').
Proof.
  intros Hwfa Hca Hcb Hab.
  assert (Hwfb : well_formed b).
  { destruct Hab as (_ & Hf & Hs & Hk & _). unfold well_formed.
    rewrite <- Hf, <- Hs, <- Hk. exact Hwfa. }
  rewrite (getAllNns_pure a v n searchK result distances Hwfa Hca).
  rewrite (getAllNns_pure b v n searchK result distances Hwfb Hcb).
  split; apply Pure_getAllNns_same_file; [exact Hab | apply same_file_sym, Hab].
Qed.


End Modes.


(* ===================================================================== *)
(** * Signs of rounded values *)
(* ===================================================================== *)

Lemma shr_1_nonneg (mrs : shr_record) : 0 <= shr_m mrs → 0 <= shr_m (shr_1 mrs).
Proof.
  destruct mrs as [m r s]. cbn [shr_m].
  destruct m as [| p | p]; [| destruct p | lia]; cbn; lia.
Qed.

Lemma iter_pos_shr_1_nonneg (p : positive) (mrs : shr_record) :
  0 <= shr_m mrs → 0 <= shr_m (SpecFloat.iter_pos shr_1 p mrs).
Proof.
  revert mrs. induction p as [p IH | p IH |]; intros mrs Hm; cbn [SpecFloat.iter_pos].
  - apply IH, IH, shr_1_nonneg, Hm.
  - apply IH, IH, Hm.
  - apply shr_1_nonneg, Hm.
Qed.

Lemma shr_fexp_nonneg (prec emax m e : Z) (l : location) :
  0 <= m → 0 <= shr_m (fst (shr_fexp prec emax m e l)).
Proof.
  intros Hm. unfold shr_fexp, shr.
  assert (H0 : 0 <= shr_m (shr_record_of_loc m l)).
  { destruct l as [| []]; exact Hm. }
  destruct (fexp prec emax (Zdigits2 m + e) - e); cbn [fst];
    [exact H0 | apply iter_pos_shr_1_nonneg, H0 | exact H0].
Qed.

Lemma round_nearest_even_nonneg (m : Z) (l : location) :
  0 <= m → 0 <= round_nearest_even m l.
Proof.
  intros Hm. unfold round_nearest_even.
  destruct l as [| []]; [lia | | lia | lia].
  destruct (Z.even m); lia.
Qed.

Lemma binary_round_aux_sign (prec emax : Z) (sx : bool) (mx ex : Z)
    (lx : location) :
  0 <= mx → has_sign sx (binary_round_aux prec emax sx mx ex lx).
Proof.
  intros Hm. unfold binary_round_aux.
  pose proof (shr_fexp_nonneg prec emax mx ex lx Hm) as H1.
  destruct (shr_fexp prec emax mx ex lx) as [mrs' e']. cbn [fst] in H1.
  pose proof (shr_fexp_nonneg prec emax
                (round_nearest_even (shr_m mrs') (loc_of_shr_record mrs')) e'
                loc_Exact (round_nearest_even_nonneg _ _ H1)) as H2.
  destruct (shr_fexp prec emax _ e' loc_Exact) as [mrs'' e'']. cbn [fst] in H2.
  destruct (shr_m mrs'') as [| p | p]; [reflexivity | | lia].
  destruct (e'' <=? emax - prec); reflexivity.
Qed.

Lemma binary_round_sign (prec emax : Z) (sx : bool) (mx : positive) (ex : Z) :
  has_sign sx (binary_round prec emax sx mx ex).
Proof.
  unfold binary_round.
  destruct (shl_align mx ex _) as [mz ez].
  apply binary_round_aux_sign. lia.
Qed.

Lemma has_sign_false_nonneg (x : spec_float) :
  has_sign false x → FloatOrder.nonneg x.
Proof.
  destruct x as [s | s | | s m e]; cbn; intros Hs; try contradiction; subst;
    split; try discriminate; reflexivity.
Qed.

(** The normalised distance of a distance that is no NaN is no NaN and not
    below zero. *)
Lemma Angular_NormalizeDistance_nonneg (raw : F32.t) :
  FloatOrder.not_nan raw →
  FloatOrder.nonneg (NormalizeDistance Angular_value raw).
Proof.
  intros Hraw. apply has_sign_false_nonneg.
  cbn [NormalizeDistance Angular_DistanceMetric].
  unfold AngularImpl.NormalizeDistance.
  assert (Hmax : has_sign false (F64.max (to_f64 raw) F64.zero)).
  { destruct raw as [s | s | | s m e]; [destruct s .. | | ]; try reflexivity.
    - exfalso. apply Hraw. reflexivity.
    - cbn [to_f64].
      pose proof (binary_round_sign F64.prec F64.emax s m e) as Hs.
      destruct (binary_round F64.prec F64.emax s m e) as [s' | s' | | s' m' e'];
        cbn in Hs; try contradiction; subst s'; destruct s; reflexivity. }
  assert (Hsqrt : has_sign false (F64.sqrt (F64.max (to_f64 raw) F64.zero))).
  { destruct (F64.max (to_f64 raw) F64.zero) as [s | s | | s m e];
      cbn in Hmax; try contradiction; subst; try reflexivity.
    unfold F64.sqrt, SFsqrt.
    destruct (SFsqrt_core_binary F64.prec F64.emax (Z.pos m) e) as [[mz ez] lz] eqn:Hcore.
    apply binary_round_aux_sign.
    unfold SFsqrt_core_binary in Hcore.
    destruct (Z.sqrtrem _) as [q r] eqn:Hq. injection Hcore as <- _ _.
    pose proof (Z.sqrtrem_spec
      (match e - 2 * Z.min (fexp F64.prec F64.emax (Z.div2 (Zdigits2 (Z.pos m) + e + 1))) (Z.div2 e) with
       | 0 => Z.pos m
       | Z.pos _ => Z.shiftl (Z.pos m) (e - 2 * Z.min (fexp F64.prec F64.emax (Z.div2 (Zdigits2 (Z.pos m) + e + 1))) (Z.div2 e))
       | Z.neg _ => 0
       end)) as Hspec.
    rewrite Hq in Hspec.
    assert (Hnn : 0 <= match e - 2 * Z.min (fexp F64.prec F64.emax (Z.div2 (Zdigits2 (Z.pos m) + e + 1))) (Z.div2 e) with
       | 0 => Z.pos m
       | Z.pos _ => Z.shiftl (Z.pos m) (e - 2 * Z.min (fexp F64.prec F64.emax (Z.div2 (Zdigits2 (Z.pos m) + e + 1))) (Z.div2 e))
       | Z.neg _ => 0
       end).
    { destruct (e - 2 * Z.min _ _) eqn:Hd; [lia | | lia].
      apply Z.shiftl_nonneg. lia. }
    specialize (Hspec Hnn). lia. }
  destruct (F64.sqrt (F64.max (to_f64 raw) F64.zero)) as [s | s | | s m e];
    cbn in Hsqrt; try contradiction; subst; try reflexivity.
  cbn [to_f32]. apply binary_round_sign.
Qed.

(* ===================================================================== *)
(** * Values of the binary32 format in binary64 *)
(* ===================================================================== *)

Lemma digits2_pos_iter (n m : positive) :
  digits2_pos (Pos.iter xO m n) = (digits2_pos m + n)%positive.
Proof.
  revert m. induction n as [n IH | n IH |]; intros m; simpl.
  - rewrite !IH. lia.
  - rewrite !IH. lia.
  - lia.
Qed.

Lemma iter_pos_shr_1_iter (n m : positive) :
  SpecFloat.iter_pos shr_1 n
    {| shr_m := Z.pos (Pos.iter xO m n); shr_r := false; shr_s := false |}
  = {| shr_m := Z.pos m; shr_r := false; shr_s := false |}.
Proof.
  revert m. induction n as [n IH | n IH |]; intros m; simpl.
  - rewrite !IH. reflexivity.
  - rewrite !IH. reflexivity.
  - reflexivity.
Qed.

Lemma digits2_pos_log2 (p : positive) :
  Z.pos (digits2_pos p) = Z.log2 (Z.pos p) + 1.
Proof.
  assert (Hs : ∀ q, digits2_pos q = Pos.size q)
    by (induction q; cbn; congruence).
  destruct p; cbn [digits2_pos Z.log2]; rewrite ?Hs; lia.
Qed.

Lemma fexp_eq (prec emax e : Z) :
  fexp prec emax e = Z.max (e - prec) (3 - emax - prec).
Proof. reflexivity. Qed.

(** A mantissa and exponent that are canonical and in range are left as
    they are by the rounding. *)
Lemma binary_round_aux_exact (prec emax : Z) (s : bool) (m : positive) (e : Z) :
  fexp prec emax (Z.pos (digits2_pos m) + e) = e → e <= emax - prec →
  binary_round_aux prec emax s (Z.pos m) e loc_Exact = S754_finite s m e.
Proof.
  intros Hc He. unfold binary_round_aux, shr_fexp.
  cbn [Zdigits2 shr_record_of_loc]. rewrite Hc, Z.sub_diag.
  cbn [shr shr_m loc_of_shr_record round_nearest_even Zdigits2].
  rewrite Hc, Z.sub_diag. cbn [shr shr_m].
  destruct (Z.leb_spec e (emax - prec)); [reflexivity | lia].
Qed.

Lemma bounded32_inv (m : positive) (e : Z) :
  bounded F32.prec F32.emax m e = true →
  Z.pos (digits2_pos m) <= 24 ∧ -149 <= e <= 104 ∧
  (Z.pos (digits2_pos m) = 24 ∨ e = -149).
Proof.
  unfold bounded, canonical_mantissa. rewrite fexp_eq.
  unfold F32.prec, F32.emax.
  intros Hb. apply andb_true_iff in Hb as [Hc He].
  apply Z.eqb_eq in Hc. apply Z.leb_le in He. lia.
Qed.

(** The conversion to binary64 of a binary32 number: the same value, with
    the mantissa shifted to the left. *)
Lemma to_f64_finite (s : bool) (m : positive) (e : Z) :
  bounded F32.prec F32.emax m e = true →
  ∃ d : positive,
    Z.pos d = 53 - Z.pos (digits2_pos m) ∧
    to_f64 (S754_finite s m e)
    = S754_finite s (Pos.iter xO m d) (e - Z.pos d).
Proof.
  intros Hb. apply bounded32_inv in Hb as (HD & He & _).
  destruct (53 - Z.pos (digits2_pos m)) as [| d | d] eqn:Hd; [lia | | lia].
  exists d. split; [reflexivity |].
  cbn [to_f64]. unfold binary_round.
  assert (He' : fexp F64.prec F64.emax (Z.pos (digits2_pos m) + e)
                = e - Z.pos d).
  { rewrite fexp_eq. unfold F64.prec, F64.emax. lia. }
  rewrite He'. unfold shl_align.
  replace (e - Z.pos d - e) with (Z.neg d) by lia.
  apply binary_round_aux_exact.
  - rewrite digits2_pos_iter, Pos2Z.inj_add.
    replace (Z.pos (digits2_pos m) + Z.pos d + (e - Z.pos d))
      with (Z.pos (digits2_pos m) + e) by lia.
    exact He'.
  - unfold F64.prec, F64.emax. lia.
Qed.

Lemma to_f32_shifted (s : bool) (m d : positive) (e : Z) :
  bounded F32.prec F32.emax m e = true →
  to_f32 (S754_finite s (Pos.iter xO m d) (e - Z.pos d)) = S754_finite s m e.
Proof.
  intros Hb. pose proof Hb as Hb'.
  apply bounded32_inv in Hb' as (HD & He & _).
  unfold bounded, canonical_mantissa in Hb.
  apply andb_true_iff in Hb as [Hc _]. apply Z.eqb_eq in Hc.
  cbn [to_f32]. unfold binary_round.
  assert (Hdig : Z.pos (digits2_pos (Pos.iter xO m d)) + (e - Z.pos d)
                 = Z.pos (digits2_pos m) + e)
    by (rewrite digits2_pos_iter, Pos2Z.inj_add; lia).
  rewrite Hdig, Hc. unfold shl_align.
  replace (e - (e - Z.pos d)) with (Z.pos d) by lia.
  unfold binary_round_aux, shr_fexp.
  cbn [Zdigits2 shr_record_of_loc]. rewrite Hdig, Hc.
  replace (e - (e - Z.pos d)) with (Z.pos d) by lia.
  cbn [shr]. rewrite iter_pos_shr_1_iter.
  cbn [shr_m loc_of_shr_record round_nearest_even Zdigits2].
  replace (e - Z.pos d + Z.pos d) with e by lia.
  rewrite Hc, Z.sub_diag. cbn [shr shr_m].
  unfold F32.prec, F32.emax.
  destruct (Z.leb_spec e (128 - 24)); [reflexivity | lia].
Qed.

Lemma to_f32_to_f64 (x : F32.t) :
  Binary32.valid x → to_f32 (to_f64 x) = x.
Proof.
  unfold Binary32.valid.
  destruct x as [s | s | | s m e]; try reflexivity.
  cbn [valid_binary]. intros Hb.
  destruct (to_f64_finite s m e Hb) as (d & _ & ->).
  apply to_f32_shifted. exact Hb.
Qed.

(** The verdict of comparing two positive finite numbers: exponents first,
    then mantissas. *)
Lemma digits2_pos_mono (m1 m2 : positive) :
  (m1 <= m2)%positive → Z.pos (digits2_pos m1) <= Z.pos (digits2_pos m2).
Proof.
  intros Hm. rewrite !digits2_pos_log2.
  apply Z.add_le_mono_r, Z.log2_le_mono. lia.
Qed.

Lemma iter_xO_value (m d : positive) :
  Z.pos (Pos.iter xO m d) = 2 ^ Z.pos d * Z.pos m.
Proof. rewrite <- Z.pow_pos_fold. apply (shift_pos_correct d m). Qed.

Lemma shifted_compare (m1 m2 d1 d2 : positive) (e1 e2 : Z) :
  bounded F32.prec F32.emax m1 e1 = true →
  bounded F32.prec F32.emax m2 e2 = true →
  Z.pos d1 = 53 - Z.pos (digits2_pos m1) →
  Z.pos d2 = 53 - Z.pos (digits2_pos m2) →
  match e1 - Z.pos d1 ?= e2 - Z.pos d2 with
  | Eq => (Pos.iter xO m1 d1 ?= Pos.iter xO m2 d2)%positive
  | c => c
  end
  = match e1 ?= e2 with
    | Eq => (m1 ?= m2)%positive
    | c => c
    end.
Proof.
  intros Hb1 Hb2 Hd1 Hd2.
  apply bounded32_inv in Hb1 as (HD1 & He1 & Hc1).
  apply bounded32_inv in Hb2 as (HD2 & He2 & Hc2).
  destruct (Z.compare_spec e1 e2) as [Heq | Hlt | Hgt].
  - subst e2.
    destruct (Pos.compare_spec m1 m2) as [Hm | Hm | Hm].
    + subst m2. assert (d1 = d2) by lia. subst d2.
      rewrite Z.compare_refl, Pos.compare_refl. reflexivity.
    + pose proof (digits2_pos_mono m1 m2 ltac:(lia)) as HD.
      destruct (Z.eq_dec (Z.pos (digits2_pos m1)) (Z.pos (digits2_pos m2)))
        as [Hsame | Hdiff].
      * assert (d1 = d2) by lia. subst d2.
        rewrite Z.compare_refl.
        apply Pos.compare_lt_iff.
        pose proof (iter_xO_value m1 d1) as H1.
        pose proof (iter_xO_value m2 d1) as H2.
        assert (0 < 2 ^ Z.pos d1) by (apply Z.pow_pos_nonneg; lia).
        nia.
      * rewrite (proj2 (Z.compare_lt_iff _ _)) by lia. reflexivity.
    + pose proof (digits2_pos_mono m2 m1 ltac:(lia)) as HD.
      destruct (Z.eq_dec (Z.pos (digits2_pos m1)) (Z.pos (digits2_pos m2)))
        as [Hsame | Hdiff].
      * assert (d1 = d2) by lia. subst d2.
        rewrite Z.compare_refl.
        apply Pos.compare_gt_iff.
        pose proof (iter_xO_value m1 d1) as H1.
        pose proof (iter_xO_value m2 d1) as H2.
        assert (0 < 2 ^ Z.pos d1) by (apply Z.pow_pos_nonneg; lia).
        nia.
      * rewrite (proj2 (Z.compare_gt_iff _ _)) by lia. reflexivity.
  - rewrite (proj2 (Z.compare_lt_iff _ _)) by lia. reflexivity.
  - rewrite (proj2 (Z.compare_gt_iff _ _)) by lia. reflexivity.
Qed.

(** The conversion to binary64 keeps the order. *)
Lemma to_f64_compare (x y : F32.t) :
  Binary32.valid x → Binary32.valid y →
  SFcompare (to_f64 x) (to_f64 y) = SFcompare x y.
Proof.
  unfold Binary32.valid.
  destruct x as [sx | sx | | sx mx ex], y as [sy | sy | | sy my ey];
    try reflexivity; cbn [valid_binary]; intros Hx Hy.
  - destruct (to_f64_finite sy my ey Hy) as (d & _ & ->). reflexivity.
  - destruct (to_f64_finite sy my ey Hy) as (d & _ & ->). reflexivity.
  - destruct (to_f64_finite sx mx ex Hx) as (d & _ & ->). reflexivity.
  - destruct (to_f64_finite sx mx ex Hx) as (d & _ & ->). reflexivity.
  - destruct (to_f64_finite sx mx ex Hx) as (d & _ & ->). reflexivity.
  - destruct (to_f64_finite sx mx ex Hx) as (dx & Hdx & ->).
    destruct (to_f64_finite sy my ey Hy) as (dy & Hdy & ->).
    pose proof (shifted_compare mx my dx dy ex ey Hx Hy Hdx Hdy) as Hc.
    cbn [SFcompare].
    change (PosDef.Pos.compare_cont Eq) with Pos.compare.
    destruct sx, sy; try reflexivity.
    + f_equal.
      destruct (ex - Z.pos dx ?= ey - Z.pos dy), (ex ?= ey);
        try discriminate Hc; try reflexivity;
        first [rewrite Hc | rewrite <- Hc]; reflexivity.
    + f_equal.
      destruct (ex - Z.pos dx ?= ey - Z.pos dy), (ex ?= ey);
        try discriminate Hc; try reflexivity; try exact Hc.
Qed.

Lemma to_f64_ltb (x y : F32.t) :
  Binary32.valid x → Binary32.valid y →
  SFltb (to_f64 x) (to_f64 y) = SFltb x y.
Proof.
  intros Hx Hy. unfold SFltb. rewrite to_f64_compare by assumption.
  reflexivity.
Qed.

(* ===================================================================== *)
(** * Rounding keeps the order *)
(* ===================================================================== *)

(** ** Shifting a mantissa to the right *)

Lemma iter_pos_nat {A : Type} (f : A → A) (n : positive) (x : A) :
  SpecFloat.iter_pos f n x = Nat.iter (Pos.to_nat n) f x.
Proof.
  revert x. induction n as [n IH | n IH |]; intros x; cbn [SpecFloat.iter_pos].
  - rewrite !IH, Pos2Nat.inj_xI.
    replace (S (2 * Pos.to_nat n)) with (Pos.to_nat n + (Pos.to_nat n + 1))%nat
      by lia.
    rewrite !Nat.iter_add. reflexivity.
  - rewrite !IH, Pos2Nat.inj_xO.
    replace (2 * Pos.to_nat n)%nat with (Pos.to_nat n + Pos.to_nat n)%nat by lia.
    rewrite Nat.iter_add. reflexivity.
  - reflexivity.
Qed.

Lemma shr_1_spec (m : Z) (r s : bool) :
  0 <= m →
  shr_1 {| shr_m := m; shr_r := r; shr_s := s |}
  = {| shr_m := m / 2; shr_r := Z.odd m; shr_s := r || s |}.
Proof.
  intros Hm. destruct m as [| p | p]; [reflexivity | | lia].
  destruct p as [p | p |]; cbn [shr_1].
  - f_equal. rewrite Pos2Z.inj_xI.
    replace (2 * Z.pos p + 1) with (1 + Z.pos p * 2) by lia.
    rewrite Z.div_add by lia. reflexivity.
  - f_equal. rewrite Pos2Z.inj_xO.
    replace (2 * Z.pos p) with (Z.pos p * 2) by lia.
    rewrite Z.div_mul by lia. reflexivity.
  - reflexivity.
Qed.

(** The record after [k + 1] shifts of an exact mantissa: the quotient,
    the bit shifted out last, and whether any bit shifted out before it
    was set. *)
Lemma iter_shr_1_spec (k : nat) (m : Z) :
  0 <= m →
  Nat.iter (S k) shr_1 {| shr_m := m; shr_r := false; shr_s := false |}
  = {| shr_m := m / 2 ^ Z.of_nat (S k);
       shr_r := Z.odd (m / 2 ^ Z.of_nat k);
       shr_s := negb (m mod 2 ^ Z.of_nat k =? 0) |}.
Proof.
  intros Hm. induction k as [| k IH].
  - cbn [Nat.iter]. rewrite shr_1_spec by exact Hm.
    change (2 ^ Z.of_nat 1) with 2. change (2 ^ Z.of_nat 0) with 1.
    rewrite Z.div_1_r, Z.mod_1_r. reflexivity.
  - rewrite Nat.iter_succ, IH.
    assert (Hp : 0 < 2 ^ Z.of_nat k) by (apply Z.pow_pos_nonneg; lia).
    assert (Hq : 0 <= m / 2 ^ Z.of_nat (S k))
      by (apply Z.div_pos; [lia | apply Z.pow_pos_nonneg; lia]).
    rewrite shr_1_spec by exact Hq.
    assert (H2 : 2 ^ Z.of_nat (S k) = 2 ^ Z.of_nat k * 2)
      by (rewrite Nat2Z.inj_succ, Z.pow_succ_r by lia; lia).
    assert (H3 : 2 ^ Z.of_nat (S (S k)) = 2 ^ Z.of_nat (S k) * 2)
      by (rewrite (Nat2Z.inj_succ (S k)), Z.pow_succ_r by lia; lia).
    f_equal.
    + rewrite H3, Z.div_div by lia. reflexivity.
    + pose proof (Z.div_mod m (2 ^ Z.of_nat k) ltac:(lia)) as Hdm.
      pose proof (Z.mod_pos_bound m (2 ^ Z.of_nat k) Hp) as Hb.
      pose proof (Z.div_mod m (2 ^ Z.of_nat (S k)) ltac:(lia)) as Hdm2.
      pose proof (Z.mod_pos_bound m (2 ^ Z.of_nat (S k)) ltac:(lia)) as Hb2.
      remember (m / 2 ^ Z.of_nat (S k)) as c eqn:Hc in *.
      remember (m mod 2 ^ Z.of_nat (S k)) as d eqn:Hd0 in *.
      remember (m / 2 ^ Z.of_nat k) as a eqn:Ha0 in *.
      remember (m mod 2 ^ Z.of_nat k) as b eqn:Hb0 in *.
      clear Hc Hd0 Ha0 Hb0 IH.
      assert (Ha : a = 2 * c + d / 2 ^ Z.of_nat k ∧ d mod 2 ^ Z.of_nat k = b).
      { assert (Hd : d = (a - 2 * c) * 2 ^ Z.of_nat k + b) by nia.
        assert (0 <= a - 2 * c < 2) by nia.
        split.
        - rewrite Hd at 1. rewrite Z.div_add_l, Z.div_small by lia. lia.
        - rewrite Hd.
          rewrite (Z.add_comm _ b), Z.mod_add, Z.mod_small by lia.
          reflexivity. }
      destruct Ha as [Ha Hdb].
      assert (Hr : 0 <= d / 2 ^ Z.of_nat k < 2).
      { split; [apply Z.div_pos; lia |].
        apply Z.div_lt_upper_bound; lia. }
      destruct (Z.odd a) eqn:Hodd.
      * assert (d / 2 ^ Z.of_nat k = 1).
        { rewrite Ha in Hodd.
          destruct (Z.eq_dec (d / 2 ^ Z.of_nat k) 0) as [H0 | H0]; [| lia].
          rewrite H0, Z.add_0_r, Z.odd_mul in Hodd. discriminate Hodd. }
        cbn [orb]. symmetry. apply negb_true_iff, Z.eqb_neq.
        pose proof (Z.div_mod d (2 ^ Z.of_nat k) ltac:(lia)). nia.
      * assert (d / 2 ^ Z.of_nat k = 0).
        { rewrite Ha in Hodd.
          destruct (Z.eq_dec (d / 2 ^ Z.of_nat k) 1) as [H1 | H1]; [| lia].
          rewrite H1, Z.odd_add, Z.odd_mul in Hodd. discriminate Hodd. }
        cbn [orb].
        pose proof (Z.div_mod d (2 ^ Z.of_nat k) ltac:(lia)).
        assert (d = b) by nia.
        rewrite H1. reflexivity.
Qed.

Lemma shifted_spec (m : Z) (k : positive) :
  0 <= m →
  Rounding.shifted m k
  = {| shr_m := m / 2 ^ Z.pos k;
       shr_r := Z.odd (m / 2 ^ (Z.pos k - 1));
       shr_s := negb (m mod 2 ^ (Z.pos k - 1) =? 0) |}.
Proof.
  intros Hm. unfold Rounding.shifted. rewrite iter_pos_nat.
  destruct (Pos.to_nat k) as [| j] eqn:Hk; [lia |].
  rewrite iter_shr_1_spec by exact Hm.
  replace (Z.of_nat (S j)) with (Z.pos k) by lia.
  replace (Z.of_nat j) with (Z.pos k - 1) by lia.
  reflexivity.
Qed.

(** The rounded quotient in arithmetic: [q] below the half, [q + 1] above
    it, and the even one of the two at the half. *)
Lemma rne_spec (m : Z) (k : positive) :
  0 <= m →
  let q := m / 2 ^ Z.pos k in
  let rem := m mod 2 ^ Z.pos k in
  let half := 2 ^ (Z.pos k - 1) in
  Rounding.rne m k
  = if rem <? half then q
    else if half <? rem then q + 1
    else if Z.even q then q else q + 1.
Proof.
  intros Hm q rem half.
  unfold Rounding.rne. rewrite shifted_spec by exact Hm.
  cbn [shr_m]. fold q. fold half.
  assert (Hh : 0 < half) by (apply Z.pow_pos_nonneg; lia).
  assert (H2 : 2 ^ Z.pos k = 2 * half).
  { unfold half. rewrite <- Z.pow_succ_r by lia. f_equal. lia. }
  pose proof (Z.div_mod m (2 ^ Z.pos k) ltac:(lia)) as Hdm.
  pose proof (Z.mod_pos_bound m (2 ^ Z.pos k) ltac:(lia)) as Hb.
  fold q rem in Hdm, Hb.
  pose proof (Z.div_mod m half ltac:(lia)) as Hdh.
  pose proof (Z.mod_pos_bound m half Hh) as Hbh.
  pose proof (Z.div2_odd (m / half)) as Hodd.
  rewrite Z.div2_div in Hodd.
  assert (Hq : m / half / 2 = q).
  { unfold q. rewrite H2, Z.div_div by lia. f_equal. lia. }
  rewrite Hq in Hodd.
  remember (m / half) as a eqn:Ha. remember (m mod half) as b eqn:Hb0.
  clear Ha Hb0.
  destruct (Z.odd a) eqn:Hoa; cbn [Z.b2z] in Hodd.
  - assert (Hrem : rem = half + b) by nia.
    destruct (Z.eqb_spec b 0) as [Hb1 | Hb1]; cbn [negb loc_of_shr_record].
    + replace (rem <? half) with false by (symmetry; apply Z.ltb_ge; lia).
      replace (half <? rem) with false by (symmetry; apply Z.ltb_ge; lia).
      reflexivity.
    + replace (rem <? half) with false by (symmetry; apply Z.ltb_ge; lia).
      replace (half <? rem) with true by (symmetry; apply Z.ltb_lt; lia).
      reflexivity.
  - assert (Hrem : rem = b) by nia.
    replace (rem <? half) with true by (symmetry; apply Z.ltb_lt; lia).
    destruct (Z.eqb_spec b 0); reflexivity.
Qed.

Lemma rne_bounds (m : Z) (k : positive) :
  0 <= m →
  m / 2 ^ Z.pos k <= Rounding.rne m k <= m / 2 ^ Z.pos k + 1.
Proof.
  intros Hm. rewrite (rne_spec m k Hm). cbn zeta.
  destruct (_ <? _); [lia |]. destruct (_ <? _); [lia |].
  destruct (Z.even _); lia.
Qed.

Lemma rne_mono (m m' : Z) (k : positive) :
  0 <= m <= m' → Rounding.rne m k <= Rounding.rne m' k.
Proof.
  intros Hm.
  pose proof (rne_bounds m k ltac:(lia)) as B.
  pose proof (rne_bounds m' k ltac:(lia)) as B'.
  assert (Hp : 0 < 2 ^ Z.pos k) by (apply Z.pow_pos_nonneg; lia).
  assert (Hq : m / 2 ^ Z.pos k <= m' / 2 ^ Z.pos k)
    by (apply Z.div_le_mono; lia).
  destruct (Z.eq_dec (m / 2 ^ Z.pos k) (m' / 2 ^ Z.pos k)) as [Heq | Hne];
    [| lia].
  rewrite (rne_spec m k), (rne_spec m' k) by lia. cbn zeta.
  rewrite <- Heq.
  pose proof (Z.div_mod m (2 ^ Z.pos k) ltac:(lia)) as Hdm.
  pose proof (Z.div_mod m' (2 ^ Z.pos k) ltac:(lia)) as Hdm'.
  rewrite <- Heq in Hdm'.
  assert (Hr : m mod 2 ^ Z.pos k <= m' mod 2 ^ Z.pos k) by lia.
  remember (m mod 2 ^ Z.pos k) as r. remember (m' mod 2 ^ Z.pos k) as r'.
  remember (2 ^ (Z.pos k - 1)) as half.
  destruct (Z.ltb_spec r half), (Z.ltb_spec r' half),
           (Z.ltb_spec half r), (Z.ltb_spec half r');
    try lia; destruct (Z.even _); lia.
Qed.

(** ** The number of digits of a mantissa *)

Lemma Zdigits2_log2 (m : Z) : 0 < m → Zdigits2 m = Z.log2 m + 1.
Proof.
  destruct m as [| p | p]; [lia | | lia]. intros _.
  cbn [Zdigits2]. apply digits2_pos_log2.
Qed.

Lemma Zdigits2_bounds (m : Z) :
  0 < m → 0 < Zdigits2 m ∧ 2 ^ (Zdigits2 m - 1) <= m < 2 ^ Zdigits2 m.
Proof.
  intros Hm. rewrite Zdigits2_log2 by exact Hm.
  pose proof (Z.log2_nonneg m). pose proof (Z.log2_spec m Hm) as Hs.
  replace (Z.log2 m + 1 - 1) with (Z.log2 m) by lia.
  replace (Z.log2 m + 1) with (Z.succ (Z.log2 m)) by lia.
  split; [lia | exact Hs].
Qed.

Lemma Zdigits2_unique (m d : Z) :
  0 < d → 2 ^ (d - 1) <= m < 2 ^ d → Zdigits2 m = d.
Proof.
  intros Hd Hm.
  assert (0 < 2 ^ (d - 1)) by (apply Z.pow_pos_nonneg; lia).
  rewrite Zdigits2_log2 by lia.
  rewrite (Z.log2_unique m (d - 1)); [lia | lia |].
  replace (Z.succ (d - 1)) with d by lia. exact Hm.
Qed.

Lemma Zdigits2_pow2 (d : Z) : 0 <= d → Zdigits2 (2 ^ d) = d + 1.
Proof.
  intros Hd. apply Zdigits2_unique; [lia |].
  replace (d + 1 - 1) with d by lia.
  split; [lia |]. apply Z.pow_lt_mono_r; lia.
Qed.

Lemma Zdigits2_div_pow2 (m n : Z) :
  0 < m → 0 <= n < Zdigits2 m →
  0 < m / 2 ^ n ∧ Zdigits2 (m / 2 ^ n) = Zdigits2 m - n.
Proof.
  intros Hm Hn.
  destruct (Zdigits2_bounds m Hm) as (HD & Hlo & Hhi).
  assert (Hp : 0 < 2 ^ n) by (apply Z.pow_pos_nonneg; lia).
  assert (H1 : 2 ^ (Zdigits2 m - 1) = 2 ^ (Zdigits2 m - n - 1) * 2 ^ n).
  { rewrite <- Z.pow_add_r by lia. f_equal. lia. }
  assert (H2 : 2 ^ Zdigits2 m = 2 ^ (Zdigits2 m - n) * 2 ^ n).
  { rewrite <- Z.pow_add_r by lia. f_equal. lia. }
  assert (Hq : 2 ^ (Zdigits2 m - n - 1) <= m / 2 ^ n < 2 ^ (Zdigits2 m - n)).
  { split.
    - apply Z.div_le_lower_bound; [exact Hp |]. lia.
    - apply Z.div_lt_upper_bound; [exact Hp |]. lia. }
  assert (0 < 2 ^ (Zdigits2 m - n - 1)) by (apply Z.pow_pos_nonneg; lia).
  split; [lia |].
  apply Zdigits2_unique; [lia | exact Hq].
Qed.

Lemma div_pow2_small (m n : Z) :
  0 <= m → Zdigits2 m <= n → m / 2 ^ n = 0.
Proof.
  intros Hm Hn.
  destruct (Z.eq_dec m 0) as [-> | Hne];
    [apply Z.div_0_l; apply Z.pow_nonzero; cbn in Hn; lia |].
  destruct (Zdigits2_bounds m ltac:(lia)) as (HD & _ & Hhi).
  apply Z.div_small. split; [lia |].
  eapply Z.lt_le_trans; [exact Hhi |].
  apply Z.pow_le_mono_r; lia.
Qed.

Lemma Zdigits2_succ (q : Z) :
  0 < q →
  Zdigits2 (q + 1) = Zdigits2 q
  ∨ (q + 1 = 2 ^ Zdigits2 q ∧ Zdigits2 (q + 1) = Zdigits2 q + 1).
Proof.
  intros Hq.
  destruct (Zdigits2_bounds q Hq) as (HD & Hlo & Hhi).
  destruct (Z.eq_dec (q + 1) (2 ^ Zdigits2 q)) as [Heq | Hne].
  - right. split; [exact Heq |]. rewrite Heq. apply Zdigits2_pow2. lia.
  - left. apply Zdigits2_unique; [lia | lia].
Qed.

(** ** The two halves of the rounding *)

Lemma binary_round_aux_finish (prec emax : Z) (sx : bool) (mx ex : Z)
    (lx : location) :
  binary_round_aux prec emax sx mx ex lx
  = Rounding.finish prec emax sx
      (round_nearest_even (shr_m (fst (shr_fexp prec emax mx ex lx)))
         (loc_of_shr_record (fst (shr_fexp prec emax mx ex lx))))
      (snd (shr_fexp prec emax mx ex lx)).
Proof.
  unfold binary_round_aux, Rounding.finish.
  destruct (shr_fexp prec emax mx ex lx) as [mrs' e']. reflexivity.
Qed.

Lemma finish_zero (prec emax : Z) (sx : bool) (e : Z) :
  Rounding.finish prec emax sx 0 e = S754_zero sx.
Proof.
  unfold Rounding.finish, shr_fexp, shr. cbn [Zdigits2 shr_record_of_loc].
  destruct (fexp prec emax (0 + e) - e) as [| p | p]; try reflexivity.
  change (SpecFloat.iter_pos shr_1 p _) with (Rounding.shifted 0 p).
  rewrite shifted_spec by lia. cbn [shr_m].
  rewrite Z.div_0_l by (apply Z.pow_nonzero; lia). reflexivity.
Qed.

Lemma finish_canonical (prec emax : Z) (sx : bool) (q e : Z) :
  0 < q → fexp prec emax (Zdigits2 q + e) = e →
  Rounding.finish prec emax sx q e
  = if e <=? emax - prec then S754_finite sx (Z.to_pos q) e
    else S754_infinity sx.
Proof.
  intros Hq Hc. unfold Rounding.finish, shr_fexp, shr.
  rewrite Hc, Z.sub_diag. cbn [shr_record_of_loc shr_m].
  destruct q as [| p | p]; [lia | reflexivity | lia].
Qed.

Lemma finish_carry (prec emax : Z) (sx : bool) (d e : Z) :
  1 <= d → fexp prec emax (d + 1 + e) = e + 1 →
  Rounding.finish prec emax sx (2 ^ d) e
  = if e + 1 <=? emax - prec then S754_finite sx (Z.to_pos (2 ^ (d - 1))) (e + 1)
    else S754_infinity sx.
Proof.
  intros Hd Hc. unfold Rounding.finish, shr_fexp, shr.
  rewrite Zdigits2_pow2, Hc by lia.
  replace (e + 1 - e) with 1 by lia. cbn [shr_record_of_loc].
  change (SpecFloat.iter_pos shr_1 1 _) with (Rounding.shifted (2 ^ d) 1).
  assert (Hp : 0 < 2 ^ (d - 1)) by (apply Z.pow_pos_nonneg; lia).
  rewrite shifted_spec by lia. cbn [shr_m].
  replace (2 ^ d / 2 ^ 1) with (2 ^ (d - 1)).
  2: { replace d with (d - 1 + 1) at 2 by lia.
       rewrite Z.pow_add_r by lia. rewrite Z.div_mul by lia. reflexivity. }
  destruct (2 ^ (d - 1)) as [| p | p]; [lia | reflexivity | lia].
Qed.

(** After the first half, the rounded mantissa is zero, or canonical at its
    exponent, or a power of two one digit too long. *)
Lemma first_half_shape (prec emax : Z) (mx ex : Z) :
  0 < prec → 0 <= mx → ex <= fexp prec emax (Zdigits2 mx + ex) →
  let mrs := fst (shr_fexp prec emax mx ex loc_Exact) in
  let e' := snd (shr_fexp prec emax mx ex loc_Exact) in
  let q := round_nearest_even (shr_m mrs) (loc_of_shr_record mrs) in
  q = 0
  ∨ (0 < q ∧ fexp prec emax (Zdigits2 q + e') = e')
  ∨ (∃ d, 1 <= d ∧ q = 2 ^ d ∧ fexp prec emax (d + 1 + e') = e' + 1).
Proof.
  intros Hprec Hm HP mrs e' q.
  set (T := fexp prec emax (Zdigits2 mx + ex)) in *.
  assert (Hfexp : ∀ x, fexp prec emax x = Z.max (x - prec) (3 - emax - prec))
    by reflexivity.
  (* the first half: the quotient by 2^n at exponent T *)
  assert (Hfirst : ∃ n, 0 <= n ∧ n = T - ex ∧ e' = T ∧
            shr_m mrs = mx / 2 ^ n ∧
            (q = shr_m mrs ∨ q = shr_m mrs + 1)).
  { exists (T - ex). split; [lia |]. split; [reflexivity |].
    subst mrs e' q. unfold shr_fexp, shr. fold T.
    destruct (T - ex) as [| p | p] eqn:Hn; [| | lia].
    - cbn [fst snd shr_record_of_loc shr_m loc_of_shr_record round_nearest_even].
      rewrite Z.pow_0_r, Z.div_1_r. split; [lia |]. split; [reflexivity |].
      left. reflexivity.
    - cbn [fst snd shr_record_of_loc].
      change (SpecFloat.iter_pos shr_1 p _) with (Rounding.shifted mx p).
      split; [lia |].
      split; [rewrite shifted_spec by exact Hm; reflexivity |].
      pose proof (rne_bounds mx p Hm) as B. unfold Rounding.rne in B.
      rewrite (shifted_spec mx p Hm) in B |- *. cbn [shr_m] in B |- *. lia. }
  destruct Hfirst as (n & Hn0 & Hn & He' & Hm1 & Hq).
  clearbody q e' mrs. subst e'.
  remember (shr_m mrs) as m1 eqn:Hm1def. clear Hm1def mrs.
  assert (Hm1nn : 0 <= m1).
  { rewrite Hm1. apply Z.div_pos; [exact Hm | apply Z.pow_pos_nonneg; lia]. }
  destruct (Z.eq_dec m1 0) as [Hz | Hnz].
  - (* everything was shifted out: the exponent is the least one *)
    assert (HT : T = 3 - emax - prec).
    { destruct (Z.eq_dec mx 0) as [-> | Hmx].
      - unfold T in *. cbn [Zdigits2] in *. rewrite Hfexp in *. lia.
      - destruct (Z.le_gt_cases (Zdigits2 mx) n) as [Hle | Hgt].
        + unfold T in *. rewrite Hfexp in *. lia.
        + destruct (Zdigits2_div_pow2 mx n ltac:(lia) ltac:(lia)) as [Hpos _].
          lia. }
    destruct Hq as [-> | ->]; [left; exact Hz |].
    right. left. rewrite Hz. split; [lia |].
    change (Zdigits2 (0 + 1)) with 1. rewrite Hfexp. lia.
  - assert (Hmx : 0 < mx).
    { destruct (Z.eq_dec mx 0) as [-> | ]; [| lia].
      rewrite Z.div_0_l in Hm1 by (apply Z.pow_nonzero; lia). lia. }
    assert (Hlt : n < Zdigits2 mx).
    { destruct (Z.le_gt_cases (Zdigits2 mx) n) as [Hle | Hgt]; [| lia].
      rewrite (div_pow2_small mx n) in Hm1 by lia. lia. }
    destruct (Zdigits2_div_pow2 mx n Hmx ltac:(lia)) as [Hpos Hdig].
    rewrite <- Hm1 in Hpos, Hdig.
    assert (Hcan : fexp prec emax (Zdigits2 m1 + T) = T).
    { rewrite Hdig. replace (Zdigits2 mx - n + T) with (Zdigits2 mx + ex) by lia.
      reflexivity. }
    right.
    destruct Hq as [-> | ->]; [left; split; [lia | exact Hcan] |].
    destruct (Zdigits2_succ m1 ltac:(lia)) as [Hsame | [Hpow Hmore]].
    + left. split; [lia |]. rewrite Hsame. exact Hcan.
    + destruct (Zdigits2_bounds m1 ltac:(lia)) as (HD & _ & _).
      destruct (Z.eq_dec (fexp prec emax (Zdigits2 (m1 + 1) + T)) T)
        as [Hsame | Hdiff].
      * left. split; [lia | exact Hsame].
      * right. exists (Zdigits2 m1). split; [lia |]. split; [exact Hpow |].
        rewrite Hmore in Hdiff. rewrite Hfexp in Hcan, Hdiff |- *. lia.
Qed.

(** Every rounded number is a value of the format. *)
Lemma binary_round_valid (prec emax : Z) (s : bool) (m : positive) (e : Z) :
  0 < prec → valid_binary prec emax (binary_round prec emax s m e) = true.
Proof.
  intros Hprec. unfold binary_round.
  assert (Hfexp : ∀ x, fexp prec emax x = Z.max (x - prec) (3 - emax - prec))
    by reflexivity.
  assert (HP : ∃ mz ez,
            shl_align m e (fexp prec emax (Z.pos (digits2_pos m) + e)) = (mz, ez)
            ∧ ez <= fexp prec emax (Zdigits2 (Z.pos mz) + ez)).
  { unfold shl_align.
    destruct (fexp prec emax (Z.pos (digits2_pos m) + e) - e) as [| p | p] eqn:Hd.
    - eexists _, _. split; [reflexivity |]. cbn [Zdigits2]. lia.
    - eexists _, _. split; [reflexivity |]. cbn [Zdigits2]. lia.
    - eexists _, _. split; [reflexivity |]. cbn [Zdigits2].
      rewrite digits2_pos_iter, Pos2Z.inj_add.
      replace (Z.pos (digits2_pos m) + Z.pos p
               + fexp prec emax (Z.pos (digits2_pos m) + e))
        with (Z.pos (digits2_pos m) + e) by lia.
      lia. }
  destruct HP as (mz & ez & -> & HP).
  rewrite binary_round_aux_finish.
  pose proof (first_half_shape prec emax (Z.pos mz) ez Hprec ltac:(lia) HP)
    as Hshape.
  cbn zeta in Hshape.
  destruct (shr_fexp prec emax (Z.pos mz) ez loc_Exact) as [mrs e'].
  cbn [fst snd] in Hshape |- *.
  destruct Hshape as [-> | [[Hq Hcan] | (d & Hd & -> & Hcar)]].
  - rewrite finish_zero. reflexivity.
  - rewrite finish_canonical by assumption.
    destruct (Z.leb_spec e' (emax - prec)) as [Hle | Hgt]; [| reflexivity].
    cbn [valid_binary]. unfold bounded, canonical_mantissa.
    apply andb_true_iff. split; [| apply Z.leb_le; exact Hle].
    apply Z.eqb_eq. rewrite <- Hcan at 2. f_equal. f_equal.
    destruct (round_nearest_even _ _) as [| p | p]; [lia | reflexivity | lia].
  - rewrite finish_carry by assumption.
    destruct (Z.leb_spec (e' + 1) (emax - prec)) as [Hle | Hgt]; [| reflexivity].
    cbn [valid_binary]. unfold bounded, canonical_mantissa.
    apply andb_true_iff. split; [| apply Z.leb_le; exact Hle].
    apply Z.eqb_eq. rewrite <- Hcar at 2. f_equal.
    assert (Hp : 0 < 2 ^ (d - 1)) by (apply Z.pow_pos_nonneg; lia).
    pose proof (Zdigits2_pow2 (d - 1) ltac:(lia)) as Hdig.
    destruct (2 ^ (d - 1)) as [| p | p]; [lia | | lia].
    cbn [Z.to_pos]. cbn [Zdigits2] in Hdig. lia.
Qed.

(** ** Monotonicity of the rounded mantissas *)

Lemma sqrt_rnd_spec (n : Z) :
  0 <= n →
  ∃ q r, Z.sqrtrem n = (q, r) ∧ n = q * q + r ∧ 0 <= r <= 2 * q ∧
         Rounding.sqrt_rnd n = (if r <=? q then q else q + 1).
Proof.
  intros Hn. pose proof (Z.sqrtrem_spec n Hn) as Hs.
  unfold Rounding.sqrt_rnd.
  destruct (Z.sqrtrem n) as [q r]. destruct Hs as [H1 H2].
  exists q, r. repeat split; first [reflexivity | lia].
Qed.

Lemma sqrt_rnd_mono (n1 n2 : Z) :
  0 <= n1 <= n2 → Rounding.sqrt_rnd n1 <= Rounding.sqrt_rnd n2.
Proof.
  intros Hn.
  destruct (sqrt_rnd_spec n1 ltac:(lia)) as (q1 & r1 & _ & H1 & B1 & ->).
  destruct (sqrt_rnd_spec n2 ltac:(lia)) as (q2 & r2 & _ & H2 & B2 & ->).
  assert (Hq : q1 <= q2) by nia.
  destruct (Z.leb_spec r1 q1), (Z.leb_spec r2 q2); nia.
Qed.

Lemma sqrt_rnd_bounds (n a : Z) :
  0 < a → a * a <= n < (2 * a) * (2 * a) →
  a <= Rounding.sqrt_rnd n <= 2 * a.
Proof.
  intros Ha Hn.
  destruct (sqrt_rnd_spec n ltac:(nia)) as (q & r & _ & H1 & B1 & ->).
  assert (a <= q) by nia. assert (q < 2 * a) by nia.
  destruct (Z.leb_spec r q); lia.
Qed.

Lemma renorm_range (prec e q : Z) :
  1 <= prec → 2 ^ (prec - 1) <= q <= 2 ^ prec →
  2 ^ (prec - 1) <= snd (Rounding.renorm prec e q) < 2 ^ prec ∧
  (fst (Rounding.renorm prec e q) = e ∨ fst (Rounding.renorm prec e q) = e + 1).
Proof.
  intros Hp Hq. unfold Rounding.renorm.
  assert (H2 : 2 ^ prec = 2 * 2 ^ (prec - 1)).
  { rewrite <- Z.pow_succ_r by lia. f_equal. lia. }
  assert (0 < 2 ^ (prec - 1)) by (apply Z.pow_pos_nonneg; lia).
  destruct (Z.eqb_spec q (2 ^ prec)); cbn [fst snd]; lia.
Qed.

Lemma renorm_lexle (prec e1 q1 e2 q2 : Z) :
  1 <= prec →
  2 ^ (prec - 1) <= q1 <= 2 ^ prec → 2 ^ (prec - 1) <= q2 <= 2 ^ prec →
  Rounding.lexle (e1, q1) (e2, q2) →
  Rounding.lexle (Rounding.renorm prec e1 q1) (Rounding.renorm prec e2 q2).
Proof.
  intros Hp H1 H2 Hl. unfold Rounding.lexle, Rounding.renorm in *.
  cbn [fst snd] in Hl.
  assert (Hpow : 2 ^ prec = 2 * 2 ^ (prec - 1)).
  { rewrite <- Z.pow_succ_r by lia. f_equal. lia. }
  assert (0 < 2 ^ (prec - 1)) by (apply Z.pow_pos_nonneg; lia).
  destruct (Z.eqb_spec q1 (2 ^ prec)), (Z.eqb_spec q2 (2 ^ prec));
    cbn [fst snd]; lia.
Qed.

Lemma lexle_SFltb (m1 m2 e1 e2 : Z) :
  0 < m1 → 0 < m2 →
  Rounding.lexle (e1, m1) (e2, m2) →
  SFltb (S754_finite false (Z.to_pos m2) e2) (S754_finite false (Z.to_pos m1) e1)
  = false.
Proof.
  intros H1 H2 Hl. apply SFltb_false_key; [discriminate | discriminate |].
  unfold FloatOrder.lt, Rounding.lexle in *. cbn [FloatOrder.key fst snd] in *.
  rewrite !Z2Pos.id by assumption. lia.
Qed.

(** ** The square root and the conversion on mantissas of 53 digits *)

Lemma pow2_split (a b : Z) : 0 <= a → 0 <= b → 2 ^ (a + b) = 2 ^ a * 2 ^ b.
Proof. intros. apply Z.pow_add_r; assumption. Qed.

Lemma SFsqrt_core_53 (M : positive) (E : Z) :
  Zdigits2 (Z.pos M) = 53 → -2000 <= E <= 1900 →
  let n := Z.pos M * 2 ^ (52 + E mod 2) in
  SFsqrt_core_binary F64.prec F64.emax (Z.pos M) E
  = (fst (Z.sqrtrem n), E / 2 - 26,
     if snd (Z.sqrtrem n) =? 0 then loc_Exact
     else loc_Inexact (if snd (Z.sqrtrem n) <=? fst (Z.sqrtrem n) then Lt else Gt)).
Proof.
  intros HD HE n. unfold SFsqrt_core_binary. rewrite HD.
  pose proof (Z.div_mod E 2 ltac:(lia)) as Hdm.
  pose proof (Z.mod_pos_bound E 2 ltac:(lia)) as Hmod.
  assert (He' : Z.min (fexp F64.prec F64.emax (Z.div2 (53 + E + 1))) (Z.div2 E)
                = E / 2 - 26).
  { rewrite fexp_eq, !Z.div2_div. unfold F64.prec, F64.emax.
    replace (53 + E + 1) with (E + 27 * 2) by lia.
    rewrite Z.div_add by lia. lia. }
  rewrite He'.
  assert (Hs : E - 2 * (E / 2 - 26) = 52 + E mod 2) by lia.
  rewrite Hs.
  destruct (52 + E mod 2) as [| p | p] eqn:Hp; [lia | | lia].
  rewrite Z.shiftl_mul_pow2 by lia. fold n.
  destruct (Z.sqrtrem n) as [q r]. reflexivity.
Qed.

Lemma sqrt_rnd_round (n : Z) :
  0 <= n →
  round_nearest_even (fst (Z.sqrtrem n))
    (if snd (Z.sqrtrem n) =? 0 then loc_Exact
     else loc_Inexact
            (if snd (Z.sqrtrem n) <=? fst (Z.sqrtrem n) then Lt else Gt))
  = Rounding.sqrt_rnd n.
Proof.
  intros Hn.
  destruct (sqrt_rnd_spec n Hn) as (q & r & Hs & _ & Hr & ->).
  rewrite Hs. cbn [fst snd].
  destruct (Z.eqb_spec r 0) as [-> | Hne].
  - cbn [round_nearest_even].
    destruct (Z.leb_spec 0 q); [reflexivity | lia].
  - destruct (Z.leb_spec r q); reflexivity.
Qed.

(** A mantissa of [prec] digits, or the power of two just above them, in
    the range of the normal numbers: what the second half of the rounding
    makes of it. *)
Lemma finish_renorm (prec emax : Z) (sx : bool) (q e : Z) :
  1 <= prec → 2 ^ (prec - 1) <= q <= 2 ^ prec →
  3 - emax - prec <= e → e + 1 <= emax - prec →
  Rounding.finish prec emax sx q e
  = S754_finite sx (Z.to_pos (snd (Rounding.renorm prec e q)))
      (fst (Rounding.renorm prec e q)).
Proof.
  intros Hp Hq Hlo Hhi. unfold Rounding.renorm.
  assert (Hpos : 0 < 2 ^ (prec - 1)) by (apply Z.pow_pos_nonneg; lia).
  destruct (Z.eqb_spec q (2 ^ prec)) as [-> | Hne]; cbn [fst snd].
  - rewrite finish_carry; [| lia | rewrite fexp_eq; lia].
    destruct (Z.leb_spec (e + 1) (emax - prec)); [reflexivity | lia].
  - rewrite finish_canonical; [| lia |].
    + destruct (Z.leb_spec e (emax - prec)); [reflexivity | lia].
    + rewrite (Zdigits2_unique q prec) by lia. rewrite fexp_eq. lia.
Qed.

Lemma sqrt64_closed (M : positive) (E : Z) :
  Zdigits2 (Z.pos M) = 53 → -2000 <= E <= 1900 →
  let q := Rounding.sqrt_rnd (Z.pos M * 2 ^ (52 + E mod 2)) in
  2 ^ 52 <= q <= 2 ^ 53 ∧
  F64.sqrt (S754_finite false M E)
  = S754_finite false (Z.to_pos (snd (Rounding.renorm 53 (E / 2 - 26) q)))
      (fst (Rounding.renorm 53 (E / 2 - 26) q)).
Proof.
  intros HD HE q.
  pose proof (Z.div_mod E 2 ltac:(lia)) as Hdm.
  pose proof (Z.mod_pos_bound E 2 ltac:(lia)) as Hmod.
  destruct (Zdigits2_bounds (Z.pos M) ltac:(lia)) as (_ & Hlo & Hhi).
  rewrite HD in Hlo, Hhi. change (53 - 1) with 52 in Hlo.
  set (n := Z.pos M * 2 ^ (52 + E mod 2)) in *.
  assert (Hn : 2 ^ 52 * 2 ^ 52 <= n < (2 * 2 ^ 52) * (2 * 2 ^ 52)).
  { subst n.
    assert (Hc : E mod 2 = 0 ∨ E mod 2 = 1) by lia.
    destruct Hc as [-> | ->].
    - change (2 ^ (52 + 0)) with (2 ^ 52).
      change (2 ^ 53) with (2 * 2 ^ 52) in Hhi. nia.
    - change (2 ^ (52 + 1)) with (2 * 2 ^ 52).
      change (2 ^ 53) with (2 * 2 ^ 52) in Hhi. nia. }
  assert (Hq : 2 ^ 52 <= q <= 2 ^ 53).
  { change (2 ^ 53) with (2 * 2 ^ 52).
    apply sqrt_rnd_bounds; [reflexivity | exact Hn]. }
  split; [exact Hq |].
  unfold F64.sqrt, SFsqrt.
  rewrite (SFsqrt_core_53 M E HD HE). cbn zeta. fold n.
  assert (Hn0 : 0 <= n) by lia.
  destruct (sqrt_rnd_spec n Hn0) as (q0 & r0 & Hs & Hn1 & Hr0 & Hq0).
  assert (Hq0r : 2 ^ 52 <= q0 < 2 ^ 53).
  { change (2 ^ 53) with (2 * 2 ^ 52). nia. }
  rewrite binary_round_aux_finish.
  assert (Hsh : shr_fexp F64.prec F64.emax (fst (Z.sqrtrem n)) (E / 2 - 26)
                  (if snd (Z.sqrtrem n) =? 0 then loc_Exact
                   else loc_Inexact
                          (if snd (Z.sqrtrem n) <=? fst (Z.sqrtrem n)
                           then Lt else Gt))
                = (shr_record_of_loc (fst (Z.sqrtrem n))
                     (if snd (Z.sqrtrem n) =? 0 then loc_Exact
                      else loc_Inexact
                             (if snd (Z.sqrtrem n) <=? fst (Z.sqrtrem n)
                              then Lt else Gt)),
                   E / 2 - 26)).
  { unfold shr_fexp. rewrite Hs. cbn [fst snd].
    rewrite (Zdigits2_unique q0 53) by (change (53 - 1) with 52; lia).
    rewrite fexp_eq. unfold F64.prec, F64.emax.
    replace (Z.max (53 + (E / 2 - 26) - 53) (3 - 1024 - 53) - (E / 2 - 26))
      with 0 by lia.
    reflexivity. }
  rewrite Hsh. cbn [fst snd].
  assert (Hloc : ∀ m l, loc_of_shr_record (shr_record_of_loc m l) = l
                        ∧ shr_m (shr_record_of_loc m l) = m).
  { intros m l. destruct l as [| []]; split; reflexivity. }
  rewrite (proj1 (Hloc _ _)), (proj2 (Hloc _ _)).
  rewrite (sqrt_rnd_round n Hn0). fold q.
  apply finish_renorm; unfold F64.prec, F64.emax;
    [lia | change (53 - 1) with 52; lia | lia | lia].
Qed.

Lemma to_f32_closed (Q : positive) (F : Z) :
  Zdigits2 (Z.pos Q) = 53 → -170 <= F <= 70 →
  let q := Rounding.rne (Z.pos Q) 29 in
  2 ^ 23 <= q <= 2 ^ 24 ∧
  to_f32 (S754_finite false Q F)
  = S754_finite false (Z.to_pos (snd (Rounding.renorm 24 (F + 29) q)))
      (fst (Rounding.renorm 24 (F + 29) q)).
Proof.
  intros HD HF q.
  destruct (Zdigits2_bounds (Z.pos Q) ltac:(lia)) as (_ & Hlo & Hhi).
  rewrite HD in Hlo, Hhi. change (53 - 1) with 52 in Hlo.
  assert (Hq : 2 ^ 23 <= q <= 2 ^ 24).
  { pose proof (rne_bounds (Z.pos Q) 29 ltac:(lia)) as B. fold q in B.
    assert (2 ^ 23 <= Z.pos Q / 2 ^ 29).
    { apply Z.div_le_lower_bound; [reflexivity |].
      change (2 ^ 29 * 2 ^ 23) with (2 ^ 52). exact Hlo. }
    assert (Z.pos Q / 2 ^ 29 < 2 ^ 24).
    { apply Z.div_lt_upper_bound; [reflexivity |].
      change (2 ^ 29 * 2 ^ 24) with (2 ^ 53). exact Hhi. }
    change (Z.pos 29) with 29 in B. lia. }
  split; [exact Hq |].
  cbn [to_f32]. unfold binary_round.
  cbn [Zdigits2] in HD. rewrite HD.
  assert (Hfe : fexp F32.prec F32.emax (53 + F) = F + 29).
  { rewrite fexp_eq. unfold F32.prec, F32.emax. lia. }
  rewrite Hfe. unfold shl_align.
  replace (F + 29 - F) with 29 by lia.
  rewrite binary_round_aux_finish.
  assert (Hsh : shr_fexp F32.prec F32.emax (Z.pos Q) F loc_Exact
                = (Rounding.shifted (Z.pos Q) 29, F + 29)).
  { unfold shr_fexp. cbn [Zdigits2]. rewrite HD, Hfe.
    replace (F + 29 - F) with 29 by lia. reflexivity. }
  rewrite Hsh. cbn [fst snd].
  change (round_nearest_even _ _) with (Rounding.rne (Z.pos Q) 29). fold q.
  apply finish_renorm; unfold F32.prec, F32.emax;
    [lia | change (24 - 1) with 23; lia | lia | lia].
Qed.

(** ** [NormalizeDistance] keeps the order *)

Lemma widen_closed (s : bool) (m : positive) (e : Z) :
  bounded F32.prec F32.emax m e = true →
  let x := Rounding.widen (e, Z.pos m) in
  (2 ^ 52 <= snd x < 2 ^ 53 ∧ -201 <= fst x <= 75) ∧
  to_f64 (S754_finite s m e) = S754_finite s (Z.to_pos (snd x)) (fst x).
Proof.
  intros Hb x.
  destruct (to_f64_finite s m e Hb) as (d & Hd & Heq).
  apply bounded32_inv in Hb as (HD & He & Hc).
  assert (Hx : x = (e - Z.pos d, Z.pos (Pos.iter xO m d))).
  { subst x. unfold Rounding.widen. cbn [fst snd Zdigits2].
    rewrite <- Hd, iter_xO_value. f_equal. lia. }
  rewrite Hx. cbn [fst snd].
  destruct (Zdigits2_bounds (Z.pos m) ltac:(lia)) as (_ & Hlo & Hhi).
  cbn [Zdigits2] in Hlo, Hhi.
  split; [| rewrite Heq; reflexivity].
  split; [| lia].
  rewrite iter_xO_value.
  assert (H52 : 2 ^ 52 = 2 ^ Z.pos d * 2 ^ (Z.pos (digits2_pos m) - 1)).
  { rewrite <- Z.pow_add_r by lia. f_equal. lia. }
  assert (H53 : 2 ^ 53 = 2 ^ Z.pos d * 2 ^ Z.pos (digits2_pos m)).
  { rewrite <- Z.pow_add_r by lia. f_equal. lia. }
  assert (0 < 2 ^ Z.pos d) by (apply Z.pow_pos_nonneg; lia).
  rewrite H52, H53. nia.
Qed.

Lemma widen_lexle (m1 m2 : positive) (e1 e2 : Z) :
  bounded F32.prec F32.emax m1 e1 = true →
  bounded F32.prec F32.emax m2 e2 = true →
  Rounding.lexle (e1, Z.pos m1) (e2, Z.pos m2) →
  Rounding.lexle (Rounding.widen (e1, Z.pos m1)) (Rounding.widen (e2, Z.pos m2)).
Proof.
  intros Hb1 Hb2 Hl.
  apply bounded32_inv in Hb1 as (HD1 & He1 & Hc1).
  apply bounded32_inv in Hb2 as (HD2 & He2 & Hc2).
  unfold Rounding.lexle, Rounding.widen in *. cbn [fst snd Zdigits2] in *.
  destruct Hl as [Hlt | [-> Hm]]; [left; lia |].
  pose proof (digits2_pos_mono m1 m2 ltac:(lia)) as HD.
  destruct (Z.eq_dec (Z.pos (digits2_pos m1)) (Z.pos (digits2_pos m2)))
    as [Hsame | Hdiff]; [| left; lia].
  right. rewrite Hsame. split; [reflexivity |].
  apply Z.mul_le_mono_nonneg_r; [apply Z.pow_nonneg; lia | exact Hm].
Qed.

Lemma sqrt64_lexle (x y : Z * Z) :
  2 ^ 52 <= snd x < 2 ^ 53 → 2 ^ 52 <= snd y < 2 ^ 53 →
  Rounding.lexle x y →
  Rounding.lexle (Rounding.sqrt64 x) (Rounding.sqrt64 y).
Proof.
  intros Hx Hy Hl. destruct x as [E1 M1], y as [E2 M2].
  unfold Rounding.sqrt64. cbn [fst snd] in *.
  assert (Hb : ∀ E M, 2 ^ 52 <= M < 2 ^ 53 →
            2 ^ 52 * 2 ^ 52 <= M * 2 ^ (52 + E mod 2)
            < (2 * 2 ^ 52) * (2 * 2 ^ 52)).
  { intros E M HM.
    pose proof (Z.mod_pos_bound E 2 ltac:(lia)) as Hmod.
    assert (Hc : E mod 2 = 0 ∨ E mod 2 = 1) by lia.
    change (2 ^ 53) with (2 * 2 ^ 52) in HM.
    destruct Hc as [-> | ->].
    - change (2 ^ (52 + 0)) with (2 ^ 52). nia.
    - change (2 ^ (52 + 1)) with (2 * 2 ^ 52). nia. }
  apply renorm_lexle; [lia | | |].
  - change (2 ^ 53) with (2 * 2 ^ 52). change (53 - 1) with 52.
    apply sqrt_rnd_bounds; [reflexivity | apply Hb; exact Hx].
  - change (2 ^ 53) with (2 * 2 ^ 52). change (53 - 1) with 52.
    apply sqrt_rnd_bounds; [reflexivity | apply Hb; exact Hy].
  - unfold Rounding.lexle in *. cbn [fst snd] in *.
    pose proof (Z.div_mod E1 2 ltac:(lia)) as Hd1.
    pose proof (Z.mod_pos_bound E1 2 ltac:(lia)) as Hm1.
    pose proof (Z.div_mod E2 2 ltac:(lia)) as Hd2.
    pose proof (Z.mod_pos_bound E2 2 ltac:(lia)) as Hm2.
    destruct Hl as [Hlt | [-> Hm]].
    + destruct (Z.eq_dec (E1 / 2) (E2 / 2)) as [Heq | Hne]; [| left; lia].
      right. split; [lia |].
      apply sqrt_rnd_mono.
      assert (Hz1 : E1 mod 2 = 0) by lia. assert (Hz2 : E2 mod 2 = 1) by lia.
      rewrite Hz1, Hz2.
      change (2 ^ (52 + 0)) with (2 ^ 52).
      change (2 ^ (52 + 1)) with (2 * 2 ^ 52).
      change (2 ^ 53) with (2 * 2 ^ 52) in Hx. nia.
    + right. split; [reflexivity |].
      apply sqrt_rnd_mono.
      assert (0 < 2 ^ (52 + E2 mod 2)) by (apply Z.pow_pos_nonneg; lia).
      nia.
Qed.

Lemma sqrt64_range (x : Z * Z) :
  2 ^ 52 <= snd x < 2 ^ 53 → -201 <= fst x <= 75 →
  2 ^ 52 <= snd (Rounding.sqrt64 x) < 2 ^ 53 ∧
  -127 <= fst (Rounding.sqrt64 x) <= 12.
Proof.
  intros Hx He. unfold Rounding.sqrt64.
  pose proof (Z.div_mod (fst x) 2 ltac:(lia)) as Hd.
  pose proof (Z.mod_pos_bound (fst x) 2 ltac:(lia)) as Hm.
  assert (Hq : 2 ^ (53 - 1)
               <= Rounding.sqrt_rnd (snd x * 2 ^ (52 + fst x mod 2)) <= 2 ^ 53).
  { change (2 ^ 53) with (2 * 2 ^ 52). change (53 - 1) with 52.
    apply sqrt_rnd_bounds; [reflexivity |].
    assert (Hc : fst x mod 2 = 0 ∨ fst x mod 2 = 1) by lia.
    change (2 ^ 53) with (2 * 2 ^ 52) in Hx.
    destruct Hc as [-> | ->].
    - change (2 ^ (52 + 0)) with (2 ^ 52). nia.
    - change (2 ^ (52 + 1)) with (2 * 2 ^ 52). nia. }
  destruct (renorm_range 53 (fst x / 2 - 26) _ ltac:(lia) Hq) as [Hr He'].
  change (53 - 1) with 52 in Hr. split; [exact Hr | lia].
Qed.

Lemma narrow_lexle (x y : Z * Z) :
  2 ^ 52 <= snd x < 2 ^ 53 → 2 ^ 52 <= snd y < 2 ^ 53 →
  Rounding.lexle x y →
  Rounding.lexle (Rounding.narrow x) (Rounding.narrow y).
Proof.
  intros Hx Hy Hl. unfold Rounding.narrow.
  assert (Hb : ∀ M, 2 ^ 52 <= M < 2 ^ 53 →
            2 ^ (24 - 1) <= Rounding.rne M 29 <= 2 ^ 24).
  { intros M HM.
    pose proof (rne_bounds M 29 ltac:(lia)) as B.
    assert (2 ^ 23 <= M / 2 ^ 29).
    { apply Z.div_le_lower_bound; [reflexivity |].
      change (2 ^ 29 * 2 ^ 23) with (2 ^ 52). lia. }
    assert (M / 2 ^ 29 < 2 ^ 24).
    { apply Z.div_lt_upper_bound; [reflexivity |].
      change (2 ^ 29 * 2 ^ 24) with (2 ^ 53). lia. }
    change (24 - 1) with 23. change (Z.pos 29) with 29 in B. lia. }
  apply renorm_lexle; [lia | apply Hb; exact Hx | apply Hb; exact Hy |].
  unfold Rounding.lexle in *. cbn [fst snd].
  destruct Hl as [Hlt | [Heq Hm]]; [left; lia |].
  right. split; [lia |]. apply rne_mono. lia.
Qed.

(** [NormalizeDistance] of a positive binary32 number, in closed form. *)
Lemma NormalizeDistance_closed (m : positive) (e : Z) :
  bounded F32.prec F32.emax m e = true →
  let x := Rounding.narrow (Rounding.sqrt64 (Rounding.widen (e, Z.pos m))) in
  0 < snd x ∧
  AngularImpl.NormalizeDistance Angular_value (S754_finite false m e)
  = S754_finite false (Z.to_pos (snd x)) (fst x).
Proof.
  intros Hb x.
  destruct (widen_closed false m e Hb) as ((Hw & Hwe) & Heq).
  destruct (sqrt64_range _ Hw Hwe) as (Hs & Hse).
  unfold AngularImpl.NormalizeDistance. rewrite Heq.
  set (w := Rounding.widen (e, Z.pos m)) in *.
  assert (Hmax : F64.max (S754_finite false (Z.to_pos (snd w)) (fst w)) F64.zero
                 = S754_finite false (Z.to_pos (snd w)) (fst w)) by reflexivity.
  rewrite Hmax.
  assert (Hdw : Zdigits2 (Z.pos (Z.to_pos (snd w))) = 53).
  { rewrite Z2Pos.id by lia. apply Zdigits2_unique; [lia |].
    change (53 - 1) with 52. exact Hw. }
  destruct (sqrt64_closed (Z.to_pos (snd w)) (fst w) Hdw ltac:(lia))
    as [_ Hsq].
  rewrite Z2Pos.id in Hsq by lia.
  change (Rounding.renorm 53 (fst w / 2 - 26)
            (Rounding.sqrt_rnd (snd w * 2 ^ (52 + fst w mod 2))))
    with (Rounding.sqrt64 w) in Hsq.
  rewrite Hsq.
  set (r := Rounding.sqrt64 w) in *.
  assert (Hdr : Zdigits2 (Z.pos (Z.to_pos (snd r))) = 53).
  { rewrite Z2Pos.id by lia. apply Zdigits2_unique; [lia |].
    change (53 - 1) with 52. exact Hs. }
  destruct (to_f32_closed (Z.to_pos (snd r)) (fst r) Hdr ltac:(lia))
    as [Hq Hn].
  rewrite Z2Pos.id in Hq, Hn by lia.
  change (Rounding.renorm 24 (fst r + 29) (Rounding.rne (snd r) 29))
    with (Rounding.narrow r) in Hn.
  split; [| exact Hn].
  destruct (renorm_range 24 (fst r + 29) _ ltac:(lia) Hq) as [Hr _].
  change (Rounding.renorm 24 (fst r + 29) (Rounding.rne (snd r) 29))
    with (Rounding.narrow r) in Hr.
  subst x. change (24 - 1) with 23 in Hr. lia.
Qed.

Lemma NormalizeDistance_below_zero (x : F32.t) :
  FloatOrder.not_nan x →
  ¬ FloatOrder.lt (FloatOrder.key (S754_zero false)) (FloatOrder.key x) →
  AngularImpl.NormalizeDistance Angular_value x = S754_zero false.
Proof.
  intros Hx Hk. unfold AngularImpl.NormalizeDistance.
  destruct x as [s | s | | s m e].
  - destruct s; reflexivity.
  - destruct s; [reflexivity |].
    exfalso. apply Hk. unfold FloatOrder.lt. cbn. lia.
  - exfalso. apply Hx. reflexivity.
  - destruct s; [| exfalso; apply Hk; unfold FloatOrder.lt; cbn; lia].
    cbn [to_f64].
    pose proof (binary_round_sign F64.prec F64.emax true m e) as Hs.
    destruct (binary_round F64.prec F64.emax true m e) as [s' | s' | | s' m' e'];
      cbn in Hs; try contradiction; subst s'; reflexivity.
Qed.

(** [NormalizeDistance] is monotone on the values of the format that are no
    NaN: a distance that is not below another is not reported below it. *)
Lemma Angular_NormalizeDistance_monotone (a b : F32.t) :
  Binary32.valid a → Binary32.valid b →
  FloatOrder.not_nan a → FloatOrder.not_nan b →
  F32.ltb b a = false →
  F32.ltb (NormalizeDistance Angular_value b)
    (NormalizeDistance Angular_value a) = false.
Proof.
  intros Hva Hvb Hna Hnb Hle.
  pose proof (Angular_NormalizeDistance_nonneg a Hna) as [Hnna Hza].
  pose proof (Angular_NormalizeDistance_nonneg b Hnb) as [Hnnb Hzb].
  cbn [NormalizeDistance Angular_DistanceMetric] in *.
  unfold F32.ltb in *.
  apply (SFltb_false_key b a Hnb Hna) in Hle.
  assert (Hbelow : ¬ FloatOrder.lt (FloatOrder.key (S754_zero false))
                       (FloatOrder.key a) →
                   SFltb (AngularImpl.NormalizeDistance Angular_value b)
                     (AngularImpl.NormalizeDistance Angular_value a) = false).
  { intros Hnpos. rewrite (NormalizeDistance_below_zero a Hna Hnpos).
    exact Hzb. }
  destruct a as [sa | sa | | sa ma ea]; [| | congruence |].
  - apply Hbelow. unfold FloatOrder.lt. cbn. lia.
  - destruct sa; [apply Hbelow; unfold FloatOrder.lt; cbn; lia |].
    destruct b as [sb | sb | | sb mb eb]; try congruence; destruct sb;
      try (exfalso; apply Hle; unfold FloatOrder.lt; cbn; lia).
    reflexivity.
  - destruct sa; [apply Hbelow; unfold FloatOrder.lt; cbn; lia |].
    clear Hbelow.
    destruct (NormalizeDistance_closed ma ea Hva) as [Hxa ->].
    destruct b as [sb | sb | | sb mb eb]; try congruence.
    + exfalso. apply Hle. unfold FloatOrder.lt. cbn. lia.
    + destruct sb; [exfalso; apply Hle; unfold FloatOrder.lt; cbn; lia |].
      reflexivity.
    + destruct sb; [exfalso; apply Hle; unfold FloatOrder.lt; cbn; lia |].
      destruct (NormalizeDistance_closed mb eb Hvb) as [Hxb ->].
      apply lexle_SFltb; [exact Hxa | exact Hxb |].
      destruct (widen_closed false ma ea Hva) as ((Hwa & Hwea) & _).
      destruct (widen_closed false mb eb Hvb) as ((Hwb & Hweb) & _).
      destruct (sqrt64_range _ Hwa Hwea) as (Hsa & _).
      destruct (sqrt64_range _ Hwb Hweb) as (Hsb & _).
      apply narrow_lexle; [exact Hsa | exact Hsb |].
      apply sqrt64_lexle; [exact Hwa | exact Hwb |].
      apply widen_lexle; [exact Hva | exact Hvb |].
      unfold Rounding.lexle, FloatOrder.lt in *. cbn [fst snd FloatOrder.key] in *.
      lia.
Qed.

(** ** The raw distances are values of the format *)

Lemma binary_normalize_valid (prec emax m e : Z) (szero : bool) :
  0 < prec →
  valid_binary prec emax (binary_normalize prec emax m e szero) = true.
Proof.
  intros Hp. destruct m as [| p | p]; cbn [binary_normalize];
    [reflexivity | apply binary_round_valid; exact Hp
     | apply binary_round_valid; exact Hp].
Qed.

Lemma F32_sub_two_valid (x : F32.t) : Binary32.valid (F32.sub F32.two x).
Proof.
  unfold Binary32.valid, F32.sub, F32.two, SFsub.
  destruct x as [s | s | | s m e]; try reflexivity.
  apply binary_normalize_valid. reflexivity.
Qed.

Lemma Angular_Distance_valid (a : Angular) (x y : Node) (f : Z) (d : F32.t) :
  AngularImpl.Distance a x y f = Some d → Binary32.valid d.
Proof.
  unfold AngularImpl.Distance. intros Hd.
  destruct (AngularImpl.norm_or_dot x f) as [pp |]; [| discriminate].
  destruct (AngularImpl.norm_or_dot y f) as [qq |]; [| discriminate].
  cbn [mbind option_bind] in Hd.
  destruct (F32.gtb (F32.mul pp qq) F32.zero).
  - destruct (Dot (V_all x) (V_all y) f) as [pq |]; [| discriminate].
    cbn [mbind option_bind] in Hd. injection Hd as <-.
    apply F32_sub_two_valid.
  - injection Hd as <-. reflexivity.
Qed.

Lemma leaf_pairs_valid (index : Annoy.AnnoyIndex Angular) (vNode : Node)
    (keys : list Z) (pairs : list Pair) :
  Pure.leaf_pairs index vNode keys = Some pairs →
  Forall (λ p, Binary32.valid (first p)) pairs.
Proof.
  revert pairs. induction keys as [| j keys IH]; intros pairs Hp.
  - injection Hp as <-. constructor.
  - cbn [Pure.leaf_pairs] in Hp.
    destruct (Pure.node_at index j) as [nd |]; [| discriminate].
    cbn [mbind option_bind] in Hp.
    destruct (Descendants nd =? 1); [| apply IH; exact Hp].
    destruct (Distance _ _ _ _) as [d |] eqn:Hd; [| discriminate].
    cbn [mbind option_bind] in Hp.
    destruct (Pure.leaf_pairs index vNode keys) as [rest |]; [| discriminate].
    cbn [mbind option_bind] in Hp. injection Hp as <-.
    constructor; [| apply IH; reflexivity].
    exact (Angular_Distance_valid (Annoy.distance index) vNode nd
             (Annoy.f index) d Hd).
Qed.

(* ===================================================================== *)
(** * The ranking of the results *)
(* ===================================================================== *)

Lemma sorted_by_take {A : Type} (less : A → A → bool) (l : list A) (p : nat) :
  GoRuntime.sorted_by less l → GoRuntime.sorted_by less (take p l).
Proof.
  intros Hs i j a b Hij Hi Hj.
  apply lookup_take_Some in Hi as [Hi _].
  apply lookup_take_Some in Hj as [Hj _].
  exact (Hs i j a b Hij Hi Hj).
Qed.

Section Ranking.
Import Annoy Inv.

(** C7 (amended).  For every result of a query there is an order [keys] of
    the distinct candidates, with [pairs] the raw distance and index of
    those that are singleton leaves, and a slice [sorted] that holds exactly
    these pairs (and nothing else when every candidate is a singleton leaf),
    such that the result is [sorted] truncated to [n]: the indices are the
    indices of the pairs and each reported distance is [NormalizeDistance] of
    the raw distance at the same position.  When no raw distance is NaN,
    [sorted] is ascending by raw distance, entries at equal distance coming
    in no fixed order, every reported distance is a number not below zero,
    and the reported distances form a non-decreasing sequence: none is
    below an earlier one. *)
Theorem query_results_ranked (index : AnnoyIndex Angular) (v : list F32.t)
    (n searchK : Z) (result : list Z) (distances : list F32.t)
    (index' : AnnoyIndex Angular) :
  well_formed index → cache_coherent index →
  GetNnsByVector index v n searchK result distances index' →
  ∃ fuel vNode nns keys pairs sorted,
    Pure.candidates fuel index v n searchK = Returned (vNode, nns) ∧
    keys ≡ₚ remove_dups nns ∧
    Pure.leaf_pairs index vNode keys = Some pairs ∧
    sorted ≡ₚ Pure.filled keys pairs ∧
    (length pairs = length keys → sorted ≡ₚ pairs) ∧
    let top := take (Z.to_nat (Z.min n (Z.of_nat (length sorted)))) sorted in
    result = map second top ∧
    distances = map (λ e, NormalizeDistance Angular_value (first e)) top ∧
    (Forall (λ e, FloatOrder.not_nan (first e)) pairs →
       GoRuntime.sorted_by by_first sorted ∧
       Forall FloatOrder.nonneg distances ∧
       GoRuntime.sorted_by F32.ltb distances).
Proof.
  intros Hwf Hc Hq.
  assert (Hex : ∃ ix, getAllNns index v n searchK result distances ix)
    by (exists index'; exact Hq).
  apply (getAllNns_pure index v n searchK _ _ Hwf Hc) in Hex.
  destruct Hex as (fuel & vNode & nns & keys & pairs & sorted
                   & Hcand & Hr & Hp & [Hperm Hsorted] & Hres).
  exists fuel, vNode, nns, keys, pairs, sorted.
  split; [exact Hcand |].
  split; [apply map_range_length; exact Hr |].
  split; [exact Hp |].
  split; [symmetry; exact Hperm |].
  split.
  { intros Hlen. rewrite <- Hperm. unfold Pure.filled.
    rewrite Hlen, Nat.sub_diag. cbn [replicate]. rewrite app_nil_r. reflexivity. }
  unfold take_results in Hres.
  assert (Hp' : (if Z.of_nat (length sorted) <? n then Z.of_nat (length sorted) else n)
                = Z.min n (Z.of_nat (length sorted))).
  { destruct (Z.ltb_spec (Z.of_nat (length sorted)) n); lia. }
  rewrite Hp' in Hres. injection Hres as -> ->.
  cbn zeta. split; [reflexivity |]. split; [reflexivity |].
  intros Hnan.
  assert (Hall : Forall (λ e, FloatOrder.not_nan (first e)) (Pure.filled keys pairs)).
  { unfold Pure.filled. apply Forall_app. split; [exact Hnan |].
    apply Forall_replicate. discriminate. }
  assert (Hvalid : Forall (λ e, Binary32.valid (first e)) (Pure.filled keys pairs)).
  { unfold Pure.filled. apply Forall_app.
    split; [exact (leaf_pairs_valid index vNode keys pairs Hp) |].
    apply Forall_replicate. reflexivity. }
  pose proof (Hsorted (by_first_transitive_ordering _ Hall)) as Hasc.
  split; [exact Hasc |]. split.
  - rewrite Forall_map. eapply Forall_impl.
    + apply Forall_take. rewrite <- Hperm. exact Hall.
    + intros e He. apply Angular_NormalizeDistance_nonneg. exact He.
  - intros i j da db Hij Hi Hj.
    change (map ?g ?l) with (g <$> l) in Hi, Hj.
    apply list_lookup_fmap_Some in Hi as (a & -> & Ha).
    apply list_lookup_fmap_Some in Hj as (b & -> & Hb).
    pose proof (sorted_by_take by_first sorted _ Hasc i j a b Hij Ha Hb)
      as Hba.
    apply lookup_take_Some in Ha as [Ha _].
    apply lookup_take_Some in Hb as [Hb _].
    apply list_elem_of_lookup_2 in Ha, Hb.
    rewrite <- Hperm in Ha, Hb.
    rewrite Forall_forall in Hall, Hvalid.
    apply Angular_NormalizeDistance_monotone;
      [apply Hvalid; exact Ha | apply Hvalid; exact Hb
       | apply Hall; exact Ha | apply Hall; exact Hb | exact Hba].
Qed.

End Ranking.

(** Two ways in which the ranking is not as the specification words it.  On
    the file [twins] the two items tie and can be returned as [1, 0], against
    the order in which they were found.  On the file [huge] the raw distance
    of item 0 to the query [2^100] is NaN, and so is the distance reported
    for it. *)
Lemma ranking_ties_and_NaN :
  (∃ result distances index',
     Annoy.GetNnsByVector (Loaded.index Fixture3.twins true)
       [Fixture3.one] 2 (-1) result distances index' ∧
     ¬ StableSpec.as_claimed (Loaded.index Fixture3.twins true)
         [Fixture3.one] 2 (-1) result distances) ∧
  (∃ result distances index',
     Annoy.GetNnsByVector (Loaded.index Fixture4.huge true)
       [Fixture4.two_to_100] 2 (-1) result distances index' ∧
     ¬ StableSpec.as_claimed (Loaded.index Fixture4.huge true)
         [Fixture4.two_to_100] 2 (-1) result distances).
Proof.
  split.
  - destruct (Loaded_index_invariants Fixture3.twins true) as [Hwf Hc];
      [reflexivity | reflexivity | reflexivity |].
    assert (Hq : ∃ ix, Annoy.getAllNns (Loaded.index Fixture3.twins true)
                         [Fixture3.one] 2 (-1) [1; 0] [F32.zero; F32.zero] ix).
    { apply (getAllNns_pure _ _ _ _ _ _ Hwf Hc).
      eexists 1%nat, _, [0; 1], [1; 0], [{| first := F32.zero; second := 1 |}; {| first := F32.zero; second := 0 |}], [{| first := F32.zero; second := 1 |}; {| first := F32.zero; second := 0 |}].
      split; [vm_compute; reflexivity |].
      split; [apply map_range_intro; [apply NoDup_two; discriminate | apply perm_swap] |].
      split; [vm_compute; reflexivity |].
      split; [| vm_compute; reflexivity].
      split; [reflexivity |].
      intros _. apply sorted_by_two. reflexivity. }
    destruct Hq as [ix Hq].
    exists [1; 0], [F32.zero; F32.zero], ix. split; [exact Hq |].
    intros (_ & _ & fuel & vNode & nns & Hcand & Hranked).
    assert (Hc1 : ∃ vNode1,
              Pure.candidates 1 (Loaded.index Fixture3.twins true)
                [Fixture3.one] 2 (-1) = Returned (vNode1, [0; 1]) ∧
              fst <$> StableSpec.ranked (Loaded.index Fixture3.twins true)
                        vNode1 [0; 1] 2 = Some [0; 1]).
    { eexists. split; [vm_compute; reflexivity |]. vm_compute. reflexivity. }
    destruct Hc1 as (vNode1 & Hc1 & Hr1).
    pose proof (Pure_candidates_unique _ _ _ _ _ _ _ _ Hc1 Hcand) as Heq.
    injection Heq as <- <-.
    rewrite Hranked in Hr1. discriminate Hr1.
  - destruct (Loaded_index_invariants Fixture4.huge true) as [Hwf Hc];
      [reflexivity | reflexivity | reflexivity |].
    assert (Hq : ∃ ix, Annoy.getAllNns (Loaded.index Fixture4.huge true)
                         [Fixture4.two_to_100] 2 (-1) [0; 1]
                         [S754_nan; Float32frombits 1068827891] ix).
    { apply (getAllNns_pure _ _ _ _ _ _ Hwf Hc).
      eexists 1%nat, _, [0; 1], [0; 1], [{| first := S754_nan; second := 0 |}; {| first := F32.two; second := 1 |}], [{| first := S754_nan; second := 0 |}; {| first := F32.two; second := 1 |}].
      split; [vm_compute; reflexivity |].
      split; [apply map_range_intro; [apply NoDup_two; discriminate | reflexivity] |].
      split; [vm_compute; reflexivity |].
      split; [| vm_compute; reflexivity].
      split; [reflexivity |].
      intros _. apply sorted_by_two. reflexivity. }
    destruct Hq as [ix Hq].
    exists [0; 1], [S754_nan; Float32frombits 1068827891], ix.
    split; [exact Hq |].
    intros (Hnn & _). inversion Hnn as [| ? ? [Hx _] _]; subst.
    apply Hx. reflexivity.
Qed.

(* ===================================================================== *)
(** * The frontier is a heap *)
(* ===================================================================== *)

Section HeapFacts.
Import HeapOrder.

Lemma PQ_less_pair_lt (a b : Pair) :
  FloatOrder.not_nan (first a) → FloatOrder.not_nan (first b) →
  PQ.less a b = true ↔ pair_lt b a.
Proof.
  intros Ha Hb. unfold PQ.less, pair_lt, F32.eqb, F32.gtb. cbn zeta.
  pose proof (SFeqb_key (first a) (first b) Ha Hb) as Heq.
  pose proof (SFltb_key (first b) (first a) Hb Ha) as Hlt.
  destruct (FloatOrder.key (first a)) as [[a1 a2] a3].
  destruct (FloatOrder.key (first b)) as [[b1 b2] b3].
  unfold FloatOrder.lt in *. cbn [fst snd] in *.
  destruct (SFeqb (first a) (first b)).
  - assert (Hk : (a1, a2, a3) = (b1, b2, b3)) by (apply Heq; reflexivity).
    injection Hk as -> -> ->.
    rewrite Z.ltb_lt. lia.
  - assert (Hk : (a1, a2, a3) ≠ (b1, b2, b3)).
    { intros Hk. apply Heq in Hk. discriminate. }
    rewrite Hlt. split; [auto |].
    intros [Hl | (-> & -> & -> & _)]; [exact Hl | contradiction].
Qed.

Lemma PQ_less_false_pair_lt (a b : Pair) :
  FloatOrder.not_nan (first a) → FloatOrder.not_nan (first b) →
  PQ.less a b = false ↔ ¬ pair_lt b a.
Proof.
  intros Ha Hb. rewrite <- (PQ_less_pair_lt a b Ha Hb).
  destruct (PQ.less a b); split; congruence.
Qed.

Lemma pair_lt_trans (a b c : Pair) : pair_lt a b → pair_lt b c → pair_lt a c.
Proof. unfold pair_lt, FloatOrder.lt. cbn zeta. lia. Qed.

Lemma pair_nlt_trans (a b c : Pair) :
  ¬ pair_lt a b → ¬ pair_lt b c → ¬ pair_lt a c.
Proof. unfold pair_lt, FloatOrder.lt. cbn zeta. lia. Qed.

Lemma pair_lt_asym (a b : Pair) : pair_lt a b → ¬ pair_lt b a.
Proof. unfold pair_lt, FloatOrder.lt. cbn zeta. lia. Qed.

Lemma parent_cases (j : nat) :
  (0 < j)%nat → (j = 2 * parent j + 1 ∨ j = 2 * parent j + 2)%nat.
Proof.
  intros Hj. unfold parent.
  pose proof (Nat.div_mod_eq (j - 1) 2) as Hdm.
  pose proof (Nat.mod_upper_bound (j - 1) 2 ltac:(lia)) as Hm.
  lia.
Qed.

Lemma parent_child (c i : nat) :
  (0 < c)%nat → parent c = i ↔ (c = 2 * i + 1 ∨ c = 2 * i + 2)%nat.
Proof.
  intros Hc. split.
  - intros <-. apply parent_cases. exact Hc.
  - unfold parent. intros [-> | ->].
    + replace (2 * i + 1 - 1)%nat with (i * 2)%nat by lia.
      apply Nat.div_mul. lia.
    + replace (2 * i + 2 - 1)%nat with (1 + i * 2)%nat by lia.
      rewrite Nat.div_add by lia. reflexivity.
Qed.

Lemma swap_lookup (h : list Pair) (i j x : nat) (a b : Pair) :
  (i < length h)%nat → (j < length h)%nat →
  <[i := b]> (<[j := a]> h) !! x
  = if decide (x = i) then Some b
    else if decide (x = j) then Some a else h !! x.
Proof.
  intros Hi Hj.
  destruct (decide (x = i)) as [-> | Hxi].
  - apply list_lookup_insert_eq. rewrite length_insert. exact Hi.
  - rewrite list_lookup_insert_ne by congruence.
    destruct (decide (x = j)) as [-> | Hxj].
    + apply list_lookup_insert_eq. exact Hj.
    + apply list_lookup_insert_ne. congruence.
Qed.

End HeapFacts.

Section HeapInvariant.
Import HeapOrder.
Local Open Scope nat_scope.

Lemma less_trans_b (a b c : Pair) :
  FloatOrder.not_nan (first a) → FloatOrder.not_nan (first b) →
  FloatOrder.not_nan (first c) →
  PQ.less a b = true → PQ.less b c = true → PQ.less a c = true.
Proof.
  intros Ha Hb Hc. rewrite !PQ_less_pair_lt by assumption.
  intros H1 H2. exact (pair_lt_trans _ _ _ H2 H1).
Qed.

Lemma less_ntrans_b (a b c : Pair) :
  FloatOrder.not_nan (first a) → FloatOrder.not_nan (first b) →
  FloatOrder.not_nan (first c) →
  PQ.less a b = false → PQ.less b c = false → PQ.less a c = false.
Proof.
  intros Ha Hb Hc. rewrite !PQ_less_false_pair_lt by assumption.
  intros H1 H2. exact (pair_nlt_trans _ _ _ H2 H1).
Qed.

Lemma less_asym_b (a b : Pair) :
  FloatOrder.not_nan (first a) → FloatOrder.not_nan (first b) →
  PQ.less a b = true → PQ.less b a = false.
Proof.
  intros Ha Hb. rewrite PQ_less_pair_lt, PQ_less_false_pair_lt by assumption.
  apply pair_lt_asym.
Qed.

Lemma no_nan_lookup (h : list Pair) (i : nat) (a : Pair) :
  no_nan h → h !! i = Some a → FloatOrder.not_nan (first a).
Proof.
  intros Hn Hi. unfold no_nan in Hn. rewrite Forall_forall in Hn.
  apply Hn. eapply list_elem_of_lookup_2. exact Hi.
Qed.

Lemma parent_lt (j : nat) : 0 < j → parent j < j.
Proof. intros Hj. pose proof (parent_cases j Hj). lia. Qed.

Lemma parent_zero : parent 0 = 0.
Proof. reflexivity. Qed.

(** [heap.up] restores the heap. *)
Lemma PQ_up_heap (fuel : nat) (h : list Pair) (j : nat) :
  j < fuel → j < length h → no_nan h → heap_but_up h j →
  ∃ h', PQ.up fuel h j = Some h' ∧ is_heap h' ∧ h' ≡ₚ h.
Proof.
  revert h j. induction fuel as [| fuel IH]; intros h j Hfuel Hj Hnn [Hinv1 Hinv2];
    [lia |].
  cbn [PQ.up]. fold (parent j).
  destruct (Nat.eqb_spec (parent j) j) as [Heq | Hne].
  { exists h. split; [reflexivity |]. split; [| reflexivity].
    assert (j = 0) by (destruct j; [reflexivity | pose proof (parent_lt (S j)); lia]).
    subst j. intros c Hc. apply Hinv1; lia. }
  assert (Hj0 : 0 < j) by (destruct j; [rewrite parent_zero in Hne |]; lia).
  pose proof (parent_lt j Hj0) as Hpj.
  destruct (PQ_Less_Some h j (parent j)) as (a & b & Ha & Hb & ->); [lia .. |].
  cbn [mbind option_bind].
  pose proof (no_nan_lookup _ _ _ Hnn Ha) as Hoka.
  pose proof (no_nan_lookup _ _ _ Hnn Hb) as Hokb.
  destruct (PQ.less a b) eqn:Hab; cbn [negb].
  2: { exists h. split; [reflexivity |]. split; [| reflexivity].
       intros c Hc. destruct (decide (c = j)) as [-> | Hcj].
       - intros x y Hx Hy. congruence.
       - apply Hinv1; assumption. }
  destruct (PQ_Swap_Some h (parent j) j) as (b' & a' & Hb' & Ha' & Hs); [lia .. |].
  assert (b' = b) by congruence. assert (a' = a) by congruence. subst a' b'.
  rewrite Hs. cbn [mbind option_bind].
  pose proof (PQ_Swap_Permutation _ _ _ _ Hs) as Hperm.
  set (h' := <[parent j := a]> (<[j := b]> h)) in *.
  assert (Hlen : length h' = length h) by (apply Permutation_length, Hperm).
  assert (Hnn' : no_nan h').
  { unfold no_nan. rewrite Hperm. exact Hnn. }
  assert (Hlook : ∀ x, h' !! x
            = if decide (x = parent j) then Some a
              else if decide (x = j) then Some b else h !! x).
  { intros x. apply swap_lookup; lia. }
  destruct (IH h' (parent j)) as (h'' & Hup & Hheap & Hperm'');
    [lia | lia | exact Hnn' | | ].
  2: { exists h''. split; [exact Hup |]. split; [exact Hheap |].
       rewrite Hperm''. exact Hperm. }
  split.
  - intros c Hc Hci x y Hx Hy. rewrite Hlen in Hc.
    rewrite Hlook in Hx, Hy.
    destruct (decide (c = parent j)) as [| _]; [contradiction |].
    destruct (decide (c = j)) as [-> | Hcj].
    + injection Hx as <-.
      destruct (decide (parent j = parent j)) as [_ | Hn]; [| contradiction].
      injection Hy as <-. apply less_asym_b; assumption.
    + pose proof (no_nan_lookup _ _ _ Hnn Hx) as Hokx.
      destruct (decide (parent c = parent j)) as [Hpc | Hpc].
      * injection Hy as <-.
        pose proof (Hinv1 c Hc Hcj x b Hx ltac:(rewrite Hpc; exact Hb)) as Hxb.
        destruct (PQ.less x a) eqn:Hxa; [| reflexivity].
        rewrite (less_trans_b x a b Hokx Hoka Hokb Hxa Hab) in Hxb.
        discriminate.
      * destruct (decide (parent c = j)) as [Hpcj | Hpcj].
        -- injection Hy as <-.
           exact (Hinv2 c Hc Hpcj Hj0 x b Hx Hb).
        -- exact (Hinv1 c Hc Hcj x y Hx Hy).
  - intros c Hc Hpc Hi0 x y Hx Hy. rewrite Hlen in Hc.
    pose proof (parent_lt (parent j) Hi0) as Hppj.
    assert (Hc0 : 0 < c) by lia.
    pose proof (parent_lt c Hc0) as Hpcl.
    rewrite Hlook in Hx, Hy.
    destruct (decide (parent (parent j) = parent j)) as [| _]; [lia |].
    destruct (decide (parent (parent j) = j)) as [| _]; [lia |].
    destruct (decide (c = parent j)) as [| _]; [lia |].
    pose proof (Hinv1 (parent j) ltac:(lia) ltac:(lia) b y Hb Hy) as Hby.
    pose proof (no_nan_lookup _ _ _ Hnn Hy) as Hoky.
    destruct (decide (c = j)) as [-> | Hcj].
    + injection Hx as <-. exact Hby.
    + pose proof (no_nan_lookup _ _ _ Hnn Hx) as Hokx.
      pose proof (Hinv1 c Hc Hcj x b Hx ltac:(rewrite Hpc; exact Hb)) as Hxb.
      exact (less_ntrans_b x b y Hokx Hokb Hoky Hxb Hby).
Qed.

End HeapInvariant.

Section HeapInvariantDown.
Import HeapOrder.
Local Open Scope nat_scope.

(** [heap.down] restores the heap on the first [n] elements. *)
Lemma PQ_down_heap (fuel : nat) (h : list Pair) (i n : nat) :
  n <= fuel + i → n <= length h → no_nan h → heap_but_down n h i →
  ∃ h', PQ.down fuel h i n = Some h' ∧ is_heap_upto n h' ∧ h' ≡ₚ h ∧
        ∀ t, n <= t → h' !! t = h !! t.
Proof.
  revert h i. induction fuel as [| fuel IH];
    intros h i Hfuel Hn Hnn [Hinv1 Hinv2].
  { exists h. split; [reflexivity |]. split; [| split; [reflexivity | auto]].
    intros c Hc. apply Hinv1; [exact Hc |].
    pose proof (parent_lt c ltac:(lia)). lia. }
  cbn [PQ.down].
  destruct (Nat.leb_spec n (2 * i + 1)) as [Hge | Hlt].
  { exists h. split; [reflexivity |]. split; [| split; [reflexivity | auto]].
    intros c Hc. apply Hinv1; [exact Hc |].
    intros Hpc. apply parent_child in Hpc; lia. }
  remember (2 * i + 1) as j1 eqn:Hj1.
  remember (j1 + 1) as j2 eqn:Hj2.
  destruct (lookup_lt_is_Some_2 h i ltac:(lia)) as [p Hp].
  destruct (lookup_lt_is_Some_2 h j1 ltac:(lia)) as [x1 Hx1].
  pose proof (no_nan_lookup _ _ _ Hnn Hp) as Hokp.
  pose proof (no_nan_lookup _ _ _ Hnn Hx1) as Hok1.
  assert (Hirr : ∀ x, FloatOrder.not_nan (first x) → PQ.less x x = false).
  { intros x Hx. destruct (PQ.less x x) eqn:Hxx; [| reflexivity].
    rewrite (less_asym_b x x Hx Hx Hxx) in Hxx. discriminate. }
  (* the child to compare with: the one that goes first *)
  assert (Hchild : ∃ (lt21 : bool) (j : nat) (c0 : Pair),
    ((if j2 <? n then PQ.Less h j2 j1 else Some false) : option bool)
    = Some lt21 ∧
    j = (if lt21 then j2 else j1) ∧ h !! j = Some c0 ∧ j < n ∧
    (j = j1 ∨ j = j2) ∧
    ∀ c y, c < n → (c = j1 ∨ c = j2) → h !! c = Some y → PQ.less y c0 = false).
  { destruct (Nat.ltb_spec j2 n) as [H2 | H2].
    - destruct (lookup_lt_is_Some_2 h j2 ltac:(lia)) as [x2 Hx2].
      pose proof (no_nan_lookup _ _ _ Hnn Hx2) as Hok2.
      unfold PQ.Less. rewrite Hx2, Hx1. cbn [mbind option_bind].
      destruct (PQ.less x2 x1) eqn:H21.
      + exists true, j2, x2.
        split; [reflexivity |]. split; [reflexivity |]. split; [exact Hx2 |].
        split; [exact H2 |]. split; [right; reflexivity |].
        intros c y Hc [-> | ->] Hy.
        * assert (y = x1) by congruence. subst y.
          apply less_asym_b; assumption.
        * assert (y = x2) by congruence. subst y. apply Hirr. exact Hok2.
      + exists false, j1, x1.
        split; [reflexivity |]. split; [reflexivity |]. split; [exact Hx1 |].
        split; [lia |]. split; [left; reflexivity |].
        intros c y Hc [-> | ->] Hy.
        * assert (y = x1) by congruence. subst y. apply Hirr. exact Hok1.
        * assert (y = x2) by congruence. subst y. exact H21.
    - exists false, j1, x1.
      split; [reflexivity |]. split; [reflexivity |]. split; [exact Hx1 |].
      split; [lia |]. split; [left; reflexivity |].
      intros c y Hc [-> | ->] Hy; [| lia].
      assert (y = x1) by congruence. subst y. apply Hirr. exact Hok1. }
  destruct Hchild as (lt21 & j & c0 & -> & Hjdef & Hc0 & Hjn & Hjcase & Hmin).
  cbn [mbind option_bind]. rewrite <- Hjdef.
  pose proof (no_nan_lookup _ _ _ Hnn Hc0) as Hokc.
  assert (Hij : i < j) by lia.
  assert (Hpj : parent j = i).
  { apply parent_child; [lia |]. lia. }
  unfold PQ.Less. rewrite Hc0, Hp. cbn [mbind option_bind].
  destruct (PQ.less c0 p) eqn:Hcp; cbn [negb].
  2: { (* both children are in place *)
       exists h. split; [reflexivity |]. split; [| split; [reflexivity | auto]].
       intros c Hc. destruct (decide (parent c = i)) as [Hpc | Hpc].
       - intros y q Hy Hq. rewrite Hpc in Hq.
         assert (q = p) by congruence. subst q.
         pose proof (no_nan_lookup _ _ _ Hnn Hy) as Hoky.
         apply (less_ntrans_b y c0 p Hoky Hokc Hokp); [| exact Hcp].
         apply (Hmin c y); [lia | | exact Hy].
         apply parent_child in Hpc; [| lia]. lia.
       - apply Hinv1; assumption. }
  destruct (PQ_Swap_Some h i j) as (p' & c0' & Hp' & Hc0' & Hs); [lia .. |].
  assert (p' = p) by congruence. assert (c0' = c0) by congruence. subst p' c0'.
  rewrite Hs. cbn [mbind option_bind].
  pose proof (PQ_Swap_Permutation _ _ _ _ Hs) as Hperm.
  set (h' := <[i := c0]> (<[j := p]> h)) in *.
  assert (Hlen : length h' = length h) by (apply Permutation_length, Hperm).
  assert (Hnn' : no_nan h').
  { unfold no_nan. rewrite Hperm. exact Hnn. }
  assert (Hlook : ∀ x, h' !! x
            = if decide (x = i) then Some c0
              else if decide (x = j) then Some p else h !! x).
  { intros x. apply swap_lookup; lia. }
  destruct (IH h' j) as (h'' & Hd & Hheap & Hperm'' & Hfix);
    [lia | lia | exact Hnn' | | ].
  2: { exists h''. split; [exact Hd |]. split; [exact Hheap |].
       split; [rewrite Hperm''; exact Hperm |].
       intros t Ht. rewrite Hfix by exact Ht. rewrite Hlook.
       destruct (decide (t = i)); [lia |].
       destruct (decide (t = j)); [lia | reflexivity]. }
  split.
  - intros c Hc Hpc y q Hy Hq.
    assert (Hcpos : 0 < c) by lia.
    pose proof (parent_lt c Hcpos) as Hpcl.
    rewrite Hlook in Hy, Hq.
    destruct (decide (parent c = j)) as [| _]; [contradiction |].
    destruct (decide (c = j)) as [-> | Hcj].
    + (* the old parent, now below the child that went up *)
      destruct (decide (j = i)) as [| _]; [lia |].
      injection Hy as <-. rewrite Hpj in Hq.
      destruct (decide (i = i)) as [_ | Hn0]; [| contradiction].
      injection Hq as <-. apply less_asym_b; assumption.
    + destruct (decide (c = i)) as [-> | Hci].
      * (* the child that went up, against the parent of [i] *)
        injection Hy as <-.
        destruct (decide (parent i = i)) as [| _]; [lia |].
        exact (Hinv2 j ltac:(lia) Hpj ltac:(lia) c0 q Hc0 Hq).
      * destruct (decide (parent c = i)) as [Hpci | Hpci].
        -- (* the other child of [i] *)
           injection Hq as <-.
           apply (Hmin c y); [lia | | exact Hy].
           apply parent_child in Hpci; [| lia]. lia.
        -- exact (Hinv1 c Hc Hpci y q Hy Hq).
  - intros c Hc Hpc _ y q Hy Hq.
    assert (Hcpos : 0 < c) by lia.
    pose proof (parent_lt c Hcpos) as Hpcl.
    rewrite Hpj in Hq. rewrite Hlook in Hy, Hq.
    destruct (decide (i = i)) as [_ | Hn0]; [| contradiction].
    injection Hq as <-.
    destruct (decide (c = i)) as [| _]; [lia |].
    destruct (decide (c = j)) as [| _]; [lia |].
    apply (Hinv1 c Hc ltac:(lia) y c0 Hy). rewrite Hpc. exact Hc0.
Qed.

(** [heap.Push] keeps the heap. *)
Lemma PQ_heap_Push_heap (h : list Pair) (x : Pair) :
  is_heap h → no_nan h → FloatOrder.not_nan (first x) →
  ∃ h', PQ.heap_Push h x = Some h' ∧ is_heap h' ∧ no_nan h' ∧ h' ≡ₚ x :: h.
Proof.
  intros Hheap Hnn Hx. unfold PQ.heap_Push, PQ.Push, PQ.Len.
  assert (Hnn' : no_nan (h ++ [x])).
  { unfold no_nan. apply Forall_app. split; [exact Hnn |].
    constructor; [exact Hx | constructor]. }
  destruct (PQ_up_heap (length (h ++ [x])) (h ++ [x]) (length (h ++ [x]) - 1))
    as (h' & Hup & Hh' & Hperm).
  - rewrite length_app. cbn. lia.
  - rewrite length_app. cbn. lia.
  - exact Hnn'.
  - rewrite length_app. cbn [length].
    replace (length h + 1 - 1) with (length h) by lia.
    split.
    + intros c Hc Hcj a b Ha Hb.
      rewrite length_app in Hc. cbn [length] in Hc.
      assert (Hcl : c < length h) by lia.
      pose proof (parent_lt c ltac:(lia)) as Hpl.
      rewrite lookup_app_l in Ha by lia. rewrite lookup_app_l in Hb by lia.
      exact (Hheap c ltac:(lia) a b Ha Hb).
    + intros c Hc Hpc Hj0. rewrite length_app in Hc. cbn [length] in Hc.
      pose proof (parent_lt c ltac:(lia)). lia.
  - exists h'. split; [exact Hup |]. split; [exact Hh' |].
    split; [unfold no_nan; rewrite Hperm; exact Hnn' |].
    rewrite Hperm. rewrite Permutation_app_comm. reflexivity.
Qed.

(** In a heap no element goes before the first one. *)
Lemma is_heap_root (h : list Pair) (top : Pair) :
  is_heap h → no_nan h → h !! 0 = Some top →
  ∀ p, p ∈ h → PQ.less p top = false.
Proof.
  intros Hheap Hnn Htop p Hp.
  apply list_elem_of_lookup in Hp as [j Hj].
  revert p Hj. induction j as [j IH] using lt_wf_ind. intros p Hj.
  pose proof (no_nan_lookup _ _ _ Hnn Hj) as Hokp.
  pose proof (no_nan_lookup _ _ _ Hnn Htop) as Hokt.
  destruct j as [| j].
  - assert (p = top) by congruence. subst p.
    destruct (PQ.less top top) eqn:Hxx; [| reflexivity].
    rewrite (less_asym_b top top Hokt Hokt Hxx) in Hxx. discriminate.
  - pose proof (lookup_lt_Some _ _ _ Hj) as Hlen.
    pose proof (parent_lt (S j) ltac:(lia)) as Hpl.
    destruct (lookup_lt_is_Some_2 h (parent (S j)) ltac:(lia)) as [q Hq].
    pose proof (no_nan_lookup _ _ _ Hnn Hq) as Hokq.
    apply (less_ntrans_b p q top Hokp Hokq Hokt).
    + exact (Hheap (S j) ltac:(lia) p q Hj Hq).
    + exact (IH (parent (S j)) Hpl q Hq).
Qed.

(** [heap.Pop] returns the first element, before which no other goes, and
    keeps the heap. *)
Lemma PQ_heap_Pop_heap (h : list Pair) :
  h ≠ [] → is_heap h → no_nan h →
  ∃ top h', PQ.heap_Pop h = Some (top, h') ∧ h !! 0 = Some top ∧
            (∀ p, p ∈ h → PQ.less p top = false) ∧
            is_heap h' ∧ no_nan h' ∧ h ≡ₚ top :: h'.
Proof.
  intros Hne Hheap Hnn.
  destruct (PQ_heap_Pop_Permutation h Hne) as (top & h' & Hpop & Htop & Hperm).
  exists top, h'. split; [exact Hpop |]. split; [exact Htop |].
  split; [exact (is_heap_root h top Hheap Hnn Htop) |].
  assert (Hnn' : no_nan h').
  { unfold no_nan in *. rewrite Hperm in Hnn. inversion Hnn; assumption. }
  split; [| split; [exact Hnn' | exact Hperm]].
  (* the heap after the pop *)
  unfold PQ.heap_Pop, PQ.Len in Hpop.
  destruct (length h) as [| n] eqn:Hlen; [discriminate |].
  destruct (PQ_Swap_Some h 0 n) as (a & b & Ha & Hb & Hs); [lia .. |].
  rewrite Hs in Hpop. cbn [mbind option_bind] in Hpop.
  pose proof (PQ_Swap_Permutation _ _ _ _ Hs) as Hp1.
  set (h1 := <[0 := b]> (<[n := a]> h)) in *.
  assert (Hlook : ∀ x, h1 !! x
            = if decide (x = 0) then Some b
              else if decide (x = n) then Some a else h !! x).
  { intros x. apply swap_lookup; lia. }
  destruct (PQ_down_heap n h1 0 n) as (h2 & Hd & Hh2 & Hp2 & _).
  - lia.
  - rewrite (Permutation_length Hp1). lia.
  - unfold no_nan. rewrite Hp1. exact Hnn.
  - split.
    + intros c Hc Hpc x y Hx Hy.
      pose proof (parent_lt c ltac:(lia)) as Hpl.
      rewrite Hlook in Hx, Hy.
      destruct (decide (c = 0)); [lia |]. destruct (decide (c = n)); [lia |].
      destruct (decide (parent c = 0)); [contradiction |].
      destruct (decide (parent c = n)); [lia |].
      exact (Hheap c ltac:(lia) x y Hx Hy).
    + intros c Hc Hpc H0. lia.
  - rewrite Hd in Hpop. cbn [mbind option_bind] in Hpop.
    unfold PQ.Pop in Hpop.
    destruct (last h2) as [item |] eqn:Hlast; [| discriminate].
    cbn [mbind option_bind] in Hpop. injection Hpop as _ <-.
    assert (Hlen2 : length h2 = S n).
    { rewrite (Permutation_length Hp2), (Permutation_length Hp1). exact Hlen. }
    assert (Hrl : length (removelast h2) = n).
    { rewrite (last_removelast h2 item Hlast) in Hlen2.
      rewrite length_app in Hlen2. cbn in Hlen2. lia. }
    intros c Hc x y Hx Hy. rewrite Hrl in Hc.
    pose proof (parent_lt c ltac:(lia)) as Hpl.
    apply (Hh2 c Hc x y).
    + rewrite (last_removelast h2 item Hlast). rewrite lookup_app_l by lia.
      exact Hx.
    + rewrite (last_removelast h2 item Hlast). rewrite lookup_app_l by lia.
      exact Hy.
Qed.

End HeapInvariantDown.

(* ===================================================================== *)
(** * One turn of the query loop *)
(* ===================================================================== *)

Section SearchStepClaim.
Context {D : Type} `{DistanceMetric D} `{!LawfulMetric D}.
Import Annoy Inv Frame HeapOrder.

(** C3 (amended).  One turn of the query loop.  While the candidate count
    is below the budget and the frontier is not empty, the turn pops the
    pair at the head of the frontier; when the frontier is a heap whose
    priorities are no NaN, this is the pair of highest priority, before
    which no other pair goes, and what is left is again a heap.  It looks
    the node of that pair up, and
    - appends the node index itself when [descendants = 1] and the index is
      below the item count;
    - otherwise, when [descendants <= K], appends the node's first
      [descendants] children (so a node with one descendant whose index is
      not below the item count contributes its first child);
    - otherwise computes the margin and pushes child 1 with priority
      [PQDistance(bound, margin, 1)], then child 0 with priority
      [PQDistance(bound, margin, 0)]. *)
Theorem search_step_branches (index : AnnoyIndex D) (v : list F32.t)
    (searchK : Z) (pq : list Pair) (nns : list Z) :
  well_formed index → cache_coherent index →
  search_continues searchK (mkSearch index pq nns) = true →
  ∃ top pq',
    PQ.heap_Pop pq = Some (top, pq') ∧ pq !! 0%nat = Some top ∧
    pq ≡ₚ top :: pq' ∧
    (is_heap pq → no_nan pq →
       (∀ p, p ∈ pq → PQ.less p top = false) ∧ is_heap pq') ∧
    ∀ nd index', getNode index (second top) = Some (nd, index') →
      let i := second top in
      let bound := first top in
      let st := mkSearch index pq nns in
      (Descendants nd = 1 ∧ i < nItems index →
         search_step v st = Some (mkSearch index' pq' (nns ++ [i]))) ∧
      (¬ (Descendants nd = 1 ∧ i < nItems index) →
       0 <= Descendants nd <= k index →
         search_step v st
         = Some (mkSearch index' pq'
                   (nns ++ take (Z.to_nat (Descendants nd)) (Children nd)))) ∧
      (Descendants nd = 1 → nItems index <= i →
         ∃ c0, Children nd !! 0%nat = Some c0 ∧
           search_step v st = Some (mkSearch index' pq' (nns ++ [c0]))) ∧
      (k index < Descendants nd →
         ∃ c0 c1, Children nd = [c0; c1] ∧
           ∀ margin, Margin (distance index) nd v (f index) = Some margin →
             ∃ pq1 pq2,
               PQ.heap_Push pq'
                 {| first := PQDistance (distance index) bound margin 1;
                    second := c1 |} = Some pq1 ∧
               PQ.heap_Push pq1
                 {| first := PQDistance (distance index) bound margin 0;
                    second := c0 |} = Some pq2 ∧
               search_step v st = Some (mkSearch index' pq2 nns)).
Proof.
  intros Hwf Hc Hcont.
  destruct (search_step_spec index v searchK pq nns Hwf Hc Hcont)
    as (top & pq' & Hpop & Htop & Hperm & Hbranches).
  assert (Hne : pq ≠ []) by (intros ->; discriminate Htop).
  exists top, pq'. repeat (split; [assumption |]).
  split; [| exact Hbranches].
  intros Hheap Hnn.
  destruct (PQ_heap_Pop_heap pq Hne Hheap Hnn)
    as (top' & pq'' & Hpop' & _ & Hmax & Hheap' & _ & _).
  rewrite Hpop in Hpop'. injection Hpop' as <- <-.
  split; assumption.
Qed.

End SearchStepClaim.

(** C3, where it fails.  The file [nan_forest] has a root whose normal is
    NaN, so the two pairs pushed for its children have the priority NaN,
    which compares with nothing.  For the query [3.0], after three turns
    of the loop the frontier holds (-3, 0), (NaN, 3), (3, 1) in this order:
    it is no heap.  The loop goes on, and the fourth turn pops the head
    (-3, 0), although the pair (3, 1) has a higher priority. *)
Lemma search_step_pops_lower_priority :
  ∃ pq0 st1 st2 st3 top pq' p,
    let index := Loaded.index Fixture6.nan_forest false in
    let searchK := Annoy.effective_searchK index 2 (-1) in
    Annoy.push_roots [] (Annoy.roots index) = Some pq0 ∧
    Annoy.search_continues searchK (Annoy.mkSearch index pq0 []) = true ∧
    Annoy.search_step [Fixture6.three] (Annoy.mkSearch index pq0 []) = Some st1 ∧
    Annoy.search_continues searchK st1 = true ∧
    Annoy.search_step [Fixture6.three] st1 = Some st2 ∧
    Annoy.search_continues searchK st2 = true ∧
    Annoy.search_step [Fixture6.three] st2 = Some st3 ∧
    Annoy.search_continues searchK st3 = true ∧
    Annoy.st_pq st3
    = [ {| first := F32.neg Fixture6.three; second := 0 |};
        {| first := S754_nan; second := 3 |};
        {| first := Fixture6.three; second := 1 |} ] ∧
    ¬ HeapOrder.is_heap (Annoy.st_pq st3) ∧
    PQ.heap_Pop (Annoy.st_pq st3) = Some (top, pq') ∧
    top = {| first := F32.neg Fixture6.three; second := 0 |} ∧
    p ∈ Annoy.st_pq st3 ∧ PQ.less p top = true.
Proof.
  eexists _, _, _, _, _, _, {| first := Fixture6.three; second := 1 |}.
  cbn zeta.
  split; [vm_compute; reflexivity |].
  split; [vm_compute; reflexivity |].
  split; [vm_compute; reflexivity |].
  split; [vm_compute; reflexivity |].
  split; [vm_compute; reflexivity |].
  split; [vm_compute; reflexivity |].
  split; [vm_compute; reflexivity |].
  split; [vm_compute; reflexivity |].
  split; [vm_compute; reflexivity |].
  split.
  { intros Hh.
    specialize (Hh 2%nat ltac:(vm_compute; lia)
                  {| first := Fixture6.three; second := 1 |}
                  {| first := F32.neg Fixture6.three; second := 0 |}
                  ltac:(vm_compute; reflexivity) ltac:(vm_compute; reflexivity)).
    vm_compute in Hh. discriminate Hh. }
  split; [vm_compute; reflexivity |].
  split; [reflexivity |].
  split; [| vm_compute; reflexivity].
  apply list_elem_of_In. vm_compute. auto.
Qed.

(* ===================================================================== *)
(** * The theorems at work on the example files *)
(* ===================================================================== *)


Lemma forest_root_acyclic (memory : bool) (r : Z) :
  r ∈ Annoy.roots (Loaded.index Fixture3.forest memory) →
  Acc (Inv.split_child (Loaded.index Fixture3.forest memory)) r.
Proof.
  intros Hr.
  assert (r = 6).
  { destruct memory; vm_compute in Hr; apply list_elem_of_singleton in Hr;
      exact Hr. }
  subst r.
  assert (Hleaf : ∀ c, c = 4 ∨ c = 5 →
            Acc (Inv.split_child (Loaded.index Fixture3.forest memory)) c).
  { intros c Hc. constructor. intros c' (nd & Hdec & Hsplit & _).
    exfalso. destruct Hc as [-> | ->]; destruct memory;
      vm_compute in Hdec; injection Hdec as <-; vm_compute in Hsplit;
      discriminate Hsplit. }
  constructor. intros c (nd & Hdec & _ & Hc).
  apply Hleaf.
  destruct memory; vm_compute in Hdec; injection Hdec as <-;
    destruct Hc as [Hc | Hc]; vm_compute in Hc; injection Hc as <-; auto.
Qed.

Lemma twins_answer :
  ∃ ix, Annoy.GetNnsByVector (Loaded.index Fixture3.twins true)
          [Fixture3.one] 2 (-1) [0; 1] [F32.zero; F32.zero] ix.
Proof.
  destruct (Loaded_index_invariants Fixture3.twins true) as [Hwf Hc];
    [reflexivity | reflexivity | reflexivity |].
  apply (getAllNns_pure _ _ _ _ _ _ Hwf Hc).
  eexists 1%nat, _, [0; 1], [0; 1],
    [{| first := F32.zero; second := 0 |}; {| first := F32.zero; second := 1 |}],
    [{| first := F32.zero; second := 0 |}; {| first := F32.zero; second := 1 |}].
  split; [vm_compute; reflexivity |].
  split; [apply map_range_intro; [apply NoDup_two; discriminate | reflexivity] |].
  split; [vm_compute; reflexivity |].
  split; [| vm_compute; reflexivity].
  split; [reflexivity |].
  intros _. apply sorted_by_two. reflexivity.
Qed.


Lemma search_step_branches_witness :
  Annoy.search_continues 2
    (Annoy.mkSearch (Loaded.index Fixture3.forest false)
       Fixture5.root_frontier []) = true ∧
  ∃ top pq',
    PQ.heap_Pop Fixture5.root_frontier = Some (top, pq') ∧
    (∀ p, p ∈ Fixture5.root_frontier → PQ.less p top = false) ∧
    HeapOrder.is_heap pq'.
Proof.
  split; [reflexivity |].
  destruct (Loaded_index_invariants Fixture3.forest false) as [Hwf Hc];
    [reflexivity | reflexivity | reflexivity |].
  destruct (search_step_branches (Loaded.index Fixture3.forest false)
              [Fixture3.one] 2 Fixture5.root_frontier [] Hwf Hc)
    as (top & pq' & Hpop & _ & _ & Horder & _).
  - reflexivity.
  - destruct Horder as [Hmax Hheap].
    + intros c Hc0. cbn in Hc0. lia.
    + repeat constructor. discriminate.
    + exists top, pq'. auto.
Defined.

Lemma Angular_Distance_formula_witness :
  Distance Angular_value Fixture5.unit_node Fixture5.unit_node 1
  = Some F32.zero.
Proof.
  destruct (Angular_Distance_formula Fixture5.unit_node Fixture5.unit_node
              [Fixture3.one] [Fixture3.one] 1 eq_refl eq_refl)
    as [Hd _].
  - cbn. lia.
  - cbn. lia.
  - rewrite Hd. vm_compute. reflexivity.
Defined.


Lemma query_results_ranked_witness :
  ∃ sorted : list Pair,
    [0; 1]
    = map second (take (Z.to_nat (Z.min 2 (Z.of_nat (length sorted)))) sorted).
Proof.
  destruct (Loaded_index_invariants Fixture3.twins true) as [Hwf Hc];
    [reflexivity | reflexivity | reflexivity |].
  destruct twins_answer as [ix Hq].
  destruct (query_results_ranked (Loaded.index Fixture3.twins true)
              [Fixture3.one] 2 (-1) [0; 1] [F32.zero; F32.zero] ix Hwf Hc Hq)
    as (fuel & vNode & nns & keys & pairs & sorted & _ & _ & _ & _ & _
        & Hres & _ & _).
  exists sorted. exact Hres.
Defined.

Lemma Load_rejects_bad_size_witness :
  ∃ e index',
    Annoy.Load (Fixture.fs_of Fixture5.five_bytes)
      (Annoy.NewAnnoyIndex Angular_value 1) String.EmptyString true
    = Some (Some e, index') ∧
    e = IndexSizeNotMultiple ∧ Inv.unloaded index'.
Proof.
  destruct (Load_rejects_bad_size (Fixture.fs_of Fixture5.five_bytes)
              (Annoy.NewAnnoyIndex Angular_value 1) String.EmptyString true
              (Fixture.file_of Fixture5.five_bytes))
    as (e & index' & HL & He & _ & _ & _ & _ & _ & _ & Hun).
  - cbn. lia.
  - reflexivity.
  - reflexivity.
  - intros (q & Hq & Hsize). cbn in Hsize. lia.
  - exists e, index'. split; [exact HL |]. split; [apply He; reflexivity |].
    apply Hun. repeat split.
Defined.

Lemma search_loop_terminates_witness :
  ∃ fuel,
    Annoy.search fuel (Loaded.index Fixture3.forest true) [Fixture3.one] 2 (-1)
    ≠ OutOfFuel.
Proof.
  destruct (Loaded_index_invariants Fixture3.forest true) as [Hwf Hc];
    [reflexivity | reflexivity | reflexivity |].
  apply (search_loop_terminates (Loaded.index Fixture3.forest true)
           [Fixture3.one] 2 (-1) Hwf Hc).
  apply forest_root_acyclic.
Defined.

(* ===================================================================== *)
(** * Further properties of the priority queue *)
(* ===================================================================== *)

Section QueueLaws.
Local Open Scope nat_scope.

(** X1.  [Push] appends and [Pop] takes from the end: popping right after a
    push hands back the pushed pair and the queue as it was, and the length
    grows by one in between; popping an empty queue panics. *)
Theorem PQ_Push_Pop_round_trip (pq : list Pair) (x : Pair) :
  PQ.Pop (PQ.Push pq x) = Some (x, pq) ∧
  PQ.Len (PQ.Push pq x) = S (PQ.Len pq) ∧
  PQ.Pop [] = None.
Proof.
  unfold PQ.Pop, PQ.Push, PQ.Len. split; [| split].
  - rewrite last_snoc. cbn. rewrite removelast_last. reflexivity.
  - rewrite length_app. cbn. lia.
  - reflexivity.
Qed.

(** X2.  [Swap] exchanges two elements: it panics exactly when an index is
    out of range, keeps the length, does not depend on the order of its
    two indices, and applied twice gives the queue back. *)
Theorem PQ_Swap_involution (pq : list Pair) (i j : nat) :
  (PQ.Swap pq i j = None ↔ length pq <= i ∨ length pq <= j) ∧
  ∀ pq', PQ.Swap pq i j = Some pq' →
    length pq' = length pq ∧
    pq' !! i = pq !! j ∧ pq' !! j = pq !! i ∧
    PQ.Swap pq j i = Some pq' ∧
    PQ.Swap pq' i j = Some pq.
Proof.
  split.
  - unfold PQ.Swap. split.
    + intros Hn.
      destruct (pq !! i) as [a |] eqn:Hi;
        [| left; apply lookup_ge_None; exact Hi].
      destruct (pq !! j) as [b |] eqn:Hj;
        [| right; apply lookup_ge_None; exact Hj].
      discriminate Hn.
    + intros [Hi | Hj].
      * apply lookup_ge_None in Hi. rewrite Hi. reflexivity.
      * apply lookup_ge_None in Hj. rewrite Hj.
        destruct (pq !! i); reflexivity.
  - intros pq' Hs. unfold PQ.Swap in Hs.
    destruct (pq !! i) as [a |] eqn:Hi; [| discriminate].
    destruct (pq !! j) as [b |] eqn:Hj; [| discriminate].
    cbn in Hs. injection Hs as <-.
    assert (Hli : i < length pq) by (apply lookup_lt_is_Some; eauto).
    assert (Hlj : j < length pq) by (apply lookup_lt_is_Some; eauto).
    assert (Hat : ∀ x, <[i := b]> (<[j := a]> pq) !! x
                       = if decide (x = i) then Some b
                         else if decide (x = j) then Some a else pq !! x)
      by (intros x; apply swap_lookup; assumption).
    assert (Hpi : <[i := b]> (<[j := a]> pq) !! i = Some b).
    { rewrite Hat. destruct (decide (i = i)); congruence. }
    assert (Hpj : <[i := b]> (<[j := a]> pq) !! j = Some a).
    { rewrite Hat. destruct (decide (j = i)); [congruence |].
      destruct (decide (j = j)); congruence. }
    split; [rewrite !length_insert; reflexivity |].
    split; [congruence |]. split; [congruence |].
    split.
    + unfold PQ.Swap. rewrite Hi, Hj. cbn. f_equal.
      apply list_eq. intros x. rewrite Hat.
      rewrite (swap_lookup pq j i x b a Hlj Hli).
      destruct (decide (x = i)) as [Hxi | Hxi];
        destruct (decide (x = j)) as [Hxj | Hxj]; subst; congruence.
    + unfold PQ.Swap. rewrite Hpi, Hpj. cbn. f_equal.
      apply list_eq. intros x.
      rewrite swap_lookup by (rewrite !length_insert; assumption).
      rewrite Hat.
      destruct (decide (x = i)) as [Hxi | Hxi];
        destruct (decide (x = j)) as [Hxj | Hxj]; subst; congruence.
Qed.

End QueueLaws.

Section QueueOrder.
Import HeapOrder.

Lemma PQ_less_nan_left (a b : Pair) :
  F32.is_nan (first a) = true → PQ.less a b = false.
Proof.
  unfold PQ.less, F32.eqb, F32.gtb, SFeqb, SFltb.
  destruct (first a); try discriminate. intros _.
  destruct (first b); reflexivity.
Qed.

Lemma PQ_less_nan_right (a b : Pair) :
  F32.is_nan (first b) = true → PQ.less a b = false.
Proof.
  unfold PQ.less, F32.eqb, F32.gtb, SFeqb, SFltb.
  destruct (first b); try discriminate. intros _.
  destruct (first a); reflexivity.
Qed.

Lemma not_nan_is_nan (x : F32.t) :
  F32.is_nan x = false ↔ FloatOrder.not_nan x.
Proof.
  unfold FloatOrder.not_nan. destruct x; cbn; split; congruence.
Qed.

(** X3.  The order of [Less] (larger bound first, then larger node index):
    it is asymmetric on all pairs; a pair whose bound is NaN neither goes
    before nor after any other pair; and on pairs without NaN it is a
    strict weak order whose ties are the pairs with equal bound and equal
    node index. *)
Theorem PQ_less_strict_order (a b c : Pair) :
  (PQ.less a b = true → PQ.less b a = false) ∧
  (F32.is_nan (first a) = true →
     PQ.less a b = false ∧ PQ.less b a = false) ∧
  (FloatOrder.not_nan (first a) → FloatOrder.not_nan (first b) →
   FloatOrder.not_nan (first c) →
     (PQ.less a b = true → PQ.less b c = true → PQ.less a c = true) ∧
     (PQ.less a b = false → PQ.less b c = false → PQ.less a c = false) ∧
     (PQ.less a b = false → PQ.less b a = false →
        F32.eqb (first a) (first b) = true ∧ second a = second b)).
Proof.
  split; [| split].
  - intros Hab.
    destruct (F32.is_nan (first a)) eqn:Ha;
      [rewrite PQ_less_nan_left in Hab by exact Ha; discriminate |].
    destruct (F32.is_nan (first b)) eqn:Hb;
      [rewrite PQ_less_nan_right in Hab by exact Hb; discriminate |].
    apply not_nan_is_nan in Ha, Hb.
    apply less_asym_b; assumption.
  - intros Ha. split;
      [apply PQ_less_nan_left | apply PQ_less_nan_right]; exact Ha.
  - intros Ha Hb Hc. split; [| split].
    + apply less_trans_b; assumption.
    + apply less_ntrans_b; assumption.
    + intros Hab Hba.
      apply PQ_less_false_pair_lt in Hab; [| assumption | assumption].
      apply PQ_less_false_pair_lt in Hba; [| assumption | assumption].
      assert (Hk : FloatOrder.key (first a) = FloatOrder.key (first b)
                   ∧ second a = second b).
      { unfold pair_lt, FloatOrder.lt in Hab, Hba. cbn zeta in Hab, Hba.
        destruct (FloatOrder.key (first a)) as [[a1 a2] a3].
        destruct (FloatOrder.key (first b)) as [[b1 b2] b3].
        cbn [fst snd] in Hab, Hba.
        assert (a1 = b1) by lia. assert (a2 = b2) by lia.
        assert (a3 = b3) by lia. split; [congruence | lia]. }
      destruct Hk as [Hk Hs]. split; [| exact Hs].
      unfold F32.eqb. apply SFeqb_key; assumption.
Qed.

(** X4.  [heap.Push] on the queue never panics and only adds the pushed
    pair; pushed on a heap, with no NaN among the bounds, it leaves a
    heap. *)
Theorem heap_Push_keeps_heap (h : list Pair) (x : Pair) :
  ∃ h', PQ.heap_Push h x = Some h' ∧ h' ≡ₚ x :: h ∧
    (is_heap h → no_nan h → FloatOrder.not_nan (first x) →
       is_heap h' ∧ no_nan h').
Proof.
  destruct (PQ_heap_Push_Permutation h x) as (h' & Hp & Hperm).
  exists h'. split; [exact Hp |]. split; [exact Hperm |].
  intros Hh Hn Hx.
  destruct (PQ_heap_Push_heap h x Hh Hn Hx) as (h2 & Hp2 & Hh2 & Hn2 & _).
  rewrite Hp in Hp2. injection Hp2 as <-. split; assumption.
Qed.

(** X5.  [heap.Pop] panics on the empty queue and otherwise hands back the
    pair [Top] shows, keeping all the others; on a heap with no NaN among
    the bounds that pair goes before every other one, and what is left is
    a heap again. *)
Theorem heap_Pop_returns_Top (h : list Pair) :
  (h = [] → PQ.heap_Pop h = None ∧ PQ.Top h = None) ∧
  (h ≠ [] →
     ∃ top h', PQ.heap_Pop h = Some (top, h') ∧ PQ.Top h = Some top ∧
       h ≡ₚ top :: h' ∧
       (is_heap h → no_nan h →
          (∀ p, p ∈ h → PQ.less p top = false) ∧ is_heap h' ∧ no_nan h')).
Proof.
  split.
  - intros ->. split; reflexivity.
  - intros Hne.
    destruct (PQ_heap_Pop_Permutation h Hne) as (top & h' & Hp & Ht & Hperm).
    exists top, h'. split; [exact Hp |]. split; [exact Ht |].
    split; [exact Hperm |].
    intros Hh Hn.
    destruct (PQ_heap_Pop_heap h Hne Hh Hn)
      as (top2 & h2 & Hp2 & _ & Hmax & Hh2 & Hn2 & _).
    rewrite Hp in Hp2. injection Hp2 as <- <-.
    split; [exact Hmax |]. split; assumption.
Qed.

End QueueOrder.

(* ===================================================================== *)
(** * Further properties of the node decoder *)
(* ===================================================================== *)

Lemma slice_None_hi {A : Type} (b : list A) (lo hi : Z) :
  Z.of_nat (length b) < hi → slice b lo hi = None.
Proof.
  intros Hh. unfold slice.
  destruct (Z.leb_spec hi (Z.of_nat (length b))); [lia |].
  rewrite andb_false_r. reflexivity.
Qed.

Lemma slice_None_lo {A : Type} (b : list A) (lo hi : Z) :
  lo < 0 → slice b lo hi = None.
Proof.
  intros Hl. unfold slice.
  destruct (Z.leb_spec 0 lo); [lia | reflexivity].
Qed.

Lemma read_words_None {A : Type} (conv : Z → A) (nodes : list byte)
    (base : Z) (n : nat) (j : Z) :
  0 <= base → 0 <= j →
  Z.of_nat (length nodes) < base + 4 * (j + Z.of_nat n) →
  base + 4 * j <= Z.of_nat (length nodes) →
  read_words conv nodes base j n = None.
Proof.
  revert j. induction n as [| n IH]; intros j Hb Hj Hlen Hlo; [lia |].
  cbn [read_words].
  destruct (Z.le_gt_cases (base + 4 + 4 * j) (Z.of_nat (length nodes)))
    as [Hin | Hout].
  - pose proof (read_word_at nodes (base + 4 * j) ltac:(lia) ltac:(lia)) as Hw.
    replace (base + 4 * j + 4) with (base + 4 + 4 * j) in Hw by lia.
    destruct (slice nodes (base + 4 * j) (base + 4 + 4 * j)) as [b |];
      [| reflexivity].
    cbn in Hw |- *. rewrite Hw. cbn.
    rewrite IH by lia. reflexivity.
  - rewrite slice_None_hi by lia. reflexivity.
Qed.

(** The decoded node of a record that lies inside the byte region, in
    closed form. *)
Lemma GetNodePtr_value (nodes : list byte) (f i : Z) :
  0 <= f → f + 2 < 2 ^ 31 → 0 <= i →
  (12 + 4 * f) * (i + 1) <= Z.of_nat (length nodes) →
  let base := (12 + 4 * f) * i in
  let d := i32_at nodes base in
  GetNodePtr nodes (12 + 4 * f) i
  = Some (if (2 <? d) && (d <=? f + 2)
          then {| Descendants := d;
                  Children := map (λ t, i32_at nodes (base + 4 + 4 * t))
                                (seqZ 0 (f + 2));
                  Norm := F32.zero; V := None |}
          else {| Descendants := d;
                  Children := map (λ t, i32_at nodes (base + 4 + 4 * t))
                                (seqZ 0 2);
                  Norm := F32.zero;
                  V := Some (map (λ t, f32_at nodes (base + 12 + 4 * t))
                               (seqZ 0 f)) |}).
Proof.
  intros Hf Hf2 Hi Hlen base d.
  assert (Hbase : 0 <= base) by (subst base; nia).
  assert (Hrec : base + (12 + 4 * f) <= Z.of_nat (length nodes))
    by (subst base; nia).
  unfold GetNodePtr. fold base.
  pose proof (read_word_at nodes base Hbase ltac:(lia)) as Hw.
  destruct (slice nodes base (base + 4)) as [b |]; [| discriminate].
  cbn [mbind option_bind] in Hw |- *. rewrite Hw. cbn [mbind option_bind].
  rewrite int32_u32_at, quot_stride. fold d.
  rewrite (int32_id f), (int32_id (f + 2)) by lia.
  rewrite (read_words_spec int32 nodes (base + 4) 2 0) by lia.
  destruct ((2 <? d) && (d <=? f + 2)).
  - rewrite make_len_nonneg by lia. cbn [mbind option_bind].
    rewrite (read_words_spec int32 nodes (base + 4) (Z.to_nat (f + 2)) 0) by lia.
    cbn [mbind option_bind]. rewrite Z2Nat.id by lia.
    do 2 f_equal. apply map_ext. intros t. apply int32_u32_at.
  - rewrite make_len_nonneg by lia. cbn [mbind option_bind].
    rewrite (read_words_spec Float32frombits nodes (base + 12) (Z.to_nat f) 0)
      by lia.
    cbn [mbind option_bind]. rewrite Z2Nat.id by lia.
    do 2 f_equal. apply map_ext. intros t. apply int32_u32_at.
Qed.

(** X6.  A record that does not lie inside the byte region cannot be
    decoded: for a negative index, or when the region ends before the end
    of record [i], [GetNodePtr] panics (whatever the part of the record that
    is there holds). *)
Theorem GetNodePtr_out_of_range (nodes : list byte) (f i : Z) :
  0 <= f → f + 2 < 2 ^ 31 →
  i < 0 ∨ Z.of_nat (length nodes) < (12 + 4 * f) * (i + 1) →
  GetNodePtr nodes (12 + 4 * f) i = None.
Proof.
  intros Hf Hf2 Hout. unfold GetNodePtr.
  set (base := (12 + 4 * f) * i).
  destruct (Z.lt_ge_cases i 0) as [Hneg | Hi].
  { rewrite slice_None_lo by (subst base; nia). reflexivity. }
  destruct Hout as [Hneg | Hout]; [lia |].
  assert (Hbase : 0 <= base) by (subst base; nia).
  assert (Hend : Z.of_nat (length nodes) < base + (12 + 4 * f))
    by (subst base; nia).
  destruct (Z.le_gt_cases (base + 4) (Z.of_nat (length nodes)))
    as [Hhead | Hhead];
    [| rewrite slice_None_hi by lia; reflexivity].
  pose proof (read_word_at nodes base Hbase Hhead) as Hw.
  destruct (slice nodes base (base + 4)) as [b |]; [| reflexivity].
  cbn [mbind option_bind] in Hw |- *. rewrite Hw. cbn [mbind option_bind].
  rewrite quot_stride.
  destruct ((2 <? int32 (u32_at nodes base))
            && (int32 (u32_at nodes base) <=? int32 (int32 f + 2))).
  - rewrite make_len_nonneg by lia. cbn [mbind option_bind].
    rewrite (read_words_None int32 nodes (base + 4) (Z.to_nat (f + 2)) 0)
      by lia.
    reflexivity.
  - destruct (Z.le_gt_cases (base + 12) (Z.of_nat (length nodes)))
      as [Hch | Hch].
    + rewrite (read_words_spec int32 nodes (base + 4) 2 0) by lia.
      cbn [mbind option_bind].
      rewrite make_len_nonneg by lia. cbn [mbind option_bind].
      rewrite (read_words_None Float32frombits nodes (base + 12)
                 (Z.to_nat f) 0) by lia.
      reflexivity.
    + rewrite (read_words_None int32 nodes (base + 4) 2 0) by lia.
      reflexivity.
Qed.

Lemma GetNodePtr_out_of_range_witness :
  GetNodePtr Decoder.two_descendants (12 + 4 * 1) 1 = None.
Proof.
  apply (GetNodePtr_out_of_range Decoder.two_descendants 1 1); [lia | lia |].
  right. vm_compute. reflexivity.
Defined.

Lemma byte_at_app (before record after : list byte) (off : Z) :
  0 <= off < Z.of_nat (length record) →
  byte_at (before ++ record ++ after) (Z.of_nat (length before) + off)
  = byte_at record off.
Proof.
  intros Ho. unfold byte_at. f_equal.
  replace (Z.to_nat (Z.of_nat (length before) + off))
    with (length before + Z.to_nat off)%nat by lia.
  rewrite app_nth2_plus. apply app_nth1. lia.
Qed.

Lemma u32_at_app (before record after : list byte) (off : Z) :
  0 <= off → off + 4 <= Z.of_nat (length record) →
  u32_at (before ++ record ++ after) (Z.of_nat (length before) + off)
  = u32_at record off.
Proof.
  intros Ho Hl. unfold u32_at.
  rewrite <- !Z.add_assoc.
  rewrite !byte_at_app by lia. reflexivity.
Qed.

(** X7.  Decoding reads the bytes of its own record only: record [i] of a
    region decodes to the same node as that record alone, whatever stands
    before and after it. *)
Theorem GetNodePtr_reads_own_record (before record after : list byte)
    (f i : Z) :
  0 <= f → f + 2 < 2 ^ 31 → 0 <= i →
  Z.of_nat (length before) = (12 + 4 * f) * i →
  Z.of_nat (length record) = 12 + 4 * f →
  GetNodePtr (before ++ record ++ after) (12 + 4 * f) i
  = GetNodePtr record (12 + 4 * f) 0
  ∧ is_Some (GetNodePtr record (12 + 4 * f) 0).
Proof.
  intros Hf Hf2 Hi Hb Hr.
  rewrite (GetNodePtr_value (before ++ record ++ after) f i Hf Hf2 Hi)
    by (rewrite !length_app; nia).
  rewrite (GetNodePtr_value record f 0 Hf Hf2) by lia.
  split; [| eexists; reflexivity].
  rewrite <- Hb. rewrite Z.mul_0_r.
  assert (Hu : ∀ off, 0 <= off → off + 4 <= 12 + 4 * f →
            u32_at (before ++ record ++ after) (Z.of_nat (length before) + off)
            = u32_at record off)
    by (intros off H0 H1; apply u32_at_app; lia).
  assert (Hd : i32_at (before ++ record ++ after) (Z.of_nat (length before))
               = i32_at record 0).
  { unfold i32_at.
    replace (Z.of_nat (length before)) with (Z.of_nat (length before) + 0)
      by lia.
    rewrite Hu by lia. reflexivity. }
  rewrite Hd.
  assert (Hc : ∀ n, n <= f + 2 →
            map (λ t, i32_at (before ++ record ++ after)
                        (Z.of_nat (length before) + 4 + 4 * t)) (seqZ 0 n)
            = map (λ t, i32_at record (0 + 4 + 4 * t)) (seqZ 0 n)).
  { intros n Hn. apply map_ext_in. intros t Ht.
    apply list_elem_of_In, elem_of_seqZ in Ht. unfold i32_at.
    rewrite <- !Z.add_assoc. rewrite Hu by lia. reflexivity. }
  assert (Hv : map (λ t, f32_at (before ++ record ++ after)
                           (Z.of_nat (length before) + 12 + 4 * t)) (seqZ 0 f)
               = map (λ t, f32_at record (0 + 12 + 4 * t)) (seqZ 0 f)).
  { apply map_ext_in. intros t Ht.
    apply list_elem_of_In, elem_of_seqZ in Ht. unfold f32_at.
    rewrite <- !Z.add_assoc. rewrite Hu by lia. reflexivity. }
  rewrite !Hc by lia. rewrite Hv. reflexivity.
Qed.

Lemma GetNodePtr_reads_own_record_witness :
  GetNodePtr (Fixture.record 1 0 0 [Fixture.bits_one]
              ++ Decoder.two_descendants ++ [x00; x01])
    (12 + 4 * 1) 1
  = GetNodePtr Decoder.two_descendants (12 + 4 * 1) 0
  ∧ is_Some (GetNodePtr Decoder.two_descendants (12 + 4 * 1) 0).
Proof.
  apply (GetNodePtr_reads_own_record
           (Fixture.record 1 0 0 [Fixture.bits_one]) Decoder.two_descendants
           [x00; x01] 1 1); [lia | lia | lia | reflexivity | reflexivity].
Defined.

(* ===================================================================== *)
(** * Further properties of the dot product and of the angular metric *)
(* ===================================================================== *)

Lemma F32_mul_comm (x y : F32.t) : F32.mul x y = F32.mul y x.
Proof.
  unfold F32.mul, SFmul.
  destruct x as [sx | sx | | sx mx ex], y as [sy | sy | | sy my ey];
    try reflexivity; try (rewrite (xorb_comm sx sy); reflexivity).
  rewrite (xorb_comm sx sy), (Pos.mul_comm mx my), (Z.add_comm ex ey).
  reflexivity.
Qed.

Lemma Dot_from_comm (x y : list F32.t) (n z : nat) (acc : F32.t) :
  Dot_from x y z n acc = Dot_from y x z n acc.
Proof.
  revert z acc. induction n as [| n IH]; intros z acc; [reflexivity |].
  cbn [Dot_from].
  destruct (x !! z) as [a |], (y !! z) as [b |]; cbn; try reflexivity.
  rewrite (F32_mul_comm a b). apply IH.
Qed.

Lemma Dot_from_None (x y : list F32.t) (n z : nat) (acc : F32.t) :
  (z <= length x)%nat → (z <= length y)%nat →
  (length x < z + n ∨ length y < z + n)%nat →
  Dot_from x y z n acc = None.
Proof.
  revert z acc. induction n as [| n IH]; intros z acc Hx Hy Hs; [lia |].
  cbn [Dot_from].
  destruct (x !! z) as [a |] eqn:Ha; [| reflexivity].
  destruct (y !! z) as [b |] eqn:Hb; [| reflexivity].
  cbn. apply lookup_lt_Some in Ha, Hb.
  apply IH; lia.
Qed.

Lemma Dot_None_iff (x y : list F32.t) (f : Z) :
  Dot x y f = None
  ↔ (length x < Z.to_nat f)%nat ∨ (length y < Z.to_nat f)%nat.
Proof.
  split.
  - intros Hn.
    destruct (Nat.le_gt_cases (Z.to_nat f) (length x)) as [Ha |]; [| lia].
    destruct (Nat.le_gt_cases (Z.to_nat f) (length y)) as [Hb |]; [| lia].
    rewrite (Dot_spec x y f Ha Hb) in Hn. discriminate Hn.
  - intros Hs. unfold Dot. apply Dot_from_None; lia.
Qed.

(** X8.  [Dot] reads the first [f] entries of both vectors and nothing
    else: it panics exactly when one of them has fewer than [f] entries,
    entries past the first [f] do not change the result, and for [f <= 0]
    the result is 0 whatever the vectors.  It does not depend on the order
    of the two vectors either: the products and their sum are the same
    binary32 values, and so is the panic. *)
Theorem Dot_reads_first_f (x y : list F32.t) (f : Z) :
  (Dot x y f = None
   ↔ (length x < Z.to_nat f)%nat ∨ (length y < Z.to_nat f)%nat) ∧
  Dot (take (Z.to_nat f) x) (take (Z.to_nat f) y) f = Dot x y f ∧
  (f <= 0 → Dot x y f = Some F32.zero) ∧
  Dot x y f = Dot y x f.
Proof.
  pose proof (λ a b : list F32.t, Dot_None_iff a b f) as Hiff.
  split; [apply Hiff |]. split; [| split].
  - destruct (Nat.le_gt_cases (Z.to_nat f) (length x)) as [Hx | Hx];
      [destruct (Nat.le_gt_cases (Z.to_nat f) (length y)) as [Hy | Hy] |].
    + rewrite (Dot_spec x y f Hx Hy).
      rewrite Dot_spec by (rewrite length_take; lia).
      unfold AngularSpec.dot. rewrite !take_take, !Nat.min_id. reflexivity.
    + transitivity (@None F32.t); [| symmetry]; apply Hiff;
        [right; rewrite length_take; lia | right; lia].
    + transitivity (@None F32.t); [| symmetry]; apply Hiff;
        [left; rewrite length_take; lia | left; lia].
  - intros Hf. unfold Dot. replace (Z.to_nat f) with 0%nat by lia.
    reflexivity.
  - unfold Dot. apply Dot_from_comm.
Qed.

Lemma Angular_Distance_comm (x y : Node) (f : Z) :
  Distance Angular_value x y f = Distance Angular_value y x f.
Proof.
  cbn [Distance Angular_DistanceMetric]. unfold AngularImpl.Distance.
  destruct (AngularImpl.norm_or_dot x f) as [pp |],
           (AngularImpl.norm_or_dot y f) as [qq |];
    cbn [mbind option_bind]; try reflexivity.
  rewrite (F32_mul_comm qq pp). unfold Dot.
  rewrite (Dot_from_comm (V_all y) (V_all x)). reflexivity.
Qed.

Lemma Dot_from_zeros (x : list F32.t) (n z : nat) :
  Forall (λ e, ∃ s, e = S754_zero s) x → (z + n <= length x)%nat →
  Dot_from x x z n F32.zero = Some F32.zero.
Proof.
  intros Hx. revert z. induction n as [| n IH]; intros z Hl; [reflexivity |].
  cbn [Dot_from].
  destruct (x !! z) as [a |] eqn:Ha;
    [| apply lookup_ge_None in Ha; lia].
  cbn [mbind option_bind].
  assert (Hz : ∃ s, a = S754_zero s)
    by (eapply (proj1 (Forall_lookup _ _) Hx); exact Ha).
  destruct Hz as [s ->].
  replace (F32.add F32.zero (F32.mul (S754_zero s) (S754_zero s)))
    with F32.zero by (destruct s; reflexivity).
  apply IH. lia.
Qed.

(** X9.  From a vector all of whose first [f] entries are zero the
    angular distance is 2.0, to every node whose squared norm can be
    computed: the product of the two squared norms is not above zero, and
    the quotient is never formed. *)
Theorem Angular_Distance_null_vector (x y : Node) (vx : list F32.t) (f : Z) :
  V x = Some vx → Norm x = F32.zero →
  Forall (λ e, ∃ s, e = S754_zero s) vx →
  (Z.to_nat f <= length vx)%nat →
  is_Some (AngularImpl.norm_or_dot y f) →
  Distance Angular_value x y f = Some F32.two ∧
  Distance Angular_value y x f = Some F32.two.
Proof.
  intros Hv Hn Hz Hl [qq Hq].
  assert (Hp : AngularImpl.norm_or_dot x f = Some F32.zero).
  { unfold AngularImpl.norm_or_dot. rewrite Hn.
    change (F32.eqb F32.zero F32.zero) with true. cbn iota.
    unfold V_all. rewrite Hv. cbn [default from_option id].
    unfold Dot. apply Dot_from_zeros; [exact Hz | cbn; lia]. }
  cbn [Distance Angular_DistanceMetric]. unfold AngularImpl.Distance.
  rewrite Hp, Hq. cbn [mbind option_bind].
  replace (F32.gtb (F32.mul F32.zero qq) F32.zero) with false
    by (destruct qq as [s | s | | s m e]; reflexivity).
  replace (F32.gtb (F32.mul qq F32.zero) F32.zero) with false
    by (destruct qq as [s | s | | s m e]; reflexivity).
  split; reflexivity.
Qed.

Lemma Angular_Distance_null_vector_witness :
  Distance Angular_value
    {| Descendants := 1; Children := [0; 0]; Norm := F32.zero;
       V := Some [F32.zero] |} Fixture5.unit_node 1 = Some F32.two ∧
  Distance Angular_value Fixture5.unit_node
    {| Descendants := 1; Children := [0; 0]; Norm := F32.zero;
       V := Some [F32.zero] |} 1 = Some F32.two.
Proof.
  apply (Angular_Distance_null_vector _ Fixture5.unit_node [F32.zero] 1).
  - reflexivity.
  - reflexivity.
  - constructor; [exists false; reflexivity | constructor].
  - cbn. lia.
  - eexists. vm_compute. reflexivity.
Defined.

(** X10.  [NormalizeDistance] clamps at zero before it takes the root: a
    distance below zero (a negative number, minus zero or minus infinity)
    is reported as +0, a NaN stays a NaN, and every other distance is
    reported as a number not below zero. *)
Theorem Angular_NormalizeDistance_clamps (raw : F32.t) :
  (has_sign true raw → NormalizeDistance Angular_value raw = F32.zero) ∧
  (F32.is_nan raw = true →
     F32.is_nan (NormalizeDistance Angular_value raw) = true) ∧
  (F32.is_nan raw = false →
     FloatOrder.nonneg (NormalizeDistance Angular_value raw)).
Proof.
  split; [| split].
  - intros Hs. cbn [NormalizeDistance Angular_DistanceMetric].
    unfold AngularImpl.NormalizeDistance.
    assert (Hmax : F64.max (to_f64 raw) F64.zero = F64.zero).
    { destruct raw as [s | s | | s m e]; cbn in Hs; try contradiction; subst;
        try reflexivity.
      cbn [to_f64].
      pose proof (binary_round_sign F64.prec F64.emax true m e) as Hr.
      destruct (binary_round F64.prec F64.emax true m e)
        as [s' | s' | | s' m' e']; cbn in Hr; try contradiction; subst;
        reflexivity. }
    rewrite Hmax. reflexivity.
  - destruct raw; try discriminate. intros _. reflexivity.
  - intros Hn. apply Angular_NormalizeDistance_nonneg.
    apply not_nan_is_nan. exact Hn.
Qed.

(** X11.  [InitNode] stores the dot product of the node's vector with
    itself as the norm and changes nothing else; it panics exactly when the
    vector has fewer than [f] entries (a nil vector counts as empty), and
    initialising a node twice is the same as initialising it once. *)
Theorem Angular_InitNode_idempotent (nd : Node) (f : Z) :
  (InitNode Angular_value nd f = None
   ↔ (length (V_all nd) < Z.to_nat f)%nat) ∧
  ∀ nd', InitNode Angular_value nd f = Some nd' →
    Dot (V_all nd) (V_all nd) f = Some (Norm nd') ∧
    Descendants nd' = Descendants nd ∧ Children nd' = Children nd ∧
    V nd' = V nd ∧
    InitNode Angular_value nd' f = Some nd'.
Proof.
  cbn [InitNode Angular_DistanceMetric]. unfold AngularImpl.InitNode.
  split.
  - pose proof (Dot_None_iff (V_all nd) (V_all nd) f) as Hiff.
    destruct (Dot (V_all nd) (V_all nd) f) as [n |] eqn:Hd; cbn.
    + split; [discriminate |]. intros Hl.
      assert (Hn : Some n = None) by (apply Hiff; lia).
      discriminate Hn.
    + split; [| reflexivity]. intros _.
      destruct (proj1 Hiff eq_refl); assumption.
  - intros nd' Hi.
    destruct (Dot (V_all nd) (V_all nd) f) as [n |] eqn:Hd; [| discriminate].
    cbn in Hi. injection Hi as <-. cbn [Norm Descendants Children V].
    split; [reflexivity |]. split; [reflexivity |]. split; [reflexivity |].
    split; [reflexivity |].
    unfold V_all in Hd |- *. cbn [V]. rewrite Hd. reflexivity.
Qed.

(* ===================================================================== *)
(** * The detour through binary64 *)
(* ===================================================================== *)

Lemma F64_min_valid (x y : F32.t) :
  Binary32.valid x → Binary32.valid y → Binary32.valid (F64.min x y).
Proof.
  unfold Binary32.valid, F64.min. intros Hx Hy.
  destruct x as [sx | [|] | | sx mx ex], y as [sy | [|] | | sy my ey];
    try reflexivity; try assumption;
    match goal with
    | |- context [SFltb ?a ?b] => destruct (SFltb a b); assumption
    end.
Qed.

(** [math.Min] applied to two converted binary32 values is the conversion
    of [math.Min] applied to the values themselves. *)
Lemma F64_min_to_f64 (x y : F32.t) :
  Binary32.valid x → Binary32.valid y →
  F64.min (to_f64 x) (to_f64 y) = to_f64 (F64.min x y).
Proof.
  intros Hx Hy.
  pose proof (to_f64_ltb x y Hx Hy) as Hlt.
  unfold Binary32.valid in Hx, Hy.
  destruct x as [sx | [|] | | sx mx ex], y as [sy | [|] | | sy my ey];
    try reflexivity; cbn [valid_binary] in Hx, Hy;
    repeat match goal with
    | H : bounded _ _ ?m ?e = true
      |- context [to_f64 (S754_finite ?s ?m ?e)] =>
        let d := fresh "d" in
        let E := fresh "E" in
        destruct (to_f64_finite s m e H) as (d & _ & E);
        rewrite E in Hlt |- *; symmetry in E; clear H
    end;
    unfold F64.min; cbv beta iota;
    try (rewrite Hlt;
         match goal with
         | |- context [SFltb ?a ?b] => destruct (SFltb a b)
         end);
    first [reflexivity | assumption].
Qed.

Lemma SFltb_irrefl (x : spec_float) : SFltb x x = false.
Proof.
  unfold SFltb, SFcompare.
  destruct x as [s | [|] | | [|] m e]; try reflexivity;
    rewrite Z.compare_refl;
    change (PosDef.Pos.compare_cont Eq m m) with (Pos.compare m m);
    rewrite Pos.compare_refl; reflexivity.
Qed.

Lemma F64_min_not_above (x y : spec_float) : SFltb x (F64.min x y) = false.
Proof.
  unfold F64.min.
  destruct x as [sx | [|] | | sx mx ex], y as [sy | [|] | | sy my ey];
    try reflexivity;
    try match goal with
    | |- context [if SFltb ?a ?b then _ else _] =>
        destruct (SFltb a b) eqn:Hl; [apply SFltb_irrefl | exact Hl]
    end;
    try (destruct sx; reflexivity).
Qed.

(** X12.  [PQDistance] takes the smaller of the bound and the margin (the
    margin with its sign changed for child 0) by way of binary64, and
    loses nothing on the way: on binary32 values the result is [math.Min]
    of the two values themselves, so it is one of them (or a zero, minus
    infinity or NaN by the special cases of [math.Min]); the bound handed
    down to a child is never above the bound of its parent. *)
Theorem Angular_PQDistance_exact (d m : F32.t) (c : Z) :
  Binary32.valid d → Binary32.valid m →
  let side := if c =? 0 then F32.neg m else m in
  PQDistance Angular_value d m c = F64.min d side ∧
  Binary32.valid (PQDistance Angular_value d m c) ∧
  F32.ltb d (PQDistance Angular_value d m c) = false.
Proof.
  intros Hd Hm side.
  assert (Hs : Binary32.valid side).
  { subst side. destruct (c =? 0); [| exact Hm].
    destruct m; assumption. }
  assert (He : PQDistance Angular_value d m c = F64.min d side).
  { cbn [PQDistance Angular_DistanceMetric]. unfold AngularImpl.PQDistance.
    fold side. rewrite F64_min_to_f64 by assumption.
    apply to_f32_to_f64. apply F64_min_valid; assumption. }
  rewrite He. split; [reflexivity |]. split.
  - apply F64_min_valid; assumption.
  - apply F64_min_not_above.
Qed.

Lemma Angular_PQDistance_exact_witness :
  PQDistance Angular_value F32.inf Fixture3.one 0
  = F64.min F32.inf (F32.neg Fixture3.one) ∧
  Binary32.valid (PQDistance Angular_value F32.inf Fixture3.one 0) ∧
  F32.ltb F32.inf (PQDistance Angular_value F32.inf Fixture3.one 0) = false.
Proof.
  apply (Angular_PQDistance_exact F32.inf Fixture3.one 0); reflexivity.
Defined.

Lemma Float32frombits_valid (w : Z) : Binary32.valid (Float32frombits w).
Proof.
  unfold Binary32.valid, Float32frombits.
  assert (He : 0 <= Z.land (Z.shiftr w 23) 255 <= 255).
  { split; [apply Z.land_nonneg; right; lia |].
    change 255 with (Z.ones 8) at 1. rewrite Z.land_ones by lia.
    pose proof (Z.mod_pos_bound (Z.shiftr w 23) (2 ^ 8) ltac:(lia)). lia. }
  assert (Hm : 0 <= Z.land w 8388607 < 8388608).
  { change 8388607 with (Z.ones 23). rewrite Z.land_ones by lia.
    pose proof (Z.mod_pos_bound w (2 ^ 23) ltac:(lia)). lia. }
  set (e := Z.land (Z.shiftr w 23) 255) in *.
  set (m := Z.land w 8388607) in *.
  destruct (Z.eqb_spec e 255); [destruct (m =? 0); reflexivity |].
  destruct (Z.eqb_spec e 0) as [He0 | He0].
  - destruct m as [| p | p]; [reflexivity | | reflexivity].
    cbn [valid_binary]. unfold bounded, canonical_mantissa.
    rewrite fexp_eq, digits2_pos_log2. unfold F32.prec, F32.emax.
    assert (Z.log2 (Z.pos p) < 23) by (apply Z.log2_lt_pow2; lia).
    apply andb_true_iff. split; [apply Z.eqb_eq | apply Z.leb_le]; lia.
  - destruct (m + 8388608) as [| p | p] eqn:Hp; [reflexivity | | reflexivity].
    cbn [valid_binary]. unfold bounded, canonical_mantissa.
    rewrite fexp_eq, digits2_pos_log2. unfold F32.prec, F32.emax.
    assert (Z.log2 (Z.pos p) = 23).
    { apply Z.log2_unique; [lia |]. rewrite <- Hp.
      change (2 ^ 23) with 8388608. change (2 ^ Z.succ 23) with 16777216.
      lia. }
    apply andb_true_iff. split; [apply Z.eqb_eq | apply Z.leb_le]; lia.
Qed.

Lemma read_words_Forall {A : Type} (conv : Z → A) (P : A → Prop)
    (nodes : list byte) (base : Z) (n : nat) (j : Z) (l : list A) :
  (∀ w, P (conv w)) → read_words conv nodes base j n = Some l → Forall P l.
Proof.
  intros HP. revert j l. induction n as [| n IH]; intros j l Hr.
  - injection Hr as <-. constructor.
  - cbn [read_words] in Hr.
    destruct (slice nodes (base + 4 * j) (base + 4 + 4 * j)) as [b |];
      [| discriminate].
    cbn in Hr. destruct (Uint32 b) as [w |]; [| discriminate].
    cbn in Hr.
    destruct (read_words conv nodes base (j + 1) n) as [rest |] eqn:Hrest;
      [| discriminate].
    cbn in Hr. injection Hr as <-.
    constructor; [apply HP | eapply IH; exact Hrest].
Qed.

(** X13.  Every entry of a decoded vector is a value of the binary32
    format, and such values pass through the conversions [float64(x)] and
    [float32(y)] of the metric unchanged and in the same order. *)
Theorem GetNodePtr_vector_binary32 (nodes : list byte) (size i : Z)
    (nd : Node) (v : list F32.t) :
  GetNodePtr nodes size i = Some nd → V nd = Some v →
  Forall Binary32.valid v ∧
  ∀ x, x ∈ v →
    to_f32 (to_f64 x) = x ∧
    ∀ y, y ∈ v → SFcompare (to_f64 x) (to_f64 y) = SFcompare x y.
Proof.
  intros Hg Hv.
  assert (Hval : Forall Binary32.valid v).
  { unfold GetNodePtr in Hg.
    destruct (slice nodes (size * i) (size * i + 4)) as [b |];
      [| discriminate].
    cbn [mbind option_bind] in Hg.
    destruct (Uint32 b) as [w |]; [| discriminate].
    cbn [mbind option_bind] in Hg.
    destruct ((2 <? int32 w) && _).
    - destruct (make_len _) as [n |]; [| discriminate].
      cbn [mbind option_bind] in Hg.
      destruct (read_words int32 _ _ _ _); [| discriminate].
      cbn in Hg. injection Hg as <-. discriminate Hv.
    - destruct (read_words int32 _ _ _ _); [| discriminate].
      cbn [mbind option_bind] in Hg.
      destruct (make_len _) as [n |]; [| discriminate].
      cbn [mbind option_bind] in Hg.
      destruct (read_words Float32frombits _ _ _ _) as [v' |] eqn:Hr;
        [| discriminate].
      cbn in Hg. injection Hg as <-. cbn in Hv. injection Hv as <-.
      eapply read_words_Forall; [| exact Hr].
      apply Float32frombits_valid. }
  split; [exact Hval |].
  intros x Hx. pose proof (proj1 (Forall_forall _ _) Hval x Hx) as Hxv.
  split; [apply to_f32_to_f64; exact Hxv |].
  intros y Hy. apply to_f64_compare;
    [exact Hxv | exact (proj1 (Forall_forall _ _) Hval y Hy)].
Qed.

Lemma GetNodePtr_vector_binary32_witness :
  Forall Binary32.valid [Fixture3.one] ∧
  ∀ x, x ∈ [Fixture3.one] →
    to_f32 (to_f64 x) = x ∧
    ∀ y, y ∈ [Fixture3.one] →
      SFcompare (to_f64 x) (to_f64 y) = SFcompare x y.
Proof.
  apply (GetNodePtr_vector_binary32 Decoder.two_descendants 16 0
           {| Descendants := 2; Children := [7; 9]; Norm := F32.zero;
              V := Some [Fixture3.one] |} [Fixture3.one]);
    reflexivity.
Defined.

(* ===================================================================== *)
(** * The life cycle of an index *)
(* ===================================================================== *)

Section IndexLifeCycle.
Context {D : Type} `{DistanceMetric D}.
Import Annoy Inv.

(** X14.  What [Unload] does and does not do.  It never touches the
    configuration nor the cache.  It fails only on an index with a file
    handle, either in [Unmap] or in [Close]; in both cases the mapping has
    been set to nil ([Unmap] does so even when it fails), while the handle,
    the node bytes, the roots and the counts are still those of the loaded
    file.  When it succeeds the index is unloaded, without a handle, and a
    second [Unload] succeeds and changes nothing. *)
Theorem Unload_outcome (index : AnnoyIndex D) :
  ∃ err index', Unload index = (err, index') ∧
    f index' = f index ∧ s index' = s index ∧ k index' = k index ∧
    distance index' = distance index ∧ cache index' = cache index ∧
    match err with
    | None =>
        unloaded index' ∧ fd index' = None ∧
        mmap index' = (if fd index is Some _ then None else mmap index) ∧
        Unload index' = (None, index')
    | Some e =>
        ∃ file, fd index = Some file ∧ fd index' = Some file ∧
          nodes index' = nodes index ∧ roots index' = roots index ∧
          nItems index' = nItems index ∧ nNodes index' = nNodes index ∧
          mmap index' = None ∧
          ((e = ErrorUnmapping ∧ is_Some (mmap index) ∧
            unmap_fails file = true) ∨
           (e = ErrorClosing ∧ close_fails file = true ∧
            (is_Some (mmap index) → unmap_fails file = false)))
    end.
Proof.
  unfold Unload.
  destruct (fd index) as [file |] eqn:Hfd.
  - destruct (mmap index) as [m |] eqn:Hm.
    + destruct (unmap_fails file) eqn:Hu.
      * eexists _, _. split; [reflexivity |]. cbn.
        repeat (split; [reflexivity |]).
        exists file. repeat (split; [first [assumption | reflexivity] |]).
        left. repeat split; eauto.
      * destruct (close_fails file) eqn:Hc.
        -- eexists _, _. split; [reflexivity |]. cbn.
           repeat (split; [reflexivity |]).
           exists file. repeat (split; [first [assumption | reflexivity] |]).
           right. repeat split; eauto.
        -- eexists _, _. split; [reflexivity |]. cbn.
           repeat (split; [reflexivity |]).
           split; [repeat split |]. split; [reflexivity |].
           split; reflexivity.
    + destruct (close_fails file) eqn:Hc.
      * eexists _, _. split; [reflexivity |]. cbn.
        repeat (split; [reflexivity |]).
        exists file. repeat (split; [first [assumption | reflexivity] |]).
        right. repeat split; eauto.
        intros [x Hx]. discriminate Hx.
      * eexists _, _. split; [reflexivity |]. cbn.
        repeat (split; [reflexivity |]).
        split; [repeat split |]. split; [reflexivity |].
        split; [exact Hm | reflexivity].
  - destruct (nodes index) as [b |] eqn:Hn.
    + eexists _, _. split; [reflexivity |]. cbn.
      repeat (split; [reflexivity |]).
      split; [repeat split |]. split; [reflexivity |].
      split; reflexivity.
    + eexists _, _. split; [reflexivity |]. cbn.
      repeat (split; [reflexivity |]).
      split; [repeat split |]. split; [reflexivity |].
      split; reflexivity.
Qed.

(** X15.  A [Load] that returns an error keeps what was loaded before: the
    node bytes, the roots, the counts, the cache and the configuration are
    untouched, whichever the error.  Only when the file cannot be opened
    is the index left wholly as it was; in every other case the handle
    already points to the new file, and a failed read or mapping has set
    the mapping to nil. *)
Theorem Load_failure_keeps_contents (fsys : FileSystem) (index : AnnoyIndex D)
    (filename : String.string) (memory : bool) (e : error)
    (index' : AnnoyIndex D) :
  Load fsys index filename memory = Some (Some e, index') →
  nodes index' = nodes index ∧ roots index' = roots index ∧
  nItems index' = nItems index ∧ nNodes index' = nNodes index ∧
  cache index' = cache index ∧
  f index' = f index ∧ s index' = s index ∧ k index' = k index ∧
  match fsys filename with
  | None => e = UnableToOpen ∧ index' = index
  | Some file =>
      fd index' = Some file ∧
      match e with
      | UnableToGetSize => stat_fails file = true ∧ mmap index' = mmap index
      | SizeOfFileIsZero => file_bytes file = [] ∧ mmap index' = mmap index
      | IndexSizeNotMultiple =>
          Z.rem (Z.of_nat (length (file_bytes file))) (s index) ≠ 0 ∧
          mmap index' = mmap index
      | UnableToRead =>
          memory = true ∧ read_fails file = true ∧ mmap index' = None
      | UnableToMmap =>
          memory = false ∧ map_fails file = true ∧ mmap index' = None
      | _ => False
      end
  end.
Proof.
  unfold Load. intros HL.
  destruct (fsys filename) as [file |].
  2: { injection HL as <- <-. repeat split; reflexivity. }
  destruct (stat_fails file) eqn:Hstat.
  { injection HL as <- <-. repeat split; reflexivity. }
  destruct (Z.eqb_spec (Z.of_nat (length (file_bytes file))) 0) as [Hz | Hz].
  { injection HL as <- <-. repeat split; try reflexivity.
    destruct (file_bytes file); [reflexivity | discriminate Hz]. }
  cbn [s set_fd] in HL.
  destruct (s index =? 0); [discriminate |].
  destruct (Z.eqb_spec (Z.rem (Z.of_nat (length (file_bytes file))) (s index)) 0)
    as [Hr | Hr]; cbn [negb] in HL.
  2: { injection HL as <- <-. repeat split; try reflexivity. exact Hr. }
  destruct memory.
  - destruct (read_fails file) eqn:Hread.
    + injection HL as <- <-. repeat split; reflexivity.
    + cbn zeta in HL.
      destruct (scan_roots _ _ _ _) as [[m ix] |]; [| discriminate].
      cbn [mbind option_bind] in HL.
      destruct (drop_duplicate_root ix); discriminate.
  - destruct (map_fails file) eqn:Hmap.
    + injection HL as <- <-. repeat split; reflexivity.
    + cbn zeta in HL.
      destruct (scan_roots _ _ _ _) as [[m ix] |]; [| discriminate].
      cbn [mbind option_bind] in HL.
      destruct (drop_duplicate_root ix); discriminate.
Qed.

(** X16.  [getNode] and the cache.  With a mapping the index is never
    changed.  Without one, the node handed out is stored under its index,
    no other entry is touched, and asking again hands out the same node
    and changes nothing; the configuration, the node bytes, the roots and
    the counts are never changed by a lookup. *)
Theorem getNode_caches (index index' : AnnoyIndex D) (i : Z) (nd : Node) :
  getNode index i = Some (nd, index') →
  index' = set_cache index (cache index') ∧
  (is_Some (mmap index) → index' = index) ∧
  (mmap index = None →
     cache index' !! i = Some nd ∧
     (∀ j, j ≠ i → cache index' !! j = cache index !! j) ∧
     getNode index' i = Some (nd, index')).
Proof.
  intros Hg. split; [eapply getNode_frame; exact Hg |].
  unfold getNode in Hg.
  destruct (mmap index) as [m |] eqn:Hm.
  - destruct (GetNodePtr _ _ i) as [node |]; [| discriminate].
    cbn in Hg. injection Hg as <- <-.
    split; [reflexivity |]. intros Hx. discriminate Hx.
  - split; [intros [x Hx]; discriminate Hx |]. intros _.
    destruct (cache index !! i) as [c |] eqn:Hc.
    + injection Hg as <- <-. split; [exact Hc |].
      split; [reflexivity |].
      unfold getNode. rewrite Hm, Hc. reflexivity.
    + destruct (GetNodePtr _ _ i) as [node |]; [| discriminate].
      cbn [mbind option_bind] in Hg.
      assert (Hlook : ∀ x, (cache (set_cache index (<[i := x]> (cache index)))
                            !! i = Some x) ∧
                (∀ j, j ≠ i →
                   cache (set_cache index (<[i := x]> (cache index))) !! j
                   = cache index !! j) ∧
                getNode (set_cache index (<[i := x]> (cache index))) i
                = Some (x, set_cache index (<[i := x]> (cache index)))).
      { intros x. cbn [cache set_cache].
        split; [apply lookup_insert_eq |].
        split; [intros j Hj; apply lookup_insert_ne; congruence |].
        unfold getNode. cbn [mmap set_cache cache]. rewrite Hm.
        rewrite lookup_insert_eq. reflexivity. }
      destruct (V node).
      * destruct (InitNode _ node _) as [node' |]; [| discriminate].
        cbn in Hg. injection Hg as <- <-. apply Hlook.
      * injection Hg as <- <-. apply Hlook.
Qed.

End IndexLifeCycle.

Lemma Load_failure_keeps_contents_witness :
  ∃ e index',
    Annoy.Load (Fixture.fs_of Fixture5.five_bytes)
      (Annoy.NewAnnoyIndex Angular_value 1) String.EmptyString true
    = Some (Some e, index') ∧
    Annoy.roots index' = [] ∧ Annoy.cache index' = ∅.
Proof.
  assert (HL : Annoy.Load (Fixture.fs_of Fixture5.five_bytes)
                 (Annoy.NewAnnoyIndex Angular_value 1) String.EmptyString true
               = Some (Some IndexSizeNotMultiple,
                       Annoy.set_fd (Annoy.NewAnnoyIndex Angular_value 1)
                         (Some (Fixture.file_of Fixture5.five_bytes))))
    by (vm_compute; reflexivity).
  eexists _, _. split; [exact HL |].
  pose proof (Load_failure_keeps_contents _ _ _ _ _ _ HL)
    as (_ & Hr & _ & _ & Hc & _).
  split; assumption.
Defined.

Lemma getNode_caches_witness :
  ∃ nd index',
    Annoy.getNode (Loaded.index Fixture3.twins true) 0 = Some (nd, index') ∧
    Annoy.getNode index' 0 = Some (nd, index').
Proof.
  destruct (Annoy.getNode (Loaded.index Fixture3.twins true) 0)
    as [[nd index'] |] eqn:Hg; [| vm_compute in Hg; discriminate Hg].
  exists nd, index'. split; [reflexivity |].
  destruct (getNode_caches _ _ _ _ Hg) as (_ & _ & Hres).
  apply Hres. reflexivity.
Defined.

(* ===================================================================== *)
(** * The roots after a load *)
(* ===================================================================== *)






Section LoadedRoots.
Context {D : Type} `{DistanceMetric D} `{!LawfulMetric D}.
Import Annoy Inv.


End LoadedRoots.


(* ===================================================================== *)
(** * Items and distances *)
(* ===================================================================== *)

Section Items.
Context {D : Type} `{DistanceMetric D} `{!LawfulMetric D}.
Import Annoy Inv.

(** X18.  [GetItem] on a record of the file: for a record decoded with a
    vector it returns the [f] binary32 values stored at offset 12 of the
    record, in either mode and whether or not the node was cached; for a
    bucket record ([2 < descendants <= k]), which carries no vector, it
    panics. *)
Theorem GetItem_returns_vector (index : AnnoyIndex D) (item : Z) :
  well_formed index → cache_coherent index →
  0 <= item →
  s index * (item + 1) <= Z.of_nat (length (nodes_bytes index)) →
  let bytes := nodes_bytes index in
  let d := i32_at bytes (s index * item) in
  if (2 <? d) && (d <=? k index)
  then GetItem index item = None
  else ∃ index',
         GetItem index item
         = Some (map (λ t, f32_at bytes (s index * item + 12 + 4 * t))
                   (seqZ 0 (f index)), index').
Proof.
  intros Hwf Hc Hi Hlen bytes d.
  pose proof Hwf as (Hf & Hf2 & Hs & Hk).
  destruct (getNode_in_range index item Hwf Hc Hi Hlen)
    as (nd & index' & Hg & _ & _ & _).
  destruct (getNode_decodes index index' item nd Hc Hg)
    as (_ & raw & Hraw & Hmode).
  assert (HV : V nd = V raw).
  { destruct (mmap index).
    - destruct Hmode as [-> _]. reflexivity.
    - apply cached_form_fields in Hmode. tauto. }
  rewrite Hs in Hraw, Hlen.
  rewrite (GetNodePtr_value (nodes_bytes index) (f index) item Hf Hf2 Hi Hlen)
    in Hraw.
  rewrite <- Hs in Hraw. fold bytes in Hraw. fold d in Hraw.
  rewrite Hk. unfold GetItem. rewrite Hg. cbn [mbind option_bind].
  rewrite make_len_nonneg by exact Hf. cbn [mbind option_bind].
  unfold V_all. rewrite HV.
  destruct ((2 <? d) && (d <=? f index + 2)) eqn:Hb.
  - injection Hraw as <-. cbn [V default from_option id].
    apply andb_true_iff in Hb as [Hb1 Hb2].
    apply Z.ltb_lt in Hb1. apply Z.leb_le in Hb2.
    unfold slice. cbn [length].
    destruct (Z.leb_spec (f index) (Z.of_nat 0)); [lia |].
    rewrite andb_false_r. reflexivity.
  - injection Hraw as <-. cbn [V default from_option id].
    exists index'.
    rewrite slice_prefix
      by (rewrite length_map, length_seqZ; lia).
    rewrite take_ge by (rewrite length_map, length_seqZ; lia).
    reflexivity.
Qed.

End Items.

Lemma GetItem_returns_vector_witness :
  ∃ index',
    Annoy.GetItem (Loaded.index Fixture3.triple false) 1
    = Some (map (λ t, f32_at (Annoy.nodes_bytes (Loaded.index Fixture3.triple false))
                        (Annoy.s (Loaded.index Fixture3.triple false) * 1
                         + 12 + 4 * t))
              (seqZ 0 (Annoy.f (Loaded.index Fixture3.triple false))), index').
Proof.
  destruct (Loaded_index_invariants Fixture3.triple false) as [Hwf Hc];
    [reflexivity | reflexivity | reflexivity |].
  apply (GetItem_returns_vector (Loaded.index Fixture3.triple false) 1 Hwf Hc).
  - lia.
  - vm_compute. discriminate.
Defined.

Section Distances.
Import Annoy Inv.

Lemma GetDistance_closed_form (index : AnnoyIndex Angular) (a b : Z) :
  well_formed index → cache_coherent index →
  fst <$> GetDistance index a b
  = (ra ← Pure.node_at index a;
     rb ← Pure.node_at index b;
     d ← Distance Angular_value ra rb (f index);
     Some (NormalizeDistance Angular_value d)).
Proof.
  intros Hwf Hc.
  assert (Hd : distance index = Angular_value)
    by (destruct (distance index); reflexivity).
  unfold GetDistance.
  pose proof (getNode_node_at index a Hwf Hc) as Ha.
  destruct (Pure.node_at index a) as [ra |] eqn:Hra.
  - destruct Ha as (na & c & Hga & Hca & _ & _ & Hda & _).
    rewrite Hga. cbn [mbind option_bind].
    pose proof (getNode_node_at (set_cache index c) b
                  (set_cache_well_formed index c Hwf) Hca) as Hb.
    change (Pure.node_at (set_cache index c) b)
      with (Pure.node_at index b) in Hb.
    destruct (Pure.node_at index b) as [rb |] eqn:Hrb.
    + destruct Hb as (nb & c' & Hgb & _ & _ & _ & Hdb & _).
      rewrite Hgb. cbn [mbind option_bind].
      cbn [distance f set_cache] in Hdb. rewrite Hd in Hda, Hdb |- *.
      rewrite (Hdb na).
      rewrite (Angular_Distance_comm na rb), (Hda rb).
      rewrite (Angular_Distance_comm rb ra).
      destruct (Distance Angular_value ra rb (f index)); reflexivity.
    + rewrite Hb. reflexivity.
  - rewrite Ha. reflexivity.
Qed.

(** X19.  [GetDistance] in closed form: it is the normalised angular
    distance of the two records as the file holds them, whether the nodes
    come from the mapping, are decoded into the cache by this call, or were
    cached (with their norm) before; it panics when one of the records
    cannot be decoded; and [GetDistance(i, j)] equals [GetDistance(j, i)]. *)
Theorem GetDistance_symmetric (index : AnnoyIndex Angular) (i j : Z) :
  well_formed index → cache_coherent index →
  fst <$> GetDistance index i j
  = (ri ← Pure.node_at index i;
     rj ← Pure.node_at index j;
     d ← Distance Angular_value ri rj (f index);
     Some (NormalizeDistance Angular_value d))
  ∧ fst <$> GetDistance index i j = fst <$> GetDistance index j i.
Proof.
  intros Hwf Hc.
  split; [apply GetDistance_closed_form; assumption |].
  rewrite !GetDistance_closed_form by assumption.
  destruct (Pure.node_at index i) as [ri |], (Pure.node_at index j) as [rj |];
    cbn [mbind option_bind]; try reflexivity.
  rewrite (Angular_Distance_comm ri rj). reflexivity.
Qed.

End Distances.

Lemma GetDistance_symmetric_witness :
  fst <$> Annoy.GetDistance (Loaded.index Fixture3.triple true) 0 2
  = fst <$> Annoy.GetDistance (Loaded.index Fixture3.triple true) 2 0.
Proof.
  destruct (Loaded_index_invariants Fixture3.triple true) as [Hwf Hc];
    [reflexivity | reflexivity | reflexivity |].
  apply (GetDistance_symmetric (Loaded.index Fixture3.triple true) 0 2 Hwf Hc).
Defined.

(* ===================================================================== *)
(** * Further properties of the query *)
(* ===================================================================== *)

Section QueryEdges.
Context {D : Type} `{DistanceMetric D}.
Import Annoy Inv.

Lemma fill_nnsDist_length (keys : list Z) (index index' : AnnoyIndex D)
    (vNode : Node) (acc l : list Pair) (i : nat) :
  fill_nnsDist index vNode keys acc i = Some (l, index') →
  length l = length acc.
Proof.
  revert index acc i. induction keys as [| j keys IH]; intros index acc i Hf.
  - injection Hf as <- _. reflexivity.
  - cbn [fill_nnsDist] in Hf.
    destruct (getNode index j) as [[nd ix] |]; [| discriminate].
    cbn [mbind option_bind] in Hf.
    destruct (Descendants nd =? 1).
    + destruct (getNode ix j) as [[nd' ix'] |]; [| discriminate].
      cbn [mbind option_bind] in Hf.
      destruct (Distance _ _ _ _) as [d |]; [| discriminate].
      cbn [mbind option_bind] in Hf.
      destruct (i <? length acc)%nat; [| discriminate].
      apply IH in Hf. rewrite length_insert in Hf. exact Hf.
    + apply IH in Hf. exact Hf.
Qed.

Lemma search_step_nns (v : list F32.t) (st st' : search_state D) :
  search_step v st = Some st' →
  k (st_index st') = k (st_index st) ∧
  ∃ added, st_nns st' = st_nns st ++ added ∧
    Z.of_nat (length added) <= Z.max 1 (k (st_index st)).
Proof.
  unfold search_step. intros Hs.
  destruct (PQ.heap_Pop (st_pq st)) as [[top pq] |]; [| discriminate].
  cbn [mbind option_bind] in Hs.
  destruct (getNode (st_index st) (second top)) as [[nd ix] |] eqn:Hg;
    [| discriminate].
  cbn [mbind option_bind] in Hs.
  assert (Hk : k ix = k (st_index st))
    by (rewrite (getNode_frame _ _ _ _ Hg); reflexivity).
  destruct ((Descendants nd =? 1) && (second top <? nItems ix)).
  { injection Hs as <-. cbn [st_index st_nns]. split; [exact Hk |].
    exists [second top]. split; [reflexivity |]. cbn. lia. }
  destruct (Z.leb_spec (Descendants nd) (k ix)) as [Hle |].
  - destruct (slice (Children nd) 0 (Descendants nd)) as [ch |] eqn:Hsl;
      [| discriminate].
    cbn [mbind option_bind] in Hs. injection Hs as <-.
    cbn [st_index st_nns]. split; [exact Hk |].
    exists ch. split; [reflexivity |].
    unfold slice in Hsl.
    destruct ((0 <=? 0) && (0 <=? Descendants nd)
              && (Descendants nd <=? Z.of_nat (length (Children nd))));
      [| discriminate].
    injection Hsl as <-. rewrite length_take. lia.
  - destruct (Margin _ _ _ _); [| discriminate].
    cbn [mbind option_bind] in Hs.
    destruct (Children nd !! 1%nat); [| discriminate].
    cbn [mbind option_bind] in Hs.
    destruct (PQ.heap_Push pq _); [| discriminate].
    cbn [mbind option_bind] in Hs.
    destruct (Children nd !! 0%nat); [| discriminate].
    cbn [mbind option_bind] in Hs.
    destruct (PQ.heap_Push _ _); [| discriminate].
    cbn [mbind option_bind] in Hs. injection Hs as <-.
    cbn [st_index st_nns]. split; [exact Hk |].
    exists []. split; [rewrite app_nil_r; reflexivity |]. cbn. lia.
Qed.

Lemma search_loop_budget (fuel : nat) (v : list F32.t) (searchK : Z)
    (st st' : search_state D) :
  search_loop fuel v searchK st = Returned st' →
  Z.of_nat (length (st_nns st))
  <= Z.max 0 (searchK - 1 + Z.max 1 (k (st_index st))) →
  k (st_index st') = k (st_index st) ∧
  Z.of_nat (length (st_nns st'))
  <= Z.max 0 (searchK - 1 + Z.max 1 (k (st_index st))) ∧
  (Z.of_nat (length (st_nns st')) < searchK → st_pq st' = []).
Proof.
  revert st. induction fuel as [| fuel IH]; intros st Hl Hinv;
    cbn [search_loop] in Hl.
  - destruct (search_continues searchK st) eqn:Hc; [discriminate |].
    injection Hl as <-. split; [reflexivity |]. split; [exact Hinv |].
    intros Hlt. unfold search_continues in Hc.
    apply andb_false_iff in Hc as [Hc | Hc].
    + apply Z.ltb_ge in Hc. lia.
    + apply Z.ltb_ge in Hc. unfold PQ.Len in Hc.
      destruct (st_pq st); [reflexivity | cbn in Hc; lia].
  - destruct (search_continues searchK st) eqn:Hc.
    + destruct (search_step v st) as [st1 |] eqn:Hs; [| discriminate].
      destruct (search_step_nns v st st1 Hs) as (Hk & added & Hn & Ha).
      unfold search_continues in Hc.
      apply andb_true_iff in Hc as [Hc _]. apply Z.ltb_lt in Hc.
      destruct (IH st1 Hl) as (Hk' & Hb & He).
      * rewrite Hk, Hn, length_app. lia.
      * rewrite Hk in Hk', Hb. split; [exact Hk' |].
        split; [exact Hb | exact He].
    + injection Hl as <-. split; [reflexivity |]. split; [exact Hinv |].
      intros Hlt. unfold search_continues in Hc.
      apply andb_false_iff in Hc as [Hc | Hc].
      * apply Z.ltb_ge in Hc. lia.
      * apply Z.ltb_ge in Hc. unfold PQ.Len in Hc.
        destruct (st_pq st); [reflexivity | cbn in Hc; lia].
Qed.

(** X20.  The budget of the search.  When the loop of [getAllNns] ends, it
    has collected fewer than [searchK + max(1, k)] candidates ([searchK]
    being [n * len(roots)] when given as [-1]): every turn adds one
    candidate, or the at most [k] children of a bucket, or none, and a turn
    is only taken below [searchK].  If it ends below [searchK], the
    frontier is empty: every tree was searched to its leaves. *)
Theorem search_collects_within_budget (fuel : nat) (index : AnnoyIndex D)
    (v : list F32.t) (n searchK : Z) (vNode : Node) (st : search_state D) :
  search fuel index v n searchK = Returned (vNode, st) →
  let budget := effective_searchK index n searchK in
  Z.of_nat (length (st_nns st)) <= Z.max 0 (budget - 1 + Z.max 1 (k index)) ∧
  (Z.of_nat (length (st_nns st)) < budget → st_pq st = []).
Proof.
  intros Hs budget. unfold search in Hs.
  destruct (query_node index v) as [q |]; [| discriminate].
  cbn [mbind option_bind] in Hs.
  destruct (InitNode (distance index) q (f index)) as [q' |]; [| discriminate].
  cbn [mbind option_bind] in Hs.
  destruct (PQ.heap_Init []) as [pq0 |]; [| discriminate].
  cbn [mbind option_bind] in Hs.
  destruct (push_roots pq0 (roots index)) as [pq |]; [| discriminate].
  cbn [mbind option_bind] in Hs.
  destruct (search_loop fuel v (effective_searchK index n searchK)
              (mkSearch index pq [])) as [st' | |] eqn:Hl; try discriminate.
  injection Hs as <- <-.
  destruct (search_loop_budget fuel v _ _ _ Hl) as (_ & Hb & He).
  - cbn [st_nns st_index length]. lia.
  - cbn [st_index] in Hb. split; [exact Hb | exact He].
Qed.

(** X21.  The length of the answer.  Whatever the index holds, the two
    slices [getAllNns] returns have the same length, and that length is
    [n] or the number of distinct candidates, whichever is smaller (none
    for [n <= 0]): the candidates that are no singleton leaves are counted
    too. *)
Theorem getAllNns_lengths (index : AnnoyIndex D) (v : list F32.t)
    (n searchK : Z) (result : list Z) (distances : list F32.t)
    (index' : AnnoyIndex D) :
  getAllNns index v n searchK result distances index' →
  length result = length distances ∧
  (n <= 0 → result = []) ∧
  ∃ fuel vNode st,
    search fuel index v n searchK = Returned (vNode, st) ∧
    Z.of_nat (length result)
    = Z.max 0 (Z.min n (Z.of_nat (length (remove_dups (st_nns st))))).
Proof.
  intros (fuel & vNode & st & keys & nnsDist & sorted & Hs & Hr & Hf & Hsort
          & Hres).
  pose proof (take_results_length index n sorted) as [Hl1 Hl2].
  rewrite <- Hres in Hl1, Hl2. cbn [fst snd] in Hl1, Hl2.
  split; [exact Hl1 |]. split.
  - intros Hn. destruct result; [reflexivity | cbn in Hl2; lia].
  - exists fuel, vNode, st. split; [exact Hs |].
    rewrite Hl2. destruct Hsort as [Hperm _].
    rewrite <- (Permutation_length Hperm).
    rewrite (fill_nnsDist_length _ _ _ _ _ _ _ Hf), length_replicate.
    rewrite (Permutation_length (map_range_length _ _ Hr)). reflexivity.
Qed.

Context `{!LawfulMetric D}.

(** X22.  A query that cannot search returns nothing.  On an index
    without roots (one that was never loaded, or was unloaded), and for a
    search budget that is not above zero, [getAllNns] returns two empty
    slices and leaves the index as it is, for every query vector: it
    neither panics nor reports an error. *)
Theorem getAllNns_empty_search (index : AnnoyIndex D) (v : list F32.t)
    (n searchK : Z) :
  0 <= f index →
  roots index = [] ∨ effective_searchK index n searchK <= 0 →
  ∀ result distances index',
    getAllNns index v n searchK result distances index'
    ↔ result = [] ∧ distances = [] ∧ index' = index.
Proof.
  intros Hf Hidle.
  assert (Hsearch : ∃ vNode pq, ∀ fuel,
            search fuel index v n searchK
            = Returned (vNode, mkSearch index pq [])).
  { unfold search, query_node.
    rewrite make_len_nonneg by exact Hf. cbn [mbind option_bind].
    destruct (InitNode_total (distance index)
                {| Descendants := 0; Children := []; Norm := F32.zero;
                   V := Some (take (Z.to_nat (f index)) v
                              ++ replicate (Z.to_nat (f index) - length v)
                                   F32.zero) |}
                (f index) _ eq_refl) as [q Hq].
    { rewrite length_app, length_take, length_replicate. lia. }
    rewrite Hq. cbn [mbind option_bind].
    change (PQ.heap_Init []) with (Some (@nil Pair)).
    cbn [mbind option_bind].
    destruct (push_roots_Permutation (roots index) []) as (pq & Hpq & Hperm).
    rewrite Hpq. cbn [mbind option_bind].
    exists q, pq. intros fuel.
    assert (Hstop : search_continues (effective_searchK index n searchK)
                      (mkSearch index pq []) = false).
    { unfold search_continues. cbn [st_nns st_pq length].
      destruct Hidle as [Hroots | Hk].
      - rewrite Hroots in Hperm. cbn in Hperm.
        apply Permutation_nil_r in Hperm. subst pq.
        apply andb_false_r.
      - destruct (Z.ltb_spec (Z.of_nat 0) (effective_searchK index n searchK));
          [lia | reflexivity]. }
    destruct fuel; cbn [search_loop]; rewrite Hstop; reflexivity. }
  destruct Hsearch as (q & pq & Hsearch).
  intros result distances index'. split.
  - intros (fuel & vNode & st & keys & nnsDist & sorted & Hs & Hr & Hfill
            & Hsort & Hres).
    rewrite Hsearch in Hs. injection Hs as <- <-.
    cbn [st_nns st_index] in Hr, Hfill.
    assert (keys = []).
    { destruct keys as [| j keys]; [reflexivity |].
      destruct Hr as [_ Hin].
      assert (Hj : j ∈ @nil Z) by (apply Hin; left).
      apply elem_of_nil in Hj. contradiction. }
    subst keys. cbn in Hfill. injection Hfill as <- <-.
    destruct Hsort as [Hperm _]. apply Permutation_nil_l in Hperm.
    subst sorted. unfold take_results in Hres.
    rewrite take_nil in Hres. cbn [map] in Hres. injection Hres as -> ->.
    repeat split.
  - intros (-> & -> & ->).
    exists 0%nat, q, (mkSearch index pq []), [], [], [].
    split; [apply Hsearch |].
    split; [split; [constructor | reflexivity] |].
    split; [reflexivity |].
    split; [split; [reflexivity |]; intros _ i j a b _ Ha; discriminate Ha |].
    unfold take_results. rewrite take_nil. reflexivity.
Qed.

End QueryEdges.

Lemma getAllNns_empty_search_witness :
  Annoy.getAllNns (Annoy.NewAnnoyIndex Angular_value 1) [Fixture3.one] 5 (-1)
    [] [] (Annoy.NewAnnoyIndex Angular_value 1).
Proof.
  apply (getAllNns_empty_search (Annoy.NewAnnoyIndex Angular_value 1)
           [Fixture3.one] 5 (-1)).
  - cbn. lia.
  - left. reflexivity.
  - repeat split.
Defined.

Lemma getAllNns_lengths_witness :
  length [0; 1] = length [F32.zero; F32.zero] ∧
  ∃ fuel vNode st,
    Annoy.search fuel (Loaded.index Fixture3.twins true) [Fixture3.one] 2 (-1)
    = Returned (vNode, st) ∧
    Z.of_nat (length [0; 1])
    = Z.max 0 (Z.min 2 (Z.of_nat (length (remove_dups (Annoy.st_nns st))))).
Proof.
  destruct twins_answer as [ix Hq].
  destruct (getAllNns_lengths _ _ _ _ _ _ _ Hq) as (Hl & _ & Hs).
  split; [exact Hl | exact Hs].
Defined.

Lemma search_collects_within_budget_witness :
  ∃ fuel vNode st,
    Annoy.search fuel (Loaded.index Fixture3.twins true) [Fixture3.one] 2 (-1)
    = Returned (vNode, st) ∧
    Z.of_nat (length (Annoy.st_nns st))
    <= Z.max 0 (Annoy.effective_searchK (Loaded.index Fixture3.twins true) 2 (-1)
                - 1 + Z.max 1 (Annoy.k (Loaded.index Fixture3.twins true))).
Proof.
  destruct twins_answer as (ix & fuel & vNode & st & keys & nnsDist & sorted
                            & Hs & _).
  exists fuel, vNode, st. split; [exact Hs |].
  apply (search_collects_within_budget fuel _ _ _ _ vNode st Hs).
Defined.

Section QueryAnswers.
Context {D : Type} `{DistanceMetric D} `{!LawfulMetric D}.
Import Annoy Inv.

Lemma leaf_pairs_spec (index : AnnoyIndex D) (vNode : Node) (keys : list Z)
    (pairs : list Pair) :
  Pure.leaf_pairs index vNode keys = Some pairs →
  Forall (λ p, second p ∈ keys ∧
               ∃ raw, Pure.node_at index (second p) = Some raw ∧
                 Descendants raw = 1 ∧
                 Distance (distance index) vNode raw (f index)
                 = Some (first p)) pairs ∧
  second <$> pairs `sublist_of` keys ∧
  ((length pairs < length keys)%nat →
     ∃ c raw, c ∈ keys ∧ Pure.node_at index c = Some raw ∧
              Descendants raw ≠ 1).
Proof.
  revert pairs. induction keys as [| j keys IH]; intros pairs Hp.
  - injection Hp as <-. split; [constructor |].
    split; [constructor |]. cbn. lia.
  - cbn [Pure.leaf_pairs] in Hp.
    destruct (Pure.node_at index j) as [raw |] eqn:Hraw; [| discriminate].
    cbn [mbind option_bind] in Hp.
    destruct (Z.eqb_spec (Descendants raw) 1) as [Hd | Hd].
    + destruct (Distance _ _ _ _) as [d |] eqn:Hdist; [| discriminate].
      cbn [mbind option_bind] in Hp.
      destruct (Pure.leaf_pairs index vNode keys) as [rest |];
        [| discriminate].
      cbn [mbind option_bind] in Hp. injection Hp as <-.
      destruct (IH rest eq_refl) as (Hall & Hsub & Hshort).
      split; [| split].
      * constructor.
        -- cbn [second first]. split; [left |]. eauto.
        -- eapply Forall_impl; [exact Hall |].
           intros p [Hin Hex]. split; [right; exact Hin | exact Hex].
      * cbn [fmap list_fmap second]. apply sublist_skip. exact Hsub.
      * cbn [length]. intros Hlt.
        destruct Hshort as (c & rc & Hc & Hrc & Hdc); [lia |].
        exists c, rc. split; [right; exact Hc |]. split; assumption.
    + destruct (IH pairs Hp) as (Hall & Hsub & Hshort).
      split; [| split].
      * eapply Forall_impl; [exact Hall |].
        intros p [Hin Hex]. split; [right; exact Hin | exact Hex].
      * apply sublist_cons. exact Hsub.
      * intros _. exists j, raw. split; [left |]. split; assumption.
Qed.

(** X23.  What the answer of a query holds.  Every returned index is a
    candidate the search collected, the record at that index has exactly
    one descendant, and the distance reported with it is the normalised
    metric distance between the query node and that record; the only
    other entries are the paddings, index 0 with the normalised distance of
    0, which appear only when some candidate is no singleton leaf.  When
    every candidate is a singleton leaf, no index is returned twice. *)
Theorem getAllNns_answers (index : AnnoyIndex D) (v : list F32.t)
    (n searchK : Z) (result : list Z) (distances : list F32.t)
    (index' : AnnoyIndex D) :
  well_formed index → cache_coherent index →
  getAllNns index v n searchK result distances index' →
  ∃ fuel vNode nns,
    Pure.candidates fuel index v n searchK = Returned (vNode, nns) ∧
    Forall2 (λ j d,
       (j ∈ nns ∧
        ∃ raw raw_d, Pure.node_at index j = Some raw ∧ Descendants raw = 1 ∧
          Distance (distance index) vNode raw (f index) = Some raw_d ∧
          d = NormalizeDistance (distance index) raw_d)
       ∨ (j = 0 ∧ d = NormalizeDistance (distance index) F32.zero ∧
          ∃ c raw, c ∈ nns ∧ Pure.node_at index c = Some raw ∧
                   Descendants raw ≠ 1))
      result distances ∧
    ((∀ c raw, c ∈ nns → Pure.node_at index c = Some raw →
               Descendants raw = 1) →
     NoDup result).
Proof.
  intros Hwf Hc Hq.
  assert (Hex : ∃ ix, getAllNns index v n searchK result distances ix)
    by (exists index'; exact Hq).
  apply (getAllNns_pure index v n searchK _ _ Hwf Hc) in Hex.
  destruct Hex as (fuel & vNode & nns & keys & pairs & sorted
                   & Hcand & Hr & Hp & [Hperm _] & Hres).
  exists fuel, vNode, nns. split; [exact Hcand |].
  destruct (leaf_pairs_spec index vNode keys pairs Hp)
    as (Hall & Hsub & Hshort).
  destruct Hr as [Hnd Hin].
  unfold take_results in Hres. injection Hres as -> ->.
  set (top := firstn _ sorted).
  assert (Htop : ∀ e, e ∈ top → e ∈ pairs ∨
                   (e = Pair_zero ∧ (length pairs < length keys)%nat)).
  { intros e He. subst top.
    assert (Hes : e ∈ sorted).
    { apply elem_of_take in He as (i & Hi & _).
      eapply list_elem_of_lookup_2; exact Hi. }
    rewrite <- Hperm in Hes. unfold Pure.filled in Hes.
    apply elem_of_app in Hes as [Hes | Hes]; [left; exact Hes |].
    apply elem_of_replicate in Hes as [-> Hnz]. right.
    split; [reflexivity | lia]. }
  split.
  - change (map second top) with (second <$> top).
    change (map (λ e, NormalizeDistance (distance index) (first e)) top)
      with ((λ e, NormalizeDistance (distance index) (first e)) <$> top).
    apply Forall2_fmap_2, Forall_Forall2_diag.
    apply Forall_forall. intros e He.
    destruct (Htop e He) as [Hpair | [-> Hlt]].
    + left.
      destruct (proj1 (Forall_forall _ _) Hall e Hpair)
        as (Hk & raw & Hraw & Hd & Hdist).
      split; [apply Hin; exact Hk |].
      exists raw, (first e). repeat split; assumption.
    + right. split; [reflexivity |]. split; [reflexivity |].
      destruct (Hshort Hlt) as (c & raw & Hck & Hraw & Hd).
      exists c, raw. split; [apply Hin; exact Hck |]. split; assumption.
  - intros Hleaves.
    assert (Hfull : ¬ (length pairs < length keys)%nat).
    { intros Hlt. destruct (Hshort Hlt) as (c & raw & Hck & Hraw & Hd).
      apply Hd. eapply Hleaves; [apply Hin; exact Hck | exact Hraw]. }
    assert (Hps : sorted ≡ₚ pairs).
    { rewrite <- Hperm. unfold Pure.filled.
      replace (length keys - length pairs)%nat with 0%nat by lia.
      cbn [replicate]. rewrite app_nil_r. reflexivity. }
    change (map second top) with (second <$> top).
    apply (sublist_NoDup _ (second <$> sorted)).
    + rewrite Hps. eapply sublist_NoDup; [exact Hnd | exact Hsub].
    + apply fmap_sublist. subst top. apply sublist_take.
Qed.

End QueryAnswers.

Lemma getAllNns_answers_witness :
  ∃ fuel vNode nns,
    Pure.candidates fuel (Loaded.index Fixture3.twins true) [Fixture3.one]
      2 (-1) = Returned (vNode, nns) ∧
    ((∀ c raw, c ∈ nns →
        Pure.node_at (Loaded.index Fixture3.twins true) c = Some raw →
        Descendants raw = 1) →
     NoDup [0; 1]).
Proof.
  destruct (Loaded_index_invariants Fixture3.twins true) as [Hwf Hc];
    [reflexivity | reflexivity | reflexivity |].
  destruct twins_answer as [ix Hq].
  destruct (getAllNns_answers _ _ _ _ _ _ _ Hwf Hc Hq)
    as (fuel & vNode & nns & Hcand & _ & Hnd).
  exists fuel, vNode, nns. split; [exact Hcand | exact Hnd].
Defined.

(* ===================================================================== *)
(** * The query vector, and queries by item *)
(* ===================================================================== *)

Lemma Dot_take_r (x y : list F32.t) (f : Z) :
  (Z.to_nat f <= length y)%nat →
  Dot x (take (Z.to_nat f) y) f = Dot x y f.
Proof.
  intros Hy.
  destruct (Nat.le_gt_cases (Z.to_nat f) (length x)) as [Hx | Hx].
  - rewrite (Dot_spec x y f Hx Hy).
    rewrite Dot_spec by (rewrite ?length_take; lia).
    unfold AngularSpec.dot. rewrite take_take, Nat.min_id. reflexivity.
  - transitivity (@None F32.t); [| symmetry]; apply Dot_None_iff; left; lia.
Qed.

Section QueryVector.
Import Annoy Inv.

Lemma Pure_step_take (index : AnnoyIndex Angular) (v : list F32.t)
    (st : list Pair * list Z) :
  (Z.to_nat (f index) <= length v)%nat →
  Pure.step index (take (Z.to_nat (f index)) v) st = Pure.step index v st.
Proof.
  intros Hv. unfold Pure.step.
  destruct (PQ.heap_Pop (fst st)) as [[top pq] |]; [| reflexivity].
  cbn [mbind option_bind].
  destruct (Pure.node_at index (second top)) as [nd |]; [| reflexivity].
  cbn [mbind option_bind].
  destruct ((Descendants nd =? 1) && (second top <? nItems index));
    [reflexivity |].
  destruct (Descendants nd <=? k index); [reflexivity |].
  cbn [Margin Angular_DistanceMetric]. unfold AngularImpl.Margin.
  rewrite Dot_take_r by exact Hv. reflexivity.
Qed.

Lemma Pure_loop_take (fuel : nat) (index : AnnoyIndex Angular)
    (v : list F32.t) (searchK : Z) (st : list Pair * list Z) :
  (Z.to_nat (f index) <= length v)%nat →
  Pure.loop fuel index (take (Z.to_nat (f index)) v) searchK st
  = Pure.loop fuel index v searchK st.
Proof.
  intros Hv. revert st. induction fuel as [| fuel IH]; intros st;
    cbn [Pure.loop]; [reflexivity |].
  destruct (Pure.continues searchK st); [| reflexivity].
  rewrite Pure_step_take by exact Hv.
  destruct (Pure.step index v st); [apply IH | reflexivity].
Qed.

(** X24.  Only the first [f] entries of the query vector count: a query
    with a vector of [f] entries or more has the same possible answers as
    the query with that vector cut to its first [f] entries. *)
Theorem GetNnsByVector_ignores_tail (index : AnnoyIndex Angular)
    (v : list F32.t) (n searchK : Z) (result : list Z)
    (distances : list F32.t) :
  well_formed index → cache_coherent index →
  (Z.to_nat (f index) <= length v)%nat →
  (∃ index', GetNnsByVector index v n searchK result distances index')
  ↔ (∃ index', GetNnsByVector index (take (Z.to_nat (f index)) v) n searchK
                 result distances index').
Proof.
  intros Hwf Hc Hv. unfold GetNnsByVector.
  rewrite !(getAllNns_pure index _ n searchK result distances Hwf Hc).
  assert (Hcand : ∀ fuel,
            Pure.candidates fuel index (take (Z.to_nat (f index)) v) n searchK
            = Pure.candidates fuel index v n searchK).
  { intros fuel. unfold Pure.candidates, Pure.init, query_node.
    destruct (make_len (f index)) as [m |] eqn:Hm; [| reflexivity].
    cbn [mbind option_bind].
    assert (m = Z.to_nat (f index)).
    { unfold make_len in Hm. destruct (f index <? 0); [discriminate |].
      injection Hm as <-. reflexivity. }
    subst m. rewrite take_take, Nat.min_id, length_take.
    replace (Z.to_nat (f index) - Z.to_nat (f index) `min` length v)%nat
      with (Z.to_nat (f index) - length v)%nat by lia.
    destruct (InitNode _ _ _) as [q |]; [| reflexivity].
    cbn [mbind option_bind].
    destruct (PQ.heap_Init []) as [pq0 |]; [| reflexivity].
    cbn [mbind option_bind].
    destruct (push_roots pq0 (roots index)) as [pq |]; [| reflexivity].
    cbn [mbind option_bind].
    rewrite Pure_loop_take by exact Hv. reflexivity. }
  unfold Pure.getAllNns. split.
  - intros (fuel & vNode & nns & keys & pairs & sorted & Hq & Hrest).
    exists fuel, vNode, nns, keys, pairs, sorted.
    rewrite Hcand. split; [exact Hq | exact Hrest].
  - intros (fuel & vNode & nns & keys & pairs & sorted & Hq & Hrest).
    exists fuel, vNode, nns, keys, pairs, sorted.
    rewrite <- Hcand. split; [exact Hq | exact Hrest].
Qed.

End QueryVector.

Lemma GetNnsByVector_ignores_tail_witness :
  ∃ index',
    Annoy.GetNnsByVector (Loaded.index Fixture3.twins true)
      [Fixture3.one; Fixture3.minus_one] 2 (-1) [0; 1] [F32.zero; F32.zero]
      index'.
Proof.
  destruct (Loaded_index_invariants Fixture3.twins true) as [Hwf Hc];
    [reflexivity | reflexivity | reflexivity |].
  assert (Hf : Annoy.f (Loaded.index Fixture3.twins true) = 1)
    by (vm_compute; reflexivity).
  apply (GetNnsByVector_ignores_tail (Loaded.index Fixture3.twins true)
           [Fixture3.one; Fixture3.minus_one] 2 (-1) [0; 1]
           [F32.zero; F32.zero] Hwf Hc).
  - rewrite Hf. cbn. lia.
  - rewrite Hf. destruct twins_answer as [ix Hq].
    exists ix. exact Hq.
Defined.

(* ===================================================================== *)
(** * The frontier of the search *)
(* ===================================================================== *)

Lemma to_f64_not_nan (x : F32.t) :
  FloatOrder.not_nan x → FloatOrder.not_nan (to_f64 x).
Proof.
  unfold FloatOrder.not_nan. destruct x as [s | s | | s m e]; cbn [to_f64];
    try (intros _; discriminate); [intros Hx; exact Hx |].
  intros _ Hn.
  pose proof (binary_round_sign F64.prec F64.emax s m e) as Hs.
  rewrite Hn in Hs. exact Hs.
Qed.

Lemma to_f32_not_nan (y : F64.t) :
  FloatOrder.not_nan y → FloatOrder.not_nan (to_f32 y).
Proof.
  unfold FloatOrder.not_nan. destruct y as [s | s | | s m e]; cbn [to_f32];
    try (intros _; discriminate); [intros Hx; exact Hx |].
  intros _ Hn.
  pose proof (binary_round_sign F32.prec F32.emax s m e) as Hs.
  rewrite Hn in Hs. exact Hs.
Qed.

Lemma F64_min_not_nan (x y : F64.t) :
  FloatOrder.not_nan x → FloatOrder.not_nan y →
  FloatOrder.not_nan (F64.min x y).
Proof.
  unfold FloatOrder.not_nan, F64.min. intros Hx Hy.
  destruct x as [sx | [|] | | sx mx ex], y as [sy | [|] | | sy my ey];
    try discriminate; try contradiction;
    match goal with
    | |- context [SFltb ?a ?b] => destruct (SFltb a b); discriminate
    end.
Qed.

Lemma PQDistance_not_nan (d m : F32.t) (c : Z) :
  FloatOrder.not_nan d → FloatOrder.not_nan m →
  FloatOrder.not_nan (PQDistance Angular_value d m c).
Proof.
  intros Hd Hm. cbn [PQDistance Angular_DistanceMetric].
  unfold AngularImpl.PQDistance.
  apply to_f32_not_nan, F64_min_not_nan; apply to_f64_not_nan;
    [exact Hd |].
  destruct (c =? 0); [| exact Hm].
  unfold FloatOrder.not_nan in *. destruct m; try discriminate.
  contradiction.
Qed.

Section Frontier.
Import Annoy Inv HeapOrder.

Lemma push_roots_heap (rs : list Z) (pq : list Pair) :
  is_heap pq → no_nan pq →
  ∃ pq', push_roots pq rs = Some pq' ∧ is_heap pq' ∧ no_nan pq'.
Proof.
  revert pq. induction rs as [| r rs IH]; intros pq Hh Hn.
  - exists pq. repeat split; assumption.
  - cbn [push_roots].
    destruct (PQ_heap_Push_heap pq {| first := F32.inf; second := r |} Hh Hn)
      as (pq1 & -> & Hh1 & Hn1 & _); [discriminate |].
    cbn [mbind option_bind]. apply IH; assumption.
Qed.

(** X25.  The frontier of the search is a heap.  The queue holding the
    roots is a heap without NaN, and a turn of the search loop leaves a
    heap without NaN, provided the margin it computes at a split node is no
    NaN: so the pair the next turn pops is again one that no other pair
    goes before. *)
Theorem frontier_stays_heap (index : AnnoyIndex Angular) (v : list F32.t) :
  (∃ pq, push_roots [] (roots index) = Some pq ∧ is_heap pq ∧ no_nan pq) ∧
  ∀ pq nns st',
    is_heap pq → no_nan pq →
    (∀ top pq' nd index1 m,
       PQ.heap_Pop pq = Some (top, pq') →
       getNode index (second top) = Some (nd, index1) →
       Margin Angular_value nd v (f index) = Some m →
       FloatOrder.not_nan m) →
    search_step v (mkSearch index pq nns) = Some st' →
    is_heap (st_pq st') ∧ no_nan (st_pq st').
Proof.
  split.
  { apply push_roots_heap; [| constructor].
    intros c Hc. cbn in Hc. lia. }
  intros pq nns st' Hh Hn Hmargin Hs.
  unfold search_step in Hs. cbn [st_index st_pq st_nns] in Hs.
  destruct (PQ.heap_Pop pq) as [[top pq'] |] eqn:Hpop; [| discriminate].
  assert (Hne : pq ≠ []) by (intros ->; discriminate Hpop).
  destruct (PQ_heap_Pop_heap pq Hne Hh Hn)
    as (top2 & pq2 & Hpop2 & Htop & _ & Hh' & Hn' & _).
  rewrite Hpop in Hpop2. injection Hpop2 as <- <-.
  cbn [mbind option_bind] in Hs.
  destruct (getNode index (second top)) as [[nd ix] |] eqn:Hg;
    [| discriminate].
  cbn [mbind option_bind] in Hs.
  destruct ((Descendants nd =? 1) && (second top <? nItems ix)).
  { injection Hs as <-. split; assumption. }
  destruct (Descendants nd <=? k ix).
  { destruct (slice _ _ _); [| discriminate].
    cbn in Hs. injection Hs as <-. split; assumption. }
  pose proof (getNode_frame _ _ _ _ Hg) as Hframe.
  assert (Hf : f ix = f index) by (rewrite Hframe; reflexivity).
  assert (Hd : distance ix = Angular_value)
    by (destruct (distance ix); reflexivity).
  rewrite Hf in Hs. rewrite ?Hd in Hs.
  destruct (Margin Angular_value nd v (f index)) as [m |] eqn:Hm;
    [| discriminate].
  cbn [mbind option_bind] in Hs.
  assert (Hmn : FloatOrder.not_nan m)
    by (eapply Hmargin; [reflexivity | exact Hg | exact Hm]).
  assert (Hdn : FloatOrder.not_nan (first top))
    by (eapply no_nan_lookup; [exact Hn | exact Htop]).
  destruct (Children nd !! 1%nat) as [c1 |]; [| discriminate].
  cbn [mbind option_bind] in Hs.
  destruct (PQ_heap_Push_heap pq'
              {| first := PQDistance Angular_value (first top) m 1;
                 second := c1 |} Hh' Hn')
    as (pq1 & Hp1 & Hh1 & Hn1 & _);
    [apply PQDistance_not_nan; assumption |].
  rewrite Hp1 in Hs. cbn [mbind option_bind] in Hs.
  destruct (Children nd !! 0%nat) as [c0 |]; [| discriminate].
  cbn [mbind option_bind] in Hs.
  destruct (PQ_heap_Push_heap pq1
              {| first := PQDistance Angular_value (first top) m 0;
                 second := c0 |} Hh1 Hn1)
    as (pq2 & Hp2 & Hh2 & Hn2 & _);
    [apply PQDistance_not_nan; assumption |].
  rewrite Hp2 in Hs. cbn [mbind option_bind] in Hs.
  injection Hs as <-. split; assumption.
Qed.

End Frontier.

Section ByItem.
Context {D : Type} `{DistanceMetric D} `{!LawfulMetric D}.
Import Annoy Inv QueryFrame.

(** X26.  A query by item is the query by the vector of that item: when
    [GetItem] returns a vector for the item, [GetNnsByItem] has the same
    possible answers as [GetNnsByVector] on that vector, in either mode. *)
Theorem GetNnsByItem_queries_item_vector (index : AnnoyIndex D) (item : Z)
    (n searchK : Z) (result : list Z) (distances : list F32.t)
    (vec : list F32.t) (index1 : AnnoyIndex D) :
  well_formed index → cache_coherent index →
  GetItem index item = Some (vec, index1) →
  (∃ index', GetNnsByItem index item n searchK result distances index')
  ↔ (∃ index', GetNnsByVector index vec n searchK result distances index').
Proof.
  intros Hwf Hc Hitem. unfold GetItem in Hitem.
  destruct (getNode index item) as [[m ix] |] eqn:Hg; [| discriminate].
  cbn [mbind option_bind] in Hitem.
  destruct (make_len (f index)) as [len |]; [| discriminate].
  cbn [mbind option_bind] in Hitem.
  destruct (slice (V_all m) 0 (f index)) as [vs |] eqn:Hsl; [| discriminate].
  cbn [mbind option_bind] in Hitem. injection Hitem as <- <-.
  destruct (getNode_shape index ix item m Hwf Hc Hg) as (_ & _ & Hlen).
  destruct (getNode_decodes index ix item m Hc Hg) as (Hc' & _).
  pose proof (getNode_frame index ix item m Hg) as Hframe.
  assert (Hvec : vs = V_all m).
  { unfold slice in Hsl.
    destruct ((0 <=? 0) && (0 <=? f index)
              && (f index <=? Z.of_nat (length (V_all m)))) eqn:Hb;
      [| discriminate].
    injection Hsl as <-. rewrite Z.sub_0_r. cbn [skipn Z.to_nat].
    apply andb_true_iff in Hb as [_ Hb]. apply Z.leb_le in Hb.
    unfold V_all in Hb |- *.
    destruct (V m) as [vm |] eqn:HV; cbn [default from_option id] in Hb |- *.
    - apply take_ge. rewrite (Hlen vm eq_refl). lia.
    - cbn in Hb. replace (Z.to_nat (f index)) with 0%nat by lia.
      reflexivity. }
  subst vs.
  assert (Hsame : same_file index ix)
    by (rewrite Hframe; repeat split).
  assert (Hwf' : well_formed ix) by (rewrite Hframe; exact Hwf).
  unfold GetNnsByItem, GetNnsByVector. split.
  - intros (index' & m' & ix' & Hg' & Hq).
    rewrite Hg in Hg'. injection Hg' as <- <-.
    apply (same_file_same_results index ix (V_all m) n searchK result
             distances Hwf Hc Hc' Hsame).
    exists index'. exact Hq.
  - intros Hq.
    apply (same_file_same_results index ix (V_all m) n searchK result
             distances Hwf Hc Hc' Hsame) in Hq.
    destruct Hq as [index' Hq]. exists index', m, ix.
    split; [exact Hg | exact Hq].
Qed.

End ByItem.

Lemma GetNnsByItem_queries_item_vector_witness :
  ∃ index',
    Annoy.GetNnsByItem (Loaded.index Fixture3.twins true) 0 2 (-1)
      [0; 1] [F32.zero; F32.zero] index'.
Proof.
  destruct (Loaded_index_invariants Fixture3.twins true) as [Hwf Hc];
    [reflexivity | reflexivity | reflexivity |].
  assert (Hv : fst <$> Annoy.GetItem (Loaded.index Fixture3.twins true) 0
               = Some [Fixture3.one]) by (vm_compute; reflexivity).
  destruct (Annoy.GetItem (Loaded.index Fixture3.twins true) 0)
    as [[vec index1] |] eqn:Hitem; [| discriminate Hv].
  cbn in Hv. injection Hv as ->.
  apply (GetNnsByItem_queries_item_vector (Loaded.index Fixture3.twins true)
           0 2 (-1) [0; 1] [F32.zero; F32.zero] [Fixture3.one] index1
           Hwf Hc Hitem).
  destruct twins_answer as [ix Hq]. exists ix. exact Hq.
Defined.

(* ===================================================================== *)
(** * The earlier revision of the query *)
(* ===================================================================== *)

(** The earlier decoder in closed form, on a record inside the region. *)
Lemma Old_GetNodePtr_value (nodes : list byte) (f i : Z) :
  0 <= f → 0 <= i →
  (12 + 4 * f) * (i + 1) <= Z.of_nat (length nodes) →
  let base := (12 + 4 * f) * i in
  Old.GetNodePtr nodes (12 + 4 * f) i
  = Some {| Descendants := i32_at nodes base;
            Children := map (λ t, i32_at nodes (base + 4 + 4 * t))
                          (seqZ 0 (f + 2));
            Norm := F32.zero;
            V := Some (map (λ t, f32_at nodes (base + 12 + 4 * t))
                         (seqZ 0 f)) |}.
Proof.
  intros Hf Hi Hlen base.
  assert (Hbase : 0 <= base) by (subst base; nia).
  assert (Hrec : base + (12 + 4 * f) <= Z.of_nat (length nodes))
    by (subst base; nia).
  unfold Old.GetNodePtr. fold base.
  pose proof (read_word_at nodes base Hbase ltac:(lia)) as Hw.
  destruct (slice nodes base (base + 4)) as [b |]; [| discriminate].
  cbn [mbind option_bind] in Hw |- *. rewrite Hw. cbn [mbind option_bind].
  rewrite int32_u32_at, quot_stride.
  rewrite (make_len_nonneg (f + 2)), (make_len_nonneg f) by lia.
  cbn [mbind option_bind].
  rewrite (read_words_spec int32 nodes (base + 4) (Z.to_nat (f + 2)) 0) by lia.
  cbn [mbind option_bind].
  rewrite (read_words_spec Float32frombits nodes (base + 12) (Z.to_nat f) 0)
    by lia.
  cbn [mbind option_bind]. rewrite !Z2Nat.id by lia.
  do 2 f_equal. apply map_ext. intros t. apply int32_u32_at.
Qed.

Lemma Old_GetNodePtr_outside (nodes : list byte) (f i : Z) :
  0 <= f →
  i < 0 ∨ Z.of_nat (length nodes) < (12 + 4 * f) * (i + 1) →
  Old.GetNodePtr nodes (12 + 4 * f) i = None.
Proof.
  intros Hf Hout. unfold Old.GetNodePtr.
  set (base := (12 + 4 * f) * i).
  destruct (Z.lt_ge_cases i 0) as [Hneg | Hi].
  { rewrite slice_None_lo by (subst base; nia). reflexivity. }
  destruct Hout as [Hneg | Hout]; [lia |].
  assert (Hbase : 0 <= base) by (subst base; nia).
  assert (Hend : Z.of_nat (length nodes) < base + (12 + 4 * f))
    by (subst base; nia).
  destruct (Z.le_gt_cases (base + 4) (Z.of_nat (length nodes)))
    as [Hhead | Hhead];
    [| rewrite slice_None_hi by lia; reflexivity].
  pose proof (read_word_at nodes base Hbase Hhead) as Hw.
  destruct (slice nodes base (base + 4)) as [b |]; [| reflexivity].
  cbn [mbind option_bind] in Hw |- *. rewrite Hw. cbn [mbind option_bind].
  rewrite quot_stride.
  rewrite (make_len_nonneg (f + 2)) by lia. cbn [mbind option_bind].
  rewrite (read_words_None int32 nodes (base + 4) (Z.to_nat (f + 2)) 0)
    by lia.
  reflexivity.
Qed.

Lemma GetNodePtr_outside (nodes : list byte) (f i : Z) :
  0 <= f → f + 2 < 2 ^ 31 →
  i < 0 ∨ Z.of_nat (length nodes) < (12 + 4 * f) * (i + 1) →
  GetNodePtr nodes (12 + 4 * f) i = None.
Proof.
  intros Hf Hf2 Hout. unfold GetNodePtr.
  set (base := (12 + 4 * f) * i).
  destruct (Z.lt_ge_cases i 0) as [Hneg | Hi].
  { rewrite slice_None_lo by (subst base; nia). reflexivity. }
  destruct Hout as [Hneg | Hout]; [lia |].
  assert (Hbase : 0 <= base) by (subst base; nia).
  assert (Hend : Z.of_nat (length nodes) < base + (12 + 4 * f))
    by (subst base; nia).
  destruct (Z.le_gt_cases (base + 4) (Z.of_nat (length nodes)))
    as [Hhead | Hhead];
    [| rewrite slice_None_hi by lia; reflexivity].
  pose proof (read_word_at nodes base Hbase Hhead) as Hw.
  destruct (slice nodes base (base + 4)) as [b |]; [| reflexivity].
  cbn [mbind option_bind] in Hw |- *. rewrite Hw. cbn [mbind option_bind].
  rewrite quot_stride.
  destruct ((2 <? int32 (u32_at nodes base))
            && (int32 (u32_at nodes base) <=? int32 (int32 f + 2))).
  - rewrite make_len_nonneg by lia. cbn [mbind option_bind].
    rewrite (read_words_None int32 nodes (base + 4) (Z.to_nat (f + 2)) 0)
      by lia.
    reflexivity.
  - destruct (Z.le_gt_cases (base + 12) (Z.of_nat (length nodes)))
      as [Hch | Hch].
    + rewrite (read_words_spec int32 nodes (base + 4) 2 0) by lia.
      cbn [mbind option_bind].
      rewrite make_len_nonneg by lia. cbn [mbind option_bind].
      rewrite (read_words_None Float32frombits nodes (base + 12)
                 (Z.to_nat f) 0) by lia.
      reflexivity.
    + rewrite (read_words_None int32 nodes (base + 4) 2 0) by lia.
      reflexivity.
Qed.

#[export] Instance Angular_VectorMetric : VectorMetric Angular.
Proof.
  split.
  - intros d x y y' f Hn Hv. cbn.
    unfold AngularImpl.Distance, AngularImpl.norm_or_dot, V_all.
    rewrite Hn, Hv. reflexivity.
  - intros d n n' v f _ Hv. cbn.
    unfold AngularImpl.Margin, V_all. rewrite Hv. reflexivity.
Qed.

Section OldQuery.
Context {D : Type} `{DistanceMetric D}.
Import Annoy Inv.

(** What the two decoders hand out for the same record: the same number
    of descendants; the later one either no vector and the same child
    slots (a bucket), or the same vector and the first two child slots. *)
Lemma decoders_agree (index : AnnoyIndex D) (i : Z) :
  well_formed index →
  match Old.getNode index i, Pure.node_at index i with
  | Some o, Some n =>
      Descendants o = Descendants n ∧
      Norm o = F32.zero ∧ Norm n = F32.zero ∧
      Z.of_nat (length (Children o)) = f index + 2 ∧
      (∃ v, V o = Some v ∧ Z.of_nat (length v) = f index) ∧
      (V n = None →
         Children n = Children o ∧ 2 < Descendants n <= f index + 2) ∧
      (is_Some (V n) →
         V n = V o ∧ Children n = take 2 (Children o) ∧
         ¬ (2 < Descendants n <= f index + 2))
  | None, None => True
  | _, _ => False
  end.
Proof.
  intros (Hf & Hf2 & Hs & Hk).
  unfold Old.getNode, Pure.node_at. rewrite Hs.
  set (nodes := nodes_bytes index).
  destruct (Z.lt_ge_cases i 0) as [Hneg | Hi].
  { rewrite Old_GetNodePtr_outside, GetNodePtr_outside
      by (first [lia | left; lia]).
    exact I. }
  destruct (Z.le_gt_cases ((12 + 4 * f index) * (i + 1))
              (Z.of_nat (length nodes))) as [Hin | Hout].
  - rewrite (Old_GetNodePtr_value nodes (f index) i Hf Hi Hin).
    rewrite (GetNodePtr_value nodes (f index) i Hf Hf2 Hi Hin).
    cbn zeta.
    set (d := i32_at nodes ((12 + 4 * f index) * i)).
    assert (Hlen : ∀ {A} (g : Z → A) n, 0 <= n →
              Z.of_nat (length (map g (seqZ 0 n))) = n).
    { intros A g n Hn. rewrite length_map, length_seqZ. lia. }
    destruct ((2 <? d) && (d <=? f index + 2)) eqn:Hb; cbn [Descendants Norm Children V].
    + split; [reflexivity |]. split; [reflexivity |].
      split; [reflexivity |]. split; [apply Hlen; lia |].
      split; [eexists; split; [reflexivity | apply Hlen; lia] |].
      split.
      * intros _. split; [reflexivity |].
        apply andb_true_iff in Hb as [H1 H2].
        apply Z.ltb_lt in H1. apply Z.leb_le in H2. lia.
      * intros [x Hx]. discriminate Hx.
    + split; [reflexivity |]. split; [reflexivity |].
      split; [reflexivity |]. split; [apply Hlen; lia |].
      split; [eexists; split; [reflexivity | apply Hlen; lia] |].
      split; [discriminate |].
      intros _. split; [reflexivity |]. split.
      * change (map ?g ?l) with (g <$> l). rewrite <- fmap_take.
        f_equal.
        replace (f index + 2) with (2 + f index) by lia.
        rewrite seqZ_app by lia.
        rewrite take_app_length' by reflexivity. reflexivity.
      * apply andb_false_iff in Hb as [H1 | H2];
          [apply Z.ltb_ge in H1 | apply Z.leb_gt in H2]; lia.
  - rewrite Old_GetNodePtr_outside, GetNodePtr_outside
      by (first [lia | right; lia]).
    exact I.
Qed.

Lemma Old_singleton_leaf_Pure (index : AnnoyIndex D) (j : Z) :
  well_formed index →
  Old.singleton_leaf index j
  = match Pure.node_at index j with
    | Some nd => Descendants nd =? 1
    | None => false
    end.
Proof.
  intros Hwf. unfold Old.singleton_leaf.
  pose proof (decoders_agree index j Hwf) as Ha.
  destruct (Old.getNode index j) as [o |], (Pure.node_at index j) as [n |];
    try contradiction; [| reflexivity].
  destruct Ha as (-> & _). reflexivity.
Qed.

Lemma collect_leaves_seconds (index : AnnoyIndex D) (vNode : Node)
    (l : list Z) (last : Z) (acc out : list Pair) :
  Old.collect_leaves index vNode l last acc = Some out →
  second <$> out
  = (second <$> acc)
    ++ filter (λ j, Old.singleton_leaf index j = true)
         (Old.skip_repeats l last).
Proof.
  revert last acc. induction l as [| j l IH]; intros last acc Hc.
  - cbn in Hc. injection Hc as <-. cbn. rewrite app_nil_r. reflexivity.
  - cbn [Old.collect_leaves Old.skip_repeats] in Hc |- *.
    destruct (j =? last); [apply IH; exact Hc |].
    rewrite filter_cons.
    destruct (Old.getNode index j) as [nd |] eqn:Hnode; [| discriminate].
    assert (Hleaf : Old.singleton_leaf index j = (Descendants nd =? 1)).
    { unfold Old.singleton_leaf. rewrite Hnode. reflexivity. }
    cbn [mbind option_bind] in Hc.
    destruct (Descendants nd =? 1).
    + destruct (Distance _ _ _ _) as [d |]; [| discriminate].
      cbn [mbind option_bind] in Hc.
      rewrite decide_True by exact Hleaf.
      rewrite (IH _ _ Hc), fmap_app. cbn [fmap list_fmap second].
      rewrite <- app_assoc. reflexivity.
    + rewrite decide_False by (rewrite Hleaf; discriminate).
      apply IH. exact Hc.
Qed.

Lemma ltb_transitive_ordering (l : list Z) :
  GoRuntime.transitive_ordering Z.ltb l.
Proof.
  intros a b c _ _ _. split.
  - rewrite !Z.ltb_lt. lia.
  - rewrite !Z.ltb_ge. lia.
Qed.

Lemma sorted_by_ltb_cons (j : Z) (l : list Z) :
  GoRuntime.sorted_by Z.ltb (j :: l) →
  (∀ x, x ∈ l → j <= x) ∧ GoRuntime.sorted_by Z.ltb l.
Proof.
  intros Hs. split.
  - intros x Hx. apply list_elem_of_lookup in Hx as [i Hi].
    specialize (Hs 0%nat (S i) j x ltac:(lia) eq_refl Hi).
    apply Z.ltb_ge in Hs. exact Hs.
  - intros i i' a b Hlt Ha Hb.
    apply (Hs (S i) (S i') a b); [lia | exact Ha | exact Hb].
Qed.

Lemma skip_repeats_sorted (l : list Z) (last : Z) :
  GoRuntime.sorted_by Z.ltb l → (∀ x, x ∈ l → last <= x) →
  NoDup (Old.skip_repeats l last) ∧
  ∀ x, x ∈ Old.skip_repeats l last ↔ x ∈ l ∧ x ≠ last.
Proof.
  revert last. induction l as [| j l IH]; intros last Hs Hlow.
  - split; [constructor |]. intros x. cbn. rewrite elem_of_nil. tauto.
  - apply sorted_by_ltb_cons in Hs as [Hj Hs].
    cbn [Old.skip_repeats].
    destruct (Z.eqb_spec j last) as [-> | Hne].
    + destruct (IH last Hs) as [Hnd Hin];
        [intros x Hx; apply Hlow; right; exact Hx |].
      split; [exact Hnd |]. intros x. rewrite Hin, elem_of_cons.
      intuition congruence.
    + destruct (IH j Hs Hj) as [Hnd Hin].
      assert (Hlj : last <= j) by (apply Hlow; left).
      split.
      * constructor; [| exact Hnd]. rewrite Hin. tauto.
      * intros x. rewrite !elem_of_cons, Hin. split.
        -- intros [-> | [Hx Hxj]]; [split; [left; reflexivity | exact Hne] |].
           split; [right; exact Hx |]. specialize (Hj x Hx). lia.
        -- intros [[-> | Hx] Hxl]; [left; reflexivity |].
           destruct (Z.eq_dec x j) as [-> | Hxj]; [left; reflexivity |].
           right. split; assumption.
Qed.

Lemma Old_getNode_negative (index : AnnoyIndex D) (i : Z) :
  0 < s index → i < 0 → Old.getNode index i = None.
Proof.
  intros Hs Hi. unfold Old.getNode, Old.GetNodePtr.
  rewrite slice_None_lo by nia. reflexivity.
Qed.

Lemma singleton_leaf_nonneg (index : AnnoyIndex D) (j : Z) :
  0 < s index → Old.singleton_leaf index j = true → 0 <= j.
Proof.
  intros Hs Hl. destruct (Z.lt_ge_cases j 0) as [Hneg |]; [| assumption].
  unfold Old.singleton_leaf in Hl.
  rewrite (Old_getNode_negative index j Hs Hneg) in Hl. discriminate Hl.
Qed.

(** What the loop over the sorted candidates yields: a pair for each of
    the distinct candidates that is a singleton leaf. *)
Lemma collect_leaves_sorted (index : AnnoyIndex D) (vNode : Node)
    (nns ordered : list Z) (nnsDist : list Pair) :
  0 < s index →
  GoRuntime.sort_Slice Z.ltb nns ordered →
  Old.collect_leaves index vNode ordered (-1) [] = Some nnsDist →
  let keys := Old.skip_repeats ordered (-1) in
  NoDup keys ∧
  (∀ x, x ∈ keys ↔ x ∈ nns ∧ x ≠ -1) ∧
  second <$> nnsDist
  = filter (λ j, Old.singleton_leaf index j = true) keys.
Proof.
  intros Hs [Hperm Hsorted] Hcol keys.
  specialize (Hsorted (ltb_transitive_ordering nns)).
  assert (Hlow : ∀ x, x ∈ ordered → -1 <= x).
  { destruct ordered as [| j l]; [intros x Hx; inversion Hx |].
    destruct (sorted_by_ltb_cons j l Hsorted) as [Hj _].
    assert (-1 <= j).
    { destruct (Z.le_gt_cases (-1) j) as [| Hlt]; [assumption |].
      cbn [Old.collect_leaves] in Hcol.
      destruct (Z.eqb_spec j (-1)); [lia |].
      rewrite (Old_getNode_negative index j Hs) in Hcol by lia.
      discriminate Hcol. }
    intros x Hx. apply elem_of_cons in Hx as [-> | Hx]; [assumption |].
    specialize (Hj x Hx). lia. }
  destruct (skip_repeats_sorted ordered (-1) Hsorted Hlow) as [Hnd Hin].
  split; [exact Hnd |]. split.
  - intros x. subst keys. rewrite Hin, <- Hperm. reflexivity.
  - apply (collect_leaves_seconds index vNode ordered (-1) [] nnsDist Hcol).
Qed.

(** X27.  The earlier revision of [getAllNns] pads nothing.  It sorts the
    candidates, skips the repeated ones and appends a pair for every
    singleton leaf: so the answer holds no index twice, every returned
    index is a candidate whose record has exactly one descendant, and the
    answer has [n] entries or as many as there are distinct singleton-leaf
    candidates, whichever is smaller. *)
Theorem Old_getAllNns_no_padding (index : AnnoyIndex D) (v : list F32.t)
    (n searchK : Z) (result : list Z) (distances : list F32.t) :
  0 < s index →
  Old.getAllNns index v n searchK result distances →
  ∃ fuel vNode nns,
    Old.search fuel index v n searchK = Returned (vNode, nns) ∧
    length result = length distances ∧
    NoDup result ∧
    (∀ j, j ∈ result → j ∈ nns ∧ Old.singleton_leaf index j = true) ∧
    Z.of_nat (length result)
    = Z.max 0 (Z.min n (Z.of_nat (length
        (filter (λ j, Old.singleton_leaf index j = true)
           (remove_dups nns))))).
Proof.
  intros Hs (fuel & vNode & nns & ordered & nnsDist & sorted & Hsearch
             & Hord & Hcol & [Hperm _] & Hres).
  exists fuel, vNode, nns. split; [exact Hsearch |].
  destruct (collect_leaves_sorted index vNode nns ordered nnsDist Hs Hord Hcol)
    as (Hnd & Hin & Hsec).
  set (keys := Old.skip_repeats ordered (-1)) in *.
  pose proof (take_results_length index n sorted) as [Hl1 Hl2].
  rewrite <- Hres in Hl1, Hl2. cbn [fst snd] in Hl1, Hl2.
  split; [exact Hl1 |].
  unfold take_results in Hres. injection Hres as Hresult _.
  change (map second ?l) with (second <$> l) in Hresult.
  assert (Hsub : result `sublist_of` second <$> sorted)
    by (rewrite Hresult; apply fmap_sublist, sublist_take).
  assert (Hsorted_sec : second <$> sorted
                        ≡ₚ filter (λ j, Old.singleton_leaf index j = true) keys)
    by (rewrite <- Hperm, Hsec; reflexivity).
  split; [| split].
  - eapply sublist_NoDup; [| exact Hsub].
    rewrite Hsorted_sec. apply NoDup_filter. exact Hnd.
  - intros j Hj.
    assert (Hjs : j ∈ second <$> sorted)
      by (eapply elem_of_sublist; [exact Hj | exact Hsub]).
    rewrite Hsorted_sec in Hjs.
    apply list_elem_of_filter in Hjs as [Hleaf Hk].
    split; [apply Hin in Hk; tauto | exact Hleaf].
  - rewrite Hl2. do 3 f_equal.
    rewrite <- (length_fmap second), Hsorted_sec.
    apply Permutation_length, NoDup_Permutation.
    + apply NoDup_filter. exact Hnd.
    + apply NoDup_filter, NoDup_remove_dups.
    + intros x. rewrite !list_elem_of_filter, Hin, elem_of_remove_dups.
      split; [tauto |]. intros [Hleaf Hx].
      split; [exact Hleaf |]. split; [exact Hx |].
      pose proof (singleton_leaf_nonneg index x Hs Hleaf). lia.
Qed.

End OldQuery.

Lemma insert_sorted_Permutation {A : Type} (less : A → A → bool) (x : A)
    (l : list A) :
  StableSpec.insert_sorted less x l ≡ₚ x :: l.
Proof.
  induction l as [| y l IH]; [reflexivity |].
  cbn [StableSpec.insert_sorted]. destruct (less y x); [| reflexivity].
  rewrite IH. apply perm_swap.
Qed.

Lemma stable_sort_Permutation {A : Type} (less : A → A → bool) (l : list A) :
  StableSpec.stable_sort less l ≡ₚ l.
Proof.
  induction l as [| x l IH]; [reflexivity |].
  cbn [StableSpec.stable_sort foldr].
  rewrite insert_sorted_Permutation. constructor. exact IH.
Qed.

Lemma insert_sorted_ltb (x : Z) (l : list Z) :
  StronglySorted Z.le l →
  StronglySorted Z.le (StableSpec.insert_sorted Z.ltb x l).
Proof.
  induction 1 as [| y l Hs IH Hy]; cbn [StableSpec.insert_sorted].
  - repeat constructor.
  - destruct (Z.ltb_spec y x) as [Hlt | Hge].
    + constructor; [exact IH |].
      rewrite insert_sorted_Permutation. constructor; [lia | exact Hy].
    + constructor; [constructor; assumption |].
      constructor; [exact Hge |].
      eapply Forall_impl; [exact Hy |]. intros z Hz. cbn in Hz. lia.
Qed.

Lemma StronglySorted_sorted_by (l : list Z) :
  StronglySorted Z.le l → GoRuntime.sorted_by Z.ltb l.
Proof.
  induction 1 as [| y l Hs IH Hy]; intros i j a b Hlt Ha Hb.
  - discriminate Ha.
  - destruct j as [| j]; [lia |]. cbn in Hb.
    destruct i as [| i].
    + cbn in Ha. injection Ha as <-.
      apply Z.ltb_ge.
      apply (proj1 (Forall_forall _ _) Hy b).
      eapply list_elem_of_lookup_2; exact Hb.
    + cbn in Ha. apply (IH i j a b); [lia | exact Ha | exact Hb].
Qed.

Lemma sort_Slice_ltb_exists (l : list Z) :
  ∃ ordered, GoRuntime.sort_Slice Z.ltb l ordered.
Proof.
  exists (StableSpec.stable_sort Z.ltb l). split.
  - symmetry. apply stable_sort_Permutation.
  - intros _. apply StronglySorted_sorted_by.
    induction l as [| x l IH]; [constructor |].
    cbn [StableSpec.stable_sort foldr]. apply insert_sorted_ltb, IH.
Qed.

Section Revisions.
Context {D : Type} `{DistanceMetric D} `{!LawfulMetric D} `{!VectorMetric D}.
Import Annoy Inv.

Lemma slice_take_prefix {A : Type} (l : list A) (m : nat) (d : Z) :
  d <= Z.of_nat m → (m <= length l)%nat →
  slice (take m l) 0 d = slice l 0 d.
Proof.
  intros Hd Hm.
  destruct (Z.lt_ge_cases d 0) as [Hneg | Hpos].
  - unfold slice.
    replace (0 <=? d) with false by (symmetry; apply Z.leb_gt; lia).
    reflexivity.
  - rewrite !slice_prefix by (rewrite ?length_take; lia).
    rewrite take_take. f_equal. f_equal. lia.
Qed.

Lemma Old_search_step_Pure (index : AnnoyIndex D) (v : list F32.t)
    (st : list Pair * list Z) :
  well_formed index →
  Old.search_step index v st = Pure.step index v st.
Proof.
  intros Hwf. unfold Old.search_step, Pure.step.
  destruct (PQ.heap_Pop (fst st)) as [[top pq] |]; [| reflexivity].
  cbn [mbind option_bind].
  pose proof (decoders_agree index (second top) Hwf) as Ha.
  destruct (Old.getNode index (second top)) as [o |],
           (Pure.node_at index (second top)) as [n |];
    try contradiction; [| reflexivity].
  destruct Ha as (Hd & Hno & Hnn & Hlen & _ & Hnil & Hvec).
  cbn [mbind option_bind]. rewrite Hd.
  destruct ((Descendants n =? 1) && (second top <? nItems index));
    [reflexivity |].
  destruct Hwf as (Hf & Hf2 & Hs & Hk).
  destruct (Z.leb_spec (Descendants n) (k index)) as [Hle | Hgt].
  - destruct (V n) as [vn |] eqn:HVn.
    + destruct (Hvec ltac:(eauto)) as (_ & Hch & Hnb).
      rewrite Hch, slice_take_prefix by lia. reflexivity.
    + destruct (Hnil eq_refl) as [-> _]. reflexivity.
  - destruct (V n) as [vn |] eqn:HVn; [| destruct (Hnil eq_refl); lia].
    destruct (Hvec ltac:(eauto)) as (HV & Hch & _).
    rewrite (Margin_reads_vector (distance index) o n v (f index))
      by (first [congruence | rewrite HVn; symmetry; exact HV]).
    rewrite Hch, !lookup_take_lt by lia. reflexivity.
Qed.

Lemma Old_search_loop_Pure (fuel : nat) (index : AnnoyIndex D)
    (v : list F32.t) (searchK : Z) (st : list Pair * list Z) :
  well_formed index →
  Old.search_loop fuel index v searchK st = Pure.loop fuel index v searchK st.
Proof.
  intros Hwf.
  revert st. induction fuel as [| fuel IH]; intros st; [reflexivity |].
  cbn [Old.search_loop Pure.loop].
  rewrite Old_search_step_Pure by exact Hwf.
  unfold Pure.continues, PQ.Len.
  destruct ((Z.of_nat (length (snd st)) <? searchK)
            && (0 <? Z.of_nat (length (fst st)))); [| reflexivity].
  destruct (Pure.step index v st); [apply IH | reflexivity].
Qed.

Lemma Old_search_Pure (fuel : nat) (index : AnnoyIndex D) (v : list F32.t)
    (n searchK : Z) :
  well_formed index →
  Old.search fuel index v n searchK = Pure.candidates fuel index v n searchK.
Proof.
  intros Hwf.
  unfold Old.search, Pure.candidates, Pure.init.
  destruct (query_node index v ≫= _) as [[vNode pq] |]; [| reflexivity].
  rewrite Old_search_loop_Pure by exact Hwf. reflexivity.
Qed.

Lemma collect_leaves_spec (index : AnnoyIndex D) (vNode : Node)
    (l : list Z) (last : Z) (acc : list Pair) :
  well_formed index →
  Old.collect_leaves index vNode l last acc
  = (pairs ← Pure.leaf_pairs index vNode (Old.skip_repeats l last);
     Some (acc ++ pairs)).
Proof.
  intros Hwf.
  revert last acc. induction l as [| j l IH]; intros last acc.
  - cbn. rewrite app_nil_r. reflexivity.
  - cbn [Old.collect_leaves Old.skip_repeats].
    destruct (j =? last); [apply IH |].
    cbn [Pure.leaf_pairs].
    pose proof (decoders_agree index j Hwf) as Ha.
    destruct (Old.getNode index j) as [o |],
             (Pure.node_at index j) as [n |];
      try contradiction; [| reflexivity].
    destruct Ha as (Hd & Hno & Hnn & _ & _ & Hnil & Hvec).
    cbn [mbind option_bind]. rewrite Hd.
    destruct (Z.eqb_spec (Descendants n) 1) as [H1 | H1]; [| apply IH].
    assert (HV : V o = V n).
    { destruct (V n) as [vn |] eqn:HVn;
        [| destruct (Hnil eq_refl); lia].
      destruct (Hvec ltac:(eauto)) as (HV & _). symmetry. exact HV. }
    rewrite (Distance_reads_vector (distance index) vNode o n (f index))
      by (first [congruence | exact HV]).
    destruct (Distance _ _ _ _) as [d |]; [| reflexivity].
    cbn [mbind option_bind]. rewrite IH.
    destruct (Pure.leaf_pairs index vNode (Old.skip_repeats l j)) as [rest |];
      [| reflexivity].
    cbn [mbind option_bind]. rewrite <- app_assoc. reflexivity.
Qed.

Lemma leaf_pairs_Permutation (index : AnnoyIndex D) (vNode : Node)
    (keys keys' : list Z) :
  keys ≡ₚ keys' →
  ∀ pairs, Pure.leaf_pairs index vNode keys = Some pairs →
    ∃ pairs', Pure.leaf_pairs index vNode keys' = Some pairs' ∧
              pairs ≡ₚ pairs'.
Proof.
  induction 1 as [| x l l' Hperm IH | x y l | l1 l2 l3 H12 IH12 H23 IH23];
    intros pairs Hp.
  - exists pairs. split; [exact Hp | reflexivity].
  - cbn [Pure.leaf_pairs] in Hp |- *.
    destruct (Pure.node_at index x) as [nd |]; [| discriminate].
    cbn [mbind option_bind] in Hp |- *.
    destruct (Descendants nd =? 1).
    + destruct (Distance _ _ _ _) as [d |]; [| discriminate].
      cbn [mbind option_bind] in Hp |- *.
      destruct (Pure.leaf_pairs index vNode l) as [rest |]; [| discriminate].
      cbn [mbind option_bind] in Hp. injection Hp as <-.
      destruct (IH rest eq_refl) as (rest' & -> & Hr).
      cbn [mbind option_bind]. eexists. split; [reflexivity |].
      constructor. exact Hr.
    + apply IH. exact Hp.
  - cbn [Pure.leaf_pairs] in Hp |- *.
    destruct (Pure.node_at index y) as [ny |]; [| discriminate].
    cbn [mbind option_bind] in Hp.
    destruct (Pure.node_at index x) as [nx |];
      [| destruct (Descendants ny =? 1); [| discriminate];
         destruct (Distance _ _ _ _); discriminate].
    cbn [mbind option_bind] in Hp |- *.
    destruct (Descendants ny =? 1), (Descendants nx =? 1).
    + destruct (Distance (distance index) vNode ny (f index)) as [dy |];
        [| discriminate].
      cbn [mbind option_bind] in Hp.
      destruct (Distance (distance index) vNode nx (f index)) as [dx |];
        [| discriminate].
      cbn [mbind option_bind] in Hp |- *.
      destruct (Pure.leaf_pairs index vNode l) as [rest |]; [| discriminate].
      cbn [mbind option_bind] in Hp |- *. injection Hp as <-.
      eexists. split; [reflexivity |]. apply perm_swap.
    + destruct (Distance (distance index) vNode ny (f index)) as [dy |];
        [| discriminate].
      cbn [mbind option_bind] in Hp |- *.
      destruct (Pure.leaf_pairs index vNode l) as [rest |]; [| discriminate].
      cbn [mbind option_bind] in Hp |- *. injection Hp as <-.
      eexists. split; reflexivity.
    + destruct (Distance (distance index) vNode nx (f index)) as [dx |];
        [| discriminate].
      cbn [mbind option_bind] in Hp |- *.
      destruct (Pure.leaf_pairs index vNode l) as [rest |]; [| discriminate].
      cbn [mbind option_bind] in Hp |- *. injection Hp as <-.
      eexists. split; reflexivity.
    + exists pairs. split; [exact Hp | reflexivity].
  - destruct (IH12 pairs Hp) as (p2 & Hp2 & H2).
    destruct (IH23 p2 Hp2) as (p3 & Hp3 & H3).
    exists p3. split; [exact Hp3 |]. rewrite H2. exact H3.
Qed.

Lemma transitive_ordering_Permutation {A : Type} (less : A → A → bool)
    (l l' : list A) :
  l ≡ₚ l' → GoRuntime.transitive_ordering less l →
  GoRuntime.transitive_ordering less l'.
Proof.
  intros Hp Ht a b c Ha Hb Hc.
  apply Ht; rewrite Hp; assumption.
Qed.

(** X28.  The two revisions agree on items, for a metric that reads the
    norm and the vector of a node.  When every candidate of a query is a
    singleton leaf, the earlier revision (sort the candidates, skip
    repeats, append) and the later one (collect the candidates in a map,
    fill a slice of the map's size) have exactly the same possible
    answers; they differ only in the padding of C4. *)
Theorem revisions_agree_on_leaf_candidates (index : AnnoyIndex D)
    (v : list F32.t) (n searchK : Z) (result : list Z)
    (distances : list F32.t) :
  well_formed index → cache_coherent index →
  (∀ fuel vNode nns,
     Old.search fuel index v n searchK = Returned (vNode, nns) →
     ∀ c, c ∈ nns → Old.singleton_leaf index c = true) →
  Old.getAllNns index v n searchK result distances
  ↔ ∃ index', getAllNns index v n searchK result distances index'.
Proof.
  intros Hwf Hc Hleaves.
  rewrite (getAllNns_pure index v n searchK result distances Hwf Hc).
  assert (Hs : 0 < s index) by (destruct Hwf as (? & ? & -> & _); lia).
  assert (Hfull : ∀ (vNode : Node) (nns keys : list Z) (pairs : list Pair),
            (∀ c, c ∈ nns → Old.singleton_leaf index c = true) →
            (∀ x, x ∈ keys → x ∈ nns) →
            Pure.leaf_pairs index vNode keys = Some pairs →
            Pure.filled keys pairs = pairs).
  { intros vNode nns keys pairs Hl Hin Hp.
    destruct (leaf_pairs_spec index vNode keys pairs Hp)
      as (_ & Hsub & Hshort).
    unfold Pure.filled.
    destruct (Nat.lt_ge_cases (length pairs) (length keys)) as [Hlt | Hge].
    - destruct (Hshort Hlt) as (c & raw & Hck & Hraw & Hd).
      specialize (Hl c (Hin c Hck)).
      rewrite (Old_singleton_leaf_Pure index c Hwf), Hraw in Hl.
      apply Z.eqb_eq in Hl. contradiction.
    - replace (length keys - length pairs)%nat with 0%nat by lia.
      cbn [replicate]. apply app_nil_r. }
  split.
  - intros (fuel & vNode & nns & ordered & nnsDist & sorted & Hsearch
            & Hord & Hcol & Hsort & Hres).
    pose proof (Hleaves fuel vNode nns Hsearch) as Hl.
    destruct (collect_leaves_sorted index vNode nns ordered nnsDist Hs Hord
                Hcol) as (Hnd & Hin & _).
    set (keys := Old.skip_repeats ordered (-1)) in *.
    assert (Hp : Pure.leaf_pairs index vNode keys = Some nnsDist).
    { rewrite (collect_leaves_spec index vNode ordered (-1) [] Hwf) in Hcol.
      fold keys in Hcol.
      destruct (Pure.leaf_pairs index vNode keys) as [pairs |];
        [| discriminate Hcol].
      cbn in Hcol. exact Hcol. }
    exists fuel, vNode, nns, keys, nnsDist, sorted.
    rewrite <- (Old_search_Pure fuel index v n searchK Hwf).
    split; [exact Hsearch |].
    split.
    { split; [exact Hnd |]. intros x. rewrite Hin. split; [tauto |].
      intros Hx. split; [exact Hx |].
      pose proof (singleton_leaf_nonneg index x Hs (Hl x Hx)). lia. }
    split; [exact Hp |].
    rewrite (Hfull vNode nns keys nnsDist Hl) by
      (first [intros x Hx; apply Hin in Hx; tauto | exact Hp]).
    split; [exact Hsort | exact Hres].
  - intros (fuel & vNode & nns & keys & pairs & sorted & Hcand & [Hnd Hin]
            & Hp & [Hperm Hsorted] & Hres).
    rewrite <- (Old_search_Pure fuel index v n searchK Hwf) in Hcand.
    pose proof (Hleaves fuel vNode nns Hcand) as Hl.
    rewrite (Hfull vNode nns keys pairs Hl) in Hperm, Hsorted by
      (first [intros x Hx; apply Hin; exact Hx | exact Hp]).
    destruct (sort_Slice_ltb_exists nns) as [ordered Hord].
    pose proof Hord as [Hoperm Hosorted].
    specialize (Hosorted (ltb_transitive_ordering nns)).
    assert (Hlow : ∀ x, x ∈ ordered → -1 <= x).
    { intros x Hx. rewrite <- Hoperm in Hx.
      pose proof (singleton_leaf_nonneg index x Hs (Hl x Hx)). lia. }
    destruct (skip_repeats_sorted ordered (-1) Hosorted Hlow) as [Hknd Hkin].
    assert (Hkeys : keys ≡ₚ Old.skip_repeats ordered (-1)).
    { apply NoDup_Permutation; [exact Hnd | exact Hknd |].
      intros x. rewrite Hin, Hkin, <- Hoperm. split; [| tauto].
      intros Hx. split; [exact Hx |].
      pose proof (singleton_leaf_nonneg index x Hs (Hl x Hx)). lia. }
    destruct (leaf_pairs_Permutation index vNode _ _ Hkeys pairs Hp)
      as (pairs' & Hp' & Hpp).
    exists fuel, vNode, nns, ordered, pairs', sorted.
    split; [exact Hcand |]. split; [exact Hord |].
    split; [rewrite (collect_leaves_spec index vNode ordered (-1) [] Hwf), Hp';
            reflexivity |].
    split; [| exact Hres].
    split; [rewrite <- Hpp; exact Hperm |].
    intros Ht. apply Hsorted.
    eapply transitive_ordering_Permutation; [symmetry; exact Hpp | exact Ht].
Qed.

End Revisions.

Lemma twins_old_answer :
  Old.getAllNns (Loaded.index Fixture3.twins true) [Fixture3.one] 2 (-1)
    [0; 1] [F32.zero; F32.zero].
Proof.
  eexists 1%nat, _, _, [0; 1], _, _.
  split; [vm_compute; reflexivity |].
  split; [split; [reflexivity | intros _; apply sorted_by_two; reflexivity] |].
  split; [vm_compute; reflexivity |].
  split; [split; [reflexivity | intros _; apply sorted_by_two; reflexivity] |].
  vm_compute. reflexivity.
Qed.

Lemma Old_getAllNns_no_padding_witness :
  ∃ fuel vNode nns,
    Old.search fuel (Loaded.index Fixture3.twins true) [Fixture3.one] 2 (-1)
    = Returned (vNode, nns) ∧
    length [0; 1] = length [F32.zero; F32.zero] ∧
    NoDup [0; 1].
Proof.
  destruct (Old_getAllNns_no_padding (Loaded.index Fixture3.twins true)
              [Fixture3.one] 2 (-1) [0; 1] [F32.zero; F32.zero])
    as (fuel & vNode & nns & Hs & Hl & Hnd & _).
  - vm_compute. reflexivity.
  - exact twins_old_answer.
  - exists fuel, vNode, nns. split; [exact Hs |]. split; [exact Hl | exact Hnd].
Defined.

Lemma twins_candidates_are_leaves (fuel : nat) (vNode : Node) (nns : list Z) :
  Old.search fuel (Loaded.index Fixture3.twins true) [Fixture3.one] 2 (-1)
  = Returned (vNode, nns) →
  ∀ c, c ∈ nns →
    Old.singleton_leaf (Loaded.index Fixture3.twins true) c = true.
Proof.
  intros Hs c Hc.
  destruct (Loaded_index_invariants Fixture3.twins true) as [Hwf _];
    [reflexivity | reflexivity | reflexivity |].
  rewrite (Old_search_Pure fuel _ _ _ _ Hwf) in Hs.
  assert (H1 : ∃ q, Pure.candidates 1 (Loaded.index Fixture3.twins true)
                      [Fixture3.one] 2 (-1) = Returned (q, [0; 1]))
    by (eexists; vm_compute; reflexivity).
  destruct H1 as [q H1].
  pose proof (Pure_candidates_unique _ _ _ _ _ _ _ _ Hs H1) as Heq.
  injection Heq as _ ->.
  apply elem_of_cons in Hc as [-> | Hc]; [vm_compute; reflexivity |].
  apply elem_of_cons in Hc as [-> | Hc]; [vm_compute; reflexivity |].
  inversion Hc.
Qed.

Lemma revisions_agree_on_leaf_candidates_witness :
  ∃ index',
    Annoy.getAllNns (Loaded.index Fixture3.twins true) [Fixture3.one] 2 (-1)
      [0; 1] [F32.zero; F32.zero] index'.
Proof.
  destruct (Loaded_index_invariants Fixture3.twins true) as [Hwf Hc];
    [reflexivity | reflexivity | reflexivity |].
  apply (revisions_agree_on_leaf_candidates (Loaded.index Fixture3.twins true)
           [Fixture3.one] 2 (-1) [0; 1] [F32.zero; F32.zero] Hwf Hc
           twins_candidates_are_leaves).
  exact twins_old_answer.
Defined.

(* ===================================================================== *)
(** * The earlier revision of the metric *)
(* ===================================================================== *)

Section OldDistance.
Import Annoy Inv.

Lemma Angular_Distance_reads (a : Angular) (x x' y y' : Node) (f : Z) :
  Norm x = Norm x' → V x = V x' → Norm y = Norm y' → V y = V y' →
  AngularImpl.Distance a x y f = AngularImpl.Distance a x' y' f.
Proof.
  intros Hnx Hvx Hny Hvy.
  unfold AngularImpl.Distance, AngularImpl.norm_or_dot, V_all.
  rewrite Hnx, Hvx, Hny, Hvy. reflexivity.
Qed.

Lemma Angular_Distance_total (a : Angular) (x y : Node) (vx vy : list F32.t)
    (f : Z) :
  Norm x = F32.zero → Norm y = F32.zero →
  V x = Some vx → V y = Some vy →
  Z.of_nat (length vx) = f → Z.of_nat (length vy) = f →
  is_Some (AngularImpl.Distance a x y f).
Proof.
  intros Hnx Hny Hvx Hvy Hlx Hly.
  unfold AngularImpl.Distance, AngularImpl.norm_or_dot, V_all.
  rewrite Hnx, Hny, Hvx, Hvy. cbn [default from_option id].
  rewrite F32_eqb_zero_zero.
  rewrite !Dot_spec by lia. cbn [mbind option_bind].
  destruct (F32.gtb _ _); eexists; reflexivity.
Qed.

Lemma Angular_Distance_nil_vector (a : Angular) (x y : Node) (f : Z) :
  0 < f → Norm x = F32.zero → Norm y = F32.zero →
  V x = None ∨ V y = None →
  AngularImpl.Distance a x y f = None.
Proof.
  intros Hf Hnx Hny Hnil.
  assert (Hdot : ∀ l, Dot [] l f = None ∧ Dot l [] f = None).
  { intros l. split; apply Dot_None_iff; [left | right]; cbn; lia. }
  unfold AngularImpl.Distance, AngularImpl.norm_or_dot, V_all.
  rewrite Hnx, Hny, F32_eqb_zero_zero.
  destruct Hnil as [Hv | Hv]; rewrite Hv; cbn [default from_option id].
  - rewrite (proj1 (Hdot [])). reflexivity.
  - rewrite (proj1 (Hdot [])).
    destruct (Dot (default [] (V x)) (default [] (V x)) f); reflexivity.
Qed.

(** X29.  [GetDistance] across the revisions, on an index whose cache
    agrees with the file.  [NormalizedDistance] of the earlier metric is
    [NormalizeDistance] of [Distance].  When the later decoder hands out a
    vector for both records, the earlier [GetDistance] returns what the
    later one returns.  For a bucket record (more than two descendants, at
    most [f + 2]) the later decoder hands out no vector, and for [f > 0]
    the later [GetDistance] panics where the earlier one, which reads the
    child slots as floats, returns a number.  Both panic on a record that
    does not lie in the file. *)
Theorem GetDistance_across_revisions (index : AnnoyIndex Angular) (i j : Z) :
  well_formed index → cache_coherent index →
  (∀ x y f,
     OldAngular.NormalizedDistance Angular_value x y f
     = NormalizeDistance Angular_value <$> Distance Angular_value x y f) ∧
  (∀ ri rj,
     Pure.node_at index i = Some ri → Pure.node_at index j = Some rj →
     (is_Some (V ri) → is_Some (V rj) →
        Old.GetDistance index i j = fst <$> GetDistance index i j) ∧
     (V ri = None ∨ V rj = None → 0 < f index →
        GetDistance index i j = None ∧
        is_Some (Old.GetDistance index i j))) ∧
  (Pure.node_at index i = None ∨ Pure.node_at index j = None →
     GetDistance index i j = None ∧ Old.GetDistance index i j = None).
Proof.
  intros Hwf Hc.
  assert (Hn : ∀ x y f,
            OldAngular.NormalizedDistance Angular_value x y f
            = NormalizeDistance Angular_value <$> Distance Angular_value x y f).
  { intros x y f. unfold OldAngular.NormalizedDistance.
    cbn [Distance NormalizeDistance Angular_DistanceMetric].
    destruct (AngularImpl.Distance Angular_value x y f); reflexivity. }
  assert (Hd : distance index = Angular_value)
    by (destruct (distance index); reflexivity).
  assert (Hnone : ∀ r : option (F32.t * AnnoyIndex Angular),
            fst <$> r = None → r = None)
    by (intros [r |]; [discriminate | reflexivity]).
  pose proof (GetDistance_closed_form index i j Hwf Hc) as Hlater.
  pose proof (decoders_agree index i Hwf) as Hi.
  pose proof (decoders_agree index j Hwf) as Hj.
  unfold Old.GetDistance.
  split; [exact Hn |]. split.
  - intros ri rj Hri Hrj. rewrite Hri in Hi, Hlater. rewrite Hrj in Hj, Hlater.
    cbn [mbind option_bind] in Hlater.
    destruct (Old.getNode index i) as [oi |]; [| contradiction].
    destruct (Old.getNode index j) as [oj |]; [| contradiction].
    destruct Hi as (_ & Hnoi & Hnri & _ & (vi & Hvi & Hli) & _ & Hveci).
    destruct Hj as (_ & Hnoj & Hnrj & _ & (vj & Hvj & Hlj) & _ & Hvecj).
    cbn [mbind option_bind]. rewrite Hd, Hn.
    cbn [Distance Angular_DistanceMetric] in Hlater |- *.
    split.
    + intros Hsi Hsj.
      destruct (Hveci Hsi) as (HVi & _). destruct (Hvecj Hsj) as (HVj & _).
      rewrite Hlater.
      rewrite (Angular_Distance_reads Angular_value oi ri oj rj (f index))
        by congruence.
      destruct (AngularImpl.Distance Angular_value ri rj (f index));
        reflexivity.
    + intros Hnil Hf. split.
      * apply Hnone. rewrite Hlater.
        rewrite (Angular_Distance_nil_vector Angular_value ri rj (f index))
          by assumption.
        reflexivity.
      * destruct (Angular_Distance_total Angular_value oi oj vi vj (f index)
                    Hnoi Hnoj Hvi Hvj Hli Hlj) as [d Hdist].
        rewrite Hdist. eexists. reflexivity.
  - intros Hout. split.
    + apply Hnone. rewrite Hlater.
      destruct Hout as [-> | ->]; [reflexivity |].
      destruct (Pure.node_at index i); reflexivity.
    + destruct Hout as [Ho | Ho].
      * rewrite Ho in Hi.
        destruct (Old.getNode index i); [contradiction | reflexivity].
      * rewrite Ho in Hj.
        destruct (Old.getNode index j); [contradiction |].
        destruct (Old.getNode index i); reflexivity.
Qed.

End OldDistance.

Lemma GetDistance_across_revisions_witness :
  Old.GetDistance (Loaded.index Fixture3.triple true) 0 2
  = fst <$> Annoy.GetDistance (Loaded.index Fixture3.triple true) 0 2.
Proof.
  destruct (Loaded_index_invariants Fixture3.triple true) as [Hwf Hc];
    [reflexivity | reflexivity | reflexivity |].
  destruct (GetDistance_across_revisions (Loaded.index Fixture3.triple true)
              0 2 Hwf Hc) as (_ & Hsame & _).
  assert (H0 : ∃ r, Pure.node_at (Loaded.index Fixture3.triple true) 0 = Some r
                    ∧ is_Some (V r))
    by (eexists; split; [vm_compute; reflexivity | eexists; reflexivity]).
  assert (H2 : ∃ r, Pure.node_at (Loaded.index Fixture3.triple true) 2 = Some r
                    ∧ is_Some (V r))
    by (eexists; split; [vm_compute; reflexivity | eexists; reflexivity]).
  destruct H0 as (r0 & Hr0 & Hv0). destruct H2 as (r2 & Hr2 & Hv2).
  exact (proj1 (Hsame r0 r2 Hr0 Hr2) Hv0 Hv2).
Defined.

Section OldVectors.
Local Open Scope nat_scope.

Lemma divide_from_lookup (n : nat) (v v' : list F32.t) (z : nat)
    (norm : F32.t) :
  z <= length v →
  OldAngular.divide_from v z n norm = Some v' →
  z + n <= length v ∧ length v' = length v ∧
  ∀ i, v' !! i = if (z <=? i) && (i <? z + n)
                 then (λ x, F32.div x norm) <$> v !! i else v !! i.
Proof.
  revert v z. induction n as [| n IH]; intros v z Hzl Hd.
  - injection Hd as <-. split; [lia |]. split; [reflexivity |].
    intros i. destruct (Nat.leb_spec z i), (Nat.ltb_spec i (z + 0));
      cbn; try reflexivity; lia.
  - cbn [OldAngular.divide_from] in Hd.
    destruct (v !! z) as [x |] eqn:Hx; [| discriminate].
    cbn [mbind option_bind] in Hd.
    apply lookup_lt_Some in Hx as Hz.
    apply IH in Hd as (Hlen & Hl & Hi); [| rewrite length_insert; lia].
    rewrite length_insert in Hlen, Hl.
    split; [lia |]. split; [exact Hl |].
    intros i. rewrite Hi.
    destruct (Nat.eq_dec i z) as [-> | Hne].
    + rewrite list_lookup_insert_eq by lia.
      destruct (Nat.leb_spec (S z) z); [lia |].
      destruct (Nat.leb_spec z z); [| lia].
      destruct (Nat.ltb_spec z (z + S n)); [| lia].
      cbn. rewrite Hx. reflexivity.
    + rewrite list_lookup_insert_ne by congruence.
      destruct (Nat.leb_spec (S z) i), (Nat.ltb_spec i (S z + n)),
               (Nat.leb_spec z i), (Nat.ltb_spec i (z + S n));
        cbn; try reflexivity; lia.
Qed.

Lemma divide_from_total (n : nat) (v : list F32.t) (z : nat) (norm : F32.t) :
  z + n <= length v → is_Some (OldAngular.divide_from v z n norm).
Proof.
  revert v z. induction n as [| n IH]; intros v z Hl; [eexists; reflexivity |].
  cbn [OldAngular.divide_from].
  destruct (v !! z) as [x |] eqn:Hx;
    [| apply lookup_ge_None in Hx; lia].
  cbn [mbind option_bind]. apply IH. rewrite length_insert. lia.
Qed.

Lemma update_from_lookup (n : nat) (mean mean' new : list F32.t) (z : nat)
    (norm : F32.t) (c : Z) :
  z <= length mean → z <= length new →
  OldAngular.update_from mean new z n norm c = Some mean' →
  z + n <= length mean ∧ z + n <= length new ∧
  length mean' = length mean ∧
  ∀ i, mean' !! i
       = if (z <=? i) && (i <? z + n)
         then m ← mean !! i; x ← new !! i;
              Some (F32.div (F32.add (F32.mul m (OldAngular.of_int c))
                               (F32.div x norm))
                      (OldAngular.of_int (int64 (c + 1))))
         else mean !! i.
Proof.
  revert mean z. induction n as [| n IH]; intros mean z Hzm Hzn Hd.
  - injection Hd as <-. split; [lia |]. split; [lia |].
    split; [reflexivity |].
    intros i. destruct (Nat.leb_spec z i), (Nat.ltb_spec i (z + 0));
      cbn; try reflexivity; lia.
  - cbn [OldAngular.update_from] in Hd.
    destruct (mean !! z) as [m |] eqn:Hm; [| discriminate].
    cbn [mbind option_bind] in Hd.
    destruct (new !! z) as [x |] eqn:Hx; [| discriminate].
    cbn [mbind option_bind] in Hd.
    apply lookup_lt_Some in Hm as Hzm'. apply lookup_lt_Some in Hx as Hzn'.
    apply IH in Hd as (Hlen & Hlen' & Hl & Hi);
      [| rewrite length_insert; lia | lia].
    rewrite length_insert in Hlen, Hl.
    split; [lia |]. split; [lia |]. split; [exact Hl |].
    intros i. rewrite Hi.
    destruct (Nat.eq_dec i z) as [-> | Hne].
    + rewrite list_lookup_insert_eq by lia.
      destruct (Nat.leb_spec (S z) z); [lia |].
      destruct (Nat.leb_spec z z); [| lia].
      destruct (Nat.ltb_spec z (z + S n)); [| lia].
      cbn. rewrite Hm, Hx. reflexivity.
    + rewrite list_lookup_insert_ne by congruence.
      destruct (Nat.leb_spec (S z) i), (Nat.ltb_spec i (S z + n)),
               (Nat.leb_spec z i), (Nat.ltb_spec i (z + S n));
        cbn; try reflexivity; lia.
Qed.

Lemma update_from_total (n : nat) (mean new : list F32.t) (z : nat)
    (norm : F32.t) (c : Z) :
  z + n <= length mean → z + n <= length new →
  is_Some (OldAngular.update_from mean new z n norm c).
Proof.
  revert mean z. induction n as [| n IH]; intros mean z Hm Hn;
    [eexists; reflexivity |].
  cbn [OldAngular.update_from].
  destruct (mean !! z) as [m |] eqn:Hmz;
    [| apply lookup_ge_None in Hmz; lia].
  destruct (new !! z) as [x |] eqn:Hxz;
    [| apply lookup_ge_None in Hxz; lia].
  cbn [mbind option_bind]. apply IH; [rewrite length_insert; lia | lia].
Qed.

(** X30.  The vector writers of the earlier metric ([CopyNode],
    [Normalize], [UpdateMean]) write the first [f] entries of a vector and
    nothing else.  Each keeps [Descendants], [Children], [Norm] and the
    length of the vector, and leaves the entries from [f] on as they were.
    [CopyNode] makes the first [f] entries those of the source;
    [Normalize] divides them by the norm when the norm is above zero and
    otherwise changes nothing; [UpdateMean] replaces entry [z] by
    [(mean[z]*c + new[z]/norm) / (c+1)].  Each panics exactly when a
    vector it reads has fewer than [f] entries ([CopyNode] also for a
    negative [f]). *)
Theorem OldAngular_writers_write_prefix (a : Angular) (node other : Node)
    (f c : Z) (norm : F32.t) :
  let same (node' : Node) :=
    Descendants node' = Descendants node ∧ Children node' = Children node ∧
    Norm node' = Norm node ∧
    length (V_all node') = length (V_all node) ∧
    ∀ i, Z.to_nat f <= i → V_all node' !! i = V_all node !! i in
  (∀ node', OldAngular.CopyNode a node other f = Some node' →
     same node' ∧
     ∀ i, i < Z.to_nat f → V_all node' !! i = V_all other !! i) ∧
  (∀ node', OldAngular.Normalize a node f = Some node' →
     same node' ∧
     ∃ len, OldAngular.GetNorm a node f = Some len ∧
       (F32.gtb len F32.zero = false → node' = node) ∧
       (F32.gtb len F32.zero = true →
        ∀ i, i < Z.to_nat f →
          V_all node' !! i = (λ x, F32.div x len) <$> V_all node !! i)) ∧
  (∀ node', OldAngular.UpdateMean a node other norm c f = Some node' →
     same node' ∧
     ∀ i, i < Z.to_nat f →
       V_all node' !! i
       = (m ← V_all node !! i; x ← V_all other !! i;
          Some (F32.div (F32.add (F32.mul m (OldAngular.of_int c))
                           (F32.div x norm))
                  (OldAngular.of_int (int64 (c + 1)))))) ∧
  (OldAngular.CopyNode a node other f = None
   ↔ (f < 0)%Z ∨ length (V_all node) < Z.to_nat f
     ∨ length (V_all other) < Z.to_nat f) ∧
  (OldAngular.Normalize a node f = None
   ↔ length (V_all node) < Z.to_nat f) ∧
  (OldAngular.UpdateMean a node other norm c f = None
   ↔ length (V_all node) < Z.to_nat f ∨ length (V_all other) < Z.to_nat f).
Proof.
  intros same. split; [| split; [| split; [| split; [| split]]]].
  - intros node' Hcp. unfold OldAngular.CopyNode in Hcp.
    destruct (slice (V_all node) 0 f) as [d |] eqn:Hd; [| discriminate].
    cbn [mbind option_bind] in Hcp.
    destruct (slice (V_all other) 0 f) as [src |] eqn:Hsrc; [| discriminate].
    cbn [mbind option_bind] in Hcp. injection Hcp as <-.
    unfold slice in Hd, Hsrc.
    destruct ((0 <=? 0)%Z && (0 <=? f)%Z
              && (f <=? Z.of_nat (length (V_all node)))%Z) eqn:Hb1;
      [| discriminate].
    destruct ((0 <=? 0)%Z && (0 <=? f)%Z
              && (f <=? Z.of_nat (length (V_all other)))%Z) eqn:Hb2;
      [| discriminate].
    apply andb_true_iff in Hb1 as [_ Hb1]. apply Z.leb_le in Hb1.
    apply andb_true_iff in Hb2 as [_ Hb2]. apply Z.leb_le in Hb2.
    injection Hsrc as <-. rewrite Z.sub_0_r.
    change (Z.to_nat 0%Z) with 0. rewrite drop_0.
    set (src := take (Z.to_nat f) (V_all other)).
    assert (Hlen_src : length src = Z.to_nat f)
      by (subst src; rewrite length_take; lia).
    assert (HV' : V_all {| Descendants := Descendants node;
                           Children := Children node; Norm := Norm node;
                           V := (λ v, src ++ drop (Z.to_nat f) v) <$> V node |}
                  = match V node with
                    | Some v => src ++ drop (Z.to_nat f) v
                    | None => []
                    end)
      by (unfold V_all; cbn [V]; destruct (V node); reflexivity).
    unfold same. rewrite HV'. cbn [Descendants Children Norm].
    assert (HVn : V_all node = default [] (V node)) by reflexivity.
    rewrite HVn in Hb1 |- *.
    destruct (V node) as [v |]; cbn [default from_option id] in Hb1 |- *.
    + split.
      * repeat split; try reflexivity.
        -- rewrite length_app, length_drop, Hlen_src. lia.
        -- intros i Hi. rewrite lookup_app_r by lia.
           rewrite Hlen_src, lookup_drop. f_equal. lia.
      * intros i Hi. rewrite lookup_app_l by lia.
        subst src. apply lookup_take_lt. lia.
    + split; [repeat split; reflexivity |].
      intros i Hi. cbn in Hb1. lia.
  - intros node' Hn. unfold OldAngular.Normalize in Hn.
    destruct (OldAngular.GetNorm a node f) as [len |] eqn:Hlen;
      [| discriminate].
    cbn [mbind option_bind] in Hn.
    destruct (F32.gtb len F32.zero) eqn:Hgt.
    + destruct (OldAngular.divide_from (V_all node) 0 (Z.to_nat f) len)
        as [v' |] eqn:Hdiv; [| discriminate].
      cbn [mbind option_bind] in Hn. injection Hn as <-.
      apply divide_from_lookup in Hdiv as (Hfl & Hl & Hi); [| lia].
      assert (HV' : V_all {| Descendants := Descendants node;
                             Children := Children node; Norm := Norm node;
                             V := (λ _, v') <$> V node |} = v').
      { unfold V_all in Hl |- *. cbn [V].
        destruct (V node); cbn in Hl |- *; [reflexivity |].
        destruct v'; [reflexivity | discriminate Hl]. }
      unfold same. rewrite HV'. cbn [Descendants Children Norm].
      split.
      * repeat split; try reflexivity; [exact Hl |].
        intros i Hge. rewrite Hi.
        destruct (Nat.ltb_spec i (0 + Z.to_nat f)); [lia |].
        rewrite andb_false_r. reflexivity.
      * exists len. split; [reflexivity |].
        split; [intros Hf; congruence |]. intros _ i Hlt. rewrite Hi.
        destruct (Nat.ltb_spec i (0 + Z.to_nat f)); [| lia].
        reflexivity.
    + injection Hn as <-. split; [repeat split; reflexivity |].
      exists len. split; [reflexivity |].
      split; [reflexivity | intros Hf; congruence].
  - intros node' Hu. unfold OldAngular.UpdateMean in Hu.
    destruct (OldAngular.update_from (V_all node) (V_all other) 0
                (Z.to_nat f) norm c) as [v' |] eqn:Hup; [| discriminate].
    cbn [mbind option_bind] in Hu. injection Hu as <-.
    apply update_from_lookup in Hup as (Hfl & _ & Hl & Hi); [| lia | lia].
    assert (HV' : V_all {| Descendants := Descendants node;
                           Children := Children node; Norm := Norm node;
                           V := (λ _, v') <$> V node |} = v').
    { unfold V_all in Hl |- *. cbn [V].
      destruct (V node); cbn in Hl |- *; [reflexivity |].
      destruct v'; [reflexivity | discriminate Hl]. }
    unfold same. rewrite HV'. cbn [Descendants Children Norm].
    split.
    + repeat split; try reflexivity; [exact Hl |].
      intros i Hge. rewrite Hi.
      destruct (Nat.ltb_spec i (0 + Z.to_nat f)); [lia |].
      rewrite andb_false_r. reflexivity.
    + intros i Hlt. rewrite Hi.
      destruct (Nat.ltb_spec i (0 + Z.to_nat f)); [| lia].
      reflexivity.
  - unfold OldAngular.CopyNode, slice.
    destruct (Z.leb_spec 0 f) as [Hf | Hf]; cbn [andb].
    + destruct (Z.leb_spec f (Z.of_nat (length (V_all node)))) as [Hn | Hn];
        cbn [mbind option_bind].
      * destruct (Z.leb_spec f (Z.of_nat (length (V_all other)))) as [Ho | Ho];
          cbn [mbind option_bind].
        -- split; [discriminate | lia].
        -- split; [intros _; right; right; lia | reflexivity].
      * split; [intros _; right; left; lia | reflexivity].
    + split; [intros _; left; exact Hf | reflexivity].
  - unfold OldAngular.Normalize, OldAngular.GetNorm.
    pose proof (Dot_None_iff (V_all node) (V_all node) f) as Hiff.
    destruct (Dot (V_all node) (V_all node) f) as [d |];
      cbn [mbind option_bind].
    + assert (Hlen : Z.to_nat f <= length (V_all node)).
      { destruct (Nat.le_gt_cases (Z.to_nat f) (length (V_all node)))
          as [| Hlt]; [assumption |].
        assert (Some d = None) by (apply Hiff; left; exact Hlt).
        discriminate. }
      destruct (F32.gtb _ F32.zero).
      * destruct (divide_from_total (Z.to_nat f) (V_all node) 0
                    (to_f32 (F64.sqrt (to_f64 d))) ltac:(lia)) as [v' ->].
        cbn [mbind option_bind]. split; [discriminate | lia].
      * split; [discriminate | lia].
    + split; [intros _ | reflexivity].
      destruct (proj1 Hiff eq_refl); assumption.
  - unfold OldAngular.UpdateMean.
    destruct (OldAngular.update_from (V_all node) (V_all other) 0
                (Z.to_nat f) norm c) as [v' |] eqn:Hup;
      cbn [mbind option_bind].
    + apply update_from_lookup in Hup as (H1 & H2 & _); [| lia | lia].
      split; [discriminate | lia].
    + split; [intros _ | reflexivity].
      destruct (Nat.le_gt_cases (Z.to_nat f) (length (V_all node)))
        as [Hn |]; [| left; assumption].
      destruct (Nat.le_gt_cases (Z.to_nat f) (length (V_all other)))
        as [Ho |]; [| right; assumption].
      destruct (update_from_total (Z.to_nat f) (V_all node) (V_all other) 0
                  norm c ltac:(lia) ltac:(lia)) as [v' Hv].
      rewrite Hv in Hup. discriminate Hup.
Qed.

End OldVectors.
